(** * symfit: models, dependency resolution, evaluation, derivatives, ODEs

    A shallow embedding of [symfit/core/fit.py].  Python objects are
    modelled as follows.

    - A sympy expression is a tree of type [expr].  Symbols are the
      [Var] (symfit [Variable]), [Par] (symfit [Parameter]) and
      [Derivative] nodes; [Func] is an applied undefined function
      (a [sympy.Function] applied to arguments).
    - A Python [dict] / [OrderedDict] is an association list in
      iteration order; a Python [set] is a duplicate-free list.
    - Exceptions are values of type [exn]; a computation that may raise
      returns a [result].
    - Numbers are exact integers; a numpy value is a scalar or a
      one-dimensional array of them, with numpy's broadcasting rule. *)

From Stdlib Require Import String Ascii ZArith Bool Arith Lia List.
From Stdlib Require Import Permutation Sorted ListDec Relations OrdersEx.
Import ListNotations.
Local Open Scope string_scope.
Local Open Scope list_scope.

Set Implicit Arguments.

(* ================================================================= *)
(** ** Exceptions and results *)

Inductive exn : Type :=
| ModelError               (* fit.py: class ModelError *)
| CircularDependencyError  (* toposort: no valid order exists *)
| TypeError                (* inspect.Signature.bind: arguments do not match *)
| KeyError
| IndexError
| AttributeError
| ValueError
| NameError.

Inductive result (A : Type) : Type :=
| Ok (a : A)
| Raise (e : exn).

Arguments Ok {A} a.
Arguments Raise {A} e.

Definition bind {A B} (r : result A) (k : A -> result B) : result B :=
  match r with
  | Ok a => k a
  | Raise e => Raise e
  end.

Notation "x <- r ;; k" := (bind r (fun x => k))
  (at level 61, r at next level, right associativity).

Fixpoint mapM {A B} (f : A -> result B) (l : list A) : result (list B) :=
  match l with
  | [] => Ok []
  | x :: l' => y <- f x ;; ys <- mapM f l' ;; Ok (y :: ys)
  end.

(* ================================================================= *)
(** ** Expressions *)

Unset Elimination Schemes.
Inductive expr : Type :=
| Num (n : Z)
| Var (name : string)
| Par (name : string)
| Add (a b : expr)
| Mul (a b : expr)
| Pow (a : expr) (n : nat)
| Func (f : string) (args : list expr)
| Derivative (e : expr) (variables : list expr).
Set Elimination Schemes.

Section ExprInd.
Variable P : expr -> Prop.
Hypothesis HNum : forall n, P (Num n).
Hypothesis HVar : forall s, P (Var s).
Hypothesis HPar : forall s, P (Par s).
Hypothesis HAdd : forall a b, P a -> P b -> P (Add a b).
Hypothesis HMul : forall a b, P a -> P b -> P (Mul a b).
Hypothesis HPow : forall a n, P a -> P (Pow a n).
Hypothesis HFunc : forall f args, Forall P args -> P (Func f args).
Hypothesis HDer : forall e vs, P e -> Forall P vs -> P (Derivative e vs).

Fixpoint expr_ind' (e : expr) : P e :=
  let fix all (l : list expr) : Forall P l :=
    match l with
    | [] => Forall_nil P
    | x :: l' => Forall_cons x (expr_ind' x) (all l')
    end in
  match e with
  | Num n => HNum n
  | Var s => HVar s
  | Par s => HPar s
  | Add a b => HAdd (expr_ind' a) (expr_ind' b)
  | Mul a b => HMul (expr_ind' a) (expr_ind' b)
  | Pow a n => HPow n (expr_ind' a)
  | Func f args => HFunc f (all args)
  | Derivative e' vs => HDer (expr_ind' e') (all vs)
  end.
End ExprInd.

(** A total order on expression trees; [expr_eqb] is sympy's structural
    [==] on them. *)

Definition lex (c1 c2 : comparison) : comparison :=
  match c1 with Eq => c2 | _ => c1 end.

Definition tag (e : expr) : nat :=
  match e with
  | Num _ => 0 | Var _ => 1 | Par _ => 2 | Add _ _ => 3
  | Mul _ _ => 4 | Pow _ _ => 5 | Func _ _ => 6 | Derivative _ _ => 7
  end.

Fixpoint expr_compare (x y : expr) {struct x} : comparison :=
  let fix cmpl (l1 l2 : list expr) {struct l1} : comparison :=
    match l1, l2 with
    | [], [] => Eq
    | [], _ :: _ => Lt
    | _ :: _, [] => Gt
    | a :: l1', b :: l2' => lex (expr_compare a b) (cmpl l1' l2')
    end in
  match x, y with
  | Num n, Num m => Z.compare n m
  | Var s, Var t => String.compare s t
  | Par s, Par t => String.compare s t
  | Add a b, Add c d => lex (expr_compare a c) (expr_compare b d)
  | Mul a b, Mul c d => lex (expr_compare a c) (expr_compare b d)
  | Pow a n, Pow c m => lex (expr_compare a c) (Nat.compare n m)
  | Func f l1, Func g l2 => lex (String.compare f g) (cmpl l1 l2)
  | Derivative a l1, Derivative c l2 => lex (expr_compare a c) (cmpl l1 l2)
  | _, _ => Nat.compare (tag x) (tag y)
  end.

Definition expr_eqb (x y : expr) : bool :=
  match expr_compare x y with Eq => true | _ => false end.

Fixpoint list_compare (l1 l2 : list expr) : comparison :=
  match l1, l2 with
  | [], [] => Eq
  | [], _ :: _ => Lt
  | _ :: _, [] => Gt
  | a :: l1', b :: l2' => lex (expr_compare a b) (list_compare l1' l2')
  end.

(* ================================================================= *)
(** ** Python containers *)

(** [x in l] for a list or set of symbols. *)
Definition mem (x : expr) (l : list expr) : bool := existsb (expr_eqb x) l.

(** [set(l)]: a duplicate-free list. *)
Fixpoint set_of (l : list expr) : list expr :=
  match l with
  | [] => []
  | x :: l' => if mem x l' then set_of l' else x :: set_of l'
  end.

(** [a - b] on sets. *)
Definition set_diff (a b : list expr) : list expr :=
  filter (fun x => negb (mem x b)) a.

(** [d.get(k)] on a dict keyed by expressions. *)
Fixpoint lookup {V} (k : expr) (d : list (expr * V)) : option V :=
  match d with
  | [] => None
  | (k', v) :: d' => if expr_eqb k k' then Some v else lookup k d'
  end.

(** [d[k] = v] on a dict keyed by expressions. *)
Fixpoint dict_set {V} (k : expr) (v : V) (d : list (expr * V)) : list (expr * V) :=
  match d with
  | [] => [(k, v)]
  | (k', v') :: d' =>
      if expr_eqb k k' then (k', v) :: d' else (k', v') :: dict_set k v d'
  end.

(** [d.get(k)] and [d[k] = v] on a dict keyed by names (keyword arguments). *)
Fixpoint get {V} (k : string) (d : list (string * V)) : option V :=
  match d with
  | [] => None
  | (k', v) :: d' => if String.eqb k k' then Some v else get k d'
  end.

Fixpoint put {V} (k : string) (v : V) (d : list (string * V)) : list (string * V) :=
  match d with
  | [] => [(k, v)]
  | (k', v') :: d' =>
      if String.eqb k k' then (k', v) :: d' else (k', v') :: put k v d'
  end.

Definition has_key {V} (k : string) (d : list (string * V)) : bool :=
  match get k d with Some _ => true | None => false end.

(** [sorted(l, key=key)]: Python's sort is stable. *)
Section Sorted.
Variables (A K : Type) (leb : K -> K -> bool) (key : A -> K).

Fixpoint insert_sorted (x : A) (l : list A) : list A :=
  match l with
  | [] => [x]
  | y :: l' => if leb (key x) (key y) then x :: y :: l' else y :: insert_sorted x l'
  end.

Fixpoint sorted (l : list A) : list A :=
  match l with
  | [] => []
  | x :: l' => insert_sorted x (sorted l')
  end.
End Sorted.

(** Comparison of the two-element list keys used by the sorts of fit.py:
    Python compares them lexicographically, with [False < True]. *)
Definition key_bool_nat_leb (k1 k2 : bool * nat) : bool :=
  match fst k1, fst k2 with
  | false, true => true
  | true, false => false
  | _, _ => Nat.leb (snd k1) (snd k2)
  end.

Definition key_bool_str_leb (k1 k2 : bool * string) : bool :=
  match fst k1, fst k2 with
  | false, true => true
  | true, false => false
  | _, _ => String.leb (snd k1) (snd k2)
  end.

(* ================================================================= *)
(** ** Printing and names of symbols *)

Fixpoint digits (fuel n : nat) (acc : string) : string :=
  match fuel with
  | 0 => acc
  | S fuel' =>
      let acc' := String (ascii_of_nat (48 + n mod 10)) acc in
      if Nat.eqb (n / 10) 0 then acc' else digits fuel' (n / 10) acc'
  end.

Definition string_of_nat (n : nat) : string := digits (S n) n "".

Definition string_of_Z (z : Z) : string :=
  match z with
  | Z0 => "0"
  | Zpos p => string_of_nat (Pos.to_nat p)
  | Zneg p => ("-" ++ string_of_nat (Pos.to_nat p))%string
  end.

(** [str(e)].  Symbols, applied functions and derivatives print as sympy
    prints them; these are the only nodes fit.py ever prints to sort by.
    (sympy reorders the terms of sums and products when printing, which
    the [Add], [Mul] and [Pow] cases do not reproduce.) *)
Fixpoint sstr (e : expr) : string :=
  let fix commas (l : list expr) : string :=
    match l with
    | [] => ""
    | x :: l' =>
        match l' with
        | [] => sstr x
        | _ :: _ => (sstr x ++ ", " ++ commas l')%string
        end
    end in
  match e with
  | Num n => string_of_Z n
  | Var s => s
  | Par s => s
  | Add a b => (sstr a ++ " + " ++ sstr b)%string
  | Mul a b => (sstr a ++ "*" ++ sstr b)%string
  | Pow a n => (sstr a ++ "**" ++ string_of_nat n)%string
  | Func f args => (f ++ "(" ++ commas args ++ ")")%string
  | Derivative e' vs => ("Derivative(" ++ sstr e' ++ ", " ++ commas vs ++ ")")%string
  end.

Definition is_Parameter (s : expr) : bool :=
  match s with Par _ => true | _ => false end.

Definition is_Variable (s : expr) : bool :=
  match s with Var _ => true | _ => false end.

Definition is_Derivative (s : expr) : bool :=
  match s with Derivative _ _ => true | _ => false end.

(** [s.derivative_count]: the total number of differentiations. *)
Definition derivative_count (s : expr) : nat :=
  match s with Derivative _ vs => length vs | _ => 0 end.

(** [s.variable_count]: consecutive equal variables grouped with their
    multiplicity. *)
Fixpoint variable_count (vs : list expr) : list (expr * nat) :=
  match vs with
  | [] => []
  | v :: vs' =>
      match variable_count vs' with
      | (w, c) :: rest => if expr_eqb v w then (w, S c) :: rest else (v, 1) :: (w, c) :: rest
      | [] => [(v, 1)]
      end
  end.

Definition count_suffix (c : nat) : string :=
  if Nat.ltb 1 c then string_of_nat c else "".

(** Modelled from the spec: the [name] of a symbol.  [Variable] and
    [Parameter] (argument.py) and the name that support.py gives to a
    derivative marker are not among the sources at hand.  The spec makes
    every symbol a "named identity" and has derivative markers go
    through the same sorting, signature and keyword machinery as other
    symbols, so a marker needs a name of its own; it is spelt here
    [d<expr>_d<var>], with the orders written out when above one. *)
Definition name (s : expr) : string :=
  match s with
  | Var n => n
  | Par n => n
  | Derivative e vs =>
      ("d" ++ count_suffix (length vs) ++ sstr e ++ "_" ++
       String.concat ""
         (map (fun vc => "d" ++ sstr (fst vc) ++ count_suffix (snd vc))
              (variable_count vs)))%string
  | _ => sstr s
  end.

Definition sort_by_name (l : list expr) : list expr :=
  sorted String.leb name l.

(* ================================================================= *)
(** ** Free symbols and the connectivity mapping *)

Definition union (a b : list expr) : list expr := set_of (a ++ b).

(** [e.free_symbols] *)
Fixpoint free_symbols (e : expr) : list expr :=
  match e with
  | Num _ => []
  | Var _ => [e]
  | Par _ => [e]
  | Add a b => union (free_symbols a) (free_symbols b)
  | Mul a b => union (free_symbols a) (free_symbols b)
  | Pow a _ => free_symbols a
  | Func _ args => set_of (flat_map free_symbols args)
  | Derivative e' vs => union (free_symbols e') (flat_map free_symbols vs)
  end.

(** [e.atoms(sympy.Derivative)] *)
Fixpoint derivative_atoms (e : expr) : list expr :=
  match e with
  | Num _ => []
  | Var _ => []
  | Par _ => []
  | Add a b => union (derivative_atoms a) (derivative_atoms b)
  | Mul a b => union (derivative_atoms a) (derivative_atoms b)
  | Pow a _ => derivative_atoms a
  | Func _ args => set_of (flat_map derivative_atoms args)
  | Derivative e' vs =>
      union [e] (union (derivative_atoms e') (flat_map derivative_atoms vs))
  end.

Definition is_marker_over (vars : list expr) (d : expr) : bool :=
  match d with
  | Derivative e vs => mem e vars && forallb is_Parameter vs
  | _ => false
  end.

(** Modelled from the spec: [seperate_symbols] of support.py, which is
    not among the sources at hand.  It "extracts free Variables and
    Parameters per Expression": the pair (variables, parameters), each
    sorted by name.  A derivative marker of a variable with respect to
    parameters counts as a variable, which is what lets a DerivativeModel
    go through the same machinery. *)
Definition seperate_symbols (e : expr) : list expr * list expr :=
  let free := free_symbols e in
  let params := filter is_Parameter free in
  let vars := filter (fun s => negb (is_Parameter s)) free in
  let vars := fold_left (fun vars der =>
                           if is_marker_over vars der then vars ++ [der] else vars)
                        (derivative_atoms e) vars in
  (sort_by_name vars, sort_by_name params).

(** [set(vars + params)] for the symbols of an expression. *)
Definition dependencies_of (e : expr) : list expr :=
  let (vars, params) := seperate_symbols e in set_of (vars ++ params).

(** [BaseModel.connectivity_mapping] *)
Definition connectivity_mapping (model_dict : list (expr * expr))
  : list (expr * list expr) :=
  map (fun ve => (fst ve, dependencies_of (snd ve))) model_dict.

(* ================================================================= *)
(** ** toposort *)

Definition keys {V} (d : list (expr * V)) : list expr := map fst d.

(** [v.discard(k)] for every item: self dependencies are ignored. *)
Definition discard_self (data : list (expr * list expr)) : list (expr * list expr) :=
  map (fun kv => (fst kv, set_diff (snd kv) [fst kv])) data.

(** The items that occur as a dependency but are not a key. *)
Definition extra_items_in_deps (data : list (expr * list expr)) : list expr :=
  set_diff (set_of (flat_map snd data)) (keys data).

(** [data.update({item: set() for item in extra_items_in_deps})] *)
Definition add_extra_items (data : list (expr * list expr)) : list (expr * list expr) :=
  data ++ map (fun item => (item, [])) (extra_items_in_deps data).

Definition no_dependencies (data : list (expr * list expr)) : list expr :=
  keys (filter (fun kv => match snd kv with [] => true | _ => false end) data).

Definition remove_ordered (ordered : list expr) (data : list (expr * list expr))
  : list (expr * list expr) :=
  map (fun kv => (fst kv, set_diff (snd kv) ordered))
      (filter (fun kv => negb (mem (fst kv) ordered)) data).

(** The [while True] loop of toposort.  Every turn that does not leave
    the loop removes at least one item from [data], so [length data]
    turns are enough ([toposort_loop_unfold] below); with no fuel left
    the function leaves the loop as the code does when nothing is
    ordered. *)
Fixpoint toposort_loop (fuel : nat) (data : list (expr * list expr))
  : result (list (list expr)) :=
  let leave := match data with
               | [] => Ok []
               | _ :: _ => Raise CircularDependencyError
               end in
  match fuel with
  | 0 => leave
  | S fuel' =>
      match no_dependencies data with
      | [] => leave
      | ordered =>
          rest <- toposort_loop fuel' (remove_ordered ordered data) ;;
          Ok (ordered :: rest)
      end
  end.

Definition toposort (data : list (expr * list expr)) : result (list (list expr)) :=
  match data with
  | [] => Ok []
  | _ :: _ =>
      let data := add_extra_items (discard_self data) in
      toposort_loop (length data) data
  end.

(* ================================================================= *)
(** ** BaseModel *)

Record BaseModel : Type := {
  model_dict : list (expr * expr);
  independent_vars : list expr;
  dependent_vars : list expr;
  interdependent_vars : list expr;
  params : list expr;
  sigmas : list (expr * expr)
}.

(** [BaseModel.ordered_symbols] *)
Definition key_func (s : expr) : bool * nat :=
  (is_Derivative s, if is_Derivative s then derivative_count s else 0).

Definition ordered_symbols (model_dict : list (expr * expr)) : result (list expr) :=
  layers <- toposort (connectivity_mapping model_dict) ;;
  Ok (flat_map (sorted key_bool_nat_leb key_func) layers).

(** [l.pop(0)] and [l.pop(-1)], with the list that is left. *)
Definition pop_first {A} (l : list A) : result (A * list A) :=
  match l with
  | [] => Raise IndexError
  | x :: l' => Ok (x, l')
  end.

Definition pop_last {A} (l : list A) : result (A * list A) :=
  match rev l with
  | [] => Raise IndexError
  | x :: l' => Ok (x, rev l')
  end.

(** [BaseModel._init_from_dict] *)
Definition BaseModel_init_from_dict (model_dict : list (expr * expr))
  : result BaseModel :=
  let model_dict := sorted String.leb (fun i => name (fst i)) model_dict in
  ordered <- toposort (connectivity_mapping model_dict) ;;
  p <- pop_first ordered ;;
  let independent := sort_by_name (fst p) in
  q <- pop_last (snd p) ;;
  let dependent_vars := sort_by_name (fst q) in
  let interdependent_vars := sort_by_name (concat (snd q)) in
  Ok {| model_dict := model_dict;
        independent_vars :=
          filter (fun s => negb (is_Parameter s) && negb (mem s (keys model_dict)))
                 independent;
        dependent_vars := dependent_vars;
        interdependent_vars := interdependent_vars;
        params := filter is_Parameter independent;
        sigmas := map (fun var => (var, Var ("sigma_" ++ name var)%string))
                      dependent_vars |}.

(* ================================================================= *)
(** ** numpy values *)

Inductive value : Type :=
| Scalar (z : Z)
| Array (l : list Z).

Fixpoint map2 (op : Z -> Z -> Z) (l1 l2 : list Z) : list Z :=
  match l1, l2 with
  | x :: l1', y :: l2' => op x y :: map2 op l1' l2'
  | _, _ => []
  end.

(** An elementwise binary operation with numpy's broadcasting. *)
Definition broadcast2 (op : Z -> Z -> Z) (a b : value) : result value :=
  match a, b with
  | Scalar x, Scalar y => Ok (Scalar (op x y))
  | Scalar x, Array l => Ok (Array (map (op x) l))
  | Array l, Scalar y => Ok (Array (map (fun x => op x y) l))
  | Array l1, Array l2 =>
      if Nat.eqb (length l1) (length l2) then Ok (Array (map2 op l1 l2))
      else match l1, l2 with
           | [x], _ => Ok (Array (map (op x) l2))
           | _, [y] => Ok (Array (map (fun x => op x y) l1))
           | _, _ => Raise ValueError
           end
  end.

Definition vmap (f : Z -> Z) (a : value) : value :=
  match a with
  | Scalar x => Scalar (f x)
  | Array l => Array (map f l)
  end.

(** [np.atleast_1d] *)
Definition atleast_1d (a : value) : list Z :=
  match a with
  | Scalar x => [x]
  | Array l => l
  end.

(* ================================================================= *)
(** ** Call signatures: inspect.Signature *)

Inductive param_kind : Type := POSITIONAL_OR_KEYWORD.

Record sig_param : Type := {
  pname : string;
  kind : param_kind;
  default : option value
}.

Fixpoint has_duplicates (l : list string) : bool :=
  match l with
  | [] => false
  | x :: l' => existsb (String.eqb x) l' || has_duplicates l'
  end.

(** [str.isidentifier], on names written in ASCII: a letter or an
    underscore, followed by letters, digits and underscores.  (Python
    also takes letters of other alphabets; a name with a character that
    is not ASCII is refused here.) *)
Definition is_letter (c : ascii) : bool :=
  let n := nat_of_ascii c in
  (Nat.leb 65 n && Nat.leb n 90) || (Nat.leb 97 n && Nat.leb n 122).

Definition is_digit (c : ascii) : bool :=
  let n := nat_of_ascii c in Nat.leb 48 n && Nat.leb n 57.

Definition is_underscore (c : ascii) : bool := Ascii.eqb c "_".

Definition isidentifier (s : string) : bool :=
  match s with
  | EmptyString => false
  | String c s' =>
      (is_letter c || is_underscore c)
      && forallb (fun c' => is_letter c' || is_digit c' || is_underscore c')
                 (list_ascii_of_string s')
  end.

(** [str.isascii] *)
Definition isascii (s : string) : bool :=
  forallb (fun c => Nat.ltb (nat_of_ascii c) 128) (list_ascii_of_string s).

(** [keyword.kwlist] of Python 3 and [keyword.iskeyword] *)
Definition kwlist : list string :=
  ["False"; "None"; "True"; "and"; "as"; "assert"; "async"; "await"; "break";
   "class"; "continue"; "def"; "del"; "elif"; "else"; "except"; "finally";
   "for"; "from"; "global"; "if"; "import"; "in"; "is"; "lambda"; "nonlocal";
   "not"; "or"; "pass"; "raise"; "return"; "try"; "while"; "with"; "yield"].

Definition iskeyword (s : string) : bool := existsb (String.eqb s) kwlist.

(** [inspect.Parameter(name, POSITIONAL_OR_KEYWORD)]: [name[0]] raises
    IndexError on the empty name, and a name that is a keyword or is not
    an identifier is refused with ValueError.  (inspect keeps the names
    [.0], [.1], ... for the implicit arguments of comprehensions and
    renames them; a symbol named so is not an identifier and is refused
    here.) *)
Definition inspect_Parameter (name : string) : result sig_param :=
  match name with
  | EmptyString => Raise IndexError
  | String _ _ =>
      if iskeyword name || negb (isidentifier name) then Raise ValueError
      else Ok {| pname := name; kind := POSITIONAL_OR_KEYWORD; default := None |}
  end.

(** [inspect.Signature(parameters=...)]: parameter names must differ. *)
Definition Signature (parameters : list sig_param) : result (list sig_param) :=
  if has_duplicates (map pname parameters) then Raise ValueError else Ok parameters.

(** [collections.namedtuple(typename, field_names)], as far as it can
    fail; the type that it returns is stood for by its field names.
    Every name must be an identifier and no keyword, and no field name
    may start with an underscore or occur twice: ValueError
    otherwise. *)
Definition namedtuple (typename : string) (field_names : list string)
  : result (list string) :=
  if forallb (fun n => isidentifier n && negb (iskeyword n)) (typename :: field_names)
     && forallb (fun n => negb (String.prefix "_" n)) field_names
     && negb (has_duplicates field_names)
  then Ok field_names
  else Raise ValueError.

(** [variabletuple] *)
Definition variabletuple (typename : string) (variables : list expr)
  : result (list string) :=
  let field_names := map name variables in
  namedtuple typename field_names.

Fixpoint remove_key {V} (k : string) (d : list (string * V)) : list (string * V) :=
  match d with
  | [] => []
  | (k', v) :: d' => if String.eqb k k' then remove_key k d' else (k', v) :: remove_key k d'
  end.

(** The keyword phase of [Signature.bind]: every parameter that is left
    takes its value from [kwargs]; one without a default that is not
    there is a missing argument, and a keyword that no parameter takes is
    unexpected. *)
Fixpoint bind_keywords (ps : list sig_param) (kwargs : list (string * value))
  : result (list (string * value)) :=
  match ps with
  | [] => match kwargs with
          | [] => Ok []
          | _ :: _ => Raise TypeError
          end
  | p :: ps' =>
      match get (pname p) kwargs with
      | Some v =>
          rest <- bind_keywords ps' (remove_key (pname p) kwargs) ;;
          Ok ((pname p, v) :: rest)
      | None =>
          match default p with
          | None => Raise TypeError
          | Some _ => bind_keywords ps' kwargs
          end
      end
  end.

(** [Signature.bind] of positional and keyword arguments for positional-or-keyword
    parameters; the result is [BoundArguments.arguments]. *)
Fixpoint sig_bind (ps : list sig_param) (args : list value)
  (kwargs : list (string * value)) : result (list (string * value)) :=
  match args with
  | [] => bind_keywords ps kwargs
  | a :: args' =>
      match ps with
      | [] => Raise TypeError
      | p :: ps' =>
          if has_key (pname p) kwargs then Raise TypeError
          else rest <- sig_bind ps' args' kwargs ;; Ok ((pname p, a) :: rest)
      end
  end.

(* ================================================================= *)
(** ** Numeric components *)

(** The value of an expression once its symbols are bound by name. An
    applied undefined function, or a symbol that is not an argument of
    the compiled function, is an unknown name when the function runs. *)
Fixpoint denote (env : list (string * value)) (e : expr) : result value :=
  match e with
  | Num n => Ok (Scalar n)
  | Var s => match get s env with Some v => Ok v | None => Raise NameError end
  | Par s => match get s env with Some v => Ok v | None => Raise NameError end
  | Add a b => x <- denote env a ;; y <- denote env b ;; broadcast2 Z.add x y
  | Mul a b => x <- denote env a ;; y <- denote env b ;; broadcast2 Z.mul x y
  | Pow a n => x <- denote env a ;; Ok (vmap (fun z => Z.pow z (Z.of_nat n)) x)
  | Func _ _ => Raise NameError
  | Derivative _ _ =>
      match get (name e) env with Some v => Ok v | None => Raise NameError end
  end.

Record component : Type := {
  c_expr : expr;
  c_args : list expr
}.

(** Modelled from the spec: [sympy_to_py] of support.py, which is not
    among the sources at hand: "compile(expression, ordered_arguments)
    -> numeric callable", a pure function of the named arguments that
    evaluates the expression tree.  Derivative markers among the
    arguments are passed under their name like any other symbol. *)
Definition sympy_to_py (e : expr) (vars params : list expr) : component :=
  {| c_expr := e; c_args := vars ++ params |}.

(** Calling a component with keyword arguments only. *)
Definition call_kw (c : component) (kwargs : list (string * value)) : result value :=
  if forallb (fun a => has_key (name a) kwargs) (c_args c)
     && forallb (fun kv => existsb (fun a => String.eqb (fst kv) (name a)) (c_args c)) kwargs
  then denote kwargs (c_expr c)
  else Raise TypeError.

(** Calling a component with positional arguments only. *)
Definition call_pos (c : component) (args : list value) : result value :=
  if Nat.eqb (length args) (length (c_args c))
  then denote (combine (map name (c_args c)) args) (c_expr c)
  else Raise TypeError.

(* ================================================================= *)
(** ** BaseCallableModel and CallableModel *)

Record CallableModel : Type := {
  base :> BaseModel;
  signature : list sig_param      (* __signature__ *)
}.

(** [BaseCallableModel._make_signature] *)
Definition make_signature (independent_vars params : list expr)
  : result (list sig_param) :=
  parameters <- mapM (fun arg => inspect_Parameter (name arg))
                     (independent_vars ++ params) ;;
  Signature parameters.

(** [BaseCallableModel._init_from_dict], which is all that
    [CallableModel(model_dict)] runs for a mapping. *)
Definition CallableModel_init (model_dict : list (expr * expr))
  : result CallableModel :=
  b <- BaseModel_init_from_dict model_dict ;;
  s <- make_signature (independent_vars b) (params b) ;;
  Ok {| base := b; signature := s |}.

(** [CallableModel.numerical_components] *)
Definition key_param_str (arg : expr) : bool * string := (is_Parameter arg, sstr arg).

Definition numerical_components (model_dict : list (expr * expr))
  : result (list component) :=
  Ans <- variabletuple "Ans" (keys model_dict) ;;
  mapM (fun ve =>
          match lookup (fst ve) (connectivity_mapping model_dict) with
          | None => Raise KeyError
          | Some dependencies =>
              Ok (sympy_to_py (snd ve)
                    (sorted key_bool_str_leb key_param_str dependencies) [])
          end)
       model_dict.

(** [{d.name: kwargs[d.name] for d in dependencies}] *)
Definition dependencies_kwargs (kwargs : list (string * value))
  (dependencies : list expr) : result (list (string * value)) :=
  items <- mapM (fun d => match get (name d) kwargs with
                          | Some v => Ok (name d, v)
                          | None => Raise KeyError
                          end) dependencies ;;
  Ok (fold_left (fun d kv => put (fst kv) (snd kv) d) items []).

(** The body of the loop of [BaseCallableModel.eval_components]. *)
Definition eval_symbol (cm : list (expr * list expr))
  (components : list (expr * component))
  (kwargs : list (string * value)) (symbol : expr)
  : result (list (string * value)) :=
  if has_key (name symbol) kwargs then Ok kwargs
  else
    match lookup symbol cm with
    | None => Raise KeyError
    | Some dependencies =>
        dkw <- dependencies_kwargs kwargs dependencies ;;
        match lookup symbol components with
        | None => Raise KeyError
        | Some c =>
            v <- call_kw c dkw ;;
            Ok (put (name symbol) v kwargs)
        end
    end.

Fixpoint eval_loop (cm : list (expr * list expr))
  (components : list (expr * component))
  (symbols : list expr) (kwargs : list (string * value))
  : result (list (string * value)) :=
  match symbols with
  | [] => Ok kwargs
  | symbol :: symbols' =>
      kwargs' <- eval_symbol cm components kwargs symbol ;;
      eval_loop cm components symbols' kwargs'
  end.

(** [BaseCallableModel.eval_components] *)
Definition eval_components (m : CallableModel) (args : list value)
  (kwargs : list (string * value)) : result (list (list Z)) :=
  kwargs <- sig_bind (signature m) args kwargs ;;
  ncs <- numerical_components (model_dict m) ;;
  let components := combine (keys (model_dict m)) ncs in
  symbols <- ordered_symbols (model_dict m) ;;
  kwargs <- eval_loop (connectivity_mapping (model_dict m)) components symbols kwargs ;;
  mapM (fun var => match get (name var) kwargs with
                   | Some v => Ok (atleast_1d v)
                   | None => Raise KeyError
                   end)
       (keys (model_dict m)).

(** [BaseCallableModel.__call__], seen through [_asdict()]: the
    dependent variables with their values. *)
Definition call (m : CallableModel) (args : list value)
  (kwargs : list (string * value)) : result (list (expr * list Z)) :=
  Ans <- variabletuple "Ans" (keys (model_dict m)) ;;
  vals <- eval_components m args kwargs ;;
  Ok (combine (keys (model_dict m)) vals).

(** The component of the key of [ke], called with the values that
    [kwargs] holds for its dependencies. *)
Definition component_value (model_dict : list (expr * expr))
  (kwargs : list (string * value)) (ke : expr * expr) : result value :=
  match lookup (fst ke) (connectivity_mapping model_dict) with
  | None => Raise KeyError
  | Some dependencies =>
      dkw <- dependencies_kwargs kwargs dependencies ;;
      call_kw (sympy_to_py (snd ke)
                 (sorted key_bool_str_leb key_param_str dependencies) []) dkw
  end.

(* ================================================================= *)
(** ** sympy: automatic evaluation, differentiation, substitution *)

(** The constructors as sympy applies them: numbers are folded and
    neutral elements dropped.  (sympy also sorts the arguments and
    collects like terms; [expand] below accounts for that where it
    matters, in the comparison of expressions.) *)
Definition mk_add (a b : expr) : expr :=
  match a, b with
  | Num n, Num m => Num (n + m)
  | Num Z0, e => e
  | e, Num Z0 => e
  | _, _ => Add a b
  end.

Definition mk_coeff (c : Z) (e : expr) : expr :=
  if Z.eqb c 0 then Num 0 else if Z.eqb c 1 then e else Mul (Num c) e.

Definition mk_mul (a b : expr) : expr :=
  match a, b with
  | Num n, Num m => Num (n * m)
  | Num c, Mul (Num d) e => mk_coeff (c * d) e
  | Mul (Num d) e, Num c => mk_coeff (c * d) e
  | Num c, e => mk_coeff c e
  | e, Num c => mk_coeff c e
  | _, _ => Mul a b
  end.

Definition mk_pow (a : expr) (n : nat) : expr :=
  match n with
  | 0 => Num 1
  | 1 => a
  | _ => match a with
         | Num k => Num (Z.pow k (Z.of_nat n))
         | _ => Pow a n
         end
  end.

Definition is_Symbol (e : expr) : bool :=
  match e with Var _ => true | Par _ => true | _ => false end.

Definition is_zero (e : expr) : bool :=
  match e with Num Z0 => true | _ => false end.

(** [Function.fdiff]: the partial derivative of an applied function in
    its [i]-th argument.  For a symbol that occurs in no other argument
    it is an unevaluated [Derivative].  Otherwise sympy differentiates
    in a dummy symbol put in place of the argument and keeps the result
    in a [Subs] node, which stays an inert node here. *)
Definition fdiff (f : string) (args : list expr) (i : nat) : expr :=
  let A := nth i args (Num 0) in
  let others := flat_map free_symbols (firstn i args ++ skipn (S i) args) in
  if is_Symbol A && negb (mem A others)
  then Derivative (Func f args) [A]
  else
    let xi := Var ("_xi_" ++ string_of_nat (S i))%string in
    Func "Subs"
      [Derivative (Func f (firstn i args ++ xi :: skipn (S i) args)) [xi]; xi; A].

(** [e.diff(p)] *)
Fixpoint diff (e p : expr) {struct e} : expr :=
  match e with
  | Num _ => Num 0
  | Var _ => if expr_eqb e p then Num 1 else Num 0
  | Par _ => if expr_eqb e p then Num 1 else Num 0
  | Add a b => mk_add (diff a p) (diff b p)
  | Mul a b => mk_add (mk_mul (diff a p) b) (mk_mul a (diff b p))
  | Pow a n => mk_mul (mk_mul (Num (Z.of_nat n)) (mk_pow a (pred n))) (diff a p)
  | Func f args =>
      (* Function._eval_derivative: the chain rule over the arguments *)
      let das := map (fun a => diff a p) args in
      fold_left (fun acc ida =>
                   if is_zero (snd ida) then acc
                   else mk_add acc (mk_mul (fdiff f args (fst ida)) (snd ida)))
                (combine (seq 0 (length args)) das) (Num 0)
  | Derivative e' vs =>
      (* Derivative._eval_derivative *)
      if mem p vs then Derivative e' (vs ++ [p])
      else match diff e' p with
           | Derivative e'' vs' => Derivative e'' (vs ++ vs')
           | Num Z0 => Num 0
           | dedv => Derivative dedv vs
           end
  end.

(** [e.xreplace(rule)]: exact subtrees are replaced, from the root down. *)
Fixpoint xreplace (rule : list (expr * expr)) (e : expr) : expr :=
  match lookup e rule with
  | Some r => r
  | None =>
      match e with
      | Add a b => Add (xreplace rule a) (xreplace rule b)
      | Mul a b => Mul (xreplace rule a) (xreplace rule b)
      | Pow a n => Pow (xreplace rule a) n
      | Func f args => Func f (map (xreplace rule) args)
      | Derivative e' vs => Derivative (xreplace rule e') (map (xreplace rule) vs)
      | _ => e
      end
  end.

(** [e.subs(rule, evaluate=False)] with the function forms as the old
    expressions.  sympy substitutes the larger old expressions first, so
    that a function form is replaced before the function forms nested in
    its arguments: the outcome is that of one pass from the root down. *)
Definition subs (rule : list (expr * expr)) (e : expr) : expr := xreplace rule e.

(** [D(e, *vs)], symfit's subclass of [sympy.Derivative].  On an
    expression that is not itself a derivative the result is an
    unevaluated marker.  On a derivative, sympy differentiates, which is
    where a repeated partial derivative of a plain symbol evaluates to
    zero (the docstring of [_partial_diff]). *)
Definition D (e : expr) (vs : list expr) : expr :=
  match e with
  | Derivative _ _ => fold_left diff vs e
  | _ => Derivative e vs
  end.

(** [_partial_diff] *)
Definition _partial_diff (var : expr) (params : list expr) : expr :=
  match var with
  | Derivative e vs => Derivative e (vs ++ params)
  | _ => D var params
  end.

(** [_partial_subs] *)
Definition _partial_subs (func : expr) (func2vars : list (expr * expr)) : expr :=
  match func with
  | Derivative e vs =>
      let new_func := xreplace func2vars e in
      let new_variables := map (xreplace func2vars) vs in
      _partial_diff new_func new_variables
  | _ => xreplace func2vars func
  end.

(* ================================================================= *)
(** ** The differentiation engine *)

(** [BaseModel.vars_as_functions] *)
Definition vars_as_functions (model_dict : list (expr * expr))
  : result (list (expr * expr)) :=
  symbols <- ordered_symbols model_dict ;;
  Ok (fold_left
        (fun vars2functions symbol =>
           match lookup symbol (connectivity_mapping model_dict) with
           | None => vars2functions
           | Some dependencies =>
               let dependencies :=
                 map (fun d => match lookup d vars2functions with
                               | Some f => f
                               | None => d
                               end) dependencies in
               let dependencies :=
                 sorted key_bool_str_leb key_param_str dependencies in
               dict_set symbol (Func (name symbol) dependencies) vars2functions
           end)
        symbols []).

(** [BaseModel.function_dict] *)
Definition function_dict (model_dict : list (expr * expr))
  : result (list (expr * expr)) :=
  v2f <- vars_as_functions model_dict ;;
  mapM (fun vf => match lookup (fst vf) model_dict with
                  | None => Raise KeyError
                  | Some e => Ok (snd vf, xreplace v2f e)
                  end)
       v2f.

(** [jacobian_from_model] *)
Definition jacobian_from_model (model : CallableModel) (as_functions : bool)
  : result CallableModel :=
  v2f <- vars_as_functions (model_dict model) ;;
  let functions_as_vars := map (fun kv => (snd kv, fst kv)) v2f in
  fd <- function_dict (model_dict model) ;;
  let jac :=
    fold_left
      (fun jac fe =>
         fold_left
           (fun jac param =>
              let target := D (fst fe) [param] in
              let dfdp := diff (snd fe) param in
              if as_functions
              then dict_set (_partial_subs target functions_as_vars) dfdp jac
              else dict_set (_partial_subs target functions_as_vars)
                            (subs functions_as_vars dfdp) jac)
           (params model) jac)
      fd [] in
  let jac :=
    fold_left
      (fun jac ye =>
         if as_functions then dict_set (fst ye) (snd ye) jac
         else dict_set (fst ye) (subs functions_as_vars (snd ye)) jac)
      (model_dict model) jac in
  CallableModel_init jac.

Record GradientModel : Type := {
  callable :> CallableModel;
  jacobian_model : CallableModel
}.

(** [GradientModel.__init__] *)
Definition GradientModel_init (model_dict : list (expr * expr))
  : result GradientModel :=
  m <- CallableModel_init model_dict ;;
  j <- jacobian_from_model m false ;;
  Ok {| callable := m; jacobian_model := j |}.

(** [np.ones_like] *)
Definition ones_like (a : list Z) : list Z := map (fun _ => 1%Z) a.

(** [np.stack(np.broadcast_arrays(...))] on one-dimensional arrays. *)
Definition broadcast_to (n : nat) (a : list Z) : result (list Z) :=
  if Nat.eqb (length a) n then Ok a
  else match a with
       | [x] => Ok (repeat x n)
       | _ => Raise ValueError
       end.

Definition stack_broadcast (comp : list (list Z)) : result (list (list Z)) :=
  match comp with
  | [] => Raise ValueError
  | _ :: _ =>
      let n := match filter (fun a => negb (Nat.eqb (length a) 1)) comp with
               | a :: _ => length a
               | [] => 1
               end in
      mapM (broadcast_to n) comp
  end.


(** [GradientModel.eval_jacobian] *)
Definition eval_jacobian (m : GradientModel) (args : list value)
  (kwargs : list (string * value)) : result (list (expr * list (list Z))) :=
  eval_jac_dict <- call (jacobian_model m) args kwargs ;;
  jac <- mapM (fun var =>
                 comp <- mapM (fun param =>
                                 match lookup var eval_jac_dict with
                                 | None => Raise KeyError
                                 | Some val =>
                                     let d := match lookup (D var [param]) eval_jac_dict with
                                              | Some v => Array v
                                              | None => Scalar 0
                                              end in
                                     r <- broadcast2 Z.mul d (Array (ones_like val)) ;;
                                     Ok (atleast_1d r)
                                 end)
                              (params m) ;;
                 stack_broadcast comp)
              (keys (model_dict m)) ;;
  Ans <- variabletuple "Ans" (keys (model_dict m)) ;;
  Ok (combine (keys (model_dict m)) jac).

(* ================================================================= *)
(** ** sympy: expand and the comparison of expanded expressions *)

(** An expanded expression is a sum of monomials with integer
    coefficients.  sympy keeps such a sum in one canonical order, so that
    [==] on expanded expressions is equality of the canonical sums. *)
Definition monomial : Type := list (expr * nat).
Definition poly : Type := list (monomial * Z).

Fixpoint mono_mul (m1 : monomial) : monomial -> monomial :=
  fix inner (m2 : monomial) : monomial :=
    match m1, m2 with
    | [], _ => m2
    | _, [] => m1
    | (a, i) :: m1', (b, j) :: m2' =>
        match expr_compare a b with
        | Eq => (a, i + j) :: mono_mul m1' m2'
        | Lt => (a, i) :: mono_mul m1' m2
        | Gt => (b, j) :: inner m2'
        end
    end.

Fixpoint mono_compare (m1 m2 : monomial) : comparison :=
  match m1, m2 with
  | [], [] => Eq
  | [], _ :: _ => Lt
  | _ :: _, [] => Gt
  | (a, i) :: m1', (b, j) :: m2' =>
      lex (expr_compare a b) (lex (Nat.compare i j) (mono_compare m1' m2'))
  end.

Fixpoint poly_add (p : poly) : poly -> poly :=
  fix inner (q : poly) : poly :=
    match p, q with
    | [], _ => q
    | _, [] => p
    | (m, c) :: p', (n, d) :: q' =>
        match mono_compare m n with
        | Eq => if Z.eqb (c + d) 0 then poly_add p' q'
                else (m, (c + d)%Z) :: poly_add p' q'
        | Lt => (m, c) :: poly_add p' q
        | Gt => (n, d) :: inner q'
        end
    end.

Definition poly_term (m : monomial) (c : Z) : poly :=
  if Z.eqb c 0 then [] else [(m, c)].

(** The product by a non-zero number scales every coefficient. *)
Definition poly_cscale (c : Z) (q : poly) : poly :=
  map (fun t => (fst t, (c * snd t)%Z)) q.

Definition poly_scale (t : monomial * Z) (q : poly) : poly :=
  fold_right (fun t' acc => poly_add (poly_term (mono_mul (fst t) (fst t'))
                                                (snd t * snd t')) acc)
             [] q.

Definition poly_mul (p q : poly) : poly :=
  match p with
  | [([], c)] => poly_cscale c q
  | _ => fold_right (fun t acc => poly_add (poly_scale t q) acc) [] p
  end.

Fixpoint poly_pow (p : poly) (n : nat) : poly :=
  match n with
  | 0 => poly_term [] 1
  | S n' => poly_mul p (poly_pow p n')
  end.

(** [e.expand()] *)
Fixpoint expand (e : expr) : poly :=
  match e with
  | Num n => poly_term [] n
  | Add a b => poly_add (expand a) (expand b)
  | Mul a b => poly_mul (expand a) (expand b)
  | Pow a n => poly_pow (expand a) n
  | _ => [([(e, 1)], 1%Z)]
  end.

Fixpoint mono_eqb (m1 m2 : monomial) : bool :=
  match m1, m2 with
  | [], [] => true
  | (a, i) :: m1', (b, j) :: m2' => expr_eqb a b && Nat.eqb i j && mono_eqb m1' m2'
  | _, _ => false
  end.

Fixpoint poly_eqb (p q : poly) : bool :=
  match p, q with
  | [], [] => true
  | (m, c) :: p', (n, d) :: q' => mono_eqb m n && Z.eqb c d && poly_eqb p' q'
  | _, _ => false
  end.

(* ================================================================= *)
(** ** BaseModel.__eq__ and BaseModel.__neg__ *)

(** [a is b] for two [int] objects that [len] returned.  CPython keeps
    one object for each integer from -5 to 256 and makes a new object for
    any other result, so that two equal lengths above 256 are not the
    same object. *)
Definition int_is (a b : nat) : bool := Nat.eqb a b && Nat.leb a 256.

Fixpoint eq_loop (self other : list (expr * expr)) (pairs : list (expr * expr))
  : result bool :=
  match pairs with
  | [] => Ok true
  | (var_1, var_2) :: pairs' =>
      if negb (expr_eqb var_1 var_2) then Ok false
      else
        match lookup var_1 self, lookup var_2 other with
        | Some e1, Some e2 =>
            if negb (poly_eqb (expand e1) (expand e2)) then Ok false
            else eq_loop self other pairs'
        | _, _ => Raise KeyError
        end
  end.

(** [BaseModel.__eq__] *)
Definition BaseModel_eq (self other : BaseModel) : result bool :=
  if negb (int_is (length (model_dict self)) (length (model_dict other)))
  then Ok false
  else eq_loop (model_dict self) (model_dict other)
               (combine (keys (model_dict self)) (keys (model_dict other))).

(** [BaseModel.__neg__] for a CallableModel.  The receiver is threaded
    through: the first component is the receiver's [model_dict] once the
    method has run, the second the model that is returned. *)
Definition CallableModel_neg (self : CallableModel)
  : list (expr * expr) * result CallableModel :=
  let new_model_dict := model_dict self in     (* self.model_dict.copy() *)
  let new_model_dict :=
    fold_left (fun d key =>
                 match lookup key d with
                 | Some e => dict_set key (mk_mul e (Num (-1))) d
                 | None => d
                 end)
              (keys new_model_dict) new_model_dict in
  (model_dict self, CallableModel_init new_model_dict).

(** sympy evaluates a product by the number zero to zero, so that no
    expression it holds has such a product in it. *)
Fixpoint no_zero_product (e : expr) : bool :=
  match e with
  | Add a b => no_zero_product a && no_zero_product b
  | Mul a b =>
      negb (is_zero a) && negb (is_zero b) && no_zero_product a && no_zero_product b
  | Pow a _ => no_zero_product a
  | Func _ args => forallb no_zero_product args
  | Derivative e' vs => no_zero_product e' && forallb no_zero_product vs
  | _ => true
  end.

(** [e1 - e2], and the algebraic equivalence of the spec: the difference
    of two expressions expands to zero. *)
Definition difference (e1 e2 : expr) : expr := Add e1 (Mul (Num (-1)) e2).

Definition equivalent (e1 e2 : expr) : Prop := expand (difference e1 e2) = [].

(** Two model dicts have the same dependent variables, with equivalent
    expressions for each of them in turn. *)
Definition same_models (d1 d2 : list (expr * expr)) : Prop :=
  Forall2 (fun ke1 ke2 => fst ke1 = fst ke2 /\ equivalent (snd ke1) (snd ke2)) d1 d2.

(* ================================================================= *)
(** ** ODEModel *)

Record ODEModel : Type := {
  ode_initial : list (expr * Z);
  dependent_derivatives : list (expr * expr);
  ode_dependent_vars : list expr;
  ode_independent_vars : list expr;
  ode_interdependent_vars : list expr;
  ode_model_dict : list (expr * expr);
  ode_params : list expr;
  ode_sigmas : list (expr * expr);
  ode_signature : list sig_param
}.

Definition sort_by_str (l : list expr) : list expr := sorted String.leb sstr l.

(** [list(d.free_symbols - set(d.variables))[0]] *)
Definition dependent_of (d : expr) : result expr :=
  match d with
  | Derivative _ variables =>
      match set_diff (free_symbols d) (set_of variables) with
      | [] => Raise IndexError
      | v :: _ => Ok v
      end
  | _ => Raise AttributeError
  end.

(** [d.variables[0]] *)
Definition first_variable (d : expr) : result expr :=
  match d with
  | Derivative _ variables =>
      match variables with
      | [] => Raise IndexError
      | v :: _ => Ok v
      end
  | _ => Raise AttributeError
  end.

(** [ODEModel.__init__] *)
Definition ODEModel_init (model_dict : list (expr * expr))
  (initial : list (expr * Z)) : result ODEModel :=
  dd <- mapM (fun d => v <- dependent_of d ;; Ok (d, v)) (keys model_dict) ;;
  let dependent_vars := sort_by_str (map snd dd) in
  firsts <- mapM first_variable (keys model_dict) ;;
  let independent_vars := sort_by_str (set_of firsts) in
  if negb (Nat.eqb (length independent_vars) 0) then
    let sorted_dict :=
      sorted String.leb
             (fun i => match lookup (fst i) dd with
                       | Some v => sstr v
                       | None => ""
                       end)
             model_dict in
    let model_params :=
      fold_left (fun acc expression => union acc (snd (seperate_symbols expression)))
                (map snd model_dict) [] in
    let params := sort_by_str model_params in
    s <- make_signature independent_vars params ;;
    Ok {| ode_initial := initial;
          dependent_derivatives := dd;
          ode_dependent_vars := dependent_vars;
          ode_independent_vars := independent_vars;
          ode_interdependent_vars := [];
          ode_model_dict := sorted_dict;
          ode_params := params;
          ode_sigmas := map (fun var => (var, Var ("sigma_" ++ name var)%string))
                            dependent_vars;
          ode_signature := s |}
  else Raise ModelError.

(** [ODEModel.__getitem__]: a loop that returns from its body and falls
    off its end otherwise, which in Python returns [None]. *)
Fixpoint getitem_loop (dd : list (expr * expr)) (items : list (expr * expr))
  (dependent_var : expr) : result (option expr) :=
  match items with
  | [] => Ok None
  | (d, f) :: items' =>
      match lookup d dd with
      | None => Raise KeyError
      | Some v =>
          if expr_eqb dependent_var v then Ok (Some f)
          else getitem_loop dd items' dependent_var
      end
  end.

Definition ODEModel_getitem (m : ODEModel) (dependent_var : expr)
  : result (option expr) :=
  getitem_loop (dependent_derivatives m) (ode_model_dict m) dependent_var.

(** [self.values()], which [Mapping] computes from [__iter__] and
    [__getitem__]. *)
Definition ODEModel_values (m : ODEModel) : result (list (option expr)) :=
  mapM (ODEModel_getitem m) (ode_dependent_vars m).

(** [ODEModel._ncomponents] *)
Definition _ncomponents (m : ODEModel) : result (list component) :=
  vals <- ODEModel_values m ;;
  mapM (fun v => match v with
                 | Some e => Ok (sympy_to_py e (ode_independent_vars m ++ ode_dependent_vars m)
                                             (ode_params m))
                 | None => Raise TypeError
                 end) vals.

(** [ODEModel._njacobian] *)
Definition _njacobian (m : ODEModel) : result (list (list component)) :=
  vals <- ODEModel_values m ;;
  mapM (fun v => match v with
                 | Some e =>
                     Ok (map (fun var =>
                                sympy_to_py (diff e var)
                                  (ode_independent_vars m ++ ode_dependent_vars m)
                                  (ode_params m))
                             (ode_dependent_vars m))
                 | None => Raise AttributeError
                 end) vals.

Definition as_number (v : value) : result Z :=
  match v with
  | Scalar z => Ok z
  | Array _ => Raise ValueError
  end.

Definition transpose (ncols : nat) (rows : list (list Z)) : list (list Z) :=
  map (fun j => map (fun row => nth j row 0%Z) rows) (seq 0 ncols).

(** What [eval_components] hands over to the integrator: the system of
    functions [f] and its Jacobian [Dfun] (with the parameters already
    passed on), the initial state and time, the requested times and the
    number of dependent variables. *)
Record ode_problem : Type := {
  p_f : list Z -> Z -> result (list Z);
  p_Dfun : list Z -> Z -> result (list (list Z));
  p_initial_dependent : list Z;
  p_t_initial : Z;
  p_t_like : list Z;
  p_ncols : nat
}.

(** The first part of [ODEModel.eval_components], up to the split of the
    time axis. *)
Definition ode_problem_of (m : ODEModel) (args : list value)
  (kwargs : list (string * value)) : result ode_problem :=
  bound <- sig_bind (ode_signature m) args kwargs ;;
  t_var <- match ode_independent_vars m with
           | [] => Raise IndexError
           | v :: _ => Ok v
           end ;;
  t_like <- match get (name t_var) bound with
            | Some v => Ok v
            | None => Raise KeyError
            end ;;
  initial_dependent <-
    mapM (fun var => match lookup var (ode_initial m) with
                     | Some v => Ok v
                     | None => Raise KeyError
                     end) (ode_dependent_vars m) ;;
  t_initial <- match lookup t_var (ode_initial m) with
               | Some v => Ok v
               | None => Raise KeyError
               end ;;
  ncs <- _ncomponents m ;;
  njac <- _njacobian m ;;
  a <- mapM (fun param => match get (name param) bound with
                          | Some v => Ok v
                          | None => Raise KeyError
                          end) (ode_params m) ;;
  let f := fun (ys : list Z) (t : Z) =>
             mapM (fun c => v <- call_pos c (Scalar t :: map Scalar ys ++ a) ;;
                            as_number v) ncs in
  let Dfun := fun (ys : list Z) (t : Z) =>
                mapM (fun row =>
                        mapM (fun c => v <- call_pos c (Scalar t :: map Scalar ys ++ a) ;;
                                       as_number v) row) njac in
  (* a scalar, or an array without a first element, is wrapped *)
  Ok {| p_f := f; p_Dfun := Dfun;
        p_initial_dependent := initial_dependent;
        p_t_initial := t_initial;
        p_t_like := atleast_1d t_like;
        p_ncols := length (ode_dependent_vars m) |}.

Section ODEEvaluation.
(** scipy's [odeint(func, y0, t, args, Dfun)], with the parameters
    [args] already passed on to [func] and [Dfun]: one state per time of
    [t], the first of which is the time at which the state is [y0]. *)
Variable odeint :
  (list Z -> Z -> result (list Z)) ->
  list Z -> list Z ->
  (list Z -> Z -> result (list (list Z))) ->
  result (list (list Z)).

(** The second part of [ODEModel.eval_components]: the time axis is
    split at the initial time, each part is integrated away from it, and
    the two answers are joined. *)
Definition integrate (p : ode_problem) : result (list (list Z)) :=
  let t_like := p_t_like p in
  let t_initial := p_t_initial p in
  let requested := existsb (Z.eqb t_initial) t_like in
  let t_bigger :=
    if requested then filter (fun t => Z.leb t_initial t) t_like
    else t_initial :: filter (fun t => Z.ltb t_initial t) t_like in
  let t_smaller :=
    if requested then rev (filter (fun t => Z.leb t t_initial) t_like)
    else t_initial :: rev (filter (fun t => Z.ltb t t_initial) t_like) in
  let t_total := removelast (rev t_smaller) ++ t_bigger in
  ans_bigger <- odeint (p_f p) (p_initial_dependent p) t_bigger (p_Dfun p) ;;
  ans_smaller <- odeint (p_f p) (p_initial_dependent p) t_smaller (p_Dfun p) ;;
  let ans := rev (tl ans_smaller) ++ ans_bigger in
  if requested then Ok (transpose (p_ncols p) ans)
  else if Nat.eqb (length t_total) (length ans)
       then Ok (transpose (p_ncols p)
                  (map snd (filter (fun tr => negb (Z.eqb (fst tr) t_initial))
                                   (combine t_total ans))))
       else Raise IndexError.

(** [ODEModel.eval_components] *)
Definition ODEModel_eval_components (m : ODEModel) (args : list value)
  (kwargs : list (string * value)) : result (list (list Z)) :=
  p <- ode_problem_of m args kwargs ;;
  integrate p.
End ODEEvaluation.

(** An integrator that is exact: the states it returns are those of the
    trajectory [solution f y0 t0] through [y0] at the time [t0]. *)
Definition exact_integrator
  (odeint : (list Z -> Z -> result (list Z)) -> list Z -> list Z ->
            (list Z -> Z -> result (list (list Z))) -> result (list (list Z)))
  (solution : (list Z -> Z -> result (list Z)) -> list Z -> Z -> Z -> list Z) : Prop :=
  forall f y0 Dfun t0 ts,
    odeint f y0 (t0 :: ts) Dfun = Ok (map (solution f y0 t0) (t0 :: ts)) /\
    solution f y0 t0 t0 = y0.

(** The state [y] moved along the constant derivative [dy] for the time
    [dt]. *)
Fixpoint advance (dt : Z) (y dy : list Z) : list Z :=
  match y with
  | [] => []
  | y1 :: y' =>
      match dy with
      | [] => y
      | d :: dy' => (y1 + dt * d)%Z :: advance dt y' dy'
      end
  end.

(** The trajectories of a constant system are straight lines. *)
Definition linear_on_constant_fields
  (solution : (list Z -> Z -> result (list Z)) -> list Z -> Z -> Z -> list Z) : Prop :=
  forall f y0 t0 c,
    (forall ys t, length ys = length y0 -> f ys t = Ok c) ->
    forall t, solution f y0 t0 t = advance (t - t0) y0 c.

(** An integrator that follows the derivative at the initial state; it is
    exact for constant systems. *)
Definition linear_solution (f : list Z -> Z -> result (list Z)) (y0 : list Z)
  (t0 t : Z) : list Z :=
  match f y0 t0 with
  | Ok dy => advance (t - t0) y0 dy
  | Raise _ => y0
  end.

Definition linear_odeint (f : list Z -> Z -> result (list Z)) (y0 : list Z)
  (ts : list Z) (Dfun : list Z -> Z -> result (list (list Z)))
  : result (list (list Z)) :=
  match ts with
  | [] => Ok []
  | t0 :: _ => Ok (map (linear_solution f y0 t0) ts)
  end.

(** [dy/dx = a] with [y(0) = 1], and a spec with two independent
    variables, [dy/dx = a] and [dz/dt = a]. *)
Definition growth_dict : list (expr * expr) :=
  [(Derivative (Var "y") [Var "x"], Par "a")].

Definition growth_initial : list (expr * Z) := [(Var "x", 0%Z); (Var "y", 1%Z)].

Definition growth_model : ODEModel :=
  {| ode_initial := growth_initial;
     dependent_derivatives := [(Derivative (Var "y") [Var "x"], Var "y")];
     ode_dependent_vars := [Var "y"];
     ode_independent_vars := [Var "x"];
     ode_interdependent_vars := [];
     ode_model_dict := growth_dict;
     ode_params := [Par "a"];
     ode_sigmas := [(Var "y", Var "sigma_y")];
     ode_signature :=
       [{| pname := "x"; kind := POSITIONAL_OR_KEYWORD; default := None |};
        {| pname := "a"; kind := POSITIONAL_OR_KEYWORD; default := None |}] |}.

Definition two_times_dict : list (expr * expr) :=
  [(Derivative (Var "y") [Var "x"], Par "a");
   (Derivative (Var "z") [Var "t"], Par "a")].


(* ================================================================= *)
(** ** Dependency graphs *)

(** [edge g v d]: in the mapping [g], [v] depends directly on [d]. *)
Definition edge (g : list (expr * list expr)) (v d : expr) : Prop :=
  exists deps, In (v, deps) g /\ In d deps.

(** A dependency of a symbol on another symbol. *)
Definition proper_edge (g : list (expr * list expr)) (v d : expr) : Prop :=
  edge g v d /\ d <> v.

Definition has_cycle (g : list (expr * list expr)) : Prop :=
  exists v, clos_trans expr (edge g) v v.

Definition acyclic (g : list (expr * list expr)) : Prop :=
  forall v, ~ clos_trans expr (edge g) v v.

(** The position of the first occurrence of [x] in [l]. *)
Fixpoint index_of (x : expr) (l : list expr) : option nat :=
  match l with
  | [] => None
  | y :: l' =>
      if expr_eqb x y then Some 0
      else match index_of x l' with
           | Some i => Some (S i)
           | None => None
           end
  end.

(** A walk along a relation: consecutive elements are related. *)
Inductive walk (R : expr -> expr -> Prop) : list expr -> Prop :=
| walk_one x : walk R [x]
| walk_cons x y l : R x y -> walk R (y :: l) -> walk R (x :: y :: l).

(** Every dependency mentioned in [data] is an item of [data]. *)
Definition closed (data : list (expr * list expr)) : Prop :=
  forall k deps d, In (k, deps) data -> In d deps -> In d (keys data).

(** [d] is yielded in a layer before the layer of [k]. *)
Definition before_layers (d k : expr) (L : list (list expr)) : Prop :=
  exists L1 L2, L = L1 ++ L2 /\ In d (concat L1) /\ In k (concat L2).

(** Boolean checks, for concrete mappings. *)
Fixpoint no_dup (l : list expr) : bool :=
  match l with
  | [] => true
  | x :: l' => negb (mem x l') && no_dup l'
  end.

Definition is_ok {A} (r : result A) : bool :=
  match r with Ok _ => true | Raise _ => false end.

Definition acyclicb (g : list (expr * list expr)) : bool :=
  forallb (fun kv => negb (mem (fst kv) (snd kv))) g && is_ok (toposort g).

(** The order of names: Python compares strings code point by code
    point. *)
Definition name_le (a b : expr) : Prop := String.leb (name a) (name b) = true.



(* ================================================================= *)
(** ** The models of the spec's examples *)

(** [{y: a*x, z: y**2 + a}] *)
Definition chain_rule_dict : list (expr * expr) :=
  [(Var "y", Mul (Par "a") (Var "x"));
   (Var "z", Add (Pow (Var "y") 2) (Par "a"))].

Definition chain_rule_model : CallableModel :=
  {| base := {| model_dict := chain_rule_dict;
                independent_vars := [Var "x"];
                dependent_vars := [Var "z"];
                interdependent_vars := [Var "y"];
                params := [Par "a"];
                sigmas := [(Var "z", Var "sigma_z")] |};
     signature := [{| pname := "x"; kind := POSITIONAL_OR_KEYWORD; default := None |};
                   {| pname := "a"; kind := POSITIONAL_OR_KEYWORD; default := None |}] |}.

(** [{y: z*x, z: y*x}], a cycle through two symbols, and [{y: y*x}], a
    symbol that depends on itself only. *)
Definition two_cycle_dict : list (expr * expr) :=
  [(Var "y", Mul (Var "z") (Var "x"));
   (Var "z", Mul (Var "y") (Var "x"))].

Definition self_dependent_dict : list (expr * expr) :=
  [(Var "y", Mul (Var "y") (Var "x"))].

(** [env'] holds every value that [env] holds. *)
Definition extends (env env' : list (string * value)) : Prop :=
  forall n v, get n env = Some v -> get n env' = Some v.

(** The value [v] that [env] holds under the name [n] was bound by the
    caller, or is what the component of a key of that name returns for
    the values that [env] holds for its dependencies. *)
Definition computed (md : list (expr * expr)) (bound env : list (string * value))
  (n : string) (v : value) : Prop :=
  get n bound = Some v \/
  exists ke, In ke md /\ name (fst ke) = n /\ component_value md env ke = Ok v.

(** [env] resolves a call that bound [bound]: it keeps what the caller
    bound, every value that it holds was bound by the caller or is what
    the component of that name returns for the values that [env] holds
    for its dependencies, and it has a value for every key. *)
Definition resolved (md : list (expr * expr)) (bound env : list (string * value))
  : Prop :=
  extends bound env /\
  (forall n v, get n env = Some v -> computed md bound env n v) /\
  (forall k, In k (keys md) -> has_key (name k) env = true).

(** What holds of the keyword arguments once the symbols of [P] have
    been gone through. *)
Definition loop_invariant (md : list (expr * expr)) (bound : list (string * value))
  (P : list expr) (env : list (string * value)) : Prop :=
  extends bound env /\
  (forall s, In s P -> has_key (name s) env = true) /\
  (forall n v, get n env = Some v -> computed md bound env n v).

(** A model with [n] dependent variables [y0], [y1], ... that are each
    equal to [x]. *)
Definition wide_dict (n : nat) : list (expr * expr) :=
  map (fun i => (Var ("y" ++ string_of_nat i)%string, Var "x")) (seq 0 n).

(** A model with another [model_dict]. *)
Definition with_model_dict (m : CallableModel) (d : list (expr * expr))
  : CallableModel :=
  {| base := {| model_dict := d;
                independent_vars := independent_vars m;
                dependent_vars := dependent_vars m;
                interdependent_vars := interdependent_vars m;
                params := params m;
                sigmas := sigmas m |};
     signature := signature m |}.

Definition negated (ke : expr * expr) : expr * expr :=
  (fst ke, mk_mul (snd ke) (Num (-1))).

(** What [eval_components] hands over to the integrator for [dy/dx = a]
    at the times [t_like] and the parameter value [a]. *)
Definition growth_problem (t_like : list Z) (a : Z) : ode_problem :=
  match ode_problem_of growth_model [Array t_like] [("a", Scalar a)] with
  | Ok p => p
  | Raise _ => {| p_f := fun _ _ => Raise ValueError;
                  p_Dfun := fun _ _ => Raise ValueError;
                  p_initial_dependent := [];
                  p_t_initial := 0%Z;
                  p_t_like := [];
                  p_ncols := 0 |}
  end.

(* ================================================================= *)
(** ** Chains of dependencies *)

(** [chain R s n]: a chain of [n] steps of [R] starts at [s]; with [R]
    the dependency of a symbol on another symbol, a chain of [n]
    dependencies below [s]. *)
Inductive chain (R : expr -> expr -> Prop) : expr -> nat -> Prop :=
| chain_0 s : chain R s 0
| chain_S s d n : R s d -> chain R d n -> chain R s (S n).

(** The longest chain that starts at [s] has [n] steps. *)
Definition depth (R : expr -> expr -> Prop) (s : expr) (n : nat) : Prop :=
  chain R s n /\ ~ chain R s (S n).

(** The symbols of a mapping: its keys and the symbols they depend on. *)
Definition symbol_of (g : list (expr * list expr)) (s : expr) : Prop :=
  In s (keys g) \/ exists v, edge g v s.

(* ================================================================= *)
(** ** Calls *)

(** The arguments of a call give every parameter of the signature one
    value and no more: there are no more positional arguments than
    parameters, and the keywords are the names of the parameters that
    the positional arguments leave over. *)
Definition binds (ps : list sig_param) (args : list value)
  (kwargs : list (string * value)) : Prop :=
  length args <= length ps /\
  forall k, has_key k kwargs = true <-> In k (map pname (skipn (length args) ps)).

(** [-v] on a numpy value. *)
Definition vneg (v : value) : value := vmap Z.opp v.

(** [{y: a*x, z: y + a}], a model in which [z] is computed from [y]. *)
Definition chained_sum_dict : list (expr * expr) :=
  [(Var "y", Mul (Par "a") (Var "x"));
   (Var "z", Add (Var "y") (Par "a"))].

(** [{y: a*x + b}] *)
Definition linear_dict : list (expr * expr) :=
  [(Var "y", Add (Mul (Par "a") (Var "x")) (Par "b"))].

Definition linear_model : CallableModel :=
  {| base := {| model_dict := linear_dict;
                independent_vars := [Var "x"];
                dependent_vars := [Var "y"];
                interdependent_vars := [];
                params := [Par "a"; Par "b"];
                sigmas := [(Var "y", Var "sigma_y")] |};
     signature := [{| pname := "x"; kind := POSITIONAL_OR_KEYWORD; default := None |};
                   {| pname := "a"; kind := POSITIONAL_OR_KEYWORD; default := None |};
                   {| pname := "b"; kind := POSITIONAL_OR_KEYWORD; default := None |}] |}.

(* ================================================================= *)
(** ** Function forms *)

(** [vars2functions.get(dependency, dependency)] *)
Definition promote (vars2functions : list (expr * expr)) (dependency : expr) : expr :=
  match lookup dependency vars2functions with
  | Some f => f
  | None => dependency
  end.

(** An expression that holds no applied function. *)
Fixpoint func_free (e : expr) : bool :=
  match e with
  | Add a b => func_free a && func_free b
  | Mul a b => func_free a && func_free b
  | Pow a _ => func_free a
  | Func _ _ => false
  | Derivative e' vs => func_free e' && forallb func_free vs
  | _ => true
  end.

(** [dict((v, k) for k, v in d.items())] for a dict whose values differ. *)
Definition inverse_dict (d : list (expr * expr)) : list (expr * expr) :=
  map (fun kv => (snd kv, fst kv)) d.

(* ================================================================= *)
(** ** GradientModel.jacobian *)

(** [self.jacobian_model[partial_dv]], which goes through
    [BaseModel.__getitem__]. *)
Definition BaseModel_getitem (m : BaseModel) (var : expr) : result expr :=
  match lookup var (model_dict m) with
  | Some e => Ok e
  | None => Raise KeyError
  end.

(** [GradientModel.jacobian]: the symbolic Jacobian, one row for each
    component and one entry for each parameter. *)
Definition jacobian (m : GradientModel) : result (list (list expr)) :=
  mapM (fun ve =>
          mapM (fun param => BaseModel_getitem (jacobian_model m) (D (fst ve) [param]))
               (params m))
       (model_dict m).

(** An expression made of numbers, symbols, sums, products and powers. *)
Fixpoint polynomial (e : expr) : bool :=
  match e with
  | Num _ | Var _ | Par _ => true
  | Add a b => polynomial a && polynomial b
  | Mul a b => polynomial a && polynomial b
  | Pow a _ => polynomial a
  | Func _ _ | Derivative _ _ => false
  end.

(* ================================================================= *)
(** ** More of ODEModel *)

(** [{D(y, t): a, D(y, x): b}]: two equations for the same variable. *)
Definition twice_y_dict : list (expr * expr) :=
  [(Derivative (Var "y") [Var "t"], Par "a");
   (Derivative (Var "y") [Var "x"], Par "b")].

(* ================================================================= *)
(** ** BaseModel.shared_parameters and BaseModel.vars *)

(** [set(a).intersection(set(b))], as a truth value. *)
Definition intersects (a b : list expr) : bool := existsb (fun x => mem x b) a.

(** The loop of [shared_parameters] over [self.values()]; the [else] of
    the loop returns [False]. *)
Fixpoint shared_loop (components : list expr) (params_thusfar : list expr) : bool :=
  match components with
  | [] => false
  | component :: components' =>
      let (vars, params) := seperate_symbols component in
      if intersects params params_thusfar then true
      else shared_loop components' (params_thusfar ++ params)
  end.

(** [BaseModel.shared_parameters] *)
Definition shared_parameters (m : BaseModel) : bool :=
  if Nat.eqb (length (model_dict m)) 1 then false
  else shared_loop (map snd (model_dict m)) [].

(** [BaseModel.vars] *)
Definition vars (m : BaseModel) : result (list expr) :=
  s <- mapM (fun var => match lookup var (sigmas m) with
                        | Some sigma => Ok sigma
                        | None => Raise KeyError
                        end) (dependent_vars m) ;;
  Ok (independent_vars m ++ dependent_vars m ++ s).

(** [p] is a parameter of the expression [e]. *)
Definition parameter_of (e p : expr) : Prop :=
  is_Parameter p = true /\ In p (free_symbols e).

(** A component that holds a Variable and a Parameter of one name. *)
Definition clash_dict : list (expr * expr) :=
  [(Var "y", Mul (Par "x") (Var "x"))].

(** The names [.0], [.1], ... that [inspect] keeps for the implicit
    arguments of comprehensions. *)
Definition implicit_name (s : string) : bool :=
  match s with
  | String "." r => negb (String.eqb r "") && forallb is_digit (list_ascii_of_string r)
  | _ => false
  end.

(** A name on which [inspect_Parameter] is what [inspect.Parameter]
    does: not empty, written in ASCII and not kept for an implicit
    argument. *)
Definition plain_name (s : string) : bool :=
  negb (String.eqb s "") && isascii s && negb (implicit_name s).

(* ================================================================= *)
(** ** ODEModel.__neg__ *)

(** [ODEModel.__neg__].  As for [CallableModel_neg], the first component
    is the receiver's [model_dict] once the method has run, the second
    the model that is returned; the new model is given the receiver's
    initial values. *)
Definition ODEModel_neg (self : ODEModel)
  : list (expr * expr) * result ODEModel :=
  let new_model_dict := ode_model_dict self in     (* self.model_dict.copy() *)
  let new_model_dict :=
    fold_left (fun d key =>
                 match lookup key d with
                 | Some e => dict_set key (mk_mul e (Num (-1))) d
                 | None => d
                 end)
              (keys new_model_dict) new_model_dict in
  (ode_model_dict self, ODEModel_init new_model_dict (ode_initial self)).

(* ================================================================= *)
(** ** BaseModel as a Mapping *)

(** [BaseModel.__len__] *)
Definition BaseModel_len (m : BaseModel) : nat := length (model_dict m).

(** [BaseModel.__iter__] *)
Definition BaseModel_iter (m : BaseModel) : list expr := keys (model_dict m).

(** [self.values()], which [Mapping] computes from [__iter__] and
    [__getitem__]. *)
Definition BaseModel_values (m : BaseModel) : result (list expr) :=
  mapM (BaseModel_getitem m) (BaseModel_iter m).

(* ================================================================= *)
(** ** Time axes of the integrator *)

(** A time axis that scipy's [odeint] takes: monotonically increasing or
    monotonically decreasing, repeated values allowed. *)
Definition monotonic (ts : list Z) : Prop :=
  StronglySorted Z.le ts \/ StronglySorted Z.ge ts.

(** An integrator that is exact on the time axes that it takes: there
    the states it returns are those of the trajectory
    [solution f y0 t0]; of what it does with another axis nothing is
    asked. *)
Definition exact_on_monotonic
  (odeint : (list Z -> Z -> result (list Z)) -> list Z -> list Z ->
            (list Z -> Z -> result (list (list Z))) -> result (list (list Z)))
  (solution : (list Z -> Z -> result (list Z)) -> list Z -> Z -> Z -> list Z) : Prop :=
  forall f y0 Dfun t0 ts,
    solution f y0 t0 t0 = y0 /\
    (monotonic (t0 :: ts) ->
     odeint f y0 (t0 :: ts) Dfun = Ok (map (solution f y0 t0) (t0 :: ts))).

Fixpoint ascending (ts : list Z) : bool :=
  match ts with
  | [] => true
  | a :: r => match r with
              | [] => true
              | b :: _ => Z.leb a b && ascending r
              end
  end.

Fixpoint descending (ts : list Z) : bool :=
  match ts with
  | [] => true
  | a :: r => match r with
              | [] => true
              | b :: _ => Z.leb b a && descending r
              end
  end.

(** An integrator that refuses a time axis that is not monotonic, and
    follows the derivative at the initial state on one that is. *)
Definition checked_odeint (f : list Z -> Z -> result (list Z)) (y0 : list Z)
  (ts : list Z) (Dfun : list Z -> Z -> result (list (list Z)))
  : result (list (list Z)) :=
  if ascending ts || descending ts then linear_odeint f y0 ts Dfun
  else Raise ValueError.

(** [{z: sigma_z*a}]: a model that holds the Variable that stands for
    the standard deviation of its own dependent variable. *)
Definition sigma_dict : list (expr * expr) :=
  [(Var "z", Mul (Par "a") (Var "sigma_z"))].

(** [{_y: a*x}]: a key that cannot name the field of a namedtuple. *)
Definition underscore_dict : list (expr * expr) :=
  [(Var "_y", Mul (Par "a") (Var "x"))].

(** A name that [namedtuple] takes for a field. *)
Definition field_name (n : string) : bool :=
  isidentifier n && negb (iskeyword n) && negb (String.prefix "_" n).

(* ================================================================= *)
(** * Properties *)

Unset Implicit Arguments.

(** ** Structural equality of expressions *)

Lemma lex_Eq c1 c2 : lex c1 c2 = Eq <-> c1 = Eq /\ c2 = Eq.
Proof. destruct c1; simpl; intuition congruence. Qed.

Lemma string_compare_refl s : String.compare s s = Eq.
Proof.
  pose proof (String.compare_antisym s s) as H.
  destruct (String.compare s s); simpl in H; congruence.
Qed.

Lemma expr_compare_Func f g l1 l2 :
  expr_compare (Func f l1) (Func g l2) = lex (String.compare f g) (list_compare l1 l2).
Proof. reflexivity. Qed.

Lemma expr_compare_Derivative a c l1 l2 :
  expr_compare (Derivative a l1) (Derivative c l2)
  = lex (expr_compare a c) (list_compare l1 l2).
Proof. reflexivity. Qed.

Lemma expr_compare_refl x : expr_compare x x = Eq.
Proof.
  induction x using expr_ind'.
  - apply Z.compare_refl.
  - apply string_compare_refl.
  - apply string_compare_refl.
  - cbn [expr_compare]. now rewrite IHx1, IHx2.
  - cbn [expr_compare]. now rewrite IHx1, IHx2.
  - cbn [expr_compare]. now rewrite IHx, Nat.compare_refl.
  - rewrite expr_compare_Func, string_compare_refl. cbn [lex].
    induction H as [|a l Ha Hl IH]; cbn [list_compare]; [reflexivity|].
    now rewrite Ha, IH.
  - rewrite expr_compare_Derivative, IHx. cbn [lex].
    induction H as [|a l Ha Hl IH]; cbn [list_compare]; [reflexivity|].
    now rewrite Ha, IH.
Qed.

Lemma list_compare_eq l1 :
  Forall (fun x => forall y, expr_compare x y = Eq -> x = y) l1 ->
  forall l2, list_compare l1 l2 = Eq -> l1 = l2.
Proof.
  induction 1 as [|a l Ha Hl IH]; intros [|b l2]; cbn [list_compare];
    try discriminate; [reflexivity|].
  intros E. apply lex_Eq in E as [E1 E2].
  f_equal; [now apply Ha | now apply IH].
Qed.

Lemma expr_compare_eq x : forall y, expr_compare x y = Eq -> x = y.
Proof.
  induction x using expr_ind'; intros y E; destruct y;
    try (cbn in E; discriminate).
  - cbn in E. apply Z.compare_eq in E. congruence.
  - cbn in E. apply String.compare_eq_iff in E. congruence.
  - cbn in E. apply String.compare_eq_iff in E. congruence.
  - cbn [expr_compare] in E. apply lex_Eq in E as [E1 E2].
    f_equal; auto.
  - cbn [expr_compare] in E. apply lex_Eq in E as [E1 E2].
    f_equal; auto.
  - cbn [expr_compare] in E. apply lex_Eq in E as [E1 E2].
    apply Nat.compare_eq in E2. f_equal; auto.
  - rewrite expr_compare_Func in E. apply lex_Eq in E as [E1 E2].
    apply String.compare_eq_iff in E1. f_equal; [assumption|].
    now apply list_compare_eq.
  - rewrite expr_compare_Derivative in E. apply lex_Eq in E as [E1 E2].
    f_equal; [now apply IHx | now apply list_compare_eq].
Qed.

Lemma expr_eqb_eq x y : expr_eqb x y = true <-> x = y.
Proof.
  unfold expr_eqb. split.
  - destruct (expr_compare x y) eqn:E; try discriminate.
    intros _. now apply expr_compare_eq.
  - intros ->. now rewrite expr_compare_refl.
Qed.

Lemma expr_eqb_refl x : expr_eqb x x = true.
Proof. now apply expr_eqb_eq. Qed.

Lemma expr_eqb_neq x y : expr_eqb x y = false <-> x <> y.
Proof.
  split.
  - intros E ->. rewrite expr_eqb_refl in E. discriminate.
  - intros N. destruct (expr_eqb x y) eqn:E; [|reflexivity].
    apply expr_eqb_eq in E. contradiction.
Qed.

Lemma expr_eq_dec (x y : expr) : {x = y} + {x <> y}.
Proof.
  destruct (expr_eqb x y) eqn:E.
  - left. now apply expr_eqb_eq.
  - right. now apply expr_eqb_neq.
Qed.

(** ** Sets as duplicate-free lists *)

Lemma mem_In x l : mem x l = true <-> In x l.
Proof.
  unfold mem. rewrite existsb_exists. split.
  - intros (y & Hy & E). apply expr_eqb_eq in E. now subst.
  - intros H. exists x. split; [assumption | apply expr_eqb_refl].
Qed.

Lemma mem_not_In x l : mem x l = false <-> ~ In x l.
Proof.
  rewrite <- mem_In. destruct (mem x l); intuition congruence.
Qed.

Lemma set_of_In x l : In x (set_of l) <-> In x l.
Proof.
  induction l as [|a l IH]; cbn [set_of]; [tauto|].
  destruct (mem a l) eqn:E.
  - rewrite IH. apply mem_In in E. cbn. intuition (subst; auto).
  - cbn. rewrite IH. tauto.
Qed.

Lemma set_of_NoDup l : NoDup (set_of l).
Proof.
  induction l as [|a l IH]; cbn [set_of]; [constructor|].
  destruct (mem a l) eqn:E; [assumption|].
  constructor; [|assumption].
  rewrite set_of_In. now apply mem_not_In.
Qed.

Lemma set_of_id l : NoDup l -> set_of l = l.
Proof.
  induction 1 as [|a l Ha Hl IH]; cbn [set_of]; [reflexivity|].
  apply mem_not_In in Ha. rewrite Ha. now f_equal.
Qed.

Lemma set_diff_In x a b : In x (set_diff a b) <-> In x a /\ ~ In x b.
Proof.
  unfold set_diff. rewrite filter_In, negb_true_iff, mem_not_In. tauto.
Qed.

Lemma set_diff_NoDup a b : NoDup a -> NoDup (set_diff a b).
Proof. apply NoDup_filter. Qed.

(** ** Lists *)

Lemma filter_length_lt {A} (f : A -> bool) l x :
  In x l -> f x = false -> length (filter f l) < length l.
Proof.
  induction l as [|a l IH]; cbn; [tauto|].
  intros [->|H] E.
  - rewrite E. pose proof (filter_length_le f l). lia.
  - specialize (IH H E). destruct (f a); cbn; lia.
Qed.

Lemma NoDup_keys_filter {V} (f : expr * V -> bool) (d : list (expr * V)) :
  NoDup (keys d) -> NoDup (keys (filter f d)).
Proof.
  unfold keys. induction d as [|a d IH]; cbn; [constructor|].
  intros H. inversion H as [|? ? Hn Hd]; subst.
  destruct (f a); cbn; [|now apply IH].
  constructor; [|now apply IH].
  intros Hin. apply Hn. apply in_map_iff in Hin as (y & E & Hy).
  apply filter_In in Hy as [Hy _]. apply in_map_iff. now exists y.
Qed.

Lemma NoDup_keys_unique {V} (d : list (expr * V)) k v1 v2 :
  NoDup (keys d) -> In (k, v1) d -> In (k, v2) d -> v1 = v2.
Proof.
  unfold keys. induction d as [|[k' v'] d IH]; cbn; [tauto|].
  intros H. inversion H as [|? ? Hn Hd]; subst.
  intros [E1|H1] [E2|H2].
  - congruence.
  - inversion E1; subst. exfalso. apply Hn. apply in_map_iff. now exists (k, v2).
  - inversion E2; subst. exfalso. apply Hn. apply in_map_iff. now exists (k, v1).
  - now apply IH.
Qed.

Lemma in_keys {V} (d : list (expr * V)) k :
  In k (keys d) <-> exists v, In (k, v) d.
Proof.
  unfold keys. rewrite in_map_iff. split.
  - intros ([k' v] & E & H). cbn in E. subst. now exists v.
  - intros (v & H). now exists (k, v).
Qed.

(** ** The loop of toposort *)

Lemma no_dependencies_In data k :
  In k (no_dependencies data) <-> In (k, []) data.
Proof.
  unfold no_dependencies. rewrite in_keys. split.
  - intros (v & H). apply filter_In in H as [H E]. cbn in E.
    destruct v; [assumption | discriminate].
  - intros H. exists []. apply filter_In. now split.
Qed.

Lemma remove_ordered_In o data k deps' :
  In (k, deps') (remove_ordered o data) <->
  exists deps, In (k, deps) data /\ ~ In k o /\ deps' = set_diff deps o.
Proof.
  unfold remove_ordered. rewrite in_map_iff. split.
  - intros ([k0 deps] & E & H). cbn in E. inversion E; subst.
    apply filter_In in H as [H N]. cbn in N.
    apply negb_true_iff, mem_not_In in N. now exists deps.
  - intros (deps & H & N & ->). exists (k, deps). split; [reflexivity|].
    apply filter_In. split; [assumption|]. cbn.
    now apply negb_true_iff, mem_not_In.
Qed.

Lemma remove_ordered_keys o data k :
  In k (keys (remove_ordered o data)) <-> In k (keys data) /\ ~ In k o.
Proof.
  rewrite !in_keys. split.
  - intros (v & H). apply remove_ordered_In in H as (deps & H & N & _).
    split; [now exists deps | assumption].
  - intros [(v & H) N]. exists (set_diff v o). apply remove_ordered_In. now exists v.
Qed.

Lemma remove_ordered_NoDup o data :
  NoDup (keys data) -> NoDup (keys (remove_ordered o data)).
Proof.
  intros H. unfold remove_ordered, keys. rewrite map_map. cbn.
  now apply (NoDup_keys_filter (fun kv => negb (mem (fst kv) o))) in H.
Qed.

Lemma remove_ordered_closed o data :
  closed data -> closed (remove_ordered o data).
Proof.
  intros C k deps' d H Hd.
  apply remove_ordered_In in H as (deps & H & N & ->).
  apply set_diff_In in Hd as [Hd Nd].
  apply remove_ordered_keys. split; [|assumption]. eapply C; eassumption.
Qed.

Lemma remove_ordered_length data :
  no_dependencies data <> [] ->
  length (remove_ordered (no_dependencies data) data) < length data.
Proof.
  intros N. destruct (no_dependencies data) as [|k o] eqn:E; [congruence|].
  assert (Hk : In k (no_dependencies data)) by (rewrite E; now left).
  rewrite <- E. apply no_dependencies_In in Hk.
  unfold remove_ordered. rewrite length_map.
  apply filter_length_lt with (x := (k, [])); [assumption|]. cbn.
  apply negb_false_iff, mem_In, no_dependencies_In. assumption.
Qed.

(** The fuel is enough: with at least [length data] turns the loop runs
    as with any larger number of turns. *)
Lemma toposort_loop_fuel fuel1 : forall fuel2 data,
  length data <= fuel1 -> length data <= fuel2 ->
  toposort_loop fuel1 data = toposort_loop fuel2 data.
Proof.
  induction fuel1 as [|n IH]; intros fuel2 data H1 H2.
  - destruct data; [|cbn in H1; lia]. now destruct fuel2.
  - destruct fuel2 as [|m].
    + destruct data; [|cbn in H2; lia]. reflexivity.
    + cbn [toposort_loop].
      destruct (no_dependencies data) as [|k o] eqn:E; [reflexivity|].
      assert (L : length (remove_ordered (k :: o) data) < length data).
      { rewrite <- E. apply remove_ordered_length. congruence. }
      rewrite (IH m); [reflexivity | lia | lia].
Qed.

(** The equation of the [while True] loop. *)
Lemma toposort_loop_unfold data :
  toposort_loop (length data) data =
  match no_dependencies data with
  | [] => match data with [] => Ok [] | _ :: _ => Raise CircularDependencyError end
  | ordered =>
      let data' := remove_ordered ordered data in
      rest <- toposort_loop (length data') data' ;; Ok (ordered :: rest)
  end.
Proof.
  destruct (no_dependencies data) as [|k o] eqn:E.
  - destruct data; cbn [length toposort_loop]; [reflexivity|]. now rewrite E.
  - assert (L : length (remove_ordered (k :: o) data) < length data).
    { rewrite <- E. apply remove_ordered_length. congruence. }
    destruct data as [|a data]; [discriminate|].
    cbn [length toposort_loop]. rewrite E. cbn zeta.
    rewrite toposort_loop_fuel
      with (fuel2 := length (remove_ordered (k :: o) (a :: data)));
      [reflexivity | | lia].
    cbn [length] in L. lia.
Qed.

(** *** What a run of the loop that ends well has yielded *)

Lemma toposort_loop_ok fuel : forall data L,
  NoDup (keys data) -> closed data ->
  toposort_loop fuel data = Ok L ->
  (forall k, In k (concat L) <-> In k (keys data)) /\
  NoDup (concat L) /\
  (forall k deps d, In (k, deps) data -> In d deps -> before_layers d k L).
Proof.
  induction fuel as [|n IH]; intros data L ND C E.
  - destruct data; [|discriminate]. inversion E; subst. cbn.
    split; [intros; tauto | split; [constructor | intros k deps d []]].
  - cbn [toposort_loop] in E.
    destruct (no_dependencies data) as [|k0 o] eqn:Eo.
    + destruct data; [|discriminate]. inversion E; subst. cbn.
      split; [intros; tauto | split; [constructor | intros k deps d []]].
    + rewrite <- Eo in E.
      set (ordered := no_dependencies data) in *.
      destruct (toposort_loop n (remove_ordered ordered data)) as [L'|e] eqn:E';
        [|discriminate].
      cbn in E. inversion E; subst L. clear E.
      destruct (IH _ _ (remove_ordered_NoDup ordered data ND)
                  (remove_ordered_closed ordered data C) E') as (I1 & I2 & I3).
      assert (Hord : forall k, In k ordered -> In k (keys data)).
      { intros k Hk. apply no_dependencies_In in Hk. apply in_keys. eauto. }
      split; [|split].
      * intros k. cbn [concat]. rewrite in_app_iff, I1, remove_ordered_keys.
        destruct (in_dec expr_eq_dec k ordered); intuition.
      * cbn [concat]. apply NoDup_app; [| assumption |].
        -- unfold ordered, no_dependencies. now apply NoDup_keys_filter.
        -- intros k Hk Hk'. apply I1, remove_ordered_keys in Hk'. tauto.
      * intros k deps d Hk Hd.
        assert (Nk : ~ In k ordered).
        { intros Hk'. apply no_dependencies_In in Hk'.
          rewrite (NoDup_keys_unique data k deps [] ND Hk Hk') in Hd. destruct Hd. }
        assert (Hk' : In (k, set_diff deps ordered) (remove_ordered ordered data)).
        { apply remove_ordered_In. eauto. }
        destruct (in_dec expr_eq_dec d ordered) as [Hdo|Hdo].
        -- exists [ordered], L'. cbn. rewrite app_nil_r. repeat split; auto.
           apply I1, in_keys. eauto.
        -- destruct (I3 k (set_diff deps ordered) d Hk') as (L1 & L2 & -> & H1 & H2).
           { apply set_diff_In. tauto. }
           exists (ordered :: L1), L2. cbn. rewrite in_app_iff. auto.
Qed.

(** *** A set of items that each depend on another one of the set is
    never ordered *)

Lemma toposort_loop_trapped (P : expr -> Prop) fuel : forall data,
  (exists v, P v) ->
  (forall u, P u ->
     In u (keys data) /\
     forall deps, In (u, deps) data -> exists d, In d deps /\ P d) ->
  toposort_loop fuel data = Raise CircularDependencyError.
Proof.
  induction fuel as [|n IH]; intros data [v Hv] T.
  - cbn. destruct data; [|reflexivity].
    destruct (T v Hv) as [[] _].
  - cbn [toposort_loop].
    destruct (no_dependencies data) as [|k0 o] eqn:Eo.
    + destruct data; [|reflexivity]. destruct (T v Hv) as [[] _].
    + rewrite <- Eo. set (ordered := no_dependencies data).
      assert (NP : forall u, P u -> ~ In u ordered).
      { intros u Hu Hin. apply no_dependencies_In in Hin.
        destruct (T u Hu) as [_ Tu]. destruct (Tu [] Hin) as (d & [] & _). }
      rewrite IH; [reflexivity | eauto |].
      intros u Hu. destruct (T u Hu) as [Ku Tu]. split.
      * apply remove_ordered_keys. split; [assumption | now apply NP].
      * intros deps' H. apply remove_ordered_In in H as (deps & H & _ & ->).
        destruct (Tu deps H) as (d & Hd & Pd). exists d. split; [|assumption].
        apply set_diff_In. split; [assumption | now apply NP].
Qed.

(** *** A run of the loop that ends badly has met a cycle *)

Lemma walk_tail R a l : l <> [] -> walk R (a :: l) -> walk R l.
Proof.
  intros N W. inversion W; subst; [congruence | assumption].
Qed.

Lemma walk_suffix R l1 : forall l2, l2 <> [] -> walk R (l1 ++ l2) -> walk R l2.
Proof.
  induction l1 as [|a l1 IH]; intros l2 N W; [assumption|].
  apply IH; [assumption|]. cbn in W. apply walk_tail in W; [assumption|].
  destruct l1; cbn; [assumption | discriminate].
Qed.

Lemma walk_clos R l : forall a b, walk R (a :: l) -> In b l -> clos_trans expr R a b.
Proof.
  induction l as [|y l IH]; intros a b W Hb; [destruct Hb|].
  inversion W; subst. destruct Hb as [->|Hb].
  - now apply t_step.
  - eapply t_trans; [apply t_step; eassumption | now apply IH].
Qed.

Lemma walk_extend R ks n : forall k,
  (forall k, In k ks -> exists d, R k d /\ In d ks) ->
  In k ks ->
  exists w, length w = n /\ walk R (k :: w) /\ incl (k :: w) ks.
Proof.
  induction n as [|n IH]; intros k S Hk.
  - exists []. repeat split; [constructor|]. intros x [->|[]]. assumption.
  - destruct (S k Hk) as (d & Rd & Hd).
    destruct (IH d S Hd) as (w & Lw & Ww & Iw).
    exists (d :: w). repeat split.
    + cbn. now rewrite Lw.
    + now constructor.
    + intros x [->|Hx]; [assumption | now apply Iw].
Qed.

Lemma serial_cycle R (ks : list expr) :
  ks <> [] ->
  (forall k, In k ks -> exists d, R k d /\ In d ks) ->
  exists v, clos_trans expr R v v.
Proof.
  intros N S. destruct ks as [|k0 ks0] eqn:E; [congruence|]. rewrite <- E in *.
  assert (H0 : In k0 ks) by (rewrite E; now left).
  destruct (walk_extend R ks (length ks) k0 S H0) as (w & Lw & Ww & Iw).
  assert (ND : ~ NoDup (k0 :: w)).
  { intros ND. apply NoDup_incl_length with (l' := ks) in ND; [|assumption].
    cbn in ND. lia. }
  apply not_NoDup in ND as (a & l1 & l2 & l3 & El).
  - exists a. rewrite El in Ww.
    apply walk_suffix in Ww; [|discriminate].
    eapply walk_clos; [eassumption|]. apply in_app_iff. right. now left.
  - intros x y. destruct (expr_eq_dec x y); [now left | now right].
Qed.

Lemma edge_remove_ordered o data k d :
  edge (remove_ordered o data) k d -> edge data k d.
Proof.
  intros (deps' & H & Hd). apply remove_ordered_In in H as (deps & H & _ & ->).
  apply set_diff_In in Hd as [Hd _]. now exists deps.
Qed.

Lemma clos_trans_incl (R S : expr -> expr -> Prop) :
  (forall x y, R x y -> S x y) ->
  forall x y, clos_trans expr R x y -> clos_trans expr S x y.
Proof.
  intros I x y H. induction H.
  - apply t_step. now apply I.
  - eapply t_trans; eassumption.
Qed.

Lemma stuck_cycle data :
  data <> [] -> closed data -> no_dependencies data = [] ->
  exists v, clos_trans expr (edge data) v v.
Proof.
  intros N C E. apply serial_cycle with (ks := keys data).
  - destruct data; [congruence | discriminate].
  - intros k Hk. apply in_keys in Hk as (deps & Hk).
    destruct deps as [|d deps].
    + apply no_dependencies_In in Hk. rewrite E in Hk. destruct Hk.
    + exists d. split.
      * exists (d :: deps). split; [assumption | now left].
      * eapply C; [eassumption | now left].
Qed.

Lemma toposort_loop_raise fuel : forall data e,
  length data <= fuel -> closed data ->
  toposort_loop fuel data = Raise e ->
  e = CircularDependencyError /\ exists v, clos_trans expr (edge data) v v.
Proof.
  induction fuel as [|n IH]; intros data e Len C E.
  - destruct data; [discriminate | cbn in Len; lia].
  - cbn [toposort_loop] in E.
    destruct (no_dependencies data) as [|k0 o] eqn:Eo.
    + destruct data as [|a data]; [discriminate|]. inversion E; subst.
      split; [reflexivity|]. apply stuck_cycle; [discriminate | assumption | assumption].
    + rewrite <- Eo in E.
      assert (L : length (remove_ordered (no_dependencies data) data) < length data).
      { apply remove_ordered_length. congruence. }
      destruct (toposort_loop n (remove_ordered (no_dependencies data) data))
        as [L'|e'] eqn:E'; [discriminate|].
      cbn in E. inversion E; subst e'.
      assert (Len' : length (remove_ordered (no_dependencies data) data) <= n) by lia.
      destruct (IH _ _ Len' (remove_ordered_closed _ _ C) E') as (-> & v & Hv).
      split; [reflexivity|]. exists v.
      eapply clos_trans_incl; [|eassumption]. apply edge_remove_ordered.
Qed.

(** ** toposort *)

Lemma discard_self_In g k deps' :
  In (k, deps') (discard_self g) <->
  exists deps, In (k, deps) g /\ deps' = set_diff deps [k].
Proof.
  unfold discard_self. rewrite in_map_iff. split.
  - intros ([k0 deps] & E & H). cbn in E. inversion E; subst. now exists deps.
  - intros (deps & H & ->). now exists (k, deps).
Qed.

Lemma discard_self_keys g : keys (discard_self g) = keys g.
Proof. unfold discard_self, keys. rewrite map_map. reflexivity. Qed.

Lemma add_extra_items_In data k deps :
  In (k, deps) (add_extra_items data) <->
  In (k, deps) data \/ (deps = [] /\ In k (extra_items_in_deps data)).
Proof.
  unfold add_extra_items. rewrite in_app_iff, in_map_iff. split.
  - intros [H|(x & E & H)]; [now left|]. inversion E; subst. now right.
  - intros [H|[-> H]]; [now left|]. right. now exists k.
Qed.

Lemma extra_items_In data k :
  In k (extra_items_in_deps data) <->
  (exists v, edge data v k) /\ ~ In k (keys data).
Proof.
  unfold extra_items_in_deps. rewrite set_diff_In, set_of_In, in_flat_map.
  split; intros [H N]; (split; [|assumption]).
  - destruct H as ([v deps] & H & Hk). exists v, deps. now split.
  - destruct H as (v & deps & H & Hk). exists (v, deps). now split.
Qed.

Lemma add_extra_items_keys data k :
  In k (keys (add_extra_items data)) <->
  In k (keys data) \/ exists v, edge data v k.
Proof.
  rewrite in_keys. split.
  - intros (deps & H). apply add_extra_items_In in H as [H|[_ H]].
    + left. apply in_keys. eauto.
    + right. now apply extra_items_In in H.
  - intros [H|H].
    + apply in_keys in H as (deps & H). exists deps. apply add_extra_items_In. now left.
    + destruct (in_dec expr_eq_dec k (keys data)) as [Hk|Hk].
      * apply in_keys in Hk as (deps & Hk). exists deps.
        apply add_extra_items_In. now left.
      * exists []. apply add_extra_items_In. right. split; [reflexivity|].
        now apply extra_items_In.
Qed.

Lemma add_extra_items_NoDup data :
  NoDup (keys data) -> NoDup (keys (add_extra_items data)).
Proof.
  intros ND. unfold add_extra_items, keys. rewrite map_app, map_map. cbn.
  rewrite map_id. apply NoDup_app; [assumption | |].
  - unfold extra_items_in_deps. apply set_diff_NoDup, set_of_NoDup.
  - intros k H1 H2. apply extra_items_In in H2 as [_ N]. now apply N.
Qed.

Lemma add_extra_items_closed data : closed (add_extra_items data).
Proof.
  intros k deps d H Hd. apply add_extra_items_keys.
  apply add_extra_items_In in H as [H|[-> _]]; [|destruct Hd].
  right. exists k, deps. now split.
Qed.

Lemma edge_add_extra_items data k d :
  edge (add_extra_items data) k d <-> edge data k d.
Proof.
  split; intros (deps & H & Hd).
  - apply add_extra_items_In in H as [H|[-> _]]; [|destruct Hd]. now exists deps.
  - exists deps. split; [|assumption]. apply add_extra_items_In. now left.
Qed.

Lemma edge_discard_self g k d :
  edge (discard_self g) k d <-> proper_edge g k d.
Proof.
  split.
  - intros (deps' & H & Hd). apply discard_self_In in H as (deps & H & ->).
    apply set_diff_In in Hd as [Hd N]. split; [now exists deps|].
    intros ->. apply N. now left.
  - intros [(deps & H & Hd) N]. exists (set_diff deps [k]). split.
    + apply discard_self_In. now exists deps.
    + apply set_diff_In. split; [assumption|]. intros [E|[]]. now apply N.
Qed.

Lemma edge_prepared g k d :
  edge (add_extra_items (discard_self g)) k d <-> proper_edge g k d.
Proof. now rewrite edge_add_extra_items, edge_discard_self. Qed.

Lemma clos_trans_first (R : expr -> expr -> Prop) x z :
  clos_trans expr R x z -> exists y, R x y /\ (y = z \/ clos_trans expr R y z).
Proof.
  induction 1 as [x y H|x y z H1 IH1 H2 IH2].
  - exists y. auto.
  - destruct IH1 as (y1 & Hy & [E|Hc]); exists y1; (split; [assumption|]); right.
    + now subst.
    + eapply t_trans; eassumption.
Qed.

(** A cycle through dependencies between different symbols makes
    toposort fail. *)
Lemma toposort_cycle g :
  NoDup (keys g) ->
  (exists v, clos_trans expr (proper_edge g) v v) ->
  toposort g = Raise CircularDependencyError.
Proof.
  intros ND [v0 Hc]. unfold toposort.
  destruct g as [|a g0] eqn:Eg.
  { apply clos_trans_first in Hc as (y & [(deps & [] & _) _] & _). }
  rewrite <- Eg in *. clear Eg a g0.
  set (pe := proper_edge g) in *.
  apply toposort_loop_trapped
    with (P := fun u => clos_trans expr pe u v0 /\ clos_trans expr pe v0 u).
  - exists v0. now split.
  - intros u [Hu1 Hu2].
    destruct (clos_trans_first pe u v0 Hu1) as (d & [(deps & Hin & Hd) Nd] & Hdv).
    split.
    + apply add_extra_items_keys. left. rewrite discard_self_keys.
      apply in_keys. eauto.
    + intros deps' H. exists d.
      assert (Pd : clos_trans expr pe d v0 /\ clos_trans expr pe v0 d).
      { split.
        - destruct Hdv as [->|Hdv]; assumption.
        - eapply t_trans; [eassumption|]. apply t_step. split; [now exists deps | assumption]. }
      split; [|assumption].
      apply add_extra_items_In in H as [H|[_ H]].
      * apply discard_self_In in H as (deps0 & H & ->).
        rewrite (NoDup_keys_unique g u deps0 deps ND H Hin).
        apply set_diff_In. split; [assumption|]. intros [E|[]]. now apply Nd.
      * apply extra_items_In in H as [_ N]. exfalso. apply N.
        rewrite discard_self_keys. apply in_keys. eauto.
Qed.

Lemma prepared_length g :
  length g <= length (add_extra_items (discard_self g)).
Proof.
  unfold add_extra_items, discard_self. rewrite length_app, length_map. lia.
Qed.

(** Without a cycle toposort yields its layers. *)
Lemma toposort_acyclic g :
  (forall v, ~ clos_trans expr (proper_edge g) v v) ->
  exists L, toposort g = Ok L.
Proof.
  intros A. unfold toposort. destruct g as [|a g0] eqn:Eg; [now exists []|].
  rewrite <- Eg in *. clear Eg a g0.
  destruct (toposort_loop _ (add_extra_items (discard_self g))) as [L|e] eqn:E;
    [now exists L|].
  apply toposort_loop_raise in E as (_ & v & Hv);
    [| lia | apply add_extra_items_closed].
  exfalso. apply (A v). eapply clos_trans_incl; [|eassumption].
  intros x y. apply edge_prepared.
Qed.

(** What toposort has yielded when it ends well. *)
Lemma toposort_ok g L :
  NoDup (keys g) ->
  toposort g = Ok L ->
  NoDup (concat L) /\
  (forall k, In k (concat L) <-> In k (keys g) \/ exists v, proper_edge g v k) /\
  (forall v d, proper_edge g v d -> before_layers d v L).
Proof.
  intros ND E. unfold toposort in E. destruct g as [|a g0] eqn:Eg.
  { inversion E; subst. cbn. split; [constructor|]. split.
    - intros k. split; [tauto|]. intros [[]|(v & (deps & [] & _) & _)].
    - intros v d [(deps & [] & _) _]. }
  rewrite <- Eg in *. clear Eg a g0.
  apply toposort_loop_ok in E as (I1 & I2 & I3).
  - split; [assumption|]. split.
    + intros k. rewrite I1, add_extra_items_keys, discard_self_keys.
      split; intros [H|(v & H)]; auto; right; exists v; now apply edge_discard_self.
    + intros v d H. apply edge_prepared in H as (deps & H & Hd). eapply I3; eassumption.
  - apply add_extra_items_NoDup. now rewrite discard_self_keys.
  - apply add_extra_items_closed.
Qed.

(** The first layer holds the items without dependencies. *)
Lemma toposort_bottom g L :
  g <> [] ->
  NoDup (keys g) ->
  toposort g = Ok L ->
  exists L0 rest, L = L0 :: rest /\
    forall s, In s L0 <->
      (In s (keys g) \/ exists v, proper_edge g v s) /\
      (forall d, ~ proper_edge g s d).
Proof.
  intros N ND E. unfold toposort in E. destruct g as [|a g0] eqn:Eg; [congruence|].
  rewrite <- Eg in *. clear Eg a g0.
  set (data := add_extra_items (discard_self g)) in *.
  assert (NDd : NoDup (keys data)).
  { apply add_extra_items_NoDup. now rewrite discard_self_keys. }
  assert (Nd : data <> []).
  { unfold data, add_extra_items, discard_self. destruct g; [congruence | discriminate]. }
  rewrite toposort_loop_unfold in E.
  destruct (no_dependencies data) as [|k0 o] eqn:Eo.
  { destruct data; [congruence | discriminate]. }
  rewrite <- Eo in *. cbn zeta in E.
  destruct (toposort_loop _ (remove_ordered (no_dependencies data) data)) as [rest|e];
    [|discriminate].
  cbn in E. inversion E; subst L. exists (no_dependencies data), rest.
  split; [reflexivity|]. intros s. rewrite no_dependencies_In. split.
  - intros H. split.
    + assert (K : In s (keys data)) by (apply in_keys; eauto).
      unfold data in K. rewrite add_extra_items_keys, discard_self_keys in K.
      destruct K as [K|(v & K)]; auto. right. exists v. now apply edge_discard_self.
    + intros d Hd. apply edge_prepared in Hd as (deps & Hs & Hd).
      fold data in Hs.
      rewrite (NoDup_keys_unique data s deps [] NDd Hs H) in Hd. destruct Hd.
  - intros [K F].
    assert (Ks : In s (keys data)).
    { unfold data. rewrite add_extra_items_keys, discard_self_keys.
      destruct K as [K|(v & K)]; auto. right. exists v. now apply edge_discard_self. }
    apply in_keys in Ks as (deps & Hs). destruct deps as [|d deps]; [assumption|].
    exfalso. apply (F d). apply edge_prepared. exists (d :: deps).
    split; [assumption | now left].
Qed.

(** ** Sorting *)

Section SortedFacts.
Context {A K : Type} (leb : K -> K -> bool) (key : A -> K).

Lemma insert_sorted_perm x l : Permutation (insert_sorted leb key x l) (x :: l).
Proof.
  induction l as [|y l IH]; cbn; [reflexivity|].
  destruct (leb (key x) (key y)); [reflexivity|].
  rewrite IH. apply perm_swap.
Qed.

Lemma sorted_perm l : Permutation (sorted leb key l) l.
Proof.
  induction l as [|x l IH]; cbn; [reflexivity|].
  rewrite insert_sorted_perm. now constructor.
Qed.

Lemma sorted_In x l : In x (sorted leb key l) <-> In x l.
Proof.
  split; apply Permutation_in; [|symmetry]; apply sorted_perm.
Qed.

Lemma sorted_NoDup l : NoDup l -> NoDup (sorted leb key l).
Proof. apply Permutation_NoDup. symmetry. apply sorted_perm. Qed.

Lemma sorted_length l : length (sorted leb key l) = length l.
Proof. apply Permutation_length, sorted_perm. Qed.
End SortedFacts.

Lemma no_dup_NoDup l : no_dup l = true -> NoDup l.
Proof.
  induction l as [|x l IH]; cbn; [constructor|].
  intros H. apply andb_true_iff in H as [H1 H2].
  constructor; [|now apply IH]. now apply mem_not_In, negb_true_iff.
Qed.

(** ** Positions in the ordered list *)

Lemma index_of_app_l x A B :
  In x A -> exists i, index_of x (A ++ B) = Some i /\ i < length A.
Proof.
  induction A as [|a A IH]; cbn; [tauto|]. intros H.
  destruct (expr_eqb x a) eqn:E.
  - exists 0. split; [reflexivity | lia].
  - destruct H as [->|H]; [rewrite expr_eqb_refl in E; discriminate|].
    destruct (IH H) as (i & -> & Hi). exists (S i). split; [reflexivity | lia].
Qed.

Lemma index_of_app_r x A B :
  ~ In x A -> In x B -> exists j, index_of x (A ++ B) = Some j /\ length A <= j.
Proof.
  induction A as [|a A IH]; cbn; intros N H.
  - destruct (index_of_app_l x B [] H) as (j & E & _). rewrite app_nil_r in E.
    exists j. split; [assumption | lia].
  - destruct (expr_eqb x a) eqn:E.
    + apply expr_eqb_eq in E. subst. tauto.
    + destruct IH as (j & -> & Hj); [tauto | assumption |].
      exists (S j). split; [reflexivity | lia].
Qed.

Lemma in_flat_map_perm (f : list expr -> list expr) L x :
  (forall l y, In y (f l) <-> In y l) ->
  In x (flat_map f L) <-> In x (concat L).
Proof.
  intros F. rewrite in_flat_map, in_concat. split.
  - intros (l & Hl & Hx). exists l. split; [assumption | now apply F].
  - intros (l & Hl & Hx). exists l. split; [assumption | now apply F].
Qed.

Lemma before_layers_index (f : list expr -> list expr) L d k :
  (forall l y, In y (f l) <-> In y l) ->
  NoDup (concat L) ->
  before_layers d k L ->
  exists i j, index_of d (flat_map f L) = Some i /\
              index_of k (flat_map f L) = Some j /\ i < j.
Proof.
  intros F ND (L1 & L2 & -> & Hd & Hk).
  rewrite flat_map_app. rewrite concat_app in ND.
  assert (Nk : ~ In k (flat_map f L1)).
  { rewrite in_flat_map_perm by assumption. intros Hk'.
    revert Hk' Hk. revert k. apply NoDup_app_remove_l in ND as ND2.
    clear -ND. induction (concat L1) as [|a l IH]; cbn; [tauto|].
    intros k [->|H] Hk.
    - inversion ND as [|? ? Hn]; subst. apply Hn, in_app_iff. now right.
    - inversion ND; subst. eapply IH; eassumption. }
  destruct (index_of_app_l d (flat_map f L1) (flat_map f L2)) as (i & Ei & Hi).
  { now apply in_flat_map_perm. }
  destruct (index_of_app_r k (flat_map f L1) (flat_map f L2) Nk) as (j & Ej & Hj).
  { now apply in_flat_map_perm. }
  exists i, j. repeat split; [assumption | assumption | lia].
Qed.

(** ** The connectivity mapping *)

Lemma connectivity_mapping_keys md : keys (connectivity_mapping md) = keys md.
Proof.
  unfold connectivity_mapping, keys. rewrite map_map. reflexivity.
Qed.

Lemma edge_perm g g' v d : Permutation g g' -> edge g v d -> edge g' v d.
Proof.
  intros P (deps & H & Hd). exists deps. split; [|assumption].
  eapply Permutation_in; eassumption.
Qed.

Lemma connectivity_mapping_sorted md :
  Permutation (connectivity_mapping md)
    (connectivity_mapping (sorted String.leb (fun i => name (fst i)) md)).
Proof.
  unfold connectivity_mapping. apply Permutation_map. symmetry. apply sorted_perm.
Qed.

Lemma acyclic_proper g :
  acyclic g -> forall v, ~ clos_trans expr (proper_edge g) v v.
Proof.
  intros A v H. apply (A v). eapply clos_trans_incl; [|eassumption].
  now intros x y [H1 _].
Qed.

Lemma acyclic_edge_proper g v d : acyclic g -> edge g v d -> proper_edge g v d.
Proof.
  intros A H. split; [assumption|]. intros ->. apply (A v). now apply t_step.
Qed.

Lemma acyclicb_acyclic g : NoDup (keys g) -> acyclicb g = true -> acyclic g.
Proof.
  intros ND H v Hc. apply andb_true_iff in H as [H1 H2].
  assert (P : forall x y, edge g x y -> proper_edge g x y).
  { intros x y (deps & Hin & Hd). split; [now exists deps|]. intros ->.
    rewrite forallb_forall in H1. specialize (H1 _ Hin). cbn in H1.
    apply negb_true_iff, mem_not_In in H1. contradiction. }
  rewrite toposort_cycle in H2; [discriminate | assumption |].
  exists v. eapply clos_trans_incl; eassumption.
Qed.

(** ** C3: dependencies come first *)

(** C3.  For an acyclic model spec, [ordered_symbols] is a list in which
    every direct dependency of a symbol stands at a smaller index than
    the symbol, and the first layer of the sort is made of the symbols
    that depend on nothing. *)
Theorem ordered_symbols_dependencies_first (md : list (expr * expr)) :
  NoDup (keys md) ->
  acyclic (connectivity_mapping md) ->
  exists syms,
    ordered_symbols md = Ok syms /\
    (forall v deps d,
        In (v, deps) (connectivity_mapping md) -> In d deps ->
        exists i j, index_of d syms = Some i /\ index_of v syms = Some j /\ i < j) /\
    (md <> [] ->
     exists L0 rest,
       toposort (connectivity_mapping md) = Ok (L0 :: rest) /\
       forall s, In s L0 <->
         (In s (keys md) \/ exists v, edge (connectivity_mapping md) v s) /\
         (forall d, ~ edge (connectivity_mapping md) s d)).
Proof.
  intros ND A. set (g := connectivity_mapping md) in *.
  assert (NDg : NoDup (keys g)) by (unfold g; now rewrite connectivity_mapping_keys).
  destruct (toposort_acyclic g (acyclic_proper g A)) as [L E].
  destruct (toposort_ok g L NDg E) as (N1 & N2 & N3).
  exists (flat_map (sorted key_bool_nat_leb key_func) L).
  split; [|split].
  - unfold ordered_symbols. fold g. now rewrite E.
  - intros v deps d Hv Hd. apply before_layers_index.
    + intros l y. apply sorted_In.
    + assumption.
    + apply N3. apply acyclic_edge_proper; [assumption|]. now exists deps.
  - intros Nmd.
    assert (Ng : g <> []).
    { unfold g, connectivity_mapping. destruct md; [congruence | discriminate]. }
    destruct (toposort_bottom g L Ng NDg E) as (L0 & rest & -> & B).
    exists L0, rest. split; [assumption|]. intros s. rewrite B.
    unfold g at 1. rewrite connectivity_mapping_keys.
    split; intros [H1 H2]; split.
    + destruct H1 as [H1|(v & H1 & _)]; eauto.
    + intros d Hd. apply (H2 d). now apply acyclic_edge_proper.
    + destruct H1 as [H1|(v & H1)]; eauto. right. exists v.
      now apply acyclic_edge_proper.
    + intros d [Hd _]. now apply (H2 d).
Qed.

Lemma ordered_symbols_dependencies_first_witness :
  exists syms,
    ordered_symbols chain_rule_dict = Ok syms /\
    (forall v deps d,
        In (v, deps) (connectivity_mapping chain_rule_dict) -> In d deps ->
        exists i j, index_of d syms = Some i /\ index_of v syms = Some j /\ i < j) /\
    (chain_rule_dict <> [] ->
     exists L0 rest,
       toposort (connectivity_mapping chain_rule_dict) = Ok (L0 :: rest) /\
       forall s, In s L0 <->
         (In s (keys chain_rule_dict)
          \/ exists v, edge (connectivity_mapping chain_rule_dict) v s) /\
         (forall d, ~ edge (connectivity_mapping chain_rule_dict) s d)).
Proof.
  apply (ordered_symbols_dependencies_first chain_rule_dict).
  - apply no_dup_NoDup. vm_compute. reflexivity.
  - apply acyclicb_acyclic.
    + apply no_dup_NoDup. vm_compute. reflexivity.
    + vm_compute. reflexivity.
Defined.

(** ** C6: cyclic specs are rejected when the model is built *)

Lemma proper_cycle_sorted md :
  (exists v, clos_trans expr (proper_edge (connectivity_mapping md)) v v) ->
  exists v, clos_trans expr
              (proper_edge (connectivity_mapping
                              (sorted String.leb (fun i => name (fst i)) md))) v v.
Proof.
  intros [v H]. exists v. eapply clos_trans_incl; [|eassumption].
  intros x y [H1 H2]. split; [|assumption].
  eapply edge_perm; [apply connectivity_mapping_sorted | assumption].
Qed.

Lemma sorted_dict_NoDup md :
  NoDup (keys md) ->
  NoDup (keys (connectivity_mapping (sorted String.leb (fun i => name (fst i)) md))).
Proof.
  intros ND. rewrite connectivity_mapping_keys. unfold keys.
  eapply Permutation_NoDup; [|eassumption].
  apply Permutation_map. symmetry. apply sorted_perm.
Qed.

(** C6 (amended).  A model spec in which some symbol depends on itself
    through at least one other symbol is rejected by the constructor
    itself, with toposort's error, whichever model class is built. *)
Theorem cyclic_spec_rejected (md : list (expr * expr)) :
  NoDup (keys md) ->
  (exists v, clos_trans expr (proper_edge (connectivity_mapping md)) v v) ->
  BaseModel_init_from_dict md = Raise CircularDependencyError /\
  CallableModel_init md = Raise CircularDependencyError /\
  GradientModel_init md = Raise CircularDependencyError.
Proof.
  intros ND C.
  assert (E : BaseModel_init_from_dict md = Raise CircularDependencyError).
  { unfold BaseModel_init_from_dict.
    rewrite toposort_cycle; [reflexivity | now apply sorted_dict_NoDup |].
    now apply proper_cycle_sorted. }
  assert (E' : CallableModel_init md = Raise CircularDependencyError).
  { unfold CallableModel_init. now rewrite E. }
  repeat split; [assumption | assumption |].
  unfold GradientModel_init. now rewrite E'.
Qed.

Lemma cyclic_spec_rejected_witness :
  BaseModel_init_from_dict two_cycle_dict = Raise CircularDependencyError /\
  CallableModel_init two_cycle_dict = Raise CircularDependencyError /\
  GradientModel_init two_cycle_dict = Raise CircularDependencyError.
Proof.
  apply (cyclic_spec_rejected two_cycle_dict).
  - apply no_dup_NoDup. vm_compute. reflexivity.
  - exists (Var "y"). apply t_trans with (y := Var "z"); apply t_step.
    + split; [|discriminate]. exists [Var "x"; Var "z"]. vm_compute. auto.
    + split; [|discriminate]. exists [Var "x"; Var "y"]. vm_compute. auto.
Defined.

(** The claim as first stated fails for a symbol that depends on itself
    only: toposort ignores self dependencies, and the model is built. *)
Lemma self_dependency_is_accepted :
  NoDup (keys self_dependent_dict) /\
  has_cycle (connectivity_mapping self_dependent_dict) /\
  exists m, CallableModel_init self_dependent_dict = Ok m.
Proof.
  split; [|split].
  - apply no_dup_NoDup. vm_compute. reflexivity.
  - exists (Var "y"). apply t_step. exists [Var "x"; Var "y"]. vm_compute. auto.
  - vm_compute. eexists. reflexivity.
Qed.

(** ** Sorted output *)

Lemma string_leb_trans a b c :
  String.leb a b = true -> String.leb b c = true -> String.leb a c = true.
Proof.
  unfold String.leb. intros H1 H2.
  destruct (String.compare a b) eqn:E1; try discriminate.
  - apply String.compare_eq_iff in E1. now subst.
  - destruct (String.compare b c) eqn:E2; try discriminate.
    + apply String.compare_eq_iff in E2. subst. now rewrite E1.
    + assert (T : String_as_OT.lt a c).
      { transitivity b; [exact E1 | exact E2]. }
      unfold String_as_OT.lt in T.
      change (String_as_OT.compare a c) with (String.compare a c) in T.
      now rewrite T.
Qed.

Lemma string_leb_total a b : String.leb a b = false -> String.leb b a = true.
Proof.
  intros H. destruct (String.leb_total a b) as [E|E]; congruence.
Qed.

Section StronglySortedFacts.
Context {A : Type} (key : A -> string).
Let le (a b : A) : Prop := String.leb (key a) (key b) = true.

Lemma insert_sorted_strongly x l :
  StronglySorted le l -> StronglySorted le (insert_sorted String.leb key x l).
Proof.
  induction 1 as [|y l Hl IH Hy]; cbn.
  - constructor; constructor.
  - destruct (String.leb (key x) (key y)) eqn:E.
    + constructor; [now constructor|]. constructor; [exact E|].
      eapply Forall_impl; [|exact Hy]. intros z Hz. unfold le in *.
      eapply string_leb_trans; eassumption.
    + constructor; [assumption|].
      assert (P : Permutation (insert_sorted String.leb key x l) (x :: l))
        by apply insert_sorted_perm.
      eapply Permutation_Forall; [symmetry; exact P|].
      constructor; [|assumption]. now apply string_leb_total.
Qed.

Lemma sorted_strongly l : StronglySorted le (sorted String.leb key l).
Proof.
  induction l as [|x l IH]; cbn; [constructor|]. now apply insert_sorted_strongly.
Qed.

End StronglySortedFacts.

(** ** Signature.bind *)

Lemma has_key_remove_key {V} k k' (d : list (string * V)) :
  has_key k (remove_key k' d) = if String.eqb k k' then false else has_key k d.
Proof.
  unfold has_key. induction d as [|[k0 v0] d IH]; cbn.
  - now destruct (String.eqb k k').
  - destruct (String.eqb k' k0) eqn:E0.
    + apply String.eqb_eq in E0. subst k0.
      destruct (String.eqb k k') eqn:E; [exact IH|]. exact IH.
    + cbn. destruct (String.eqb k k0) eqn:E1.
      * apply String.eqb_eq in E1. subst k0.
        rewrite String.eqb_sym, E0. reflexivity.
      * exact IH.
Qed.





(** ** Signatures *)

Lemma mapM_Ok {A B} (f : A -> result B) (g : A -> B) l :
  (forall x, In x l -> f x = Ok (g x)) -> mapM f l = Ok (map g l).
Proof.
  induction l as [|x l IH]; cbn; [reflexivity|]. intros H.
  rewrite (H x) by now left. cbn. rewrite IH; [reflexivity|]. intros y Hy. apply H. now right.
Qed.

Lemma has_duplicates_NoDup l : has_duplicates l = false <-> NoDup l.
Proof.
  induction l as [|x l IH]; cbn; [split; [constructor | reflexivity]|].
  rewrite orb_false_iff, IH. split.
  - intros [H1 H2]. constructor; [|assumption]. intros Hx.
    assert (T : existsb (String.eqb x) l = true).
    { apply existsb_exists. exists x. split; [assumption | apply String.eqb_refl]. }
    congruence.
  - intros H. inversion H as [|? ? Hn Hd]; subst. split; [|assumption].
    destruct (existsb (String.eqb x) l) eqn:E; [|reflexivity].
    apply existsb_exists in E as (y & Hy & E). apply String.eqb_eq in E. now subst.
Qed.

Lemma inspect_Parameter_Ok n p :
  inspect_Parameter n = Ok p ->
  p = {| pname := n; kind := POSITIONAL_OR_KEYWORD; default := None |} /\
  isidentifier n = true /\ iskeyword n = false.
Proof.
  unfold inspect_Parameter. destruct n as [|c n]; [discriminate|].
  destruct (iskeyword (String c n)); [discriminate|].
  destruct (isidentifier (String c n)); [|discriminate].
  cbn. intros [= <-]. now repeat split.
Qed.

Lemma inspect_Parameter_valid n :
  isidentifier n = true -> iskeyword n = false ->
  inspect_Parameter n = Ok {| pname := n; kind := POSITIONAL_OR_KEYWORD; default := None |}.
Proof.
  intros I K. unfold inspect_Parameter. destruct n as [|c n]; [discriminate|].
  now rewrite I, K.
Qed.

Lemma mapM_inspect_Parameter (l : list expr) ps :
  mapM (fun arg => inspect_Parameter (name arg)) l = Ok ps ->
  ps = map (fun arg => {| pname := name arg; kind := POSITIONAL_OR_KEYWORD;
                          default := None |}) l /\
  Forall (fun arg => isidentifier (name arg) = true /\ iskeyword (name arg) = false) l.
Proof.
  revert ps. induction l as [|a l IH]; intros ps E; cbn [mapM] in E.
  - inversion E. split; [reflexivity | constructor].
  - destruct (inspect_Parameter (name a)) as [p|e] eqn:P; [|discriminate]. cbn [bind] in E.
    destruct (mapM _ l) as [ps'|e]; [|discriminate]. cbn [bind] in E.
    inversion E; subst ps. apply inspect_Parameter_Ok in P as (-> & I & K).
    destruct (IH ps' eq_refl) as (-> & F). split; [reflexivity|].
    constructor; [now split | assumption].
Qed.

Lemma make_signature_inv ivs ps s :
  make_signature ivs ps = Ok s ->
  s = map (fun arg => {| pname := name arg; kind := POSITIONAL_OR_KEYWORD;
                         default := None |}) (ivs ++ ps) /\
  NoDup (map name (ivs ++ ps)) /\
  Forall (fun arg => isidentifier (name arg) = true /\ iskeyword (name arg) = false)
         (ivs ++ ps).
Proof.
  unfold make_signature. intros E.
  destruct (mapM _ (ivs ++ ps)) as [l|e] eqn:M; [|discriminate]. cbn [bind] in E.
  apply mapM_inspect_Parameter in M as (-> & F).
  unfold Signature in E. destruct (has_duplicates _) eqn:D; [discriminate|].
  inversion E. split; [reflexivity|]. split; [|assumption].
  rewrite map_map in D. cbn [pname] in D. now apply has_duplicates_NoDup in D.
Qed.

Lemma make_signature_Ok ivs ps :
  NoDup (map name (ivs ++ ps)) ->
  Forall (fun arg => isidentifier (name arg) = true /\ iskeyword (name arg) = false)
         (ivs ++ ps) ->
  make_signature ivs ps
  = Ok (map (fun arg => {| pname := name arg; kind := POSITIONAL_OR_KEYWORD;
                           default := None |}) (ivs ++ ps)).
Proof.
  intros ND F. unfold make_signature.
  rewrite (mapM_Ok _ (fun arg => {| pname := name arg; kind := POSITIONAL_OR_KEYWORD;
                                    default := None |}) (ivs ++ ps)).
  - cbn [bind]. unfold Signature. rewrite map_map. cbn [pname].
    apply has_duplicates_NoDup in ND.
    change (map (fun x : expr => name x) (ivs ++ ps)) with (map name (ivs ++ ps)).
    now rewrite ND.
  - intros a Ha. rewrite Forall_forall in F. destruct (F a Ha) as [I K].
    now apply inspect_Parameter_valid.
Qed.

(** ** C7: the call signature and arguments that do not match it *)

Lemma CallableModel_init_inv md m :
  CallableModel_init md = Ok m ->
  exists L0 rest,
    toposort (connectivity_mapping (sorted String.leb (fun i => name (fst i)) md))
      = Ok (L0 :: rest) /\
    model_dict m = sorted String.leb (fun i => name (fst i)) md /\
    independent_vars m =
      filter (fun s => negb (is_Parameter s) && negb (mem s (keys (model_dict m))))
             (sort_by_name L0) /\
    params m = filter is_Parameter (sort_by_name L0) /\
    signature m = map (fun arg => {| pname := name arg;
                                     kind := POSITIONAL_OR_KEYWORD;
                                     default := None |})
                      (independent_vars m ++ params m).
Proof.
  unfold CallableModel_init, BaseModel_init_from_dict. intros E.
  destruct (toposort _) as [L|e]; [|discriminate]. cbn [bind] in E.
  destruct L as [|L0 rest]; [discriminate|]. cbn [pop_first bind fst snd] in E.
  destruct (pop_last rest) as [q|e]; [|discriminate]. cbn [bind] in E.
  cbn [independent_vars params] in E.
  destruct (make_signature _ _) as [s|e] eqn:S; [|discriminate]. cbn [bind] in E.
  apply make_signature_inv in S as (-> & _).
  inversion E; subst m. cbn. exists L0, rest. repeat split; reflexivity.
Qed.

(** In this version of the code no entry of a signature has a default:
    parameters have to be bound like independent variables. *)
Lemma signature_no_defaults md m :
  CallableModel_init md = Ok m ->
  Forall (fun p => default p = None) (signature m).
Proof.
  intros E. destruct (CallableModel_init_inv md m E) as (L0 & rest & _ & _ & _ & _ & Es).
  rewrite Es. apply Forall_forall. intros p Hp.
  apply in_map_iff in Hp as (s & <- & _). reflexivity.
Qed.



(** ** Dictionaries *)

Lemma has_key_get {V} k (d : list (string * V)) :
  has_key k d = true <-> exists v, get k d = Some v.
Proof.
  unfold has_key. destruct (get k d) as [v|]; split; try discriminate; eauto.
  intros [v E]. discriminate.
Qed.

Lemma has_key_In {V} k (d : list (string * V)) :
  has_key k d = true <-> In k (map fst d).
Proof.
  unfold has_key. induction d as [|[k' v'] d IH]; cbn; [split; [discriminate | tauto]|].
  destruct (String.eqb k k') eqn:E.
  - apply String.eqb_eq in E. subst. split; auto.
  - rewrite IH. apply String.eqb_neq in E. split; [auto | intros [H|H]; congruence].
Qed.

Lemma get_put_same {V} k (v : V) d : get k (put k v d) = Some v.
Proof.
  induction d as [|[k' v'] d IH]; cbn.
  - now rewrite String.eqb_refl.
  - destruct (String.eqb k k') eqn:E; cbn; rewrite E; [reflexivity | exact IH].
Qed.

Lemma get_put_other {V} k k' (v : V) d : k <> k' -> get k (put k' v d) = get k d.
Proof.
  intros N. induction d as [|[k0 v0] d IH]; cbn.
  - apply String.eqb_neq in N. now rewrite N.
  - destruct (String.eqb k' k0) eqn:E; cbn.
    + apply String.eqb_eq in E. subst k0. apply String.eqb_neq in N. now rewrite N.
    + destruct (String.eqb k k0); [reflexivity | exact IH].
Qed.

Lemma extends_refl env : extends env env.
Proof. now intros n v H. Qed.

Lemma extends_trans e1 e2 e3 : extends e1 e2 -> extends e2 e3 -> extends e1 e3.
Proof. intros H1 H2 n v H. now apply H2, H1. Qed.

Lemma extends_put env k v : has_key k env = false -> extends env (put k v env).
Proof.
  intros H n w G. rewrite get_put_other; [assumption|].
  intros ->. unfold has_key in H. now rewrite G in H.
Qed.

Lemma lookup_In {V} k (v : V) d : NoDup (keys d) -> In (k, v) d -> lookup k d = Some v.
Proof.
  unfold keys. induction d as [|[k' v'] d IH]; cbn; [tauto|].
  intros ND H. inversion ND as [|? ? Hn Hd]; subst.
  destruct (expr_eqb k k') eqn:E.
  - apply expr_eqb_eq in E. subst k'. destruct H as [H|H]; [congruence|].
    exfalso. apply Hn. apply in_map_iff. now exists (k, v).
  - destruct H as [H|H]; [|now apply IH].
    inversion H; subst. rewrite expr_eqb_refl in E. discriminate.
Qed.

Lemma lookup_Some {V} k (v : V) d : lookup k d = Some v -> In (k, v) d.
Proof.
  induction d as [|[k' v'] d IH]; cbn; [discriminate|].
  destruct (expr_eqb k k') eqn:E.
  - apply expr_eqb_eq in E. intros [= ->]. subst. now left.
  - intros H. right. now apply IH.
Qed.

Lemma lookup_None {V} k (d : list (expr * V)) : lookup k d = None -> ~ In k (keys d).
Proof.
  unfold keys. induction d as [|[k' v'] d IH]; cbn; [tauto|].
  destruct (expr_eqb k k') eqn:E; [discriminate|].
  intros H [H1|H1]; [|now apply IH].
  subst. rewrite expr_eqb_refl in E. discriminate.
Qed.


Lemma mapM_ext_in {A B} (f g : A -> result B) l :
  (forall x, In x l -> f x = g x) -> mapM f l = mapM g l.
Proof.
  induction l as [|x l IH]; cbn; [reflexivity|]. intros H.
  rewrite (H x) by now left. rewrite IH; [reflexivity|]. intros y Hy. apply H. now right.
Qed.

(** ** Signature.bind, when it succeeds *)

Lemma bind_keywords_names ps : forall kwargs bound,
  Forall (fun p => default p = None) ps ->
  bind_keywords ps kwargs = Ok bound -> map fst bound = map pname ps.
Proof.
  induction ps as [|p ps IH]; intros kwargs bound D E; cbn in E.
  - destruct kwargs; [|discriminate]. now inversion E.
  - inversion D as [|? ? Dp Dps]; subst.
    destruct (get (pname p) kwargs) as [v|].
    + destruct (bind_keywords ps _) as [rest|e] eqn:R; [|discriminate].
      cbn in E. inversion E; subst. cbn. f_equal. eapply IH; eassumption.
    + rewrite Dp in E. discriminate.
Qed.

Lemma sig_bind_names ps : forall args kwargs bound,
  Forall (fun p => default p = None) ps ->
  sig_bind ps args kwargs = Ok bound -> map fst bound = map pname ps.
Proof.
  induction ps as [|p ps IH]; intros args kwargs bound D E.
  - destruct args; cbn in E; [|discriminate].
    destruct kwargs; [|discriminate]. now inversion E.
  - destruct args as [|a args]; cbn [sig_bind] in E.
    + eapply bind_keywords_names; eassumption.
    + destruct (has_key (pname p) kwargs); [discriminate|].
      destruct (sig_bind ps args kwargs) as [rest|e] eqn:R; [|discriminate].
      cbn in E. inversion E; subst. cbn. f_equal.
      inversion D; subst. eapply IH; eassumption.
Qed.

(** ** Components *)

Lemma dependencies_kwargs_extends env env' deps dkw :
  extends env env' ->
  dependencies_kwargs env deps = Ok dkw -> dependencies_kwargs env' deps = Ok dkw.
Proof.
  unfold dependencies_kwargs. intros X E.
  destruct (mapM _ deps) as [items|e] eqn:M; [|discriminate].
  cbn in E. inversion E; subst. clear E.
  assert (M' : mapM (fun d => match get (name d) env' with
                              | Some v => Ok (name d, v)
                              | None => Raise KeyError
                              end) deps = Ok items).
  { revert items M. induction deps as [|d deps IH]; intros items M; cbn in *; [assumption|].
    destruct (get (name d) env) as [v|] eqn:G; [|discriminate].
    rewrite (X _ _ G). cbn in *.
    destruct (mapM _ deps) as [items'|e] eqn:M0; [|discriminate].
    rewrite (IH items' eq_refl). assumption. }
  now rewrite M'.
Qed.

Lemma dependencies_kwargs_total env deps :
  (forall d, In d deps -> has_key (name d) env = true) ->
  exists dkw, dependencies_kwargs env deps = Ok dkw.
Proof.
  intros H. unfold dependencies_kwargs.
  assert (M : exists items, mapM (fun d => match get (name d) env with
                                           | Some v => Ok (name d, v)
                                           | None => Raise KeyError
                                           end) deps = Ok items).
  { induction deps as [|d deps IH]; cbn; [eauto|].
    destruct (proj1 (has_key_get (name d) env) (H d (or_introl eq_refl))) as [v ->].
    destruct IH as [items ->]; [intros; apply H; now right|]. cbn. eauto. }
  destruct M as [items ->]. cbn. eauto.
Qed.

Lemma component_value_extends md env env' ke v :
  extends env env' ->
  component_value md env ke = Ok v -> component_value md env' ke = Ok v.
Proof.
  unfold component_value. intros X E.
  destruct (lookup (fst ke) (connectivity_mapping md)) as [deps|]; [|discriminate].
  destruct (dependencies_kwargs env deps) as [dkw|e] eqn:K; [|discriminate].
  now rewrite (dependencies_kwargs_extends env env' deps dkw X K).
Qed.

Lemma lookup_connectivity md k e :
  NoDup (keys md) -> In (k, e) md ->
  lookup k (connectivity_mapping md) = Some (dependencies_of e).
Proof.
  intros ND H. apply lookup_In.
  - now rewrite connectivity_mapping_keys.
  - unfold connectivity_mapping. apply in_map_iff. now exists (k, e).
Qed.

Lemma namedtuple_Ok t names fields :
  namedtuple t names = Ok fields ->
  fields = names /\ NoDup names /\
  Forall (fun n => isidentifier n = true /\ iskeyword n = false /\
                   String.prefix "_" n = false) names.
Proof.
  unfold namedtuple.
  destruct (forallb _ (t :: names)) eqn:F1; [|discriminate].
  destruct (forallb _ names) eqn:F2; [|discriminate].
  destruct (has_duplicates names) eqn:D; [discriminate|].
  cbn. intros [= <-]. split; [reflexivity|]. split; [now apply has_duplicates_NoDup|].
  apply Forall_forall. intros n Hn.
  cbn [forallb] in F1. apply andb_true_iff in F1 as [_ F1].
  rewrite forallb_forall in F1, F2.
  specialize (F1 n Hn). specialize (F2 n Hn).
  apply andb_true_iff in F1 as [I K]. apply negb_true_iff in K, F2. now repeat split.
Qed.

Lemma namedtuple_Raise t names e : namedtuple t names = Raise e -> e = ValueError.
Proof.
  unfold namedtuple. destruct (_ && _); [discriminate | now intros [= <-]].
Qed.

Lemma variabletuple_Ok t (vars : list expr) fields :
  variabletuple t vars = Ok fields -> NoDup (map name vars).
Proof. unfold variabletuple. intros E. now apply namedtuple_Ok in E as (_ & N & _). Qed.

Lemma numerical_components_Ok md fields :
  NoDup (keys md) ->
  variabletuple "Ans" (keys md) = Ok fields ->
  numerical_components md =
  Ok (map (fun ve => sympy_to_py (snd ve)
                       (sorted key_bool_str_leb key_param_str (dependencies_of (snd ve))) [])
          md).
Proof.
  intros ND V. unfold numerical_components. rewrite V. cbn [bind].
  apply mapM_Ok. intros [k e] H. cbn.
  now rewrite (lookup_connectivity md k e ND H).
Qed.

Lemma numerical_components_Raise md err :
  variabletuple "Ans" (keys md) = Raise err -> numerical_components md = Raise err.
Proof. intros V. unfold numerical_components. now rewrite V. Qed.

Lemma combine_keys_map {V W} (g : expr * V -> W) (md : list (expr * V)) :
  combine (keys md) (map g md) = map (fun ve => (fst ve, g ve)) md.
Proof.
  unfold keys. induction md as [|a md IH]; cbn; [reflexivity|]. now rewrite IH.
Qed.

Lemma lookup_components md k e :
  NoDup (keys md) -> In (k, e) md ->
  lookup k (combine (keys md)
              (map (fun ve => sympy_to_py (snd ve)
                      (sorted key_bool_str_leb key_param_str (dependencies_of (snd ve))) [])
                   md))
  = Some (sympy_to_py e (sorted key_bool_str_leb key_param_str (dependencies_of e)) []).
Proof.
  intros ND H. rewrite combine_keys_map. apply lookup_In.
  - unfold keys. rewrite map_map. exact ND.
  - apply in_map_iff. now exists (k, e).
Qed.

(** A symbol that is a key and is not yet bound is evaluated by calling
    its component. *)
Lemma eval_symbol_key md env k e :
  NoDup (keys md) -> In (k, e) md -> has_key (name k) env = false ->
  eval_symbol (connectivity_mapping md)
    (combine (keys md)
       (map (fun ve => sympy_to_py (snd ve)
               (sorted key_bool_str_leb key_param_str (dependencies_of (snd ve))) [])
            md))
    env k
  = (v <- component_value md env (k, e) ;; Ok (put (name k) v env)).
Proof.
  intros ND H K. unfold eval_symbol, component_value. rewrite K. cbn [fst snd].
  rewrite (lookup_connectivity md k e ND H).
  destruct (dependencies_kwargs env (dependencies_of e)) as [dkw|err]; [|reflexivity].
  cbn [bind]. now rewrite (lookup_components md k e ND H).
Qed.

Lemma has_key_fold_put n items : forall acc : list (string * value),
  has_key n (fold_left (fun d kv => put (fst kv) (snd kv) d) items acc) = true <->
  has_key n acc = true \/ In n (map fst items).
Proof.
  induction items as [|[k v] items IH]; intros acc; cbn [fold_left map fst snd In].
  - tauto.
  - rewrite IH. rewrite !has_key_get.
    destruct (String.eqb n k) eqn:E.
    + apply String.eqb_eq in E. subst k. rewrite get_put_same. split; eauto.
    + apply String.eqb_neq in E. rewrite get_put_other by assumption.
      split; [intros [H|H]; auto | intros [H|[H|H]]; auto; congruence].
Qed.

Lemma dependencies_kwargs_keys env deps dkw n :
  dependencies_kwargs env deps = Ok dkw ->
  has_key n dkw = true <-> In n (map name deps).
Proof.
  unfold dependencies_kwargs. intros E.
  destruct (mapM _ deps) as [items|e] eqn:M; [|discriminate].
  cbn in E. inversion E; subst. clear E. rewrite has_key_fold_put.
  assert (N : map fst items = map name deps).
  { revert items M. induction deps as [|d deps IH]; intros items M; cbn in M.
    - now inversion M.
    - destruct (get (name d) env); [|discriminate]. cbn in M.
      destruct (mapM _ deps) as [items'|e]; [|discriminate].
      cbn in M. inversion M; subst. cbn. f_equal. now apply IH. }
  rewrite N. unfold has_key. cbn. split; [intros [H|H]; [discriminate | assumption] | auto].
Qed.

(** A component that is called with the keyword arguments made for it
    evaluates its expression. *)
Lemma call_kw_dependencies env e dkw :
  dependencies_kwargs env (dependencies_of e) = Ok dkw ->
  call_kw (sympy_to_py e (sorted key_bool_str_leb key_param_str (dependencies_of e)) []) dkw
  = denote dkw e.
Proof.
  intros K. unfold call_kw, sympy_to_py. cbn [c_args c_expr]. rewrite app_nil_r.
  set (deps := dependencies_of e) in *.
  assert (C1 : forallb (fun a => has_key (name a) dkw)
                 (sorted key_bool_str_leb key_param_str deps) = true).
  { apply forallb_forall. intros a Ha. apply sorted_In in Ha.
    apply (dependencies_kwargs_keys env deps dkw (name a) K). now apply in_map. }
  assert (C2 : forallb (fun kv => existsb (fun a => String.eqb (fst kv) (name a))
                                    (sorted key_bool_str_leb key_param_str deps)) dkw = true).
  { apply forallb_forall. intros [n v] Hn. cbn [fst].
    assert (Hk : has_key n dkw = true).
    { apply has_key_In. apply in_map_iff. now exists (n, v). }
    apply (dependencies_kwargs_keys env deps dkw n K) in Hk.
    apply in_map_iff in Hk as (d & <- & Hd).
    apply existsb_exists. exists d. split; [now apply sorted_In | apply String.eqb_refl]. }
  now rewrite C1, C2.
Qed.

(** ** The loop of eval_components *)

Lemma key_of_name (l : list expr) x y :
  NoDup (map name l) -> In x l -> In y l -> name x = name y -> x = y.
Proof.
  induction l as [|a l IH]; cbn; [tauto|]. intros N Hx Hy E.
  inversion N as [|? ? Hn Hd]; subst.
  destruct Hx as [->|Hx], Hy as [->|Hy].
  - reflexivity.
  - exfalso. apply Hn. rewrite E. now apply in_map.
  - exfalso. apply Hn. rewrite <- E. now apply in_map.
  - now apply IH.
Qed.

Section EvalLoop.
Variable md : list (expr * expr).
Variable bound : list (string * value).
Variable syms : list expr.
Hypothesis ND : NoDup (keys md).
Hypothesis nonkey_bound :
  forall s, In s syms -> ~ In s (keys md) -> has_key (name s) bound = true.
Hypothesis deps_first :
  forall P k Q e d, syms = P ++ k :: Q -> In (k, e) md ->
                    In d (dependencies_of e) -> In d P.

Let components := combine (keys md)
  (map (fun ve => sympy_to_py (snd ve)
          (sorted key_bool_str_leb key_param_str (dependencies_of (snd ve))) []) md).

Lemma computed_extends env env' n v :
  extends env env' -> computed md bound env n v -> computed md bound env' n v.
Proof.
  intros X [H|(ke & H1 & H2 & H3)]; [now left|]. right. exists ke.
  repeat split; try assumption. eapply component_value_extends; eassumption.
Qed.

Lemma eval_loop_invariant Q : forall P env,
  syms = P ++ Q -> loop_invariant md bound P env ->
  match eval_loop (connectivity_mapping md) components Q env with
  | Ok env' => loop_invariant md bound syms env'
  | Raise err =>
      exists k e env',
        In (k, e) md /\ extends bound env' /\
        (forall n v, get n env' = Some v -> computed md bound env' n v) /\
        (forall d, In d (dependencies_of e) -> has_key (name d) env' = true) /\
        has_key (name k) env' = false /\
        component_value md env' (k, e) = Raise err
  end.
Proof.
  induction Q as [|s Q IH]; intros P env ES (I1 & I2 & I3).
  - cbn. rewrite app_nil_r in ES. subst P. now repeat split.
  - cbn [eval_loop].
    assert (ES' : syms = (P ++ [s]) ++ Q) by now rewrite <- app_assoc.
    destruct (has_key (name s) env) eqn:K.
    + unfold eval_symbol. rewrite K. cbn [bind]. apply (IH (P ++ [s])); [assumption|].
      repeat split; try assumption.
      intros s' Hs'. apply in_app_iff in Hs' as [Hs'|[->|[]]]; auto.
    + destruct (in_dec expr_eq_dec s (keys md)) as [Hk|Hk].
      2:{ exfalso. assert (Hs : In s syms) by (rewrite ES; apply in_app_iff; right; now left).
          destruct (proj1 (has_key_get _ _) (nonkey_bound s Hs Hk)) as [v G].
          apply I1 in G. unfold has_key in K. now rewrite G in K. }
      apply in_keys in Hk as (e & He).
      unfold components. rewrite (eval_symbol_key md env s e ND He K).
      destruct (dependencies_kwargs_total env (dependencies_of e)) as [dkw D].
      { intros d Hd. apply I2. eapply deps_first; eassumption. }
      assert (CV : component_value md env (s, e) = denote dkw e).
      { unfold component_value. cbn [fst snd].
        rewrite (lookup_connectivity md s e ND He), D. cbn [bind].
        now apply call_kw_dependencies with (env := env). }
      rewrite CV. destruct (denote dkw e) as [v|err] eqn:Dn; cbn [bind].
      * assert (X : extends env (put (name s) v env)) by now apply extends_put.
        apply (IH (P ++ [s])); [assumption|]. repeat split.
        -- eapply extends_trans; eassumption.
        -- intros s' Hs'. apply has_key_get.
           apply in_app_iff in Hs' as [Hs'|[->|[]]].
           ++ apply I2, has_key_get in Hs' as [w G]. exists w. now apply X.
           ++ exists v. apply get_put_same.
        -- intros n w G. destruct (String.eqb n (name s)) eqn:En.
           ++ apply String.eqb_eq in En. subst n. rewrite get_put_same in G.
              inversion G; subst w. right. exists (s, e). repeat split; [assumption|].
              eapply component_value_extends; [exact X|]. now rewrite CV.
           ++ apply String.eqb_neq in En. rewrite get_put_other in G by assumption.
              eapply computed_extends; [exact X | now apply I3].
      * exists s, e, env. repeat split; try assumption.
        intros d Hd. apply I2. eapply deps_first; eassumption.
Qed.

(** An environment that resolves the call is what the loop arrives at. *)
Lemma eval_loop_reaches target :
  NoDup (map name (keys md)) ->
  resolved md bound target ->
  forall Q P env,
    syms = P ++ Q -> loop_invariant md bound P env -> extends env target ->
    exists env',
      eval_loop (connectivity_mapping md) components Q env = Ok env' /\
      loop_invariant md bound syms env' /\ extends env' target.
Proof.
  intros NDn (T1 & T2 & T3).
  induction Q as [|s Q IH]; intros P env ES (I1 & I2 & I3) X.
  - cbn. rewrite app_nil_r in ES. subst P. exists env. now repeat split.
  - cbn [eval_loop].
    assert (ES' : syms = (P ++ [s]) ++ Q) by now rewrite <- app_assoc.
    destruct (has_key (name s) env) eqn:K.
    + unfold eval_symbol. rewrite K. cbn [bind]. apply (IH (P ++ [s])); try assumption.
      repeat split; try assumption.
      intros s' Hs'. apply in_app_iff in Hs' as [Hs'|[->|[]]]; auto.
    + destruct (in_dec expr_eq_dec s (keys md)) as [Hk|Hk].
      2:{ exfalso. assert (Hs : In s syms) by (rewrite ES; apply in_app_iff; right; now left).
          destruct (proj1 (has_key_get _ _) (nonkey_bound s Hs Hk)) as [v G].
          apply I1 in G. unfold has_key in K. now rewrite G in K. }
      pose proof (T3 s Hk) as Ht. apply has_key_get in Ht as [v Gv].
      apply in_keys in Hk as (e & He).
      unfold components. rewrite (eval_symbol_key md env s e ND He K).
      destruct (dependencies_kwargs_total env (dependencies_of e)) as [dkw D].
      { intros d Hd. apply I2. eapply deps_first; eassumption. }
      assert (CV : forall env0, dependencies_kwargs env0 (dependencies_of e) = Ok dkw ->
                                component_value md env0 (s, e) = denote dkw e).
      { intros env0 D0. unfold component_value. cbn [fst snd].
        rewrite (lookup_connectivity md s e ND He), D0. cbn [bind].
        now apply call_kw_dependencies with (env := env0). }
      assert (Dn : denote dkw e = Ok v).
      { rewrite <- (CV target (dependencies_kwargs_extends env target _ dkw X D)).
        destruct (T2 _ _ Gv) as [B|([k' e'] & Hke & Hn & C)].
        - exfalso. apply I1 in B. unfold has_key in K. now rewrite B in K.
        - cbn [fst] in Hn.
          assert (k' = s).
          { apply (key_of_name (keys md)); try assumption.
            - unfold keys. apply in_map_iff. now exists (k', e').
            - unfold keys. apply in_map_iff. now exists (s, e). }
          subst k'. now rewrite (NoDup_keys_unique md s e e' ND He Hke). }
      rewrite (CV env D), Dn. cbn [bind].
      assert (X' : extends env (put (name s) v env)) by now apply extends_put.
      apply (IH (P ++ [s])); [assumption | |].
      * repeat split.
        -- eapply extends_trans; eassumption.
        -- intros s' Hs'. apply has_key_get.
           apply in_app_iff in Hs' as [Hs'|[->|[]]].
           ++ apply I2, has_key_get in Hs' as [w G]. exists w. now apply X'.
           ++ exists v. apply get_put_same.
        -- intros n w G. destruct (String.eqb n (name s)) eqn:En.
           ++ apply String.eqb_eq in En. subst n. rewrite get_put_same in G.
              inversion G; subst w. right. exists (s, e). repeat split; [assumption|].
              eapply component_value_extends; [exact X'|]. now rewrite (CV env D).
           ++ apply String.eqb_neq in En. rewrite get_put_other in G by assumption.
              eapply computed_extends; [exact X' | now apply I3].
      * intros n w G. destruct (String.eqb n (name s)) eqn:En.
        -- apply String.eqb_eq in En. subst n. rewrite get_put_same in G.
           now inversion G; subst w.
        -- apply String.eqb_neq in En. rewrite get_put_other in G by assumption.
           now apply X.
Qed.
End EvalLoop.

(** ** C2: evaluation in topological order *)

Lemma index_of_first x P Q : ~ In x P -> index_of x (P ++ x :: Q) = Some (length P).
Proof.
  induction P as [|a P IH]; cbn; intros N.
  - now rewrite expr_eqb_refl.
  - destruct (expr_eqb x a) eqn:E.
    + apply expr_eqb_eq in E. subst. tauto.
    + rewrite IH; [reflexivity | tauto].
Qed.

Lemma index_of_lt_In x A : forall B i,
  index_of x (A ++ B) = Some i -> i < length A -> In x A.
Proof.
  induction A as [|a A IH]; intros B i E L; [cbn in L; lia|].
  cbn in E. destruct (expr_eqb x a) eqn:Ea.
  - apply expr_eqb_eq in Ea. now left.
  - destruct (index_of x (A ++ B)) as [i'|] eqn:E'; [|discriminate].
    inversion E; subst. right. apply (IH B i'); [assumption | cbn in L; lia].
Qed.

Lemma flat_map_perm (f : list expr -> list expr) L :
  (forall l, Permutation (f l) l) -> Permutation (flat_map f L) (concat L).
Proof.
  intros F. induction L as [|l L IH]; cbn; [reflexivity|].
  now apply Permutation_app.
Qed.

Lemma acyclic_perm g g' : Permutation g g' -> acyclic g -> acyclic g'.
Proof.
  intros P A v H. apply (A v). eapply clos_trans_incl; [|eassumption].
  intros x y. apply edge_perm. now symmetry.
Qed.

Lemma final_values (Q : expr * expr -> value -> Prop) env md :
  (forall ke, In ke md -> exists v, get (name (fst ke)) env = Some v /\ Q ke v) ->
  exists vals,
    mapM (fun var => match get (name var) env with
                     | Some v => Ok (atleast_1d v)
                     | None => Raise KeyError
                     end) (keys md) = Ok vals /\
    Forall2 (fun ke val => exists v, get (name (fst ke)) env = Some v /\
                                     val = atleast_1d v /\ Q ke v) md vals.
Proof.
  induction md as [|ke md IH]; intros H; cbn.
  - exists []. split; [reflexivity | constructor].
  - destruct (H ke (or_introl eq_refl)) as (v & G & Hq).
    destruct IH as (vals & M & F); [intros; apply H; now right|].
    unfold keys in M. rewrite G, M. cbn. exists (atleast_1d v :: vals).
    split; [reflexivity|]. constructor; [|assumption]. now exists v.
Qed.

(** C2.  For a model with an acyclic dependency graph and a call whose
    arguments bind, [eval_components] goes through the symbols with
    every dependency before the symbol that needs it.  It returns one
    value for each key exactly when the call can be resolved: the values
    that the caller bound are kept, and every other value is what the
    component of that name returns for the values found for its
    dependencies; it then returns these values, so that for
    [{y: f(x), z: g(y)}] the value of [z] is [g] of the computed value
    of [y].  When it raises, the error is that of a component called on
    values that were resolved, all its dependencies among them (never
    for want of a dependency), or the ValueError of a model whose keys
    cannot name the fields of a namedtuple (a check that is modelled for
    names in ASCII). *)
Theorem eval_components_topological (md : list (expr * expr)) (m : CallableModel)
  (args : list value) (kwargs bound : list (string * value)) :
  NoDup (keys md) ->
  acyclic (connectivity_mapping md) ->
  CallableModel_init md = Ok m ->
  sig_bind (signature m) args kwargs = Ok bound ->
  (Forall (fun k => isascii (name k) = true) (keys (model_dict m)) ->
   forall err, variabletuple "Ans" (keys (model_dict m)) = Raise err ->
               eval_components m args kwargs = Raise err) /\
  (forall fields, variabletuple "Ans" (keys (model_dict m)) = Ok fields ->
     (forall vals, eval_components m args kwargs = Ok vals ->
        exists env,
          resolved (model_dict m) bound env /\
          Forall2 (fun ke val =>
                     exists v, get (name (fst ke)) env = Some v /\
                               val = atleast_1d v /\
                               computed (model_dict m) bound env (name (fst ke)) v)
                  (model_dict m) vals) /\
     (forall env, resolved (model_dict m) bound env ->
        eval_components m args kwargs
        = mapM (fun var => match get (name var) env with
                           | Some v => Ok (atleast_1d v)
                           | None => Raise KeyError
                           end)
               (keys (model_dict m)) /\
        exists vals, eval_components m args kwargs = Ok vals) /\
     (forall err, eval_components m args kwargs = Raise err ->
        exists k e env,
          In (k, e) (model_dict m) /\ extends bound env /\
          (forall n v, get n env = Some v -> computed (model_dict m) bound env n v) /\
          (forall d, In d (dependencies_of e) -> has_key (name d) env = true) /\
          has_key (name k) env = false /\
          component_value (model_dict m) env (k, e) = Raise err)).
Proof.
  intros ND A E B.
  destruct (CallableModel_init_inv md m E) as (L0 & rest & T & Emd & Ei & Ep & Es).
  set (md' := sorted String.leb (fun i => name (fst i)) md) in *.
  assert (ND' : NoDup (keys md')).
  { unfold keys. eapply Permutation_NoDup; [|exact ND].
    apply Permutation_map. symmetry. apply sorted_perm. }
  assert (A' : acyclic (connectivity_mapping md')).
  { eapply acyclic_perm; [apply connectivity_mapping_sorted | exact A]. }
  assert (NDg : NoDup (keys (connectivity_mapping md')))
    by now rewrite connectivity_mapping_keys.
  destruct (toposort_ok _ _ NDg T) as (N1 & N2 & N3).
  set (L := L0 :: rest) in *.
  set (syms := flat_map (sorted key_bool_nat_leb key_func) L).
  assert (NDs : NoDup syms).
  { eapply Permutation_NoDup; [|exact N1]. symmetry. apply flat_map_perm.
    intros l. apply sorted_perm. }
  assert (Hin : forall s, In s syms <-> In s (concat L)).
  { intros s. apply in_flat_map_perm. intros l y. apply sorted_In. }
  assert (Names : map fst bound = map pname (signature m)).
  { eapply sig_bind_names; [|exact B]. eapply signature_no_defaults; eassumption. }
  assert (Hnk : forall s, In s syms -> ~ In s (keys md') -> has_key (name s) bound = true).
  { intros s Hs Nk. apply has_key_In. rewrite Names, Es, map_map. cbn.
    apply in_map. apply Hin in Hs.
    assert (HL0 : In s L0).
    { assert (Ng : connectivity_mapping md' <> []).
      { intros Z. rewrite Z in T. discriminate. }
      destruct (toposort_bottom _ _ Ng NDg T) as (L0' & rest' & EL & Bt).
      inversion EL; subst L0' rest'. apply Bt. split.
      - now apply N2.
      - intros d [(deps & Hd & _) _]. apply Nk.
        rewrite <- connectivity_mapping_keys. apply in_keys. eauto. }
    apply in_app_iff. rewrite Ei, Ep, Emd. rewrite !filter_In.
    unfold sort_by_name. rewrite !sorted_In.
    destruct (is_Parameter s); [now right | left].
    split; [assumption|]. cbn. now apply negb_true_iff, mem_not_In. }
  assert (Hdf : forall P k Q e d, syms = P ++ k :: Q -> In (k, e) md' ->
                                  In d (dependencies_of e) -> In d P).
  { intros P k Q e d ES Hk Hd.
    assert (Ed : proper_edge (connectivity_mapping md') k d).
    { apply acyclic_edge_proper; [assumption|]. exists (dependencies_of e).
      split; [|assumption]. unfold connectivity_mapping. apply in_map_iff. now exists (k, e). }
    destruct (before_layers_index (sorted key_bool_nat_leb key_func) L d k)
      as (i & j & Hi & Hj & Lt).
    { intros l y. apply sorted_In. }
    { assumption. }
    { now apply N3. }
    fold syms in Hi, Hj. rewrite ES in Hi, Hj, NDs.
    rewrite index_of_first in Hj.
    2:{ apply NoDup_remove_2 in NDs. intros H. apply NDs. apply in_app_iff. now left. }
    inversion Hj; subst j. eapply index_of_lt_In; eassumption. }
  assert (Hkeys : forall k, In k (keys md') -> In k syms).
  { intros k Hk. apply Hin, N2. left. now rewrite connectivity_mapping_keys. }
  assert (I0 : loop_invariant md' bound [] bound).
  { repeat split; [apply extends_refl | intros s [] | intros n v G; now left]. }
  rewrite Emd. split.
  - intros _ err V. unfold eval_components. rewrite B. cbn [bind]. rewrite Emd.
    now rewrite (numerical_components_Raise md' err V).
  - intros fields V.
    assert (Ev : eval_components m args kwargs
                 = (env <- eval_loop (connectivity_mapping md')
                             (combine (keys md')
                                (map (fun ve => sympy_to_py (snd ve)
                                        (sorted key_bool_str_leb key_param_str
                                                (dependencies_of (snd ve))) []) md'))
                             syms bound ;;
                    mapM (fun var => match get (name var) env with
                                     | Some v => Ok (atleast_1d v)
                                     | None => Raise KeyError
                                     end) (keys md'))).
    { unfold eval_components. rewrite B. cbn [bind]. rewrite Emd.
      rewrite (numerical_components_Ok md' fields ND' V). cbn [bind].
      unfold ordered_symbols. rewrite T. cbn [bind]. reflexivity. }
    pose proof (eval_loop_invariant md' bound syms ND' Hnk Hdf syms [] bound eq_refl I0)
      as Loop.
    split; [|split].
    + intros vals R. rewrite Ev in R.
      destruct (eval_loop _ _ syms bound) as [env|err]; [|discriminate]. cbn [bind] in R.
      destruct Loop as (I1 & I2 & I3).
      destruct (final_values (fun ke v => computed md' bound env (name (fst ke)) v) env md')
        as (vals' & M & F).
      { intros [k e] Hk. cbn [fst].
        assert (Hs : In k syms) by (apply Hkeys, in_keys; eauto).
        destruct (proj1 (has_key_get _ _) (I2 k Hs)) as [v G]. exists v. split; auto. }
      rewrite M in R. inversion R; subst vals'. exists env. split; [|assumption].
      repeat split; try assumption. intros k Hk. now apply I2, Hkeys.
    + intros env R.
      destruct (eval_loop_reaches md' bound syms ND' Hnk Hdf env
                  (variabletuple_Ok _ _ _ V) R syms [] bound eq_refl I0 (proj1 R))
        as (env' & El & (I1 & I2 & I3) & X).
      rewrite Ev, El. cbn [bind].
      assert (Q : mapM (fun var => match get (name var) env' with
                                   | Some v => Ok (atleast_1d v)
                                   | None => Raise KeyError
                                   end) (keys md')
                  = mapM (fun var => match get (name var) env with
                                     | Some v => Ok (atleast_1d v)
                                     | None => Raise KeyError
                                     end) (keys md')).
      { apply mapM_ext_in. intros k Hk.
        destruct (proj1 (has_key_get _ _) (I2 k (Hkeys k Hk))) as [v G].
        now rewrite G, (X _ _ G). }
      split; [exact Q|].
      destruct (final_values (fun _ _ => True) env' md') as (vals & M & _).
      { intros [k e] Hk. cbn [fst].
        assert (Hs : In k syms) by (apply Hkeys, in_keys; eauto).
        destruct (proj1 (has_key_get _ _) (I2 k Hs)) as [v G]. exists v. split; auto. }
      exists vals. exact M.
    + intros err R. rewrite Ev in R.
      destruct (eval_loop _ _ syms bound) as [env|err'].
      * cbn [bind] in R. destruct Loop as (I1 & I2 & I3).
        destruct (final_values (fun _ _ => True) env md') as (vals & M & _).
        { intros [k e] Hk. cbn [fst].
          assert (Hs : In k syms) by (apply Hkeys, in_keys; eauto).
          destruct (proj1 (has_key_get _ _) (I2 k Hs)) as [v G]. exists v. split; auto. }
        rewrite M in R. discriminate.
      * cbn [bind] in R. inversion R; subst err'. exact Loop.
Qed.

Lemma chain_rule_model_built : CallableModel_init chain_rule_dict = Ok chain_rule_model.
Proof. vm_compute. reflexivity. Qed.

Lemma eval_components_topological_witness :
  NoDup (keys chain_rule_dict) /\
  acyclic (connectivity_mapping chain_rule_dict) /\
  CallableModel_init chain_rule_dict = Ok chain_rule_model /\
  sig_bind (signature chain_rule_model) [Array [1; 2; 3]%Z] [("a", Scalar 5%Z)]
  = Ok [("x", Array [1; 2; 3]%Z); ("a", Scalar 5%Z)] /\
  resolved (model_dict chain_rule_model)
           [("x", Array [1; 2; 3]%Z); ("a", Scalar 5%Z)]
           [("x", Array [1; 2; 3]%Z); ("a", Scalar 5%Z);
            ("y", Array [5; 10; 15]%Z); ("z", Array [30; 105; 230]%Z)] /\
  eval_components chain_rule_model [Array [1; 2; 3]%Z] [("a", Scalar 5%Z)]
  = Ok [[5; 10; 15]%Z; [30; 105; 230]%Z].
Proof.
  assert (ND : NoDup (keys chain_rule_dict)) by (apply no_dup_NoDup; reflexivity).
  assert (A : acyclic (connectivity_mapping chain_rule_dict)).
  { apply acyclicb_acyclic; [apply no_dup_NoDup|]; vm_compute; reflexivity. }
  assert (B : sig_bind (signature chain_rule_model) [Array [1; 2; 3]%Z] [("a", Scalar 5%Z)]
              = Ok [("x", Array [1; 2; 3]%Z); ("a", Scalar 5%Z)]) by reflexivity.
  assert (R : resolved (model_dict chain_rule_model)
                [("x", Array [1; 2; 3]%Z); ("a", Scalar 5%Z)]
                [("x", Array [1; 2; 3]%Z); ("a", Scalar 5%Z);
                 ("y", Array [5; 10; 15]%Z); ("z", Array [30; 105; 230]%Z)]).
  { split; [|split].
    - intros n v G. cbn in G |- *.
      destruct (String.eqb n "x"); [assumption|].
      destruct (String.eqb n "a"); [assumption | discriminate].
    - intros n v G. cbn in G.
      destruct (String.eqb n "x") eqn:Ex.
      { apply String.eqb_eq in Ex. subst n. left. exact G. }
      destruct (String.eqb n "a") eqn:Ea.
      { apply String.eqb_eq in Ea. subst n. left. exact G. }
      destruct (String.eqb n "y") eqn:Ey.
      { apply String.eqb_eq in Ey. subst n. inversion G; subst v. right.
        exists (Var "y", Mul (Par "a") (Var "x")).
        split; [now left|]. split; reflexivity. }
      destruct (String.eqb n "z") eqn:Ez; [|discriminate].
      apply String.eqb_eq in Ez. subst n. inversion G; subst v. right.
      exists (Var "z", Add (Pow (Var "y") 2) (Par "a")).
      split; [right; now left|]. split; reflexivity.
    - intros k [<-|[<-|[]]]; reflexivity. }
  refine (conj ND (conj A (conj chain_rule_model_built (conj B (conj R _))))).
  destruct (eval_components_topological chain_rule_dict chain_rule_model
              [Array [1; 2; 3]%Z] [("a", Scalar 5%Z)] _ ND A chain_rule_model_built B)
    as (_ & H).
  destruct (H ["y"; "z"] eq_refl) as (_ & H4 & _).
  destruct (H4 _ R) as (Ev & _). rewrite Ev. reflexivity.
Defined.

(** The names of the keys of a given model are checked by computation. *)
Ltac name_fields :=
  repeat match goal with
         | |- context [variabletuple ?t ?l] =>
             let r := eval vm_compute in (variabletuple t l) in
             replace (variabletuple t l) with r by (vm_compute; reflexivity);
             cbn [bind]
         end.

(** The two-stage model of the spec, [{y: a*x, z: y**2 + a}]: the value
    returned for [z] is computed from the value computed for [y], at
    every sample of [x]. *)
Lemma chain_rule_model_call (xs : list Z) (a : Z) :
  call chain_rule_model [Array xs] [("a", Scalar a)]
  = Ok [(Var "y", map (fun x => a * x)%Z xs);
        (Var "z", map (fun x => (a * x) ^ 2 + a)%Z xs)].
Proof.
  unfold call, eval_components, numerical_components. name_fields.
  cbn. rewrite !map_map. reflexivity.
Qed.

(** ** numpy arithmetic on samples *)

Lemma stack_broadcast_single r : stack_broadcast [r] = Ok [r].
Proof.
  unfold stack_broadcast. cbn [filter].
  destruct (Nat.eqb (length r) 1) eqn:E; cbn [negb mapM]; unfold broadcast_to.
  - rewrite E. reflexivity.
  - rewrite Nat.eqb_refl. reflexivity.
Qed.

Lemma map2_map op (f g : Z -> Z) l :
  map2 op (map f l) (map g l) = map (fun x => op (f x) (g x)) l.
Proof. induction l as [|x l IH]; cbn; [reflexivity|]. now rewrite IH. Qed.

Lemma broadcast2_maps op (f g : Z -> Z) l :
  broadcast2 op (Array (map f l)) (Array (map g l))
  = Ok (Array (map (fun x => op (f x) (g x)) l)).
Proof.
  unfold broadcast2. rewrite !length_map, Nat.eqb_refl. now rewrite map2_map.
Qed.

Lemma broadcast2_map_l op (f : Z -> Z) l :
  broadcast2 op (Array (map f l)) (Array l)
  = Ok (Array (map (fun x => op (f x) x) l)).
Proof.
  rewrite <- (map_id l) at 2. rewrite broadcast2_maps. reflexivity.
Qed.

Lemma broadcast2_map_r op (f : Z -> Z) l :
  broadcast2 op (Array l) (Array (map f l))
  = Ok (Array (map (fun x => op x (f x)) l)).
Proof.
  rewrite <- (map_id l) at 1. rewrite broadcast2_maps. reflexivity.
Qed.

Lemma broadcast2_scalar_l op a l :
  broadcast2 op (Scalar a) (Array l) = Ok (Array (map (op a) l)).
Proof. reflexivity. Qed.

Lemma broadcast2_scalar_r op a l :
  broadcast2 op (Array l) (Scalar a) = Ok (Array (map (fun x => op x a) l)).
Proof. reflexivity. Qed.

Ltac numpy :=
  repeat (cbn -[broadcast2 stack_broadcast Z.pow Z.mul Z.add];
          rewrite ?map_map;
          first [ rewrite broadcast2_scalar_l | rewrite broadcast2_scalar_r
                | rewrite broadcast2_maps | rewrite broadcast2_map_l
                | rewrite broadcast2_map_r | rewrite stack_broadcast_single ]).

(** ** C1: the chain rule in the Jacobian *)

(** The docstring of [_partial_diff]: sympy evaluates a mixed repeated
    partial derivative of a plain symbol to zero, and [_partial_diff]
    keeps it. *)
Lemma partial_diff_keeps_mixed_partials :
  D (D (Var "y") [Par "a"]) [Par "a"] = Derivative (Var "y") [Par "a"; Par "a"] /\
  D (D (Var "y") [Par "a"]) [Par "b"] = Num 0 /\
  _partial_diff (D (Var "y") [Par "a"]) [Par "b"]
  = Derivative (Var "y") [Par "a"; Par "b"].
Proof. repeat split. Qed.

(** C1.  For the model [{y: a*x, z: y**2 + a}] the Jacobian model holds
    [2*y*D(y, a) + 1] for the partial derivative of [z] in [a], with
    [D(y, a)] a component of its own, and [eval_jacobian] returns, at
    every sample [x] and for every value of [a], [x] for the derivative
    of [y] and [2*y*x + 1] with [y = a*x] for that of [z].  The term
    [2*y*x] is the one of the chain rule: differentiating [y] or the
    expression of [z] as they stand, with [y] a plain symbol, gives [0]
    and [1].  For [a >= 0] the derivative of [z] is at least [1] at
    every sample. *)
Theorem jacobian_chain_rule (xs : list Z) (a : Z) :
  exists m,
    GradientModel_init chain_rule_dict = Ok m /\
    lookup (Derivative (Var "z") [Par "a"]) (model_dict (jacobian_model m))
    = Some (Add (Mul (Mul (Num 2) (Var "y")) (Derivative (Var "y") [Par "a"]))
                (Num 1)) /\
    lookup (Derivative (Var "y") [Par "a"]) (model_dict (jacobian_model m))
    = Some (Var "x") /\
    eval_jacobian m [Array xs] [("a", Scalar a)]
    = Ok [(Var "y", [xs]);
          (Var "z", [map (fun x => let y := a * x in 2 * y * x + 1)%Z xs])] /\
    diff (Var "y") (Par "a") = Num 0 /\
    diff (Add (Pow (Var "y") 2) (Par "a")) (Par "a") = Num 1 /\
    ((0 <= a)%Z ->
     Forall (fun dz_da => (1 <= dz_da)%Z)
            (map (fun x => let y := a * x in 2 * y * x + 1)%Z xs)).
Proof.
  eexists. split; [vm_compute; reflexivity|].
  split; [vm_compute; reflexivity|].
  split; [vm_compute; reflexivity|].
  split; [|split; [reflexivity|split; [reflexivity|]]].
  - unfold eval_jacobian, call, eval_components, numerical_components. name_fields. numpy.
    assert (E1 : map (fun x => x * 1)%Z xs = xs).
    { rewrite <- (map_id xs) at 2. apply map_ext. intros x. apply Z.mul_1_r. }
    assert (E2 : map (fun x => (2 * (a * x) * x + 1) * 1)%Z xs
                 = map (fun x => let y := a * x in 2 * y * x + 1)%Z xs).
    { apply map_ext. intros x. apply Z.mul_1_r. }
    rewrite E1, E2. reflexivity.
  - intros Ha. apply Forall_forall. intros v Hv. apply in_map_iff in Hv as (x & <- & _).
    cbn zeta. nia.
Qed.

(** ** Expanded expressions *)

Lemma mono_compare_refl m : mono_compare m m = Eq.
Proof.
  induction m as [|[a i] m IH]; cbn; [reflexivity|].
  now rewrite expr_compare_refl, Nat.compare_refl, IH.
Qed.

Lemma mono_compare_eq m : forall n, mono_compare m n = Eq -> m = n.
Proof.
  induction m as [|[a i] m IH]; intros [|[b j] n]; cbn; try discriminate; [reflexivity|].
  intros E. apply lex_Eq in E as [E1 E2]. apply lex_Eq in E2 as [E2 E3].
  apply expr_compare_eq in E1. apply Nat.compare_eq in E2. apply IH in E3. now subst.
Qed.

Lemma mono_eqb_eq m : forall n, mono_eqb m n = true <-> m = n.
Proof.
  induction m as [|[a i] m IH]; intros [|[b j] n]; cbn; split; try discriminate;
    try reflexivity.
  - intros H. apply andb_true_iff in H as [H H3]. apply andb_true_iff in H as [H1 H2].
    apply expr_eqb_eq in H1. apply Nat.eqb_eq in H2. apply IH in H3. now subst.
  - intros [= -> -> ->]. rewrite expr_eqb_refl, Nat.eqb_refl. cbn. now apply IH.
Qed.

Lemma poly_eqb_eq p : forall q, poly_eqb p q = true <-> p = q.
Proof.
  induction p as [|[m c] p IH]; intros [|[n d] q]; cbn; split; try discriminate;
    try reflexivity.
  - intros H. apply andb_true_iff in H as [H H3]. apply andb_true_iff in H as [H1 H2].
    apply mono_eqb_eq in H1. apply Z.eqb_eq in H2. apply IH in H3. now subst.
  - intros [= -> -> ->]. rewrite Z.eqb_refl.
    rewrite (proj2 (mono_eqb_eq n n) eq_refl). cbn. now apply IH.
Qed.

Lemma poly_add_nil_r p : poly_add p [] = p.
Proof. now destruct p as [|[m c] p]. Qed.

Lemma poly_add_cons m c p n d q :
  poly_add ((m, c) :: p) ((n, d) :: q) =
  match mono_compare m n with
  | Eq => if Z.eqb (c + d) 0 then poly_add p q else (m, (c + d)%Z) :: poly_add p q
  | Lt => (m, c) :: poly_add p ((n, d) :: q)
  | Gt => (n, d) :: poly_add ((m, c) :: p) q
  end.
Proof. reflexivity. Qed.

(** The difference of two expanded expressions is zero exactly when
    they are the same. *)
Lemma poly_add_opposite p : forall q,
  poly_add p (poly_cscale (-1) q) = [] <-> p = q.
Proof.
  induction p as [|[m c] p IH]; intros [|[n d] q].
  - cbn. tauto.
  - cbn. split; discriminate.
  - cbn. split; discriminate.
  - unfold poly_cscale. cbn [map fst snd]. rewrite poly_add_cons.
    fold (poly_cscale (-1) q). split.
    + destruct (mono_compare m n) eqn:E; try discriminate.
      destruct (Z.eqb (c + -1 * d) 0) eqn:Z0; [|discriminate].
      intros H. apply IH in H. apply mono_compare_eq in E. apply Z.eqb_eq in Z0.
      subst. f_equal. f_equal. lia.
    + intros [= -> -> ->]. rewrite mono_compare_refl.
      replace (d + -1 * d)%Z with 0%Z by lia. cbn. now apply IH.
Qed.

Lemma expand_scaled c e :
  c <> 0%Z -> expand (Mul (Num c) e) = poly_cscale c (expand e).
Proof.
  intros N. cbn [expand]. unfold poly_term.
  apply Z.eqb_neq in N. rewrite N. reflexivity.
Qed.

Lemma expand_difference e1 e2 : equivalent e1 e2 <-> expand e1 = expand e2.
Proof.
  unfold equivalent, difference. cbn [expand].
  change (poly_mul (poly_term [] (-1)) (expand e2)) with (poly_cscale (-1) (expand e2)).
  apply poly_add_opposite.
Qed.

Lemma poly_cscale_cscale c d p : poly_cscale c (poly_cscale d p) = poly_cscale (c * d) p.
Proof.
  unfold poly_cscale. rewrite map_map. apply map_ext. intros [m k]. cbn [fst snd].
  now rewrite Z.mul_assoc.
Qed.

Lemma poly_cscale_1 p : poly_cscale 1 p = p.
Proof.
  unfold poly_cscale. rewrite <- (map_id p) at 2. apply map_ext.
  intros [m k]. cbn [fst snd]. now rewrite Z.mul_1_l.
Qed.

Lemma poly_mul_nil q : poly_mul [] q = [].
Proof. reflexivity. Qed.

Lemma expand_mk_coeff c e : expand (mk_coeff c e) = expand (Mul (Num c) e).
Proof.
  unfold mk_coeff. destruct (Z.eqb c 0) eqn:E0.
  - apply Z.eqb_eq in E0. subst. reflexivity.
  - destruct (Z.eqb c 1) eqn:E1; [|reflexivity].
    apply Z.eqb_eq in E1. subst. rewrite expand_scaled by lia. now rewrite poly_cscale_1.
Qed.

(** Negation scales the expanded expression by -1. *)
Lemma expand_negated e :
  expand (mk_mul e (Num (-1))) = poly_cscale (-1) (expand e).
Proof.
  assert (G : expand (mk_coeff (-1) e) = poly_cscale (-1) (expand e)).
  { rewrite expand_mk_coeff. now apply expand_scaled. }
  destruct e as [n| | |a b|a b| | |]; try exact G.
  - cbn [mk_mul expand]. unfold poly_term.
    destruct (Z.eqb n 0) eqn:E0.
    + apply Z.eqb_eq in E0. subst. reflexivity.
    + apply Z.eqb_neq in E0. destruct (Z.eqb (n * -1) 0) eqn:E1.
      * apply Z.eqb_eq in E1. lia.
      * unfold poly_cscale. cbn [map fst snd]. do 2 f_equal. apply Z.mul_comm.
  - destruct a as [d| | | | | | |]; try exact G.
    cbn [mk_mul]. rewrite expand_mk_coeff.
    destruct (Z.eq_dec d 0) as [->|Nd].
    + reflexivity.
    + rewrite !expand_scaled by lia. now rewrite poly_cscale_cscale.
Qed.

Lemma expand_negated_twice e :
  expand (mk_mul (mk_mul e (Num (-1))) (Num (-1))) = expand e.
Proof.
  rewrite !expand_negated, poly_cscale_cscale. apply poly_cscale_1.
Qed.

(** ** C8: equality of models *)

Lemma same_models_refl d : same_models d d.
Proof.
  unfold same_models. induction d as [|ke d IH]; constructor; [|assumption].
  split; [reflexivity|]. now apply expand_difference.
Qed.

Lemma eq_loop_spec self other :
  NoDup (keys self) -> NoDup (keys other) ->
  forall s o, incl s self -> incl o other -> length s = length o ->
    (eq_loop self other (combine (keys s) (keys o)) = Ok true <-> same_models s o) /\
    (eq_loop self other (combine (keys s) (keys o)) = Ok true \/
     eq_loop self other (combine (keys s) (keys o)) = Ok false).
Proof.
  intros N1 N2. unfold same_models.
  induction s as [|[k1 e1] s IH]; intros [|[k2 e2] o] I1 I2 L; try discriminate.
  - cbn. split; [split; [constructor | reflexivity] | now left].
  - cbn [keys map combine fst eq_loop].
    assert (I1' : incl s self) by (intros x Hx; apply I1; now right).
    assert (I2' : incl o other) by (intros x Hx; apply I2; now right).
    assert (L' : length s = length o) by (cbn in L; lia).
    destruct (IH o I1' I2' L') as [IHa IHb].
    destruct (expr_eqb k1 k2) eqn:Ek; cbn [negb].
    + apply expr_eqb_eq in Ek. subst k2.
      rewrite (lookup_In k1 e1 self N1 (I1 _ (or_introl eq_refl))).
      rewrite (lookup_In k1 e2 other N2 (I2 _ (or_introl eq_refl))).
      destruct (poly_eqb (expand e1) (expand e2)) eqn:Ep; cbn [negb].
      * apply poly_eqb_eq in Ep. split; [|exact IHb]. fold (keys s) (keys o).
        rewrite IHa. split.
        -- intros F. constructor; [|assumption]. split; [reflexivity|].
           now apply expand_difference.
        -- intros F. now inversion F.
      * split; [|now right]. split; [discriminate|]. intros F.
        inversion F as [|? ? ? ? [_ Q] _]; subst. apply expand_difference in Q.
        cbn in Q. rewrite Q in Ep.
        rewrite (proj2 (poly_eqb_eq _ _) eq_refl) in Ep. discriminate.
    + split; [|now right]. split; [discriminate|]. intros F.
      inversion F as [|? ? ? ? [Q _] _]; subst. cbn in Q. subst.
      rewrite expr_eqb_refl in Ek. discriminate.
Qed.

(** For models with at most 256 dependent variables, [==] holds exactly
    when the two models have the same dependent variables, in turn, with
    expressions whose difference expands to zero. *)
Lemma BaseModel_eq_small (self other : BaseModel) :
  NoDup (keys (model_dict self)) -> NoDup (keys (model_dict other)) ->
  length (model_dict self) <= 256 ->
  (BaseModel_eq self other = Ok true <->
   same_models (model_dict self) (model_dict other)) /\
  (BaseModel_eq self other = Ok true \/ BaseModel_eq self other = Ok false).
Proof.
  intros N1 N2 L. unfold BaseModel_eq, int_is.
  destruct (Nat.eqb (length (model_dict self)) (length (model_dict other))) eqn:E.
  - apply Nat.eqb_eq in E. apply Nat.leb_le in L. rewrite L. cbn [andb negb].
    apply eq_loop_spec; try assumption; apply incl_refl.
  - cbn [andb negb]. split; [|now right]. split; [discriminate|].
    intros F. apply Forall2_length in F. apply Nat.eqb_neq in E. contradiction.
Qed.

(** The comparison is not one of expression trees. *)
Lemma equal_models_with_different_trees :
  exists m1 m2,
    CallableModel_init [(Var "y", Pow (Add (Var "x") (Num 1)) 2)] = Ok m1 /\
    CallableModel_init
      [(Var "y", Add (Add (Pow (Var "x") 2) (Mul (Num 2) (Var "x"))) (Num 1))] = Ok m2 /\
    model_dict m1 <> model_dict m2 /\
    BaseModel_eq m1 m2 = Ok true.
Proof.
  eexists. eexists. split; [vm_compute; reflexivity|].
  split; [vm_compute; reflexivity|]. split; [discriminate | vm_compute; reflexivity].
Qed.

(** C8, at a model with 257 dependent variables: the lengths are
    compared with [is not], the two [int] objects are not the same
    object, and the model is found different from itself although it has
    the same dependent variables as itself with equivalent
    expressions. *)
Theorem wide_model_differs_from_itself :
  exists m,
    CallableModel_init (wide_dict 257) = Ok m /\
    length (model_dict m) = 257 /\
    same_models (model_dict m) (model_dict m) /\
    BaseModel_eq m m = Ok false.
Proof.
  destruct (CallableModel_init (wide_dict 257)) as [m|e] eqn:E.
  - exists m. split; [reflexivity|].
    assert (B : BaseModel_eq m m = Ok false /\ length (model_dict m) = 257).
    { assert (H : (m' <- CallableModel_init (wide_dict 257) ;;
                   Ok (BaseModel_eq m' m', length (model_dict m')))
                  = Ok (Ok false, 257)) by (vm_compute; reflexivity).
      rewrite E in H. cbn in H. inversion H. now split. }
    destruct B as [B1 B2]. repeat split; [assumption | apply same_models_refl | assumption].
  - exfalso.
    assert (H : is_ok (CallableModel_init (wide_dict 257)) = true) by (vm_compute; reflexivity).
    rewrite E in H. discriminate.
Qed.

(** ** C9: negation *)

Lemma free_symbols_NoDup e : NoDup (free_symbols e).
Proof.
  induction e using expr_ind'; cbn [free_symbols]; try apply set_of_NoDup;
    try assumption; try constructor; try (intros []); constructor.
Qed.

Lemma derivative_atoms_NoDup e : NoDup (derivative_atoms e).
Proof.
  induction e using expr_ind'; cbn [derivative_atoms]; try apply set_of_NoDup;
    try assumption; constructor.
Qed.

Lemma free_symbols_scaled c e : free_symbols (Mul (Num c) e) = free_symbols e.
Proof.
  cbn [free_symbols]. unfold union. cbn [app]. apply set_of_id, free_symbols_NoDup.
Qed.

Lemma derivative_atoms_scaled c e : derivative_atoms (Mul (Num c) e) = derivative_atoms e.
Proof.
  cbn [derivative_atoms]. unfold union. cbn [app]. apply set_of_id, derivative_atoms_NoDup.
Qed.

Lemma no_zero_product_scaled c b :
  no_zero_product (Mul (Num c) b) = true <->
  c <> 0%Z /\ is_zero b = false /\ no_zero_product b = true.
Proof.
  cbn [no_zero_product]. rewrite !andb_true_iff, !negb_true_iff. cbn [is_zero].
  destruct c; split; intros H; try tauto; try (repeat split; try tauto; discriminate).
  - destruct H as [[[H _] _] _]. discriminate.
Qed.

(** What negation makes of an expression: the expression with its
    numeric coefficient negated. *)
Lemma mk_mul_minus_one e :
  (exists n, e = Num n /\ mk_mul e (Num (-1)) = Num (n * -1)) \/
  (exists d b, e = Mul (Num d) b /\
               (d <> 0%Z ->
                mk_mul e (Num (-1)) = b \/
                (mk_mul e (Num (-1)) = Mul (Num (-1 * d)) b /\ (-1 * d <> 0)%Z))) \/
  mk_mul e (Num (-1)) = Mul (Num (-1)) e.
Proof.
  destruct e as [n| | |a b|a b| | |]; try (right; right; reflexivity).
  - left. now exists n.
  - destruct a as [d| | | | | | |]; try (right; right; reflexivity).
    right. left. exists d, b. split; [reflexivity|]. intros Nd.
    cbn [mk_mul]. unfold mk_coeff.
    destruct (Z.eqb (-1 * d) 0) eqn:E0; [apply Z.eqb_eq in E0; lia|].
    destruct (Z.eqb (-1 * d) 1) eqn:E1; [now left | right].
    split; [reflexivity | lia].
Qed.

Lemma negated_symbols e :
  no_zero_product e = true ->
  free_symbols (mk_mul e (Num (-1))) = free_symbols e /\
  derivative_atoms (mk_mul e (Num (-1))) = derivative_atoms e /\
  no_zero_product (mk_mul e (Num (-1))) = true.
Proof.
  intros Z0.
  destruct (mk_mul_minus_one e) as [(n & -> & ->)|[(d & b & -> & H)|E]].
  - repeat split.
  - apply no_zero_product_scaled in Z0 as (Nd & Zb & Z0).
    destruct (H Nd) as [E|[E N]]; rewrite E.
    + rewrite free_symbols_scaled, derivative_atoms_scaled. now repeat split.
    + rewrite !free_symbols_scaled, !derivative_atoms_scaled. repeat split.
      now apply no_zero_product_scaled.
  - rewrite E, free_symbols_scaled, derivative_atoms_scaled. repeat split.
    apply no_zero_product_scaled. repeat split; [lia | | assumption].
    destruct e as [n| | | | | | |]; try reflexivity.
    destruct n; [|reflexivity|reflexivity]. cbn in E. discriminate.
Qed.

Lemma dependencies_of_negated e :
  no_zero_product e = true ->
  dependencies_of (mk_mul e (Num (-1))) = dependencies_of e.
Proof.
  intros Z0. destruct (negated_symbols e Z0) as (E1 & E2 & _).
  unfold dependencies_of, seperate_symbols. now rewrite E1, E2.
Qed.

Lemma lookup_app_notin {V} k (d1 d2 : list (expr * V)) :
  ~ In k (keys d1) -> lookup k (d1 ++ d2) = lookup k d2.
Proof.
  unfold keys. induction d1 as [|[k' v'] d1 IH]; cbn; [reflexivity|]. intros N.
  destruct (expr_eqb k k') eqn:E; [apply expr_eqb_eq in E; subst; tauto|].
  apply IH. tauto.
Qed.

Lemma dict_set_app_notin {V} k (v : V) d1 d2 :
  ~ In k (keys d1) -> dict_set k v (d1 ++ d2) = d1 ++ dict_set k v d2.
Proof.
  unfold keys. induction d1 as [|[k' v'] d1 IH]; cbn; [reflexivity|]. intros N.
  destruct (expr_eqb k k') eqn:E; [apply expr_eqb_eq in E; subst; tauto|].
  f_equal. apply IH. tauto.
Qed.

(** The loop of [__neg__] negates every expression of the copy. *)
Lemma negation_loop (step := fun d key =>
                       match lookup key d with
                       | Some e => dict_set key (mk_mul e (Num (-1))) d
                       | None => d
                       end) todo :
  forall done, NoDup (keys (done ++ todo)) ->
    fold_left step (keys todo) (map negated done ++ todo) = map negated (done ++ todo).
Proof.
  induction todo as [|[k e] todo IH]; intros done ND.
  - cbn. now rewrite !app_nil_r.
  - cbn [keys map fold_left fst].
    assert (Nk : ~ In k (keys (map negated done))).
    { unfold keys in *. rewrite map_map. cbn. rewrite map_app in ND.
      apply NoDup_remove_2 in ND. intros H. apply ND. apply in_app_iff. now left. }
    unfold step at 2. rewrite lookup_app_notin by assumption.
    cbn [lookup]. rewrite expr_eqb_refl.
    rewrite dict_set_app_notin by assumption. cbn [dict_set]. rewrite expr_eqb_refl.
    specialize (IH (done ++ [(k, e)])). rewrite <- app_assoc in IH. cbn [app] in IH.
    rewrite map_app in IH. cbn [map] in IH. rewrite <- app_assoc in IH. cbn [app] in IH.
    unfold negated at 2 in IH. cbn [fst snd] in IH. fold (keys todo). now apply IH.
Qed.

Lemma sorted_map_values (F : expr * expr -> expr * expr) l :
  (forall ke, fst (F ke) = fst ke) ->
  sorted String.leb (fun i => name (fst i)) (map F l)
  = map F (sorted String.leb (fun i => name (fst i)) l).
Proof.
  intros HF. induction l as [|x l IH]; cbn [map sorted]; [reflexivity|].
  rewrite IH. generalize (sorted String.leb (fun i => name (fst i)) l). intros s.
  induction s as [|y s IHs]; cbn [map insert_sorted]; [reflexivity|].
  rewrite !HF. destruct (String.leb (name (fst x)) (name (fst y))); cbn [map];
    [reflexivity | now rewrite IHs].
Qed.

Lemma sorted_sorted {A} (key : A -> string) l :
  sorted String.leb key (sorted String.leb key l) = sorted String.leb key l.
Proof.
  assert (G : forall s, StronglySorted (fun a b => String.leb (key a) (key b) = true) s ->
                        sorted String.leb key s = s).
  { induction 1 as [|y s Hs IH Hy]; cbn [sorted]; [reflexivity|]. rewrite IH.
    destruct s as [|z s]; [reflexivity|]. cbn [insert_sorted].
    inversion Hy; subst. now rewrite H1. }
  apply G, sorted_strongly.
Qed.

(** A model dict with the same keys and the same dependencies makes the
    same model, but for the expressions. *)
Lemma CallableModel_init_mapped md m (F : expr * expr -> expr * expr) :
  CallableModel_init md = Ok m ->
  (forall ke, fst (F ke) = fst ke) ->
  (forall ke, In ke md -> dependencies_of (snd (F ke)) = dependencies_of (snd ke)) ->
  CallableModel_init (map F (model_dict m))
  = Ok (with_model_dict m (map F (model_dict m))).
Proof.
  intros E HF HD.
  destruct (CallableModel_init_inv md m E) as (L0 & rest & T & Emd & Ei & Ep & Es).
  set (md' := sorted String.leb (fun i => name (fst i)) md) in *.
  assert (S : sorted String.leb (fun i => name (fst i)) (map F md') = map F md').
  { rewrite sorted_map_values by assumption. unfold md'. now rewrite sorted_sorted. }
  assert (C : connectivity_mapping (map F md') = connectivity_mapping md').
  { unfold connectivity_mapping. rewrite map_map. apply map_ext_in. intros ke Hke.
    rewrite HF. f_equal. apply HD. unfold md' in Hke. now apply sorted_In in Hke. }
  assert (K : keys (map F md') = keys md').
  { unfold keys. rewrite map_map. apply map_ext. intros ke. apply HF. }
  revert E. unfold CallableModel_init, BaseModel_init_from_dict.
  rewrite Emd, S, C, K. fold md'. rewrite T. cbn [bind pop_first fst snd].
  destruct (pop_last rest) as [q|err]; [|discriminate]. cbn [bind independent_vars params].
  destruct (make_signature _ _) as [s|err]; [|discriminate]. cbn [bind].
  intros [= <-]. reflexivity.
Qed.

(** For a model whose expressions are ones that sympy can hold, [-m] is
    a new model that has the negated expressions, and [-(-m)] is a model
    with the same dependent variables as [m] and expressions equivalent
    to those of [m], which [==] finds equal to [m] when [m] has at most
    256 dependent variables. *)
Lemma negation_involutive (md : list (expr * expr)) (m : CallableModel) :
  NoDup (keys md) ->
  Forall (fun ke => no_zero_product (snd ke) = true) md ->
  CallableModel_init md = Ok m ->
  exists m1 m2,
    CallableModel_neg m = (model_dict m, Ok m1) /\
    model_dict m1 = map negated (model_dict m) /\
    CallableModel_neg m1 = (model_dict m1, Ok m2) /\
    same_models (model_dict m2) (model_dict m) /\
    (length (model_dict m) <= 256 -> BaseModel_eq m2 m = Ok true).
Proof.
  intros ND Z0 E.
  destruct (CallableModel_init_inv md m E) as (L0 & rest & T & Emd & _).
  assert (ND' : NoDup (keys (model_dict m))).
  { rewrite Emd. unfold keys. eapply Permutation_NoDup; [|exact ND].
    apply Permutation_map. symmetry. apply sorted_perm. }
  assert (Z0' : forall ke, In ke (model_dict m) -> no_zero_product (snd ke) = true).
  { intros ke H. rewrite Emd in H. apply sorted_In in H.
    rewrite Forall_forall in Z0. now apply Z0. }
  assert (N1 : forall d, NoDup (keys d) ->
                 fold_left (fun d key => match lookup key d with
                                         | Some e => dict_set key (mk_mul e (Num (-1))) d
                                         | None => d
                                         end) (keys d) d = map negated d).
  { intros d Hd. exact (negation_loop d [] Hd). }
  set (m1 := with_model_dict m (map negated (model_dict m))).
  assert (E1 : CallableModel_init (map negated (model_dict m)) = Ok m1).
  { apply (CallableModel_init_mapped md m negated E); [reflexivity|].
    intros ke H. apply dependencies_of_negated. rewrite Forall_forall in Z0. now apply Z0. }
  assert (Ks : keys (map negated (model_dict m)) = keys (model_dict m)).
  { unfold keys. now rewrite map_map. }
  set (m2 := with_model_dict m1 (map negated (model_dict m1))).
  assert (E2 : CallableModel_init (map negated (model_dict m1)) = Ok m2).
  { apply (CallableModel_init_mapped (map negated (model_dict m)) m1 negated E1);
      [reflexivity|].
    intros ke H. apply dependencies_of_negated.
    apply in_map_iff in H as (ke0 & <- & H0). cbn [negated snd].
    now apply negated_symbols, Z0'. }
  exists m1, m2.
  assert (S : same_models (model_dict m2) (model_dict m)).
  { cbn [m2 m1 with_model_dict model_dict base]. rewrite map_map. unfold same_models.
    clear. induction (model_dict m) as [|ke d IH]; cbn [map]; constructor; [|assumption].
    split; [reflexivity|]. apply expand_difference. cbn [negated snd fst].
    apply expand_negated_twice. }
  repeat split.
  - unfold CallableModel_neg. now rewrite (N1 _ ND'), E1.
  - unfold CallableModel_neg. cbn [m1 with_model_dict model_dict base].
    rewrite N1 by now rewrite Ks.
    cbn [m1 with_model_dict model_dict base] in E2. now rewrite E2.
  - exact S.
  - intros L. apply BaseModel_eq_small; try assumption.
    + cbn [m2 m1 with_model_dict model_dict base].
      assert (K2 : keys (map negated (map negated (model_dict m))) = keys (model_dict m)).
      { unfold keys. now rewrite !map_map. }
      now rewrite K2.
    + cbn [m2 m1 with_model_dict model_dict base]. rewrite !length_map. exact L.
Qed.

Lemma negation_involutive_witness :
  exists m1 m2,
    CallableModel_neg chain_rule_model = (model_dict chain_rule_model, Ok m1) /\
    model_dict m1 = map negated (model_dict chain_rule_model) /\
    CallableModel_neg m1 = (model_dict m1, Ok m2) /\
    same_models (model_dict m2) (model_dict chain_rule_model) /\
    (length (model_dict chain_rule_model) <= 256 ->
     BaseModel_eq m2 chain_rule_model = Ok true).
Proof.
  apply (negation_involutive chain_rule_dict chain_rule_model).
  - apply no_dup_NoDup. vm_compute. reflexivity.
  - repeat constructor.
  - vm_compute. reflexivity.
Defined.

Lemma BaseModel_eq_large (self other : BaseModel) :
  256 < length (model_dict self) -> BaseModel_eq self other = Ok false.
Proof.
  intros L. unfold BaseModel_eq, int_is.
  assert (E : Nat.leb (length (model_dict self)) 256 = false) by (apply Nat.leb_gt; lia).
  rewrite E, andb_false_r. reflexivity.
Qed.

(** C9, at a model with 257 dependent variables: [-m] and [-(-m)] are
    built, [-(-m)] has the dependent variables of [m] with expressions
    equivalent to those of [m], and [==] finds it different from [m],
    where the claim says that they are equal: the lengths are compared
    with [is not], as in C8. *)
Theorem wide_model_double_negation :
  exists m m1 m2,
    CallableModel_init (wide_dict 257) = Ok m /\
    length (model_dict m) = 257 /\
    CallableModel_neg m = (model_dict m, Ok m1) /\
    CallableModel_neg m1 = (model_dict m1, Ok m2) /\
    same_models (model_dict m2) (model_dict m) /\
    BaseModel_eq m2 m = Ok false.
Proof.
  destruct (CallableModel_init (wide_dict 257)) as [m|e] eqn:E.
  - assert (L : length (model_dict m) = 257).
    { assert (H : (m' <- CallableModel_init (wide_dict 257) ;;
                   Ok (length (model_dict m'))) = Ok 257) by (vm_compute; reflexivity).
      rewrite E in H. cbn in H. now inversion H. }
    assert (ND : NoDup (keys (wide_dict 257))) by (apply no_dup_NoDup; vm_compute; reflexivity).
    assert (Z0 : Forall (fun ke => no_zero_product (snd ke) = true) (wide_dict 257)).
    { apply Forall_forall. intros ke H. unfold wide_dict in H.
      apply in_map_iff in H as (i & <- & _). reflexivity. }
    destruct (negation_involutive (wide_dict 257) m ND Z0 E)
      as (m1 & m2 & N1 & D1 & N2 & S & _).
    exists m, m1, m2. repeat split; try assumption.
    apply BaseModel_eq_large.
    assert (K : length (model_dict m2) = length (model_dict m)).
    { unfold same_models in S. clear - S. induction S; cbn; congruence. }
    rewrite K, L. lia.
  - exfalso.
    assert (H : is_ok (CallableModel_init (wide_dict 257)) = true) by (vm_compute; reflexivity).
    rewrite E in H. discriminate.
Qed.

(** ** C4: the number of independent variables of an ODE model *)

(** C4, at a spec with the two independent variables [x] and [t]: the
    constructor returns a model, where the claim and the message of the
    [ModelError] that the code has for this say that it is rejected. *)
Theorem two_independent_variables_accepted :
  exists m, ODEModel_init two_times_dict growth_initial = Ok m /\
            ode_independent_vars m = [Var "t"; Var "x"].
Proof. eexists. split; vm_compute; reflexivity. Qed.

Lemma mapM_length {A B} (f : A -> result B) l : forall r,
  mapM f l = Ok r -> length r = length l.
Proof.
  induction l as [|x l IH]; intros r E; cbn in E.
  - now inversion E.
  - destruct (f x); [|discriminate]. cbn in E.
    destruct (mapM f l) as [r'|]; [|discriminate]. cbn in E. inversion E. cbn.
    now rewrite (IH r').
Qed.

Lemma mapM_Raise {A B} (f : A -> result B) l e :
  mapM f l = Raise e -> exists x, In x l /\ f x = Raise e.
Proof.
  induction l as [|x l IH]; cbn; [discriminate|].
  destruct (f x) as [y|e'] eqn:F; cbn.
  - destruct (mapM f l) as [r|e'']; cbn; [discriminate|].
    intros [= ->]. destruct (IH eq_refl) as (x' & H & E). exists x'. auto.
  - intros [= ->]. exists x. auto.
Qed.

Lemma make_signature_Raise ivs ps e :
  make_signature ivs ps = Raise e -> e = ValueError \/ e = IndexError.
Proof.
  unfold make_signature.
  destruct (mapM _ (ivs ++ ps)) as [l|e'] eqn:M; cbn [bind].
  - unfold Signature. destruct (has_duplicates _); [|discriminate].
    intros [= <-]. now left.
  - intros [= <-]. apply mapM_Raise in M as (x & _ & F).
    unfold inspect_Parameter in F. destruct (name x); [inversion F; now right|].
    destruct (_ || _); [|discriminate]. inversion F. now left.
Qed.

(** The check of the constructor only turns away a spec without any
    equation. *)
Lemma ModelError_only_without_equations md initial :
  ODEModel_init md initial = Raise ModelError <-> md = [].
Proof.
  split; [|intros ->; reflexivity].
  unfold ODEModel_init.
  destruct (mapM _ (keys md)) as [dd|e] eqn:M1; cbn [bind].
  - destruct (mapM first_variable (keys md)) as [firsts|e] eqn:M2; cbn [bind].
    + destruct (Nat.eqb (length (sort_by_str (set_of firsts))) 0) eqn:L; cbn [negb].
      * intros _. apply Nat.eqb_eq in L. unfold sort_by_str in L.
        rewrite sorted_length in L. apply mapM_length in M2.
        destruct firsts as [|v firsts].
        -- destruct md; [reflexivity | discriminate].
        -- exfalso. assert (H : In v (set_of (v :: firsts))) by (apply set_of_In; now left).
           destruct (set_of (v :: firsts)); [destruct H | discriminate].
      * destruct (make_signature _ _) as [sg|e] eqn:S; cbn [bind]; [discriminate|].
        intros [= ->]. apply make_signature_Raise in S as [S|S]; discriminate.
    + intros [= ->]. apply mapM_Raise in M2 as (d & _ & F).
      unfold first_variable in F. destruct d; try discriminate.
      destruct variables; discriminate.
  - intros [= ->]. apply mapM_Raise in M1 as (d & _ & F).
    unfold dependent_of in F. destruct d; try discriminate.
    cbn [bind] in F. destruct (set_diff _ _); discriminate.
Qed.

(** ** C10: indexing an ODE model *)

Lemma dependent_derivatives_lookup ks : forall dd,
  mapM (fun d => v <- dependent_of d ;; Ok (d, v)) ks = Ok dd ->
  (forall d, In d ks -> exists v, dependent_of d = Ok v /\ lookup d dd = Some v) /\
  (forall v, In v (map snd dd) <-> exists d, In d ks /\ dependent_of d = Ok v).
Proof.
  induction ks as [|k ks IH]; intros dd E; cbn in E.
  - inversion E; subst. cbn. split; [intros d [] | intros v; split; [intros [] | intros (d & [] & _)]].
  - destruct (dependent_of k) as [w|] eqn:Dk; [|discriminate]. cbn in E.
    destruct (mapM _ ks) as [dd'|] eqn:M; [|discriminate]. cbn in E. inversion E; subst.
    destruct (IH dd' eq_refl) as [I1 I2]. split.
    + intros d [<-|Hd].
      * exists w. split; [assumption|]. cbn. now rewrite expr_eqb_refl.
      * destruct (I1 d Hd) as (v & Dv & Lv). exists v. split; [assumption|].
        cbn. destruct (expr_eqb d k) eqn:Ek; [|assumption].
        apply expr_eqb_eq in Ek. subst. congruence.
    + intros v. cbn. rewrite I2. split.
      * intros [<-|(d & Hd & Dv)]; [exists k; auto | exists d; auto].
      * intros (d & [<-|Hd] & Dv); [left; congruence | right; eauto].
Qed.

Lemma getitem_loop_spec dd v items :
  (forall d f, In (d, f) items ->
               exists w, dependent_of d = Ok w /\ lookup d dd = Some w) ->
  (getitem_loop dd items v = Ok None /\
   forall d f, In (d, f) items -> dependent_of d <> Ok v) \/
  (exists d f, getitem_loop dd items v = Ok (Some f) /\
               In (d, f) items /\ dependent_of d = Ok v).
Proof.
  induction items as [|[d f] items IH]; intros H; cbn.
  - left. split; [reflexivity | intros d f []].
  - destruct (H d f (or_introl eq_refl)) as (w & Dw & Lw). rewrite Lw.
    destruct (expr_eqb v w) eqn:E.
    + apply expr_eqb_eq in E. subst w. right. exists d, f. auto.
    + apply expr_eqb_neq in E.
      destruct IH as [[R N]|(d' & f' & R & I & Dv)].
      * intros d' f' I. apply (H d' f'). now right.
      * left. split; [assumption|]. intros d' f' [[= <- <-]|I]; [congruence | eauto].
      * right. exists d', f'. auto.
Qed.

(** C10.  Indexing an ODE model with a symbol that is not one of its
    dependent variables returns [None], without an error; indexing it
    with a dependent variable returns the right-hand side of an equation
    of the spec for the derivative of that variable. *)
Theorem ode_getitem (md : list (expr * expr)) (initial : list (expr * Z)) (m : ODEModel) :
  ODEModel_init md initial = Ok m ->
  (forall v, ~ In v (ode_dependent_vars m) -> ODEModel_getitem m v = Ok None) /\
  (forall v, In v (ode_dependent_vars m) ->
     exists d f, ODEModel_getitem m v = Ok (Some f) /\
                 In (d, f) md /\ dependent_of d = Ok v).
Proof.
  unfold ODEModel_init. intros E.
  destruct (mapM _ (keys md)) as [dd|e] eqn:M1; [|discriminate]. cbn [bind] in E.
  destruct (mapM first_variable (keys md)) as [firsts|e]; [|discriminate].
  cbn [bind] in E.
  destruct (negb _); [|discriminate].
  destruct (make_signature _ _) as [s|e]; [|discriminate]. cbn [bind] in E.
  inversion E; subst m. clear E. unfold ODEModel_getitem.
  cbn [dependent_derivatives ode_model_dict ode_dependent_vars].
  destruct (dependent_derivatives_lookup (keys md) dd M1) as [D1 D2].
  set (items := sorted String.leb _ md).
  assert (Hitems : forall d f, In (d, f) items <-> In (d, f) md).
  { intros d f. apply sorted_In. }
  assert (H : forall d f, In (d, f) items ->
                          exists w, dependent_of d = Ok w /\ lookup d dd = Some w).
  { intros d f I. apply D1. apply in_keys. exists f. now apply Hitems. }
  split; intros v Hv.
  - destruct (getitem_loop_spec dd v items H) as [[R _]|(d & f & _ & I & Dv)];
      [assumption|].
    exfalso. apply Hv. unfold sort_by_str. apply sorted_In. apply D2.
    exists d. split; [|assumption]. apply in_keys. exists f. now apply Hitems.
  - unfold sort_by_str in Hv. apply sorted_In, D2 in Hv as (d & Hd & Dv).
    apply in_keys in Hd as (f & Hf).
    destruct (getitem_loop_spec dd v items H) as [[_ N]|(d' & f' & R & I & Dv')].
    + exfalso. apply (N d f); [now apply Hitems | assumption].
    + exists d', f'. repeat split; [assumption | now apply Hitems | assumption].
Qed.

Lemma ode_getitem_witness :
  (forall v, ~ In v (ode_dependent_vars growth_model) ->
             ODEModel_getitem growth_model v = Ok None) /\
  (forall v, In v (ode_dependent_vars growth_model) ->
     exists d f, ODEModel_getitem growth_model v = Ok (Some f) /\
                 In (d, f) growth_dict /\ dependent_of d = Ok v).
Proof.
  apply (ode_getitem growth_dict growth_initial growth_model).
  vm_compute. reflexivity.
Defined.

(** ** C5: the trajectory of an ODE model *)

Lemma filter_all {A} (f : A -> bool) l :
  Forall (fun x => f x = true) l -> filter f l = l.
Proof.
  induction 1 as [|x l Hx Hl IH]; cbn; [reflexivity|]. now rewrite Hx, IH.
Qed.

Lemma filter_none {A} (f : A -> bool) l :
  Forall (fun x => f x = false) l -> filter f l = [].
Proof.
  induction 1 as [|x l Hx Hl IH]; cbn; [reflexivity|]. now rewrite Hx.
Qed.

(** A request in ascending order: the times before the initial time, the
    occurrences of the initial time, the times after it. *)
Lemma sorted_split (t0 : Z) ts :
  StronglySorted Z.le ts ->
  exists lo mid hi,
    ts = lo ++ mid ++ hi /\
    Forall (fun t => t < t0)%Z lo /\
    Forall (fun t => t = t0) mid /\
    Forall (fun t => t0 < t)%Z hi.
Proof.
  induction 1 as [|x ts Hs IH Hx].
  - exists [], [], []. repeat split; constructor.
  - destruct IH as (lo & mid & hi & E & Hlo & Hmid & Hhi).
    destruct (Z.compare_spec x t0) as [Ex|Lx|Gx].
    + assert (lo = []).
      { destruct lo as [|l lo]; [reflexivity|]. exfalso.
        inversion Hlo; subst. inversion Hx; subst. lia. }
      subst lo. exists [], (x :: mid), hi. cbn in *. subst ts.
      repeat split; try constructor; assumption.
    + exists (x :: lo), mid, hi. subst ts. repeat split; try constructor; assumption.
    + assert (G : Forall (fun t => t0 < t)%Z ts).
      { eapply Forall_impl; [|exact Hx]. intros t Ht. cbn in Ht. lia. }
      exists [], [], (x :: ts). repeat split; constructor; assumption.
Qed.

Lemma count_occ_none (t0 : Z) l :
  Forall (fun t => t <> t0) l -> count_occ Z.eq_dec l t0 = 0.
Proof.
  induction 1 as [|x l Hx Hl IH]; cbn; [reflexivity|].
  destruct (Z.eq_dec x t0); [contradiction | assumption].
Qed.

Lemma count_occ_all (t0 : Z) l :
  Forall (fun t => t = t0) l -> count_occ Z.eq_dec l t0 = length l.
Proof.
  induction 1 as [|x l Hx Hl IH]; cbn; [reflexivity|].
  destruct (Z.eq_dec x t0); [now rewrite IH | contradiction].
Qed.

Lemma existsb_none (t0 : Z) l :
  Forall (fun t => t <> t0) l -> existsb (Z.eqb t0) l = false.
Proof.
  induction 1 as [|x l Hx Hl IH]; cbn; [reflexivity|]. rewrite IH.
  destruct (Z.eqb_spec t0 x); [congruence | reflexivity].
Qed.

Lemma combine_map_self {A B} (g : A -> B) l :
  combine l (map g l) = map (fun x => (x, g x)) l.
Proof. induction l as [|x l IH]; cbn; [reflexivity|]. now rewrite IH. Qed.

Section Integrate.
Variable odeint :
  (list Z -> Z -> result (list Z)) ->
  list Z -> list Z ->
  (list Z -> Z -> result (list (list Z))) ->
  result (list (list Z)).
Variable solution : (list Z -> Z -> result (list Z)) -> list Z -> Z -> Z -> list Z.
Hypothesis exact : exact_integrator odeint solution.

Lemma integrate_sorted_request (p : ode_problem) :
  StronglySorted Z.le (p_t_like p) ->
  count_occ Z.eq_dec (p_t_like p) (p_t_initial p) <= 1 ->
  integrate odeint p
  = Ok (transpose (p_ncols p)
          (map (solution (p_f p) (p_initial_dependent p) (p_t_initial p))
               (p_t_like p))).
Proof.
  intros S C. unfold integrate.
  set (t0 := p_t_initial p) in *. set (ts := p_t_like p) in *.
  set (sol := solution (p_f p) (p_initial_dependent p) t0).
  destruct (sorted_split t0 ts S) as (lo & mid & hi & E & Hlo & Hmid & Hhi).
  assert (Nlo : Forall (fun t => t <> t0) lo)
    by (eapply Forall_impl; [|exact Hlo]; cbn; intros; lia).
  assert (Nhi : Forall (fun t => t <> t0) hi)
    by (eapply Forall_impl; [|exact Hhi]; cbn; intros; lia).
  assert (F1 : filter (fun t => Z.ltb t0 t) ts = hi).
  { rewrite E, !filter_app, (filter_none _ lo), (filter_none _ mid), (filter_all _ hi);
      [reflexivity | | |].
    - eapply Forall_impl; [|exact Hhi]. cbn. intros. now apply Z.ltb_lt.
    - eapply Forall_impl; [|exact Hmid]. cbn. intros. apply Z.ltb_ge. lia.
    - eapply Forall_impl; [|exact Hlo]. cbn. intros. apply Z.ltb_ge. lia. }
  assert (F2 : filter (fun t => Z.ltb t t0) ts = lo).
  { rewrite E, !filter_app, (filter_all _ lo), (filter_none _ mid), (filter_none _ hi);
      [now rewrite app_nil_r | | |].
    - eapply Forall_impl; [|exact Hhi]. cbn. intros. apply Z.ltb_ge. lia.
    - eapply Forall_impl; [|exact Hmid]. cbn. intros. apply Z.ltb_ge. lia.
    - eapply Forall_impl; [|exact Hlo]. cbn. intros. now apply Z.ltb_lt. }
  assert (F3 : filter (fun t => Z.leb t0 t) ts = mid ++ hi).
  { rewrite E, !filter_app, (filter_none _ lo), (filter_all _ mid), (filter_all _ hi);
      [reflexivity | | |].
    - eapply Forall_impl; [|exact Hhi]. cbn. intros. apply Z.leb_le. lia.
    - eapply Forall_impl; [|exact Hmid]. cbn. intros. apply Z.leb_le. lia.
    - eapply Forall_impl; [|exact Hlo]. cbn. intros. apply Z.leb_gt. lia. }
  assert (F4 : filter (fun t => Z.leb t t0) ts = lo ++ mid).
  { rewrite E, !filter_app, (filter_all _ lo), (filter_all _ mid), (filter_none _ hi);
      [now rewrite app_nil_r | | |].
    - eapply Forall_impl; [|exact Hhi]. cbn. intros. apply Z.leb_gt. lia.
    - eapply Forall_impl; [|exact Hmid]. cbn. intros. apply Z.leb_le. lia.
    - eapply Forall_impl; [|exact Hlo]. cbn. intros. apply Z.leb_le. lia. }
  rewrite F1, F2, F3, F4.
  assert (Cm : length mid <= 1).
  { rewrite E, !count_occ_app, (count_occ_none t0 lo Nlo), (count_occ_none t0 hi Nhi),
      (count_occ_all t0 mid Hmid) in C. lia. }
  destruct mid as [|t1 [|t2 mid]]; [| |cbn in Cm; lia].
  - (* the initial time is not requested *)
    assert (Ex : existsb (Z.eqb t0) ts = false).
    { rewrite E. cbn [app]. rewrite existsb_app, !existsb_none by assumption. reflexivity. }
    rewrite Ex.
    rewrite (proj1 (exact (p_f p) (p_initial_dependent p) (p_Dfun p) t0 hi)).
    rewrite (proj1 (exact (p_f p) (p_initial_dependent p) (p_Dfun p) t0 (rev lo))).
    cbn [bind tl map]. fold sol.
    rewrite <- map_rev, rev_involutive.
    cbn [rev]. rewrite rev_involutive, removelast_last.
    change (map sol lo ++ sol t0 :: map sol hi) with (map sol lo ++ map sol (t0 :: hi)).
    rewrite <- map_app, length_map, Nat.eqb_refl.
    rewrite combine_map_self, filter_map_swap, map_map. cbn [snd fst].
    f_equal. f_equal. rewrite E. cbn [app]. f_equal.
    rewrite filter_app. cbn [filter]. rewrite Z.eqb_refl. cbn [negb].
    rewrite !filter_all; [reflexivity | |].
    + eapply Forall_impl; [|exact Nhi]. cbn. intros t Ht.
      apply negb_true_iff. now apply Z.eqb_neq.
    + eapply Forall_impl; [|exact Nlo]. cbn. intros t Ht.
      apply negb_true_iff. now apply Z.eqb_neq.
  - (* the initial time is requested, once *)
    inversion Hmid as [|? ? Et _]; subst t1.
    assert (Ex : existsb (Z.eqb t0) ts = true).
    { rewrite E. rewrite existsb_app. cbn. rewrite Z.eqb_refl. cbn. apply orb_true_r. }
    rewrite Ex. cbn [app]. rewrite rev_app_distr. cbn [rev app].
    rewrite (proj1 (exact (p_f p) (p_initial_dependent p) (p_Dfun p) t0 hi)).
    rewrite (proj1 (exact (p_f p) (p_initial_dependent p) (p_Dfun p) t0 (rev lo))).
    cbn [bind tl map]. fold sol.
    rewrite <- map_rev, rev_involutive.
    f_equal. f_equal. rewrite E, map_app. reflexivity.
Qed.
End Integrate.

Lemma transpose_lengths ncols rows :
  Forall (fun row => length row = length rows) (transpose ncols rows).
Proof.
  unfold transpose. apply Forall_forall. intros row H.
  apply in_map_iff in H as (j & <- & _). apply length_map.
Qed.

Lemma linear_odeint_exact : exact_integrator linear_odeint linear_solution.
Proof.
  intros f y0 Dfun t0 ts. split; [reflexivity|].
  unfold linear_solution. destruct (f y0 t0) as [dy|]; [|reflexivity].
  rewrite Z.sub_diag. revert dy.
  induction y0 as [|y y0 IH]; intros [|d dy]; cbn; try reflexivity.
  rewrite IH. f_equal. lia.
Qed.

Lemma linear_solution_linear : linear_on_constant_fields linear_solution.
Proof.
  intros f y0 t0 c H t. unfold linear_solution. now rewrite (H y0 t0 eq_refl).
Qed.

(** The system of [dy/dx = a] is constant. *)
Lemma growth_problem_constant t_like a ys t :
  length ys = 1 -> p_f (growth_problem t_like a) ys t = Ok [a].
Proof.
  destruct ys as [|y [|y' ys]]; try discriminate. intros _. reflexivity.
Qed.

Lemma growth_problem_of t_like a :
  ode_problem_of growth_model [Array t_like] [("a", Scalar a)]
  = Ok (growth_problem t_like a).
Proof. reflexivity. Qed.

(** C5 (amended).  With an exact integrator, and for a request in
    ascending order in which the initial time occurs at most once, the
    output of an ODE model has, for each dependent variable, exactly one
    entry for each requested time, in the order of the request: the
    state of the trajectory through the initial state at that time.  The
    state at the initial time is there exactly when that time is
    requested.  For [dy/dx = a] with [y(0) = 1] the output at
    [-2, -1, 0, 1, 2] is [1 + a*x], and so it is at [-2, -1, 1, 2]. *)
Theorem ode_trajectory_sorted_request
  (odeint : (list Z -> Z -> result (list Z)) -> list Z -> list Z ->
            (list Z -> Z -> result (list (list Z))) -> result (list (list Z)))
  (solution : (list Z -> Z -> result (list Z)) -> list Z -> Z -> Z -> list Z)
  (m : ODEModel) (args : list value) (kwargs : list (string * value))
  (p : ode_problem) :
  exact_integrator odeint solution ->
  linear_on_constant_fields solution ->
  ode_problem_of m args kwargs = Ok p ->
  StronglySorted Z.le (p_t_like p) ->
  count_occ Z.eq_dec (p_t_like p) (p_t_initial p) <= 1 ->
  (ODEModel_eval_components odeint m args kwargs
   = Ok (transpose (p_ncols p)
           (map (solution (p_f p) (p_initial_dependent p) (p_t_initial p))
                (p_t_like p))) /\
   forall rows, ODEModel_eval_components odeint m args kwargs = Ok rows ->
                Forall (fun row => length row = length (p_t_like p)) rows) /\
  (forall a,
      ODEModel_eval_components odeint growth_model
        [Array [-2; -1; 0; 1; 2]%Z] [("a", Scalar a)]
      = Ok [map (fun x => 1 + a * x)%Z [-2; -1; 0; 1; 2]%Z]) /\
  (forall a,
      ODEModel_eval_components odeint growth_model
        [Array [-2; -1; 1; 2]%Z] [("a", Scalar a)]
      = Ok [map (fun x => 1 + a * x)%Z [-2; -1; 1; 2]%Z]).
Proof.
  intros X Lin P S C.
  assert (G : forall m args kwargs p,
             ode_problem_of m args kwargs = Ok p ->
             StronglySorted Z.le (p_t_like p) ->
             count_occ Z.eq_dec (p_t_like p) (p_t_initial p) <= 1 ->
             ODEModel_eval_components odeint m args kwargs
             = Ok (transpose (p_ncols p)
                     (map (solution (p_f p) (p_initial_dependent p) (p_t_initial p))
                          (p_t_like p)))).
  { intros m' args' kwargs' p' P' S' C'. unfold ODEModel_eval_components.
    rewrite P'. cbn [bind]. now apply integrate_sorted_request. }
  assert (Ex : forall t_like a,
             StronglySorted Z.le t_like ->
             count_occ Z.eq_dec t_like 0%Z <= 1 ->
             ODEModel_eval_components odeint growth_model [Array t_like] [("a", Scalar a)]
             = Ok [map (fun x => 1 + a * x)%Z t_like]).
  { intros t_like a S' C'.
    rewrite (G _ _ _ _ (growth_problem_of t_like a) S' C').
    change (p_ncols (growth_problem t_like a)) with 1.
    change (p_t_like (growth_problem t_like a)) with t_like.
    change (p_initial_dependent (growth_problem t_like a)) with [1%Z].
    change (p_t_initial (growth_problem t_like a)) with 0%Z.
    unfold transpose. cbn [seq map]. rewrite map_map. do 2 f_equal.
    apply map_ext. intros x.
    rewrite (Lin (p_f (growth_problem t_like a)) [1%Z] 0%Z [a]).
    - cbn [advance nth]. lia.
    - intros ys t. apply growth_problem_constant. }
  split; [split|split].
  - now apply G.
  - intros rows R. rewrite (G _ _ _ _ P S C) in R. inversion R; subst rows.
    rewrite <- (length_map (solution (p_f p) (p_initial_dependent p) (p_t_initial p))).
    apply transpose_lengths.
  - intros a. apply Ex; [|cbn; lia].
    repeat (constructor; [|repeat (constructor; try lia)]). constructor.
  - intros a. apply Ex; [|cbn; lia].
    repeat (constructor; [|repeat (constructor; try lia)]). constructor.
Qed.

Lemma ode_trajectory_sorted_request_witness :
  (ODEModel_eval_components linear_odeint growth_model
     [Array [-2; -1; 1; 2]%Z] [("a", Scalar 3%Z)]
   = Ok (transpose (p_ncols (growth_problem [-2; -1; 1; 2]%Z 3))
           (map (linear_solution (p_f (growth_problem [-2; -1; 1; 2]%Z 3))
                   (p_initial_dependent (growth_problem [-2; -1; 1; 2]%Z 3))
                   (p_t_initial (growth_problem [-2; -1; 1; 2]%Z 3)))
                (p_t_like (growth_problem [-2; -1; 1; 2]%Z 3)))) /\
   forall rows,
     ODEModel_eval_components linear_odeint growth_model
       [Array [-2; -1; 1; 2]%Z] [("a", Scalar 3%Z)] = Ok rows ->
     Forall (fun row => length row = length (p_t_like (growth_problem [-2; -1; 1; 2]%Z 3)))
            rows) /\
  (forall a,
      ODEModel_eval_components linear_odeint growth_model
        [Array [-2; -1; 0; 1; 2]%Z] [("a", Scalar a)]
      = Ok [map (fun x => 1 + a * x)%Z [-2; -1; 0; 1; 2]%Z]) /\
  (forall a,
      ODEModel_eval_components linear_odeint growth_model
        [Array [-2; -1; 1; 2]%Z] [("a", Scalar a)]
      = Ok [map (fun x => 1 + a * x)%Z [-2; -1; 1; 2]%Z]).
Proof.
  apply (ode_trajectory_sorted_request linear_odeint linear_solution growth_model
           [Array [-2; -1; 1; 2]%Z] [("a", Scalar 3%Z)]
           (growth_problem [-2; -1; 1; 2]%Z 3)).
  - exact linear_odeint_exact.
  - exact linear_solution_linear.
  - reflexivity.
  - repeat (constructor; [|repeat (constructor; try lia)]). constructor.
  - vm_compute. lia.
Defined.

(** The claim as first stated fails for a request that is not in
    ascending order, and for one in which the initial time occurs twice:
    with an exact integrator, the output for the request [1, -1] is in
    the order [-1, 1], and the output for the three times [0, 0, 1] has
    four entries. *)
Lemma unsorted_request_is_reordered :
  exact_integrator linear_odeint linear_solution /\
  ODEModel_eval_components linear_odeint growth_model
    [Array [1; -1]%Z] [("a", Scalar 3%Z)] = Ok [[-2; 4]%Z] /\
  map (fun x => 1 + 3 * x)%Z [1; -1]%Z = [4; -2]%Z /\
  ODEModel_eval_components linear_odeint growth_model
    [Array [0; 0; 1]%Z] [("a", Scalar 3%Z)] = Ok [[1; 1; 1; 4]%Z].
Proof.
  split; [exact linear_odeint_exact|]. repeat split.
Qed.

(* ================================================================= *)
(** * Further properties of the code *)

(** ** The layers of toposort *)

Lemma toposort_loop_layers fuel : forall data L,
  toposort_loop fuel data = Ok L -> Forall (fun l => l <> []) L.
Proof.
  induction fuel as [|n IH]; intros data L E; cbn [toposort_loop] in E.
  - destruct data; inversion E; constructor.
  - destruct (no_dependencies data) as [|k0 o] eqn:Eo.
    + destruct data; inversion E; constructor.
    + destruct (toposort_loop n (remove_ordered (k0 :: o) data)) as [rest|e] eqn:E';
        [|discriminate].
      cbn in E. inversion E; subst. constructor; [discriminate|].
      eapply IH; eassumption.
Qed.

Lemma toposort_layers g L : toposort g = Ok L -> Forall (fun l => l <> []) L.
Proof.
  unfold toposort. destruct g; [intros E; inversion E; constructor|].
  apply toposort_loop_layers.
Qed.

Lemma toposort_raise g e :
  toposort g = Raise e ->
  e = CircularDependencyError /\ exists v, clos_trans expr (proper_edge g) v v.
Proof.
  unfold toposort. destruct g as [|a g0] eqn:Eg; [discriminate|].
  rewrite <- Eg. clear Eg a g0. intros E.
  apply toposort_loop_raise in E as (-> & v & Hv);
    [| lia | apply add_extra_items_closed].
  split; [reflexivity|]. exists v. eapply clos_trans_incl; [|eassumption].
  intros x y. apply edge_prepared.
Qed.

Lemma chain_incl (R S : expr -> expr -> Prop) s n :
  (forall x y, R x y -> S x y) -> chain R s n -> chain S s n.
Proof.
  intros I H. induction H; [constructor|]. econstructor; eauto.
Qed.

Lemma chain_shorter R s n : chain R s (S n) -> chain R s n.
Proof.
  revert s. induction n as [|n IH]; intros s H; [constructor|].
  inversion H; subst. econstructor; [eassumption|]. now apply IH.
Qed.

Lemma chain_le R s n k : chain R s n -> k <= n -> chain R s k.
Proof.
  intros H L. induction L; [assumption|]. apply IHL. 
  now apply chain_shorter.
Qed.

Lemma edge_no_dependencies data s d :
  NoDup (keys data) -> edge data s d -> ~ In s (no_dependencies data).
Proof.
  intros ND (deps & H & Hd) Hs. apply no_dependencies_In in Hs.
  rewrite (NoDup_keys_unique data s deps [] ND H Hs) in Hd. destruct Hd.
Qed.

Lemma chain_remove_ordered data :
  NoDup (keys data) -> closed data ->
  forall n s, In s (keys data) -> ~ In s (no_dependencies data) ->
    (chain (edge (remove_ordered (no_dependencies data) data)) s n
     <-> chain (edge data) s (S n)).
Proof.
  intros ND C n s Hs Ns. split.
  - intros H. revert Hs Ns.
    induction H as [s|s d n E H IH]; intros Hs Ns.
    + apply in_keys in Hs as (deps & Hs). destruct deps as [|d deps].
      * exfalso. apply Ns. now apply no_dependencies_In.
      * apply chain_S with (d := d); [|constructor].
        exists (d :: deps). split; [assumption | now left].
    + apply chain_S with (d := d); [now apply edge_remove_ordered in E|].
      destruct E as (deps' & E & Hd).
      apply remove_ordered_In in E as (deps & E & _ & ->).
      apply set_diff_In in Hd as [Hd Nd].
      apply IH; [|assumption]. eapply C; eassumption.
  - revert s Hs Ns. induction n as [|n IH]; intros s Hs Ns H; [constructor|].
    inversion H as [|? d ? E H']; subst.
    assert (Nd : ~ In d (no_dependencies data)).
    { inversion H' as [|? d' ? E' _]; subst. eapply edge_no_dependencies; eassumption. }
    assert (Kd : In d (keys data)).
    { destruct E as (deps & E & Hd). eapply C; eassumption. }
    apply chain_S with (d := d); [|now apply IH].
    destruct E as (deps & E & Hd).
    exists (set_diff deps (no_dependencies data)). split.
    + apply remove_ordered_In. now exists deps.
    + now apply set_diff_In.
Qed.

(** The layer of index [i] holds the items whose longest chain of
    dependencies has [i] steps. *)
Lemma toposort_loop_depth fuel : forall data L,
  NoDup (keys data) -> closed data ->
  toposort_loop fuel data = Ok L ->
  forall i l, nth_error L i = Some l ->
  forall s, In s l <-> In s (keys data) /\ depth (edge data) s i.
Proof.
  induction fuel as [|m IH]; intros data L ND C E i l Hi s; cbn [toposort_loop] in E.
  { destruct data; inversion E; subst. now destruct i. }
  destruct (no_dependencies data) as [|k0 o] eqn:Eo.
  { destruct data; inversion E; subst. now destruct i. }
  rewrite <- Eo in *.
  destruct (toposort_loop m (remove_ordered (no_dependencies data) data))
    as [rest|e] eqn:E'; [|discriminate].
  cbn in E. inversion E; subst L. clear E.
  destruct i as [|i]; cbn in Hi.
  - inversion Hi; subst l. rewrite no_dependencies_In. split.
    + intros H. split; [apply in_keys; eauto|]. split; [constructor|].
      intros H1. inversion H1 as [|? d ? Ed _]; subst.
      eapply edge_no_dependencies; [eassumption | eassumption |].
      now apply no_dependencies_In.
    + intros [K [_ N]]. apply in_keys in K as (deps & K).
      destruct deps as [|d deps]; [assumption|]. exfalso. apply N.
      apply chain_S with (d := d); [|constructor].
      exists (d :: deps). split; [assumption | now left].
  - rewrite (IH _ _ (remove_ordered_NoDup _ _ ND) (remove_ordered_closed _ _ C) E' i l Hi).
    rewrite remove_ordered_keys. unfold depth. split.
    + intros [[K N] [H1 H2]]. split; [assumption|].
      rewrite <- !chain_remove_ordered by assumption. now split.
    + intros [K [H1 H2]].
      assert (N : ~ In s (no_dependencies data)).
      { inversion H1 as [|? d ? Ed _]; subst. eapply edge_no_dependencies; eassumption. }
      rewrite !chain_remove_ordered by assumption. tauto.
Qed.

Lemma chain_iff (R S : expr -> expr -> Prop) s n :
  (forall x y, R x y <-> S x y) -> chain R s n <-> chain S s n.
Proof.
  intros I. split; apply chain_incl; intros x y; apply I.
Qed.

Lemma depth_iff (R S : expr -> expr -> Prop) s n :
  (forall x y, R x y <-> S x y) -> depth R s n <-> depth S s n.
Proof.
  intros I. unfold depth. now rewrite !(chain_iff R S) by assumption.
Qed.

Lemma toposort_depth g L :
  NoDup (keys g) ->
  toposort g = Ok L ->
  forall i l, nth_error L i = Some l ->
  forall s, In s l <->
            (In s (keys g) \/ exists v, proper_edge g v s) /\ depth (proper_edge g) s i.
Proof.
  intros ND E i l Hi s. unfold toposort in E. destruct g as [|a g0] eqn:Eg.
  { inversion E; subst. now destruct i. }
  rewrite <- Eg in *. clear Eg a g0.
  assert (NDp : NoDup (keys (add_extra_items (discard_self g)))).
  { apply add_extra_items_NoDup. now rewrite discard_self_keys. }
  rewrite (toposort_loop_depth _ _ _ NDp (add_extra_items_closed _) E i l Hi s).
  rewrite add_extra_items_keys, discard_self_keys.
  rewrite (depth_iff _ (proper_edge g)) by (intros x y; apply edge_prepared).
  split; intros [[K|(v & K)] D]; (split; [|assumption]); auto;
    right; exists v; now apply edge_discard_self.
Qed.

Lemma depth_unique R s i j : depth R s i -> depth R s j -> i = j.
Proof.
  intros [H1 N1] [H2 N2].
  destruct (Nat.lt_trichotomy i j) as [L|[E|L]]; [|assumption|].
  - exfalso. apply N1. eapply chain_le; [exact H2 | lia].
  - exfalso. apply N2. eapply chain_le; [exact H1 | lia].
Qed.

Lemma In_nth_layer (L : list (list expr)) s :
  In s (concat L) <-> exists i l, nth_error L i = Some l /\ In s l.
Proof.
  rewrite in_concat. split.
  - intros (l & Hl & Hs). apply In_nth_error in Hl as (i & Hi). eauto.
  - intros (i & l & Hi & Hs). apply nth_error_In in Hi. eauto.
Qed.

(** ** BaseModel._init_from_dict *)

Lemma pop_last_Ok {A} (l : list A) x r :
  pop_last l = Ok (x, r) <-> l = r ++ [x].
Proof.
  unfold pop_last. split.
  - destruct (rev l) as [|y l'] eqn:E; [discriminate|]. intros H. inversion H; subst.
    rewrite <- (rev_involutive l), E. reflexivity.
  - intros ->. rewrite rev_app_distr. cbn. now rewrite rev_involutive.
Qed.

Lemma pop_last_Raise {A} (l : list A) e :
  pop_last l = Raise e <-> l = [] /\ e = IndexError.
Proof.
  unfold pop_last. split.
  - destruct (rev l) as [|y l'] eqn:E; [|discriminate]. intros H. inversion H.
    split; [|reflexivity]. rewrite <- (rev_involutive l), E. reflexivity.
  - now intros [-> ->].
Qed.

(** What a model that has been built holds. *)
Lemma BaseModel_init_inv md m :
  BaseModel_init_from_dict md = Ok m ->
  exists bottom middle top,
    toposort (connectivity_mapping (sorted String.leb (fun i => name (fst i)) md))
      = Ok (bottom :: middle ++ [top]) /\
    model_dict m = sorted String.leb (fun i => name (fst i)) md /\
    independent_vars m =
      filter (fun s => negb (is_Parameter s) && negb (mem s (keys (model_dict m))))
             (sort_by_name bottom) /\
    params m = filter is_Parameter (sort_by_name bottom) /\
    interdependent_vars m = sort_by_name (concat middle) /\
    dependent_vars m = sort_by_name top /\
    sigmas m = map (fun var => (var, Var ("sigma_" ++ name var)%string))
                   (dependent_vars m).
Proof.
  unfold BaseModel_init_from_dict. intros H.
  destruct (toposort _) as [L|e] eqn:E; [|discriminate]. cbn [bind] in H.
  destruct L as [|bottom rest]; [discriminate|]. cbn [pop_first bind fst snd] in H.
  destruct (pop_last rest) as [[top middle]|e] eqn:P; [|discriminate].
  cbn [bind fst snd] in H. apply pop_last_Ok in P. subst rest.
  inversion H; subst m. cbn. exists bottom, middle, top. repeat split.
Qed.

Lemma proper_edge_sorted md v d :
  proper_edge (connectivity_mapping (sorted String.leb (fun i => name (fst i)) md)) v d
  <-> proper_edge (connectivity_mapping md) v d.
Proof.
  unfold proper_edge. split; intros [H N]; (split; [|assumption]);
    (eapply edge_perm; [|eassumption]).
  - symmetry. apply connectivity_mapping_sorted.
  - apply connectivity_mapping_sorted.
Qed.

Lemma keys_sorted_dict md s :
  In s (keys (connectivity_mapping (sorted String.leb (fun i => name (fst i)) md)))
  <-> In s (keys md).
Proof.
  rewrite connectivity_mapping_keys. unfold keys. rewrite !in_map_iff.
  split; intros (x & E & H); exists x; (split; [assumption|]);
    now apply (sorted_In String.leb (fun i => name (fst i))).
Qed.

Lemma cycle_has_edge (R : expr -> expr -> Prop) v :
  clos_trans expr R v v -> exists x y, R x y.
Proof.
  intros H. apply clos_trans_first in H as (y & H & _). eauto.
Qed.

(** The three ways in which the construction ends. *)
Lemma init_cases md :
  NoDup (keys md) ->
  (BaseModel_init_from_dict md = Raise CircularDependencyError /\
   exists v, clos_trans expr (proper_edge (connectivity_mapping md)) v v) \/
  (BaseModel_init_from_dict md = Raise IndexError /\
   (forall v d, ~ proper_edge (connectivity_mapping md) v d)) \/
  ((exists m, BaseModel_init_from_dict md = Ok m) /\
   (exists v d, proper_edge (connectivity_mapping md) v d) /\
   (forall v, ~ clos_trans expr (proper_edge (connectivity_mapping md)) v v)).
Proof.
  intros ND. pose proof (sorted_dict_NoDup md ND) as ND'.
  unfold BaseModel_init_from_dict.
  set (smd := sorted String.leb (fun i => name (fst i)) md) in *.
  destruct (toposort (connectivity_mapping smd)) as [L|e] eqn:E.
  - assert (A : forall v, ~ clos_trans expr (proper_edge (connectivity_mapping md)) v v).
    { intros v Hv.
      assert (C : exists v, clos_trans expr (proper_edge (connectivity_mapping smd)) v v).
      { exists v. eapply clos_trans_incl; [|exact Hv].
        intros x y. apply proper_edge_sorted. }
      rewrite (toposort_cycle _ ND' C) in E. discriminate. }
    right. cbn [bind].
    destruct (toposort_ok _ _ ND' E) as (_ & Cov & _).
    pose proof (toposort_depth _ _ ND' E) as Dep.
    destruct L as [|bottom rest]; cbn [pop_first bind fst snd].
    + left. split; [reflexivity|]. intros v d H. apply proper_edge_sorted in H.
      fold smd in H. assert (K : In v (concat (@nil (list expr)))).
      { apply Cov. left. destruct H as [(deps & H & _) _]. apply in_keys. eauto. }
      destruct K.
    + destruct (pop_last rest) as [[top middle]|e] eqn:P; cbn [bind fst snd].
      * right. split; [eauto|]. split; [|assumption].
        apply pop_last_Ok in P. subst rest.
        pose proof (toposort_layers _ _ E) as NE.
        rewrite Forall_forall in NE.
        assert (T : top <> []).
        { apply NE. right. apply in_app_iff. right. now left. }
        destruct top as [|s top]; [congruence|].
        assert (Hi : nth_error (bottom :: middle ++ [s :: top]) (S (length middle))
                     = Some (s :: top)).
        { cbn. rewrite nth_error_app2 by lia. now rewrite Nat.sub_diag. }
        destruct (proj1 (Dep _ _ Hi s) (or_introl eq_refl)) as (_ & H & _).
        inversion H as [|? d ? Ed _]; subst. exists s, d. now apply proper_edge_sorted.
      * left. apply pop_last_Raise in P as [-> ->]. split; [reflexivity|].
        intros v d H. apply proper_edge_sorted in H. fold smd in H.
        assert (K : In v (concat [bottom])).
        { apply Cov. left. destruct H as [(deps & H & _) _]. apply in_keys. eauto. }
        cbn in K. rewrite app_nil_r in K.
        destruct (proj1 (Dep 0 bottom eq_refl v) K) as (_ & _ & N).
        apply N. apply chain_S with (d := d); [assumption | constructor].
  - left. apply toposort_raise in E as (-> & v & Hv). split; [reflexivity|].
    exists v. eapply clos_trans_incl; [|exact Hv]. intros x y. apply proper_edge_sorted.
Qed.

(** X1.  The construction of a model ends in one of three ways, and the
    dependencies between different symbols decide which.  Without any
    such dependency (an empty mapping, or components that hold no symbol
    but their own key) [ordered.pop] raises IndexError; with a cycle of
    them toposort raises CircularDependencyError; in every other case the
    model is built. *)
Theorem init_outcomes (md : list (expr * expr)) :
  NoDup (keys md) ->
  (BaseModel_init_from_dict md = Raise IndexError
   <-> forall v d, ~ proper_edge (connectivity_mapping md) v d) /\
  (BaseModel_init_from_dict md = Raise CircularDependencyError
   <-> exists v, clos_trans expr (proper_edge (connectivity_mapping md)) v v) /\
  ((exists m, BaseModel_init_from_dict md = Ok m)
   <-> (exists v d, proper_edge (connectivity_mapping md) v d) /\
       forall v, ~ clos_trans expr (proper_edge (connectivity_mapping md)) v v).
Proof.
  intros ND.
  destruct (init_cases md ND) as [[E (c & C)]|[[E N]|[(m & E) [(v & d & H) A]]]];
    rewrite E.
  - split; [|split].
    + split; [discriminate|]. intros N. destruct (cycle_has_edge _ _ C) as (x & y & H).
      now apply N in H.
    + split; eauto.
    + split; [intros (m & H); discriminate|]. intros [_ A]. now apply A in C.
  - split; [|split].
    + tauto.
    + split; [discriminate|]. intros (c & C).
      destruct (cycle_has_edge _ _ C) as (x & y & H). now apply N in H.
    + split; [intros (m & H); discriminate|]. intros [(v & d & H) _]. now apply N in H.
  - split; [|split].
    + split; [discriminate|]. intros N. now apply N in H.
    + split; [discriminate|]. intros (c & C). now apply A in C.
    + split; eauto.
Qed.

Lemma init_outcomes_witness :
  (BaseModel_init_from_dict chain_rule_dict = Raise IndexError
   <-> forall v d, ~ proper_edge (connectivity_mapping chain_rule_dict) v d) /\
  (BaseModel_init_from_dict chain_rule_dict = Raise CircularDependencyError
   <-> exists v, clos_trans expr (proper_edge (connectivity_mapping chain_rule_dict)) v v) /\
  ((exists m, BaseModel_init_from_dict chain_rule_dict = Ok m)
   <-> (exists v d, proper_edge (connectivity_mapping chain_rule_dict) v d) /\
       forall v, ~ clos_trans expr
                     (proper_edge (connectivity_mapping chain_rule_dict)) v v).
Proof.
  apply (init_outcomes chain_rule_dict).
  apply no_dup_NoDup. vm_compute. reflexivity.
Defined.

Lemma symbol_of_proper g s :
  symbol_of g s <-> In s (keys g) \/ exists v, proper_edge g v s.
Proof.
  unfold symbol_of. split; intros [K|(v & H)]; auto.
  - destruct (expr_eq_dec s v) as [->|N].
    + left. destruct H as (deps & H & _). apply in_keys. eauto.
    + right. exists v. now split.
  - right. exists v. apply H.
Qed.

Lemma symbol_of_sorted md s :
  symbol_of (connectivity_mapping (sorted String.leb (fun i => name (fst i)) md)) s
  <-> symbol_of (connectivity_mapping md) s.
Proof.
  rewrite !symbol_of_proper, keys_sorted_dict, connectivity_mapping_keys.
  split; intros [K|(v & H)]; auto; right; exists v; now apply proper_edge_sorted.
Qed.

Lemma sort_by_name_In s l : In s (sort_by_name l) <-> In s l.
Proof. apply sorted_In. Qed.

(** The layers of a model that has been built, by what they hold. *)
Lemma init_layers md m :
  NoDup (keys md) ->
  BaseModel_init_from_dict md = Ok m ->
  exists bottom middle top,
    NoDup (bottom ++ concat middle ++ top) /\
    (forall s, In s (bottom ++ concat middle ++ top)
               <-> symbol_of (connectivity_mapping md) s) /\
    (forall s, In s bottom <->
               symbol_of (connectivity_mapping md) s /\
               depth (proper_edge (connectivity_mapping md)) s 0) /\
    (forall s, In s top <->
               symbol_of (connectivity_mapping md) s /\
               depth (proper_edge (connectivity_mapping md)) s (S (length middle))) /\
    (forall s, In s (concat middle) <->
               symbol_of (connectivity_mapping md) s /\
               exists i, 0 < i <= length middle /\
                         depth (proper_edge (connectivity_mapping md)) s i) /\
    top <> [] /\
    (forall s, In s (independent_vars m) <->
               In s bottom /\ is_Parameter s = false /\ ~ In s (keys md)) /\
    (forall s, In s (params m) <-> In s bottom /\ is_Parameter s = true) /\
    (forall s, In s (interdependent_vars m) <-> In s (concat middle)) /\
    (forall s, In s (dependent_vars m) <-> In s top) /\
    NoDup (independent_vars m ++ params m ++ interdependent_vars m ++ dependent_vars m).
Proof.
  intros ND H. pose proof (sorted_dict_NoDup md ND) as ND'.
  destruct (BaseModel_init_inv md m H)
    as (bottom & middle & top & E & Emd & Ei & Ep & Eint & Edep & _).
  set (g' := connectivity_mapping (sorted String.leb (fun i => name (fst i)) md)) in *.
  destruct (toposort_ok _ _ ND' E) as (NDL & Cov & _).
  pose proof (toposort_depth _ _ ND' E) as Dep.
  pose proof (toposort_layers _ _ E) as NE.
  assert (DI : forall s i, depth (proper_edge g') s i
                           <-> depth (proper_edge (connectivity_mapping md)) s i).
  { intros s i. apply depth_iff. intros x y. apply proper_edge_sorted. }
  assert (SY : forall s, (In s (keys g') \/ exists v, proper_edge g' v s)
                         <-> symbol_of (connectivity_mapping md) s).
  { intros s. rewrite <- symbol_of_proper. apply symbol_of_sorted. }
  cbn [concat] in NDL, Cov. rewrite concat_app in NDL, Cov. cbn [concat] in NDL, Cov.
  rewrite app_nil_r in NDL, Cov.
  assert (Hb : forall s, In s bottom <->
               symbol_of (connectivity_mapping md) s /\
               depth (proper_edge (connectivity_mapping md)) s 0).
  { intros s. rewrite (Dep 0 bottom eq_refl s), SY, DI. reflexivity. }
  assert (Ht : forall s, In s top <->
               symbol_of (connectivity_mapping md) s /\
               depth (proper_edge (connectivity_mapping md)) s (S (length middle))).
  { intros s. rewrite (Dep (S (length middle)) top), SY, DI; [reflexivity|].
    cbn. rewrite nth_error_app2 by lia. now rewrite Nat.sub_diag. }
  assert (Hm : forall s, In s (concat middle) <->
               symbol_of (connectivity_mapping md) s /\
               exists i, 0 < i <= length middle /\
                         depth (proper_edge (connectivity_mapping md)) s i).
  { intros s. rewrite In_nth_layer. split.
    - intros (i & l & Hi & Hs).
      assert (Li : i < length middle) by (apply nth_error_Some; congruence).
      assert (Hi' : nth_error (bottom :: middle ++ [top]) (S i) = Some l).
      { cbn. now rewrite nth_error_app1. }
      apply (Dep _ _ Hi' s) in Hs as [Hs D]. split; [now apply SY|].
      exists (S i). split; [lia | now apply DI].
    - intros [Hs (i & Li & D)]. destruct i as [|i]; [lia|].
      destruct (nth_error middle i) as [l|] eqn:Hi.
      + exists i, l. split; [assumption|].
        assert (Hi' : nth_error (bottom :: middle ++ [top]) (S i) = Some l).
        { cbn. now rewrite nth_error_app1 by lia. }
        apply (Dep _ _ Hi' s). split; [now apply SY | now apply DI].
      + apply nth_error_None in Hi. lia. }
  assert (Hi : forall s, In s (independent_vars m) <->
               In s bottom /\ is_Parameter s = false /\ ~ In s (keys md)).
  { intros s.
    assert (K : In s (keys (model_dict m)) <-> In s (keys md)).
    { rewrite Emd, <- (connectivity_mapping_keys (sorted _ _ md)).
      apply keys_sorted_dict. }
    rewrite Ei, filter_In, sort_by_name_In, andb_true_iff, !negb_true_iff.
    rewrite mem_not_In, K. tauto. }
  assert (Hp : forall s, In s (params m) <-> In s bottom /\ is_Parameter s = true).
  { intros s. now rewrite Ep, filter_In, sort_by_name_In. }
  assert (Hint : forall s, In s (interdependent_vars m) <-> In s (concat middle)).
  { intros s. now rewrite Eint, sort_by_name_In. }
  assert (Hd : forall s, In s (dependent_vars m) <-> In s top).
  { intros s. now rewrite Edep, sort_by_name_In. }
  exists bottom, middle, top.
  split; [assumption|]. split; [intros s; rewrite Cov; apply SY|].
  split; [assumption|]. split; [assumption|]. split; [assumption|].
  split.
  { rewrite Forall_forall in NE. apply NE. right. apply in_app_iff. right. now left. }
  split; [assumption|]. split; [assumption|]. split; [assumption|].
  split; [assumption|].
  (* the four lists are disjoint parts of the layers *)
  apply NoDup_app_remove_l in NDL as ND2.
  assert (NDb : NoDup bottom) by (now apply NoDup_app_remove_r in NDL).
  assert (NDm : NoDup (concat middle)) by (now apply NoDup_app_remove_r in ND2).
  assert (NDt : NoDup top) by (now apply NoDup_app_remove_l in ND2).
  assert (X1 : forall s, In s bottom -> ~ In s (concat middle ++ top)).
  { intros s H1 H2. revert NDL H1 H2. clear. revert s.
    induction bottom as [|a l IH]; cbn; [tauto|]. intros s N [->|H1] H2.
    - inversion N as [|? ? Hn]; subst. apply Hn, in_app_iff. now right.
    - inversion N; subst. eapply IH; eassumption. }
  assert (X2 : forall s, In s (concat middle) -> ~ In s top).
  { intros s H1 H2. revert ND2 H1 H2. clear. revert s.
    induction (concat middle) as [|a l IH]; cbn; [tauto|]. intros s N [->|H1] H2.
    - inversion N as [|? ? Hn]; subst. apply Hn, in_app_iff. now right.
    - inversion N; subst. eapply IH; eassumption. }
  apply NoDup_app.
  - rewrite Ei. apply NoDup_filter. now apply sorted_NoDup.
  - apply NoDup_app.
    + rewrite Ep. apply NoDup_filter. now apply sorted_NoDup.
    + apply NoDup_app.
      * rewrite Eint. now apply sorted_NoDup.
      * rewrite Edep. now apply sorted_NoDup.
      * intros s H1 H2. apply Hint in H1. apply Hd in H2. now apply (X2 s).
    + intros s H1 H2. apply Hp in H1 as [H1 _]. apply (X1 s H1).
      apply in_app_iff in H2 as [H2|H2]; apply in_app_iff;
        [left; now apply Hint | right; now apply Hd].
  - intros s H1 H2. apply Hi in H1 as (H1 & P & _).
    apply in_app_iff in H2 as [H2|H2].
    + apply Hp in H2 as [_ P2]. congruence.
    + apply (X1 s H1). apply in_app_iff in H2 as [H2|H2]; apply in_app_iff;
        [left; now apply Hint | right; now apply Hd].
Qed.

Lemma depth_0 (R : expr -> expr -> Prop) s : depth R s 0 <-> forall d, ~ R s d.
Proof.
  unfold depth. split.
  - intros [_ N] d H. apply N. apply chain_S with (d := d); [assumption | constructor].
  - intros N. split; [constructor|]. intros H. inversion H; subst. eapply N; eassumption.
Qed.

Lemma chain_S_edge (R : expr -> expr -> Prop) s n : chain R s (S n) -> exists d, R s d.
Proof. intros H. inversion H; subst. eauto. Qed.

Lemma proper_edge_key g s d : proper_edge g s d -> In s (keys g).
Proof. intros [(deps & H & _) _]. apply in_keys. eauto. Qed.

Lemma proper_edge_symbol g s d : proper_edge g s d -> symbol_of g s.
Proof. intros H. left. eapply proper_edge_key; eassumption. Qed.

(** X2.  The lists of a model that has been built are a partition of
    its symbols: no symbol is in two of [independent_vars], [params],
    [interdependent_vars] and [dependent_vars]; the parameters are the
    Parameters that depend on nothing, the independent variables the
    other symbols that are not a key, and the interdependent and
    dependent variables together the symbols that depend on another
    symbol.  The only symbols in none of the lists are keys that are not
    a Parameter and depend on nothing. *)
Theorem symbols_partitioned (md : list (expr * expr)) (m : BaseModel) :
  NoDup (keys md) ->
  BaseModel_init_from_dict md = Ok m ->
  NoDup (independent_vars m ++ params m ++ interdependent_vars m ++ dependent_vars m) /\
  (forall s, In s (independent_vars m) <->
     symbol_of (connectivity_mapping md) s /\
     is_Parameter s = false /\ ~ In s (keys md)) /\
  (forall s, In s (params m) <->
     symbol_of (connectivity_mapping md) s /\
     is_Parameter s = true /\
     forall d, ~ proper_edge (connectivity_mapping md) s d) /\
  (forall s, In s (interdependent_vars m ++ dependent_vars m) <->
     exists d, proper_edge (connectivity_mapping md) s d) /\
  (forall s, symbol_of (connectivity_mapping md) s ->
     In s (independent_vars m ++ params m ++ interdependent_vars m ++ dependent_vars m) \/
     (In s (keys md) /\ is_Parameter s = false /\
      forall d, ~ proper_edge (connectivity_mapping md) s d)).
Proof.
  intros ND H.
  destruct (init_layers md m ND H)
    as (bottom & middle & top & NDL & Cov & Hb & Ht & Hm & _ & Hi & Hp & Hint & Hd & NDm).
  set (g := connectivity_mapping md) in *.
  assert (ID : forall s, In s (interdependent_vars m ++ dependent_vars m) <->
                         exists d, proper_edge g s d).
  { intros s. rewrite in_app_iff, Hint, Hd, Hm, Ht. split.
    - intros [[_ (i & Li & [C _])]|[_ [C _]]].
      + destruct i; [lia|]. eapply chain_S_edge; eassumption.
      + eapply chain_S_edge; eassumption.
    - intros (d & E).
      assert (S : symbol_of g s) by (eapply proper_edge_symbol; eassumption).
      apply Cov in S as S'. rewrite !in_app_iff in S'.
      destruct S' as [B|[M|T]].
      + apply Hb in B as [_ B]. destruct (proj1 (depth_0 _ _) B d E).
      + left. now apply Hm.
      + right. now apply Ht. }
  split; [assumption|]. split; [|split; [|split; [assumption|]]].
  - intros s. rewrite Hi, Hb, depth_0. split; [tauto|].
    intros (S & P & K). repeat split; try assumption.
    intros d E. apply K. apply proper_edge_key in E. unfold g in E.
    now rewrite connectivity_mapping_keys in E.
  - intros s. rewrite Hp, Hb, depth_0. tauto.
  - intros s S. apply Cov in S as S'. rewrite !in_app_iff in S'.
    destruct S' as [B|[M|T]].
    + destruct (is_Parameter s) eqn:P.
      * left. rewrite !in_app_iff. right. left. now apply Hp.
      * destruct (in_dec expr_eq_dec s (keys md)) as [K|K].
        -- right. repeat split; try assumption. apply depth_0. now apply Hb.
        -- left. rewrite !in_app_iff. left. now apply Hi.
    + left. rewrite !in_app_iff. right. right. left. now apply Hint.
    + left. rewrite !in_app_iff. right. right. right. now apply Hd.
Qed.

Lemma symbols_partitioned_witness :
  NoDup (independent_vars chain_rule_model ++ params chain_rule_model ++
         interdependent_vars chain_rule_model ++ dependent_vars chain_rule_model) /\
  (forall s, In s (independent_vars chain_rule_model) <->
     symbol_of (connectivity_mapping chain_rule_dict) s /\
     is_Parameter s = false /\ ~ In s (keys chain_rule_dict)) /\
  (forall s, In s (params chain_rule_model) <->
     symbol_of (connectivity_mapping chain_rule_dict) s /\
     is_Parameter s = true /\
     forall d, ~ proper_edge (connectivity_mapping chain_rule_dict) s d) /\
  (forall s, In s (interdependent_vars chain_rule_model ++
                   dependent_vars chain_rule_model) <->
     exists d, proper_edge (connectivity_mapping chain_rule_dict) s d) /\
  (forall s, symbol_of (connectivity_mapping chain_rule_dict) s ->
     In s (independent_vars chain_rule_model ++ params chain_rule_model ++
           interdependent_vars chain_rule_model ++ dependent_vars chain_rule_model) \/
     (In s (keys chain_rule_dict) /\ is_Parameter s = false /\
      forall d, ~ proper_edge (connectivity_mapping chain_rule_dict) s d)).
Proof.
  apply (symbols_partitioned chain_rule_dict chain_rule_model).
  - apply no_dup_NoDup. vm_compute. reflexivity.
  - vm_compute. reflexivity.
Defined.

(** X3.  Which keys are dependent and which interdependent is decided
    by the length of the chains of dependencies below them.  The
    dependent variables are the symbols whose longest chain is the
    longest of the model; every other symbol that depends on something
    is an interdependent variable, whether or not another component uses
    it.  So nothing depends on a dependent variable, and there is always
    at least one. *)
Theorem dependent_vars_longest_chains (md : list (expr * expr)) (m : BaseModel) :
  NoDup (keys md) ->
  BaseModel_init_from_dict md = Ok m ->
  (forall s, In s (dependent_vars m) <->
     exists n, 0 < n /\ depth (proper_edge (connectivity_mapping md)) s n /\
               forall s' n', chain (proper_edge (connectivity_mapping md)) s' n' ->
                             n' <= n) /\
  (forall s, In s (interdependent_vars m) <->
     exists n, 0 < n /\ depth (proper_edge (connectivity_mapping md)) s n /\
               exists s', chain (proper_edge (connectivity_mapping md)) s' (S n)) /\
  dependent_vars m <> [] /\
  (forall s v, In s (dependent_vars m) ->
               ~ proper_edge (connectivity_mapping md) v s).
Proof.
  intros ND H.
  destruct (init_layers md m ND H)
    as (bottom & middle & top & NDL & Cov & Hb & Ht & Hm & NT & _ & _ & Hint & Hd & _).
  set (R := proper_edge (connectivity_mapping md)) in *.
  set (N := S (length middle)) in *.
  (* every symbol has a depth of at most N *)
  assert (Lay : forall s, symbol_of (connectivity_mapping md) s ->
                          exists i, i <= N /\ depth R s i).
  { intros s S. apply Cov in S. rewrite !in_app_iff in S. destruct S as [B|[M|T]].
    - exists 0. split; [lia|]. now apply Hb.
    - apply Hm in M as (_ & i & Li & D). exists i. split; [unfold N; lia | assumption].
    - exists N. split; [lia|]. now apply Ht. }
  assert (Max : forall s n, chain R s n -> n <= N).
  { intros s n C. destruct n as [|n]; [lia|].
    destruct (chain_S_edge _ _ _ C) as (d & E).
    destruct (Lay s (proper_edge_symbol _ _ _ E)) as (i & Li & [_ Ni]).
    destruct (Nat.le_gt_cases (S n) i) as [L|L]; [lia|].
    exfalso. apply Ni. eapply chain_le; [exact C | lia]. }
  destruct top as [|t top]; [congruence|].
  assert (Dt : depth R t N) by (apply Ht; now left).
  assert (Dep : forall s, In s (dependent_vars m) <->
     exists n, 0 < n /\ depth R s n /\ forall s' n', chain R s' n' -> n' <= n).
  { intros s. rewrite Hd, Ht. split.
    - intros [_ D]. exists N. split; [unfold N; lia|]. split; [assumption|]. exact Max.
    - intros (n & Pn & D & M).
      destruct n as [|n]; [lia|]. destruct D as [C NC].
      destruct (chain_S_edge _ _ _ C) as (d & E).
      split; [eapply proper_edge_symbol; eassumption|].
      assert (E1 : N <= S n) by (apply (M t); apply Dt).
      assert (E2 : S n <= N) by (now apply (Max s)).
      assert (EN : N = S n) by lia.
      change (depth R s N). rewrite EN. now split. }
  split; [assumption|]. split; [|split].
  - intros s. rewrite Hint, Hm. split.
    + intros [_ (i & Li & D)]. exists i. split; [lia|]. split; [assumption|].
      exists t. eapply chain_le; [apply Dt | unfold N; lia].
    + intros (n & Pn & D & s' & C').
      destruct n as [|n]; [lia|].
      destruct (chain_S_edge _ _ _ (proj1 D)) as (d & E).
      split; [eapply proper_edge_symbol; eassumption|].
      exists (S n). split; [|assumption].
      apply Max in C'. unfold N in C'. lia.
  - intros E. assert (T : In t (dependent_vars m)) by (apply Hd; now left).
    rewrite E in T. destruct T.
  - intros s v Hs E. apply Dep in Hs as (n & _ & [C _] & M).
    assert (C' : chain R v (S n)) by (eapply chain_S; eassumption).
    apply M in C'. lia.
Qed.

Lemma dependent_vars_longest_chains_witness :
  (forall s, In s (dependent_vars chain_rule_model) <->
     exists n, 0 < n /\ depth (proper_edge (connectivity_mapping chain_rule_dict)) s n /\
               forall s' n',
                 chain (proper_edge (connectivity_mapping chain_rule_dict)) s' n' ->
                 n' <= n) /\
  (forall s, In s (interdependent_vars chain_rule_model) <->
     exists n, 0 < n /\ depth (proper_edge (connectivity_mapping chain_rule_dict)) s n /\
               exists s',
                 chain (proper_edge (connectivity_mapping chain_rule_dict)) s' (S n)) /\
  dependent_vars chain_rule_model <> [] /\
  (forall s v, In s (dependent_vars chain_rule_model) ->
               ~ proper_edge (connectivity_mapping chain_rule_dict) v s).
Proof.
  apply (dependent_vars_longest_chains chain_rule_dict chain_rule_model).
  - apply no_dup_NoDup. vm_compute. reflexivity.
  - vm_compute. reflexivity.
Defined.

(** [{w: x, y: a*x, z: y**2 + a}]: nothing depends on [w], and yet it is
    an interdependent variable, because its chain of dependencies is
    shorter than that of [z]. *)
Lemma unused_output_is_interdependent :
  exists m,
    BaseModel_init_from_dict ((Var "w", Var "x") :: chain_rule_dict) = Ok m /\
    dependent_vars m = [Var "z"] /\
    interdependent_vars m = [Var "w"; Var "y"].
Proof.
  eexists. split; [vm_compute; reflexivity|]. split; reflexivity.
Qed.

(** ** The order of the components *)

Lemma string_leb_antisym a b :
  String.leb a b = true -> String.leb b a = true -> a = b.
Proof.
  unfold String.leb. intros H1 H2.
  destruct (String.compare a b) eqn:E; try discriminate.
  - now apply String.compare_eq_iff.
  - rewrite String.compare_antisym, E in H2. discriminate.
Qed.

Section SortedUnique.
Context {A : Type} (key : A -> string).
Let le (a b : A) : Prop := String.leb (key a) (key b) = true.

Lemma key_injective (l : list A) x y :
  NoDup (map key l) -> In x l -> In y l -> key x = key y -> x = y.
Proof.
  induction l as [|a l IH]; cbn; [tauto|]. intros ND Hx Hy E.
  inversion ND as [|? ? Hn Hd]; subst.
  destruct Hx as [->|Hx], Hy as [->|Hy].
  - reflexivity.
  - exfalso. apply Hn. rewrite E. now apply in_map.
  - exfalso. apply Hn. rewrite <- E. now apply in_map.
  - now apply IH.
Qed.

Lemma StronglySorted_unique (l1 : list A) : forall l2,
  StronglySorted le l1 -> StronglySorted le l2 ->
  Permutation l1 l2 -> NoDup (map key l1) -> l1 = l2.
Proof.
  induction l1 as [|x l1 IH]; intros l2 S1 S2 P ND.
  - apply Permutation_nil in P. now subst.
  - destruct l2 as [|y l2]; [apply Permutation_sym, Permutation_nil in P; discriminate|].
    inversion S1 as [|? ? S1' F1]; subst. inversion S2 as [|? ? S2' F2]; subst.
    rewrite Forall_forall in F1, F2.
    assert (E : x = y).
    { assert (Hx : In x (y :: l2)) by (eapply Permutation_in; [exact P | now left]).
      assert (Hy : In y (x :: l1)).
      { eapply Permutation_in; [symmetry; exact P | now left]. }
      destruct Hx as [->|Hx]; [reflexivity|].
      destruct Hy as [->|Hy]; [reflexivity|].
      apply (key_injective (x :: l1)); [assumption | now left | now right |].
      apply string_leb_antisym; [now apply F1 | now apply F2]. }
    subst y. f_equal. apply IH; try assumption.
    + eapply Permutation_cons_inv; eassumption.
    + now inversion ND.
Qed.

Lemma sorted_perm_unique (l l' : list A) :
  Permutation l l' -> NoDup (map key l) ->
  sorted String.leb key l = sorted String.leb key l'.
Proof.
  intros P ND. apply StronglySorted_unique.
  - apply sorted_strongly.
  - apply sorted_strongly.
  - rewrite !sorted_perm. assumption.
  - eapply Permutation_NoDup; [|exact ND].
    apply Permutation_map. symmetry. apply sorted_perm.
Qed.
End SortedUnique.

Lemma StronglySorted_keys (l : list (expr * expr)) :
  StronglySorted (fun a b => String.leb (name (fst a)) (name (fst b)) = true) l ->
  StronglySorted name_le (keys l).
Proof.
  induction 1 as [|a l S IH F]; cbn; [constructor|]. constructor; [assumption|].
  rewrite Forall_forall in *. intros y Hy.
  apply in_map_iff in Hy as (b & <- & Hb). now apply F.
Qed.

(** X4.  A model does not depend on the order in which the mapping
    lists its components, as long as no two keys have the same name:
    [_init_from_dict] sorts the components by the name of their key.  The
    [model_dict] of a model that has been built holds the components of
    the mapping in the order of the names, and building a model from it
    gives the same model again. *)
Theorem init_order_independent (md md' : list (expr * expr)) :
  NoDup (map (fun i => name (fst i)) md) ->
  Permutation md md' ->
  BaseModel_init_from_dict md' = BaseModel_init_from_dict md /\
  CallableModel_init md' = CallableModel_init md /\
  forall m, BaseModel_init_from_dict md = Ok m ->
    StronglySorted name_le (keys (model_dict m)) /\
    Permutation md (model_dict m) /\
    BaseModel_init_from_dict (model_dict m) = Ok m.
Proof.
  intros ND P.
  assert (E : BaseModel_init_from_dict md' = BaseModel_init_from_dict md).
  { unfold BaseModel_init_from_dict.
    now rewrite (sorted_perm_unique (fun i => name (fst i)) md md' P ND). }
  split; [assumption|]. split; [unfold CallableModel_init; now rewrite E|].
  intros m H. destruct (BaseModel_init_inv md m H) as (_ & _ & _ & _ & Emd & _).
  split; [|split].
  - rewrite Emd. apply StronglySorted_keys, sorted_strongly.
  - rewrite Emd. symmetry. apply sorted_perm.
  - rewrite <- H. unfold BaseModel_init_from_dict. now rewrite Emd, sorted_sorted.
Qed.

Lemma init_order_independent_witness :
  BaseModel_init_from_dict (rev chain_rule_dict) = BaseModel_init_from_dict chain_rule_dict /\
  CallableModel_init (rev chain_rule_dict) = CallableModel_init chain_rule_dict /\
  forall m, BaseModel_init_from_dict chain_rule_dict = Ok m ->
    StronglySorted name_le (keys (model_dict m)) /\
    Permutation chain_rule_dict (model_dict m) /\
    BaseModel_init_from_dict (model_dict m) = Ok m.
Proof.
  apply (init_order_independent chain_rule_dict (rev chain_rule_dict)).
  - cbn. repeat constructor; cbn; intuition discriminate.
  - apply Permutation_rev.
Defined.

(** ** Signature.bind *)

Lemma get_remove_key_other {V} k n (d : list (string * V)) :
  k <> n -> get k (remove_key n d) = get k d.
Proof.
  intros N. induction d as [|[k0 v0] d IH]; cbn; [reflexivity|].
  destruct (String.eqb n k0) eqn:E.
  - apply String.eqb_eq in E. subst k0.
    apply String.eqb_neq in N. now rewrite N.
  - cbn. now rewrite IH.
Qed.

Lemma bind_keywords_spec ps : forall kwargs,
  Forall (fun p => default p = None) ps ->
  NoDup (map pname ps) ->
  match bind_keywords ps kwargs with
  | Ok bound =>
      (forall k, has_key k kwargs = true <-> In k (map pname ps)) /\
      exists vals, bound = combine (map pname ps) vals /\
                   Forall2 (fun p v => get (pname p) kwargs = Some v) ps vals
  | Raise e =>
      e = TypeError /\
      ~ (forall k, has_key k kwargs = true <-> In k (map pname ps))
  end.
Proof.
  induction ps as [|p ps IH]; intros kwargs F ND; cbn [bind_keywords].
  - destruct kwargs as [|[k v] kwargs].
    + split; [intros k; cbn; split; [discriminate | tauto]|].
      exists []. split; [reflexivity | constructor].
    + split; [reflexivity|]. intros H. apply (H k). apply has_key_In. now left.
  - inversion F as [|? ? Dp F']; subst. inversion ND as [|? ? Hn ND']; subst.
    destruct (get (pname p) kwargs) as [v|] eqn:G.
    + specialize (IH (remove_key (pname p) kwargs) F' ND').
      assert (K : (forall k, has_key k (remove_key (pname p) kwargs) = true
                             <-> In k (map pname ps))
                  <-> (forall k, has_key k kwargs = true
                                 <-> In k (map pname (p :: ps)))).
      { split; intros H k; specialize (H k).
        - rewrite has_key_remove_key in H. cbn.
          destruct (String.eqb k (pname p)) eqn:E.
          + apply String.eqb_eq in E. subst k. split; [auto|]. intros _.
            apply has_key_get. eauto.
          + apply String.eqb_neq in E. rewrite H. split; [auto|].
            intros [E'|E']; [congruence | assumption].
        - rewrite has_key_remove_key.
          destruct (String.eqb k (pname p)) eqn:E.
          + apply String.eqb_eq in E. subst k. split; [discriminate | tauto].
          + apply String.eqb_neq in E. rewrite H. cbn. split; [|auto].
            intros [E'|E']; [congruence | assumption]. }
      destruct (bind_keywords ps (remove_key (pname p) kwargs)) as [rest|e]; cbn [bind].
      * destruct IH as [Hk (vals & -> & Hv)]. split; [now apply K|].
        exists (v :: vals). split; [reflexivity|]. constructor; [assumption|].
        clear -Hv Hn. induction Hv as [|q w qs ws Hq Hv IHv]; constructor.
        -- rewrite get_remove_key_other in Hq; [assumption|].
           intros E. apply Hn. rewrite <- E. now left.
        -- apply IHv. intros H. apply Hn. now right.
      * destruct IH as [-> N]. split; [reflexivity|]. intros H. now apply N, K.
    + rewrite Dp. split; [reflexivity|]. intros H.
      assert (T : has_key (pname p) kwargs = true) by (apply H; now left).
      apply has_key_get in T as (v & T). congruence.
Qed.

Lemma In_skipn' {A} (x : A) n l : In x (skipn n l) -> In x l.
Proof.
  intros H. rewrite <- (firstn_skipn n l). apply in_app_iff. now right.
Qed.

Lemma sig_bind_nil ps kwargs : sig_bind ps [] kwargs = bind_keywords ps kwargs.
Proof. now destruct ps. Qed.

Lemma sig_bind_spec args : forall ps kwargs,
  Forall (fun p => default p = None) ps ->
  NoDup (map pname ps) ->
  match sig_bind ps args kwargs with
  | Ok bound =>
      binds ps args kwargs /\
      exists rest, bound = combine (map pname ps) (args ++ rest) /\
                   Forall2 (fun p v => get (pname p) kwargs = Some v)
                           (skipn (length args) ps) rest
  | Raise e => e = TypeError /\ ~ binds ps args kwargs
  end.
Proof.
  unfold binds. induction args as [|a args IH]; intros ps kwargs F ND.
  - rewrite sig_bind_nil. pose proof (bind_keywords_spec ps kwargs F ND) as H.
    destruct (bind_keywords ps kwargs) as [bound|e]; cbn [length skipn app].
    + destruct H as [H1 H2]. split; [split; [lia | assumption] | assumption].
    + destruct H as [-> H]. split; [reflexivity | tauto].
  - destruct ps as [|p ps]; cbn [sig_bind].
    + split; [reflexivity|]. cbn. intros [H _]. lia.
    + inversion F as [|? ? Dp F']; subst. inversion ND as [|? ? Hn ND']; subst.
      cbn [length skipn].
      destruct (has_key (pname p) kwargs) eqn:Hp.
      * split; [reflexivity|]. intros [_ H]. apply H in Hp. apply Hn.
        apply in_map_iff in Hp as (q & E & Hq). rewrite <- E. apply in_map.
        eapply In_skipn'. exact Hq.
      * specialize (IH ps kwargs F' ND').
        destruct (sig_bind ps args kwargs) as [bound|e]; cbn [bind].
        -- destruct IH as [[H1 H2] (rest & -> & Hr)].
           split; [split; [lia | assumption]|]. exists rest. split; [reflexivity | assumption].
        -- destruct IH as [-> N]. split; [reflexivity|]. intros [H1 H2]. apply N.
           split; [lia | assumption].
Qed.

Lemma CallableModel_init_signature md m :
  CallableModel_init md = Ok m ->
  Forall (fun p => default p = None) (signature m) /\
  NoDup (map pname (signature m)) /\
  map pname (signature m) = map name (independent_vars m ++ params m).
Proof.
  intros E. split; [eapply signature_no_defaults; eassumption|].
  unfold CallableModel_init in E.
  destruct (BaseModel_init_from_dict md) as [b|e]; [|discriminate]. cbn [bind] in E.
  destruct (make_signature _ _) as [s|e] eqn:S; [|discriminate]. cbn [bind] in E.
  apply make_signature_inv in S as (-> & N & _).
  inversion E; subst m. cbn [signature base]. rewrite map_map. cbn [pname].
  split; [exact N | reflexivity].
Qed.

Lemma get_In_NoDup {V} k (v : V) d :
  NoDup (map fst d) -> In (k, v) d -> get k d = Some v.
Proof.
  induction d as [|[k0 v0] d IH]; cbn; [tauto|]. intros ND H.
  inversion ND as [|? ? Hn Hd]; subst.
  destruct H as [E|H].
  - inversion E; subst. now rewrite String.eqb_refl.
  - destruct (String.eqb k k0) eqn:E; [|now apply IH].
    apply String.eqb_eq in E. subst k0. exfalso. apply Hn.
    apply in_map_iff. now exists (k, v).
Qed.

Lemma map_fst_combine {A B} (l1 : list A) : forall (l2 : list B),
  length l1 = length l2 -> map fst (combine l1 l2) = l1.
Proof.
  induction l1 as [|a l1 IH]; intros [|b l2] L; cbn in *; try reflexivity; try lia.
  f_equal. apply IH. lia.
Qed.

Lemma Forall2_get_unique (kwargs : list (string * value)) ps : forall l1 l2,
  Forall2 (fun p v => get (pname p) kwargs = Some v) ps l1 ->
  Forall2 (fun p v => get (pname p) kwargs = Some v) ps l2 ->
  l1 = l2.
Proof.
  induction ps as [|p ps IH]; intros l1 l2 H1 H2; inversion H1; inversion H2; subst.
  - reflexivity.
  - f_equal; [congruence | now apply IH].
Qed.

(** X5.  [Signature.bind] on the signature of a model succeeds exactly
    when the arguments give every independent variable and parameter one
    value and no more.  The positional arguments then go to the first
    entries of the signature and every keyword to the entry of its name.
    In every other case, among them more positional arguments than the
    signature has entries and a value given both by position and by
    keyword, [eval_components] fails with TypeError before anything is
    evaluated, and so does [__call__], unless the keys of the model
    cannot name the fields of the tuple of its results, which it makes
    first and which then raises ValueError.  (The check of the field
    names is modelled for names in ASCII.) *)
Theorem bind_succeeds_iff (md : list (expr * expr)) (m : CallableModel)
  (args : list value) (kwargs : list (string * value)) :
  CallableModel_init md = Ok m ->
  ((exists bound, sig_bind (signature m) args kwargs = Ok bound)
   <-> binds (signature m) args kwargs) /\
  (forall bound, sig_bind (signature m) args kwargs = Ok bound ->
     exists rest,
       bound = combine (map name (independent_vars m ++ params m)) (args ++ rest) /\
       Forall2 (fun p v => get (pname p) kwargs = Some v)
               (skipn (length args) (signature m)) rest) /\
  (~ binds (signature m) args kwargs ->
   eval_components m args kwargs = Raise TypeError /\
   (Forall (fun k => isascii (name k) = true) (keys (model_dict m)) ->
    call m args kwargs
    = (Ans <- variabletuple "Ans" (keys (model_dict m)) ;; Raise TypeError))) /\
  (length (signature m) < length args -> ~ binds (signature m) args kwargs) /\
  ((exists p, In p (firstn (length args) (signature m)) /\
              has_key (pname p) kwargs = true) ->
   ~ binds (signature m) args kwargs).
Proof.
  intros E. destruct (CallableModel_init_signature md m E) as (F & ND & Names).
  pose proof (sig_bind_spec args (signature m) kwargs F ND) as S.
  split; [|split; [|split; [|split]]].
  - destruct (sig_bind (signature m) args kwargs) as [bound|e].
    + split; [intros _; apply S | eauto].
    + destruct S as [_ N]. split; [intros (b & H); discriminate | tauto].
  - intros bound H. rewrite H in S. destruct S as [_ (rest & -> & Hr)].
    exists rest. rewrite <- Names. now split.
  - intros N. destruct (sig_bind (signature m) args kwargs) as [bound|e] eqn:B.
    + destruct S as [S _]. tauto.
    + destruct S as [-> _].
      assert (R : eval_components m args kwargs = Raise TypeError).
      { unfold eval_components. now rewrite B. }
      split; [assumption|]. intros _. unfold call. now rewrite R.
  - intros L [H _]. lia.
  - intros (p & Hp & K) [L H]. apply H in K.
    rewrite <- (firstn_skipn (length args) (signature m)), map_app in ND.
    apply in_map with (f := pname) in Hp.
    revert ND Hp K. generalize (map pname (firstn (length args) (signature m))).
    generalize (map pname (skipn (length args) (signature m))). clear.
    intros l2 l1. induction l1 as [|a l1 IH]; cbn; [tauto|].
    intros ND [->|Hp] K.
    + inversion ND as [|? ? Hn]; subst. apply Hn, in_app_iff. now right.
    + inversion ND; subst. now apply IH.
Qed.

Lemma bind_succeeds_iff_witness :
  ((exists bound, sig_bind (signature chain_rule_model) [Array [1; 2]%Z]
                    [("a", Scalar 3%Z)] = Ok bound)
   <-> binds (signature chain_rule_model) [Array [1; 2]%Z] [("a", Scalar 3%Z)]) /\
  (forall bound, sig_bind (signature chain_rule_model) [Array [1; 2]%Z]
                   [("a", Scalar 3%Z)] = Ok bound ->
     exists rest,
       bound = combine (map name (independent_vars chain_rule_model ++
                                  params chain_rule_model))
                       ([Array [1; 2]%Z] ++ rest) /\
       Forall2 (fun p v => get (pname p) [("a", Scalar 3%Z)] = Some v)
               (skipn (length [Array [1; 2]%Z]) (signature chain_rule_model)) rest) /\
  (~ binds (signature chain_rule_model) [Array [1; 2]%Z] [("a", Scalar 3%Z)] ->
   eval_components chain_rule_model [Array [1; 2]%Z] [("a", Scalar 3%Z)]
   = Raise TypeError /\
   (Forall (fun k => isascii (name k) = true) (keys (model_dict chain_rule_model)) ->
    call chain_rule_model [Array [1; 2]%Z] [("a", Scalar 3%Z)]
    = (Ans <- variabletuple "Ans" (keys (model_dict chain_rule_model)) ;;
       Raise TypeError))) /\
  (length (signature chain_rule_model) < length [Array [1; 2]%Z] ->
   ~ binds (signature chain_rule_model) [Array [1; 2]%Z] [("a", Scalar 3%Z)]) /\
  ((exists p, In p (firstn (length [Array [1; 2]%Z]) (signature chain_rule_model)) /\
              has_key (pname p) [("a", Scalar 3%Z)] = true) ->
   ~ binds (signature chain_rule_model) [Array [1; 2]%Z] [("a", Scalar 3%Z)]).
Proof.
  apply (bind_succeeds_iff chain_rule_dict chain_rule_model
           [Array [1; 2]%Z] [("a", Scalar 3%Z)]).
  vm_compute. reflexivity.
Defined.

(** X6.  A call with every argument given by position, and the call
    with the same values given by keyword in whatever order, bind the same
    values to the same names, and so return the same result. *)
Theorem call_positional_or_keyword (md : list (expr * expr)) (m : CallableModel)
  (args : list value) (kwargs : list (string * value)) :
  CallableModel_init md = Ok m ->
  length args = length (signature m) ->
  Permutation kwargs (combine (map pname (signature m)) args) ->
  sig_bind (signature m) args [] = Ok (combine (map pname (signature m)) args) /\
  sig_bind (signature m) [] kwargs = Ok (combine (map pname (signature m)) args) /\
  eval_components m [] kwargs = eval_components m args [] /\
  call m [] kwargs = call m args [].
Proof.
  intros E L P. destruct (CallableModel_init_signature md m E) as (F & ND & _).
  assert (Lc : length (map pname (signature m)) = length args)
    by (now rewrite length_map).
  assert (B1 : sig_bind (signature m) args []
               = Ok (combine (map pname (signature m)) args)).
  { pose proof (sig_bind_spec args (signature m) [] F ND) as S.
    destruct (sig_bind (signature m) args []) as [bound|e].
    - destruct S as [_ (rest & -> & Hr)]. rewrite L, skipn_all in Hr.
      inversion Hr; subst. now rewrite app_nil_r.
    - destruct S as [_ N]. exfalso. apply N. split; [lia|].
      intros k. rewrite L, skipn_all. cbn. split; [discriminate | tauto]. }
  assert (Pk : Permutation (map fst kwargs) (map pname (signature m))).
  { apply Permutation_map with (f := fst) in P.
    now rewrite (map_fst_combine (map pname (signature m)) args Lc) in P. }
  assert (B2 : sig_bind (signature m) [] kwargs
               = Ok (combine (map pname (signature m)) args)).
  { pose proof (sig_bind_spec [] (signature m) kwargs F ND) as S.
    destruct (sig_bind (signature m) [] kwargs) as [bound|e].
    - destruct S as [_ (rest & -> & Hr)]. cbn [length skipn app] in *.
      f_equal. f_equal. eapply Forall2_get_unique; [exact Hr|].
      assert (NDk : NoDup (map fst kwargs)).
      { eapply Permutation_NoDup; [symmetry; exact Pk | exact ND]. }
      assert (G : forall k v, In (k, v) (combine (map pname (signature m)) args) ->
                              get k kwargs = Some v).
      { intros k v H. apply get_In_NoDup; [assumption|].
        eapply Permutation_in; [symmetry; exact P | exact H]. }
      revert G L. clear. generalize (signature m) as ps. intros ps. revert args.
      induction ps as [|p ps IH]; intros [|a args] G L; cbn in L; try lia;
        constructor.
      + apply G. now left.
      + apply IH; [|lia]. intros k v H. apply G. now right.
    - destruct S as [_ N]. exfalso. apply N. split; [cbn; lia|].
      intros k. cbn [length skipn]. rewrite has_key_In.
      split; apply Permutation_in; [|symmetry]; exact Pk. }
  split; [assumption|]. split; [assumption|].
  assert (Ev : eval_components m [] kwargs = eval_components m args []).
  { unfold eval_components. now rewrite B1, B2. }
  split; [assumption|]. unfold call. now rewrite Ev.
Qed.

Lemma call_positional_or_keyword_witness :
  sig_bind (signature chain_rule_model) [Array [1; 2]%Z; Scalar 3%Z] []
  = Ok (combine (map pname (signature chain_rule_model)) [Array [1; 2]%Z; Scalar 3%Z]) /\
  sig_bind (signature chain_rule_model) [] [("a", Scalar 3%Z); ("x", Array [1; 2]%Z)]
  = Ok (combine (map pname (signature chain_rule_model)) [Array [1; 2]%Z; Scalar 3%Z]) /\
  eval_components chain_rule_model [] [("a", Scalar 3%Z); ("x", Array [1; 2]%Z)]
  = eval_components chain_rule_model [Array [1; 2]%Z; Scalar 3%Z] [] /\
  call chain_rule_model [] [("a", Scalar 3%Z); ("x", Array [1; 2]%Z)]
  = call chain_rule_model [Array [1; 2]%Z; Scalar 3%Z] [].
Proof.
  apply (call_positional_or_keyword chain_rule_dict chain_rule_model
           [Array [1; 2]%Z; Scalar 3%Z] [("a", Scalar 3%Z); ("x", Array [1; 2]%Z)]).
  - vm_compute. reflexivity.
  - reflexivity.
  - cbn. apply perm_swap.
Defined.

(** ** The value of a negated model *)

Lemma broadcast2_mul_scalar c y : broadcast2 Z.mul (Scalar c) y = Ok (vmap (Z.mul c) y).
Proof. now destruct y. Qed.

Lemma vmap_vmap f g v : vmap f (vmap g v) = vmap (fun z => f (g z)) v.
Proof. destruct v; cbn; [reflexivity|]. now rewrite map_map. Qed.

Lemma vmap_ext f g v : (forall z, f z = g z) -> vmap f v = vmap g v.
Proof.
  intros H. destruct v; cbn; [now rewrite H|]. f_equal. now apply map_ext.
Qed.

Lemma vmap_id f v : (forall z, f z = z) -> vmap f v = v.
Proof.
  intros H. destruct v; cbn; [now rewrite H|]. f_equal.
  rewrite <- (map_id l) at 2. now apply map_ext.
Qed.

Lemma denote_scaled env c e :
  denote env (Mul (Num c) e) = (v <- denote env e ;; Ok (vmap (Z.mul c) v)).
Proof.
  cbn [denote bind]. destruct (denote env e) as [v|err]; cbn [bind]; [|reflexivity].
  apply broadcast2_mul_scalar.
Qed.

(** The value of a negated expression is the negated value of the
    expression. *)
Lemma denote_negated env e :
  no_zero_product e = true ->
  denote env (mk_mul e (Num (-1))) = (v <- denote env e ;; Ok (vneg v)).
Proof.
  intros Z0. unfold vneg.
  assert (G : denote env (Mul (Num (-1)) e) = (v <- denote env e ;; Ok (vmap Z.opp v))).
  { rewrite denote_scaled. destruct (denote env e) as [v|err]; cbn [bind]; [|reflexivity].
    apply f_equal. apply vmap_ext. intros z. lia. }
  destruct e as [n| | |a b|a b| | |]; try exact G.
  - cbn. do 2 f_equal. lia.
  - destruct a as [d| | | | | | |]; try exact G.
    apply no_zero_product_scaled in Z0 as (Nd & _ & _).
    cbn [mk_mul]. unfold mk_coeff. rewrite denote_scaled.
    destruct (Z.eqb (-1 * d) 0) eqn:E0; [apply Z.eqb_eq in E0; lia|].
    destruct (Z.eqb (-1 * d) 1) eqn:E1.
    + apply Z.eqb_eq in E1.
      destruct (denote env b) as [v|err]; cbn [bind]; [|reflexivity].
      apply f_equal. rewrite vmap_vmap. symmetry. apply vmap_id. intros z. lia.
    + rewrite denote_scaled.
      destruct (denote env b) as [v|err]; cbn [bind]; [|reflexivity].
      apply f_equal. rewrite vmap_vmap. apply vmap_ext. intros z. lia.
Qed.

Lemma atleast_1d_vneg v : atleast_1d (vneg v) = map Z.opp (atleast_1d v).
Proof. now destruct v. Qed.

Section NegatedEvaluation.
Variable md : list (expr * expr).
Variable bnames : list string.
Hypothesis ND : NoDup (keys md).
Hypothesis Z0 : forall ke, In ke md -> no_zero_product (snd ke) = true.
Hypothesis deps_bound :
  forall k e d, In (k, e) md -> In d (dependencies_of e) -> In (name d) bnames.
Hypothesis keys_free : forall k, In k (keys md) -> ~ In (name k) bnames.

Let components (d : list (expr * expr)) : list (expr * component) :=
  combine (keys d)
    (map (fun ve => sympy_to_py (snd ve)
                      (sorted key_bool_str_leb key_param_str (dependencies_of (snd ve))) [])
         d).

(** The keyword arguments of the two evaluations hold the same values
    under the names that the call has bound, and opposite values under
    the others. *)
Let related (env env' : list (string * value)) : Prop :=
  (forall n, In n bnames -> get n env' = get n env) /\
  (forall n, ~ In n bnames -> get n env' = option_map vneg (get n env)).

Let agree (r r' : result (list (string * value))) : Prop :=
  match r, r' with
  | Ok env, Ok env' => related env env'
  | Raise x, Raise y => x = y
  | _, _ => False
  end.

Lemma negated_keys : keys (map negated md) = keys md.
Proof. unfold keys. now rewrite map_map. Qed.

Lemma negated_connectivity :
  connectivity_mapping (map negated md) = connectivity_mapping md.
Proof.
  unfold connectivity_mapping. rewrite map_map. apply map_ext_in. intros ke H.
  cbn [negated fst snd]. f_equal. apply dependencies_of_negated. now apply Z0.
Qed.

Lemma related_has_key env env' n :
  related env env' -> has_key n env' = has_key n env.
Proof.
  intros [R1 R2]. unfold has_key.
  destruct (in_dec string_dec n bnames) as [I|I].
  - now rewrite (R1 n I).
  - rewrite (R2 n I). now destruct (get n env).
Qed.

Lemma related_dependencies env env' k e :
  related env env' -> In (k, e) md ->
  dependencies_kwargs env' (dependencies_of e)
  = dependencies_kwargs env (dependencies_of e).
Proof.
  intros [R1 _] H. unfold dependencies_kwargs. f_equal.
  apply mapM_ext_in. intros d Hd. now rewrite (R1 (name d) (deps_bound k e d H Hd)).
Qed.

Lemma eval_symbol_negated env env' s :
  related env env' ->
  agree (eval_symbol (connectivity_mapping md) (components md) env s)
        (eval_symbol (connectivity_mapping (map negated md))
                     (components (map negated md)) env' s).
Proof.
  intros R. destruct (in_dec expr_eq_dec s (keys md)) as [K|K].
  - apply in_keys in K as (e & K).
    assert (K' : In (s, mk_mul e (Num (-1))) (map negated md)).
    { apply in_map_iff. now exists (s, e). }
    assert (ND' : NoDup (keys (map negated md))) by (now rewrite negated_keys).
    destruct (has_key (name s) env) eqn:Hk.
    + unfold eval_symbol. rewrite (related_has_key env env' _ R), Hk. exact R.
    + unfold components.
      rewrite (eval_symbol_key md env s e ND K Hk).
      rewrite (eval_symbol_key (map negated md) env' s _ ND' K')
        by (now rewrite (related_has_key env env' _ R)).
      unfold component_value. cbn [fst snd].
      rewrite (lookup_connectivity _ _ _ ND' K'), (lookup_connectivity _ _ _ ND K).
      rewrite dependencies_of_negated by (now apply (Z0 (s, e))).
      rewrite (related_dependencies env env' s e R K).
      destruct (dependencies_kwargs env (dependencies_of e)) as [dkw|err] eqn:Ed;
        cbn [bind]; [|reflexivity].
      rewrite (call_kw_dependencies env e dkw Ed).
      assert (Ed' : dependencies_kwargs env (dependencies_of (mk_mul e (Num (-1))))
                    = Ok dkw).
      { now rewrite dependencies_of_negated by (now apply (Z0 (s, e))). }
      pose proof (call_kw_dependencies env (mk_mul e (Num (-1))) dkw Ed') as C.
      rewrite dependencies_of_negated in C by (now apply (Z0 (s, e))).
      rewrite C, denote_negated by (now apply (Z0 (s, e))).
      destruct (denote dkw e) as [v|err]; cbn [bind agree]; [|reflexivity].
      assert (Nk : ~ In (name s) bnames).
      { apply keys_free. apply in_keys. eauto. }
      destruct R as [R1 R2]. split; intros n Hn.
      * rewrite !get_put_other by (intros ->; contradiction). now apply R1.
      * destruct (string_dec n (name s)) as [->|Ne].
        -- now rewrite !get_put_same.
        -- rewrite !get_put_other by assumption. now apply R2.
  - unfold eval_symbol. rewrite (related_has_key env env' _ R).
    destruct (has_key (name s) env); [exact R|].
    rewrite negated_connectivity.
    assert (L : lookup s (connectivity_mapping md) = None).
    { destruct (lookup s (connectivity_mapping md)) as [deps|] eqn:L; [|reflexivity].
      exfalso. apply K. apply lookup_Some in L.
      rewrite <- connectivity_mapping_keys. apply in_keys. eauto. }
    rewrite L. reflexivity.
Qed.

Lemma eval_loop_negated syms : forall env env',
  related env env' ->
  agree (eval_loop (connectivity_mapping md) (components md) syms env)
        (eval_loop (connectivity_mapping (map negated md))
                   (components (map negated md)) syms env').
Proof.
  induction syms as [|s syms IH]; intros env env' R; cbn [eval_loop]; [exact R|].
  pose proof (eval_symbol_negated env env' s R) as A.
  destruct (eval_symbol (connectivity_mapping md) (components md) env s) as [e1|x];
    destruct (eval_symbol _ (components (map negated md)) env' s) as [e1'|y];
    cbn [agree bind] in *; try contradiction; [now apply IH | assumption].
Qed.

Lemma final_values_negated env env' :
  related env env' ->
  mapM (fun var => match get (name var) env' with
                   | Some v => Ok (atleast_1d v)
                   | None => Raise KeyError
                   end) (keys md)
  = (vals <- mapM (fun var => match get (name var) env with
                              | Some v => Ok (atleast_1d v)
                              | None => Raise KeyError
                              end) (keys md) ;;
     Ok (map (map Z.opp) vals)).
Proof.
  intros [_ R2].
  assert (G : forall k, In k (keys md) ->
                        get (name k) env' = option_map vneg (get (name k) env)).
  { intros k Hk. apply R2. now apply keys_free. }
  revert G. generalize (keys md) as ks. induction ks as [|k ks IH]; intros G;
    cbn [mapM]; [reflexivity|].
  rewrite (G k) by now left.
  destruct (get (name k) env) as [v|]; cbn [option_map bind]; [|reflexivity].
  rewrite IH by (intros k' Hk'; apply G; now right).
  clear IH. destruct (mapM _ ks) as [vals|err]; cbn [bind map]; [|reflexivity].
  now rewrite atleast_1d_vneg.
Qed.

Lemma related_refl bound : map fst bound = bnames -> related bound bound.
Proof.
  intros E. split; [reflexivity|]. intros n Hn.
  assert (G : get n bound = None).
  { destruct (get n bound) as [v|] eqn:G; [|reflexivity]. exfalso. apply Hn.
    rewrite <- E. apply has_key_In. apply has_key_get. eauto. }
  now rewrite G.
Qed.
End NegatedEvaluation.

Lemma CallableModel_init_base md m :
  CallableModel_init md = Ok m -> BaseModel_init_from_dict md = Ok (base m).
Proof.
  unfold CallableModel_init. intros E.
  destruct (BaseModel_init_from_dict md) as [b|e]; [|discriminate]. cbn [bind] in E.
  destruct (make_signature _ _) as [s|e]; [|discriminate]. cbn [bind] in E.
  now inversion E.
Qed.

(** A symbol that a component depends on and that is not a key is an
    entry of the signature. *)
Lemma dependency_in_signature md m k e d :
  NoDup (keys md) ->
  CallableModel_init md = Ok m ->
  In (k, e) md -> In d (dependencies_of e) -> ~ In d (keys md) ->
  In (name d) (map pname (signature m)).
Proof.
  intros ND E K Hd Nk.
  destruct (CallableModel_init_signature md m E) as (_ & _ & ->).
  destruct (init_layers md (base m) ND (CallableModel_init_base md m E))
    as (bottom & middle & top & _ & _ & Hb & _ & _ & _ & Hi & Hp & _).
  assert (B : In d bottom).
  { apply Hb. split.
    - right. exists k, (dependencies_of e). split; [|assumption].
      unfold connectivity_mapping. apply in_map_iff. now exists (k, e).
    - apply depth_0. intros x H. apply Nk. apply proper_edge_key in H.
      now rewrite connectivity_mapping_keys in H. }
  apply in_map. apply in_app_iff. destruct (is_Parameter d) eqn:P.
  - right. now apply Hp.
  - left. now apply Hi.
Qed.

Lemma combine_map_r {A B C} (f : B -> C) (l1 : list A) : forall (l2 : list B),
  combine l1 (map f l2) = map (fun kv => (fst kv, f (snd kv))) (combine l1 l2).
Proof.
  induction l1 as [|a l1 IH]; intros [|b l2]; cbn; try reflexivity. now rewrite IH.
Qed.

(** X7.  For a model with expressions that sympy can hold, in which no
    component depends on another one and no key has the name of an
    argument, the model [-m] evaluates to the opposite of what [m]
    evaluates to, and raises what [m] raises.  (When a component depends on another one
    this fails, because the component it depends on is negated as well:
    [negated_chained_model] below.) *)
Theorem negated_model_call (md : list (expr * expr)) (m : CallableModel)
  (args : list value) (kwargs : list (string * value)) :
  NoDup (keys md) ->
  Forall (fun ke => no_zero_product (snd ke) = true) md ->
  CallableModel_init md = Ok m ->
  (forall k e d, In (k, e) md -> In d (dependencies_of e) -> ~ In d (keys md)) ->
  (forall k, In k (keys md) -> ~ In (name k) (map pname (signature m))) ->
  exists m1,
    CallableModel_neg m = (model_dict m, Ok m1) /\
    eval_components m1 args kwargs
    = (vals <- eval_components m args kwargs ;; Ok (map (map Z.opp) vals)) /\
    call m1 args kwargs
    = (r <- call m args kwargs ;;
       Ok (map (fun kv => (fst kv, map Z.opp (snd kv))) r)).
Proof.
  intros ND Z0 E Flat Free.
  destruct (CallableModel_init_inv md m E) as (L0 & rest & T & Emd & _).
  destruct (CallableModel_init_signature md m E) as (F & _ & _).
  assert (In' : forall ke, In ke (model_dict m) <-> In ke md).
  { intros ke. rewrite Emd. apply sorted_In. }
  assert (Ks : forall k, In k (keys (model_dict m)) <-> In k (keys md)).
  { intros k. rewrite !in_keys. split; intros (e & H); exists e; now apply In'. }
  assert (ND' : NoDup (keys (model_dict m))).
  { rewrite Emd. unfold keys. eapply Permutation_NoDup; [|exact ND].
    apply Permutation_map. symmetry. apply sorted_perm. }
  assert (Z0' : forall ke, In ke (model_dict m) -> no_zero_product (snd ke) = true).
  { intros ke H. apply In' in H. rewrite Forall_forall in Z0. now apply Z0. }
  set (mdm := model_dict m) in *.
  set (m1 := with_model_dict m (map negated mdm)).
  assert (E1 : CallableModel_init (map negated mdm) = Ok m1).
  { apply (CallableModel_init_mapped md m negated E); [reflexivity|].
    intros ke H. apply dependencies_of_negated. rewrite Forall_forall in Z0. now apply Z0. }
  assert (N : CallableModel_neg m = (mdm, Ok m1)).
  { unfold CallableModel_neg. fold mdm.
    pose proof (negation_loop mdm [] ND') as NL. cbn [app map] in NL.
    rewrite NL. now rewrite E1. }
  assert (DB : forall k e d, In (k, e) mdm -> In d (dependencies_of e) ->
                             In (name d) (map pname (signature m))).
  { intros k e d K Hd. apply In' in K.
    eapply (dependency_in_signature md m k e d); try eassumption.
    eapply Flat; eassumption. }
  assert (KF : forall k, In k (keys mdm) -> ~ In (name k) (map pname (signature m))).
  { intros k K. apply Free. now apply Ks. }
  assert (Ev : eval_components m1 args kwargs
               = (vals <- eval_components m args kwargs ;; Ok (map (map Z.opp) vals))).
  { unfold eval_components. cbn [m1 with_model_dict signature model_dict base]. fold mdm.
    destruct (sig_bind (signature m) args kwargs) as [bound|err] eqn:B;
      cbn [bind]; [|reflexivity].
    assert (Bn : map fst bound = map pname (signature m)).
    { eapply sig_bind_names; eassumption. }
    destruct (variabletuple "Ans" (keys mdm)) as [fields|verr] eqn:V.
    2:{ rewrite (numerical_components_Raise mdm verr V).
        rewrite (numerical_components_Raise (map negated mdm) verr)
          by (now rewrite negated_keys).
        reflexivity. }
    rewrite (numerical_components_Ok mdm fields ND' V).
    rewrite (numerical_components_Ok (map negated mdm) fields)
      by (rewrite negated_keys; assumption).
    cbn [bind]. unfold ordered_symbols.
    rewrite (negated_connectivity mdm Z0'), negated_keys.
    destruct (toposort (connectivity_mapping mdm)) as [layers|err];
      cbn [bind]; [|reflexivity].
    set (syms := flat_map (sorted key_bool_nat_leb key_func) layers).
    pose proof (eval_loop_negated mdm (map pname (signature m)) ND' Z0' DB KF syms
                  bound bound (related_refl _ bound Bn)) as A.
    cbv zeta in A. rewrite (negated_connectivity mdm Z0'), negated_keys in A.
    destruct (eval_loop (connectivity_mapping mdm) _ syms bound) as [env|x];
      destruct (eval_loop (connectivity_mapping mdm) _ syms bound) as [env'|y];
      try contradiction.
    - cbn [bind]. apply (final_values_negated mdm (map pname (signature m)) KF).
      exact A.
    - cbn [bind]. now subst. }
  exists m1. split; [assumption|]. split; [assumption|].
  unfold call. rewrite Ev. cbn [m1 with_model_dict model_dict base]. rewrite negated_keys.
  fold mdm.
  destruct (variabletuple "Ans" (keys mdm)) as [fields|verr]; cbn [bind]; [|reflexivity].
  destruct (eval_components m args kwargs) as [vals|err]; cbn [bind]; [|reflexivity].
  now rewrite combine_map_r.
Qed.

Lemma linear_model_built : CallableModel_init linear_dict = Ok linear_model.
Proof. vm_compute. reflexivity. Qed.

Lemma negated_model_call_witness :
  exists m1,
    CallableModel_neg linear_model = (model_dict linear_model, Ok m1) /\
    eval_components m1 [Array [1; 2]%Z] [("a", Scalar 3%Z); ("b", Scalar 1%Z)]
    = (vals <- eval_components linear_model [Array [1; 2]%Z]
                 [("a", Scalar 3%Z); ("b", Scalar 1%Z)] ;;
       Ok (map (map Z.opp) vals)) /\
    call m1 [Array [1; 2]%Z] [("a", Scalar 3%Z); ("b", Scalar 1%Z)]
    = (r <- call linear_model [Array [1; 2]%Z] [("a", Scalar 3%Z); ("b", Scalar 1%Z)] ;;
       Ok (map (fun kv => (fst kv, map Z.opp (snd kv))) r)).
Proof.
  apply (negated_model_call linear_dict linear_model [Array [1; 2]%Z]
           [("a", Scalar 3%Z); ("b", Scalar 1%Z)]).
  - apply no_dup_NoDup. vm_compute. reflexivity.
  - repeat constructor.
  - vm_compute. reflexivity.
  - intros k e d [K|[]] Hd. inversion K; subst. vm_compute in Hd.
    intros [X|[]]. subst d. intuition discriminate.
  - intros k [<-|[]]. vm_compute. intuition discriminate.
Defined.

(** [{y: a*x, z: y + a}] at [x = 1] and [a = 1]: [m] gives [z = 2], and
    [-m] gives [z = 0], not [-2]. *)
Lemma negated_chained_model :
  exists m m1,
    CallableModel_init chained_sum_dict = Ok m /\
    CallableModel_neg m = (model_dict m, Ok m1) /\
    call m [Array [1]%Z] [("a", Scalar 1%Z)]
    = Ok [(Var "y", [1]%Z); (Var "z", [2]%Z)] /\
    call m1 [Array [1]%Z] [("a", Scalar 1%Z)]
    = Ok [(Var "y", [-1]%Z); (Var "z", [0]%Z)].
Proof.
  do 2 eexists. split; [vm_compute; reflexivity|].
  split; [vm_compute; reflexivity|]. split; vm_compute; reflexivity.
Qed.

(** ** BaseModel.__eq__ *)

Lemma same_models_sym d1 d2 : same_models d1 d2 -> same_models d2 d1.
Proof.
  unfold same_models. induction 1 as [|x y l1 l2 [K Q] _ IH]; constructor; [|assumption].
  split; [now symmetry|]. apply expand_difference. symmetry. now apply expand_difference.
Qed.

Lemma same_models_trans d1 d2 d3 :
  same_models d1 d2 -> same_models d2 d3 -> same_models d1 d3.
Proof.
  unfold same_models. intros H. revert d3.
  induction H as [|x y l1 l2 [K Q] _ IH]; intros d3 H3.
  - inversion H3; subst. constructor.
  - inversion H3 as [|? z ? l3 KQ H3']; subst. destruct KQ as [K' Q'].
    constructor; [|now apply IH].
    split; [congruence|]. apply expand_difference.
    apply expand_difference in Q. apply expand_difference in Q'. congruence.
Qed.

Lemma same_models_keys d1 d2 :
  same_models d1 d2 ->
  keys d1 = keys d2 /\
  Forall2 (fun x y => expand (snd x) = expand (snd y)) d1 d2.
Proof.
  unfold same_models, keys.
  induction 1 as [|x y l1 l2 [K Q] _ [IH1 IH2]]; cbn; [split; [reflexivity | constructor]|].
  split; [now rewrite K, IH1|]. constructor; [|assumption]. now apply expand_difference.
Qed.

(** X8.  [==] on models never raises.  It is symmetric and transitive,
    and a model is equal to itself exactly when it has at most 256
    components: above that, [len(self) is not len(other)] makes every
    comparison False. *)
Theorem model_eq_partial_equivalence (a b c : BaseModel) :
  NoDup (keys (model_dict a)) ->
  NoDup (keys (model_dict b)) ->
  NoDup (keys (model_dict c)) ->
  (BaseModel_eq a b = Ok true \/ BaseModel_eq a b = Ok false) /\
  BaseModel_eq a b = BaseModel_eq b a /\
  (BaseModel_eq a b = Ok true -> BaseModel_eq b c = Ok true ->
   BaseModel_eq a c = Ok true) /\
  (BaseModel_eq a a = Ok true <-> length (model_dict a) <= 256) /\
  (BaseModel_eq a b = Ok true ->
   keys (model_dict a) = keys (model_dict b) /\
   Forall2 (fun x y => expand (snd x) = expand (snd y)) (model_dict a) (model_dict b)).
Proof.
  intros Na Nb Nc.
  assert (Big : forall x y : BaseModel, 256 < length (model_dict x) ->
                  BaseModel_eq x y = Ok false /\ BaseModel_eq y x = Ok false).
  { intros x y L. split; [now apply BaseModel_eq_large|].
    unfold BaseModel_eq, int_is.
    destruct (Nat.eqb (length (model_dict y)) (length (model_dict x))) eqn:E;
      [|reflexivity].
    apply Nat.eqb_eq in E.
    assert (E' : Nat.leb (length (model_dict y)) 256 = false) by (apply Nat.leb_gt; lia).
    now rewrite E'. }
  assert (Tot : BaseModel_eq a b = Ok true \/ BaseModel_eq a b = Ok false).
  { destruct (Nat.le_gt_cases (length (model_dict a)) 256) as [L|L].
    - now apply BaseModel_eq_small.
    - right. exact (proj1 (Big a b L)). }
  assert (Chr : forall x y : BaseModel,
             NoDup (keys (model_dict x)) -> NoDup (keys (model_dict y)) ->
             (BaseModel_eq x y = Ok true <->
              length (model_dict x) <= 256 /\ same_models (model_dict x) (model_dict y))).
  { intros x y Nx Ny. destruct (Nat.le_gt_cases (length (model_dict x)) 256) as [L|L].
    - destruct (BaseModel_eq_small x y Nx Ny L) as [H _]. rewrite H. tauto.
    - destruct (Big x y L) as [-> _]. split; [discriminate | intros [H _]; lia]. }
  split; [assumption|]. split; [|split; [|split]].
  - assert (I : BaseModel_eq a b = Ok true <-> BaseModel_eq b a = Ok true).
    { rewrite !Chr by assumption. split; intros [L S];
        (split; [|now apply same_models_sym]);
        apply Forall2_length in S; lia. }
    assert (Tot' : BaseModel_eq b a = Ok true \/ BaseModel_eq b a = Ok false).
    { destruct (Nat.le_gt_cases (length (model_dict b)) 256) as [L|L].
      - now apply BaseModel_eq_small.
      - right. exact (proj1 (Big b a L)). }
    destruct Tot as [T|T], Tot' as [T'|T'].
    + now rewrite T, T'.
    + apply I in T. congruence.
    + apply I in T'. congruence.
    + now rewrite T, T'.
  - rewrite !Chr by assumption. intros [L1 S1] [L2 S2].
    split; [assumption|]. eapply same_models_trans; eassumption.
  - rewrite Chr by assumption. split; [tauto|]. intros L. split; [assumption|].
    apply same_models_refl.
  - intros H. apply Chr in H as [_ S]; try assumption. now apply same_models_keys.
Qed.

Lemma model_eq_partial_equivalence_witness :
  (BaseModel_eq chain_rule_model linear_model = Ok true \/
   BaseModel_eq chain_rule_model linear_model = Ok false) /\
  BaseModel_eq chain_rule_model linear_model = BaseModel_eq linear_model chain_rule_model /\
  (BaseModel_eq chain_rule_model linear_model = Ok true ->
   BaseModel_eq linear_model chain_rule_model = Ok true ->
   BaseModel_eq chain_rule_model chain_rule_model = Ok true) /\
  (BaseModel_eq chain_rule_model chain_rule_model = Ok true
   <-> length (model_dict chain_rule_model) <= 256) /\
  (BaseModel_eq chain_rule_model linear_model = Ok true ->
   keys (model_dict chain_rule_model) = keys (model_dict linear_model) /\
   Forall2 (fun x y => expand (snd x) = expand (snd y))
           (model_dict chain_rule_model) (model_dict linear_model)).
Proof.
  apply (model_eq_partial_equivalence chain_rule_model linear_model chain_rule_model);
    apply no_dup_NoDup; vm_compute; reflexivity.
Defined.

(** ** ordered_symbols *)

Lemma ordered_symbols_ok md syms :
  NoDup (keys md) ->
  ordered_symbols md = Ok syms ->
  NoDup syms /\
  (forall s, In s syms <-> symbol_of (connectivity_mapping md) s) /\
  (forall v d, proper_edge (connectivity_mapping md) v d ->
     exists i j, index_of d syms = Some i /\ index_of v syms = Some j /\ i < j).
Proof.
  intros ND E. unfold ordered_symbols in E.
  set (g := connectivity_mapping md) in *.
  assert (NDg : NoDup (keys g)) by (unfold g; now rewrite connectivity_mapping_keys).
  destruct (toposort g) as [L|e] eqn:T; [|discriminate]. cbn [bind] in E.
  inversion E; subst syms. clear E.
  destruct (toposort_ok g L NDg T) as (N1 & N2 & N3).
  split; [|split].
  - eapply Permutation_NoDup; [|exact N1]. symmetry. apply flat_map_perm.
    intros l. apply sorted_perm.
  - intros s. rewrite in_flat_map_perm by (intros l y; apply sorted_In).
    rewrite N2. symmetry. apply symbol_of_proper.
  - intros v d H. apply before_layers_index; [intros l y; apply sorted_In | assumption|].
    now apply N3.
Qed.

(** ** vars_as_functions *)

Lemma lookup_dict_set_same {V} k (v : V) d : lookup k (dict_set k v d) = Some v.
Proof.
  induction d as [|[k' v'] d IH]; cbn.
  - now rewrite expr_eqb_refl.
  - destruct (expr_eqb k k') eqn:E; cbn; rewrite E; [reflexivity | exact IH].
Qed.

Lemma lookup_dict_set_other {V} k k' (v : V) d :
  k <> k' -> lookup k (dict_set k' v d) = lookup k d.
Proof.
  intros N. induction d as [|[k0 v0] d IH]; cbn.
  - destruct (expr_eqb k k') eqn:E; [apply expr_eqb_eq in E; contradiction | reflexivity].
  - destruct (expr_eqb k' k0) eqn:E; cbn.
    + apply expr_eqb_eq in E. subst k0.
      destruct (expr_eqb k k') eqn:E'; [apply expr_eqb_eq in E'; contradiction | reflexivity].
    + destruct (expr_eqb k k0); [reflexivity | exact IH].
Qed.

Lemma keys_dict_set_new {V} k (v : V) d :
  ~ In k (keys d) -> dict_set k v d = d ++ [(k, v)].
Proof.
  unfold keys. induction d as [|[k' v'] d IH]; cbn; [reflexivity|]. intros N.
  destruct (expr_eqb k k') eqn:E; [apply expr_eqb_eq in E; subst; tauto|].
  f_equal. apply IH. tauto.
Qed.

Section VarsAsFunctions.
Variable md : list (expr * expr).
Variable syms : list expr.
Hypothesis ND : NoDup (keys md).
Hypothesis no_self :
  forall k deps, In (k, deps) (connectivity_mapping md) -> ~ In k deps.
Hypothesis Syms : ordered_symbols md = Ok syms.

Let step (vars2functions : list (expr * expr)) (symbol : expr) : list (expr * expr) :=
  match lookup symbol (connectivity_mapping md) with
  | None => vars2functions
  | Some dependencies =>
      let dependencies :=
        map (fun d => match lookup d vars2functions with
                      | Some f => f
                      | None => d
                      end) dependencies in
      let dependencies := sorted key_bool_str_leb key_param_str dependencies in
      dict_set symbol (Func (name symbol) dependencies) vars2functions
  end.

Let form (v2f : list (expr * expr)) (k : expr) (deps : list expr) : expr :=
  Func (name k) (sorted key_bool_str_leb key_param_str (map (promote v2f) deps)).

Let invariant (P : list expr) (acc : list (expr * expr)) : Prop :=
  keys acc = filter (fun s => mem s (keys md)) P /\
  forall k deps, In k P -> In (k, deps) (connectivity_mapping md) ->
                 lookup k acc = Some (form acc k deps).

Lemma cm_lookup k deps :
  In (k, deps) (connectivity_mapping md) <->
  lookup k (connectivity_mapping md) = Some deps.
Proof.
  split.
  - apply lookup_In. now rewrite connectivity_mapping_keys.
  - apply lookup_Some.
Qed.

Lemma vars_as_functions_loop Q : forall P acc,
  syms = P ++ Q -> invariant P acc -> invariant syms (fold_left step Q acc).
Proof.
  destruct (ordered_symbols_ok md syms ND Syms) as (NDs & Cov & First).
  induction Q as [|s Q IH]; intros P acc E [I1 I2].
  - cbn. rewrite app_nil_r in E. subst P. now split.
  - cbn [fold_left]. apply (IH (P ++ [s])); [now rewrite <- app_assoc|].
    assert (NsP : ~ In s P).
    { rewrite E in NDs. apply NoDup_remove_2 in NDs. intros H. apply NDs.
      apply in_app_iff. now left. }
    assert (Nacc : ~ In s (keys acc)).
    { rewrite I1. intros H. apply filter_In in H as [H _]. contradiction. }
    assert (Before : forall k deps d, In k (P ++ [s]) ->
                       In (k, deps) (connectivity_mapping md) -> In d deps -> In d P).
    { intros k deps d Hk Hkd Hd.
      assert (PE : proper_edge (connectivity_mapping md) k d).
      { split; [now exists deps|]. intros ->. now apply (no_self k deps). }
      destruct (First k d PE) as (i & j & Ei & Ej & Lij).
      assert (Lj : j <= length P).
      { apply in_app_iff in Hk as [Hk|[<-|[]]].
        - destruct (index_of_app_l k P (s :: Q) Hk) as (j' & Ej' & Lj').
          rewrite <- E in Ej'. assert (j' = j) by congruence. lia.
        - rewrite E, index_of_first in Ej by assumption. inversion Ej. lia. }
      rewrite E in Ei. apply (index_of_lt_In d P (s :: Q) i Ei). lia. }
    unfold step. destruct (lookup s (connectivity_mapping md)) as [deps|] eqn:L.
    + cbn zeta.
      assert (Ks : mem s (keys md) = true).
      { apply mem_In. rewrite <- connectivity_mapping_keys. apply in_keys.
        exists deps. now apply cm_lookup. }
      set (F := Func (name s) _).
      assert (Pr : forall k deps', In k (P ++ [s]) ->
                     In (k, deps') (connectivity_mapping md) ->
                     form (dict_set s F acc) k deps' = form acc k deps').
      { intros k deps' Hk Hkd. unfold form. do 2 f_equal. apply map_ext_in.
        intros d Hd. unfold promote. rewrite lookup_dict_set_other; [reflexivity|].
        intros ->. apply NsP. eapply Before; eassumption. }
      split.
      * rewrite keys_dict_set_new by assumption. unfold keys in *.
        rewrite map_app, filter_app, I1. cbn. now rewrite Ks.
      * intros k deps' Hk Hkd. rewrite (Pr k deps' Hk Hkd).
        apply in_app_iff in Hk as [Hk|[<-|[]]].
        -- rewrite lookup_dict_set_other by (intros ->; contradiction). now apply I2.
        -- rewrite lookup_dict_set_same. apply cm_lookup in Hkd.
           assert (deps' = deps) by congruence. subst deps'. reflexivity.
    + split.
      * rewrite filter_app, I1. cbn.
        assert (Ks : mem s (keys md) = false).
        { apply mem_not_In. intros H. rewrite <- connectivity_mapping_keys in H.
          apply in_keys in H as (deps & H). apply cm_lookup in H. congruence. }
        rewrite Ks. now rewrite app_nil_r.
      * intros k deps' Hk Hkd. apply in_app_iff in Hk as [Hk|[<-|[]]].
        -- now apply I2.
        -- apply cm_lookup in Hkd. congruence.
Qed.

Lemma vars_as_functions_spec v2f :
  vars_as_functions md = Ok v2f ->
  keys v2f = filter (fun s => mem s (keys md)) syms /\
  (forall k deps, In (k, deps) (connectivity_mapping md) ->
                  lookup k v2f = Some (form v2f k deps)) /\
  NoDup (keys v2f).
Proof.
  unfold vars_as_functions. rewrite Syms. cbn [bind]. intros [= <-].
  destruct (vars_as_functions_loop syms [] []) as [I1 I2]; [reflexivity | |].
  { split; [reflexivity|]. intros k deps []. }
  fold step in I1, I2 |- *.
  destruct (ordered_symbols_ok md syms ND Syms) as (NDs & Cov & _).
  split; [assumption|]. split.
  - intros k deps H. apply I2; [|assumption]. apply Cov. left. apply in_keys. eauto.
  - rewrite I1. now apply NoDup_filter.
Qed.
End VarsAsFunctions.

Lemma filter_keys_perm (md : list (expr * expr)) syms :
  NoDup (keys md) -> NoDup syms ->
  (forall s, In s (keys md) -> In s syms) ->
  Permutation (filter (fun s => mem s (keys md)) syms) (keys md).
Proof.
  intros ND NDs Cov. apply NoDup_Permutation; [now apply NoDup_filter | assumption|].
  intros s. rewrite filter_In, mem_In. split; [tauto|]. intros H. split; auto.
Qed.

(** X9.  [vars_as_functions] turns the keys of a model, and nothing
    else, into applied functions, and lists them in the order of
    [ordered_symbols], not in that of [model_dict].  The function of a
    key has the name of the key and, for arguments, the symbols the key
    depends on, each one that is a key itself replaced by its own
    function, variables first and parameters last.  [function_dict]
    then finds an expression for every one of them. *)
Theorem vars_as_functions_forms (md : list (expr * expr)) (v2f : list (expr * expr)) :
  NoDup (keys md) ->
  (forall k deps, In (k, deps) (connectivity_mapping md) -> ~ In k deps) ->
  vars_as_functions md = Ok v2f ->
  (exists syms, ordered_symbols md = Ok syms /\
                keys v2f = filter (fun s => mem s (keys md)) syms) /\
  Permutation (keys v2f) (keys md) /\
  (forall k deps, In (k, deps) (connectivity_mapping md) ->
     lookup k v2f
     = Some (Func (name k)
               (sorted key_bool_str_leb key_param_str (map (promote v2f) deps)))) /\
  (exists fd : list (expr * expr), function_dict md = Ok fd /\ keys fd = map snd v2f).
Proof.
  intros ND NS E.
  destruct (ordered_symbols md) as [syms|e] eqn:Syms;
    [|unfold vars_as_functions in E; rewrite Syms in E; discriminate].
  destruct (vars_as_functions_spec md syms ND NS Syms v2f E) as (K & F & NDv).
  destruct (ordered_symbols_ok md syms ND Syms) as (NDs & Cov & _).
  assert (P : Permutation (keys v2f) (keys md)).
  { rewrite K. apply filter_keys_perm; try assumption.
    intros s H. apply Cov. left. now rewrite connectivity_mapping_keys. }
  split; [eauto|]. split; [assumption|]. split; [exact F|].
  unfold function_dict. rewrite E. cbn [bind].
  set (g := fun vf : expr * expr =>
              (snd vf, xreplace v2f match lookup (fst vf) md with
                                    | Some e => e
                                    | None => Num 0
                                    end)).
  exists (map g v2f). split.
  - apply mapM_Ok. intros [k f] H. cbn [fst snd]. unfold g. cbn [fst snd].
    assert (Hk : In k (keys md)).
    { eapply Permutation_in; [exact P|]. apply in_keys. eauto. }
    apply in_keys in Hk as (e & Hk). now rewrite (lookup_In k e md ND Hk).
  - unfold keys. rewrite map_map. reflexivity.
Qed.

Lemma vars_as_functions_forms_witness :
  exists v2f,
    vars_as_functions chain_rule_dict = Ok v2f /\
    v2f = [(Var "y", Func "y" [Var "x"; Par "a"]);
           (Var "z", Func "z" [Func "y" [Var "x"; Par "a"]; Par "a"])] /\
    (exists syms, ordered_symbols chain_rule_dict = Ok syms /\
                  keys v2f = filter (fun s => mem s (keys chain_rule_dict)) syms) /\
    Permutation (keys v2f) (keys chain_rule_dict) /\
    (forall k deps, In (k, deps) (connectivity_mapping chain_rule_dict) ->
       lookup k v2f
       = Some (Func (name k)
                 (sorted key_bool_str_leb key_param_str (map (promote v2f) deps)))) /\
    (exists fd : list (expr * expr), function_dict chain_rule_dict = Ok fd /\ keys fd = map snd v2f).
Proof.
  eexists. split; [vm_compute; reflexivity|]. split; [reflexivity|].
  apply (vars_as_functions_forms chain_rule_dict).
  - apply no_dup_NoDup. vm_compute. reflexivity.
  - intros k deps H. vm_compute in H.
    destruct H as [H|[H|[]]]; inversion H; subst; cbn; intuition discriminate.
  - vm_compute. reflexivity.
Defined.

(** ** Function forms and back *)

Lemma dict_set_keys {V} k (v : V) d x :
  In x (keys (dict_set k v d)) <-> x = k \/ In x (keys d).
Proof.
  unfold keys. induction d as [|[k' v'] d IH]; cbn.
  - intuition.
  - destruct (expr_eqb k k') eqn:E; cbn.
    + apply expr_eqb_eq in E. subst. intuition.
    + rewrite IH. intuition.
Qed.

Lemma dict_set_In {V} k (v : V) d x w :
  In (x, w) (dict_set k v d) -> (x = k /\ w = v) \/ In (x, w) d.
Proof.
  induction d as [|[k' v'] d IH]; cbn.
  - intros [H|[]]. inversion H. now left.
  - destruct (expr_eqb k k') eqn:E; cbn.
    + apply expr_eqb_eq in E. subst. intros [H|H]; [inversion H; now left | now right; right].
    + intros [H|H]; [now right; left|]. destruct (IH H); [now left | now right; right].
Qed.

Lemma dict_set_NoDup {V} k (v : V) d : NoDup (keys d) -> NoDup (keys (dict_set k v d)).
Proof.
  unfold keys. induction d as [|[k' v'] d IH]; cbn; intros H.
  - repeat constructor. intros [].
  - inversion H as [|? ? Hn Hd]; subst. destruct (expr_eqb k k') eqn:E; cbn.
    + now constructor.
    + constructor; [|now apply IH]. intros Hin.
      apply (dict_set_keys k v d k') in Hin as [->|Hin]; [|contradiction].
      rewrite expr_eqb_refl in E. discriminate.
Qed.

(** Every value of [vars_as_functions] is a function that has the name
    of its key, and no key is there twice. *)
Lemma vars_as_functions_values md v2f :
  vars_as_functions md = Ok v2f ->
  NoDup (keys v2f) /\
  (forall k, In k (keys v2f) -> In k (keys md)) /\
  (forall k F, In (k, F) v2f -> exists args, F = Func (name k) args).
Proof.
  unfold vars_as_functions. destruct (ordered_symbols md) as [syms|e]; [|discriminate].
  cbn [bind]. intros [= <-].
  assert (G : forall acc,
             NoDup (keys acc) /\
             (forall k, In k (keys acc) -> In k (keys md)) /\
             (forall k F, In (k, F) acc -> exists args, F = Func (name k) args) ->
             forall v2f,
               v2f = fold_left
                 (fun vars2functions symbol =>
                    match lookup symbol (connectivity_mapping md) with
                    | None => vars2functions
                    | Some dependencies =>
                        let dependencies :=
                          map (fun d => match lookup d vars2functions with
                                        | Some f => f
                                        | None => d
                                        end) dependencies in
                        let dependencies :=
                          sorted key_bool_str_leb key_param_str dependencies in
                        dict_set symbol (Func (name symbol) dependencies) vars2functions
                    end) syms acc ->
               NoDup (keys v2f) /\
               (forall k, In k (keys v2f) -> In k (keys md)) /\
               (forall k F, In (k, F) v2f -> exists args, F = Func (name k) args)).
  { induction syms as [|s syms IH]; intros acc I v2f ->; [exact I|].
    cbn [fold_left]. eapply IH; [|reflexivity]. destruct I as (I1 & I2 & I3).
    destruct (lookup s (connectivity_mapping md)) as [deps|] eqn:L;
      [|repeat split; assumption].
    cbn zeta. split; [now apply dict_set_NoDup|]. split.
    - intros k Hk. apply dict_set_keys in Hk as [->|Hk]; [|now apply I2].
      apply lookup_Some in L. rewrite <- connectivity_mapping_keys. apply in_keys. eauto.
    - intros k F H. apply dict_set_In in H as [[-> ->]|H]; [eauto | now apply I3 in H]. }
  eapply G; [|reflexivity]. split; [constructor|]. split; [intros k []|intros k F []].
Qed.

Lemma name_injective (l : list expr) x y :
  NoDup (map name l) -> In x l -> In y l -> name x = name y -> x = y.
Proof. apply key_injective. Qed.

Lemma xreplace_unfold rule e :
  xreplace rule e =
  match lookup e rule with
  | Some r => r
  | None =>
      match e with
      | Add a b => Add (xreplace rule a) (xreplace rule b)
      | Mul a b => Mul (xreplace rule a) (xreplace rule b)
      | Pow a n => Pow (xreplace rule a) n
      | Func f args => Func f (map (xreplace rule) args)
      | Derivative e' vs => Derivative (xreplace rule e') (map (xreplace rule) vs)
      | _ => e
      end
  end.
Proof. destruct e; reflexivity. Qed.

Section RoundTrip.
Variable md v2f : list (expr * expr).
Hypothesis Names : NoDup (map name (keys md)).
Hypothesis V : vars_as_functions md = Ok v2f.

Lemma inverse_lookup k F :
  In (k, F) v2f -> lookup F (inverse_dict v2f) = Some k.
Proof.
  intros H. destruct (vars_as_functions_values md v2f V) as (NDv & Sub & Forms).
  assert (G : forall d : list (expr * expr),
             incl d v2f -> In (k, F) d -> lookup F (inverse_dict d) = Some k).
  { induction d as [|[k' F'] d IH]; intros I Hd; [destruct Hd|].
    cbn [inverse_dict map lookup fst snd]. destruct (expr_eqb F F') eqn:E.
    - apply expr_eqb_eq in E. subst F'. f_equal.
      destruct (Forms k F H) as (a1 & E1).
      destruct (Forms k' F (I _ (or_introl eq_refl))) as (a2 & E2).
      apply (name_injective (keys md)); try assumption.
      + apply Sub. apply in_keys. exists F. apply I. now left.
      + apply Sub. apply in_keys. eauto.
      + congruence.
    - destruct Hd as [Hd|Hd].
      + inversion Hd; subst. rewrite expr_eqb_refl in E. discriminate.
      + apply IH; [|assumption]. intros x Hx. apply I. now right. }
  apply G; [apply incl_refl | assumption].
Qed.

Lemma inverse_lookup_other x :
  (forall f args, x <> Func f args) -> lookup x (inverse_dict v2f) = None.
Proof.
  intros N. destruct (vars_as_functions_values md v2f V) as (_ & _ & Forms).
  destruct (lookup x (inverse_dict v2f)) as [k|] eqn:L; [|reflexivity].
  apply lookup_Some in L. unfold inverse_dict in L.
  apply in_map_iff in L as ([k' F] & E & H). cbn in E. inversion E; subst.
  destruct (Forms k x H) as (args & ->). exfalso. now apply (N (name k) args).
Qed.

Lemma round_trip e :
  func_free e = true -> xreplace (inverse_dict v2f) (xreplace v2f e) = e.
Proof.
  destruct (vars_as_functions_values md v2f V) as (_ & _ & Forms).
  induction e as [n|s|s|a b IHa IHb|a b IHa IHb|a n IHa|f args IH|e' vs IHe IHvs]
    using expr_ind'; intros FF.
  all: try (cbn [func_free] in FF; discriminate).
  all: rewrite (xreplace_unfold v2f);
    match goal with
    | |- context [lookup ?x v2f] => destruct (lookup x v2f) as [F|] eqn:L
    end;
    [ apply lookup_Some in L; destruct (Forms _ F L) as (args' & EF);
      rewrite (xreplace_unfold (inverse_dict v2f)), (inverse_lookup _ _ L); reflexivity
    | rewrite (xreplace_unfold (inverse_dict v2f)),
        inverse_lookup_other by discriminate ].
  - reflexivity.
  - reflexivity.
  - reflexivity.
  - cbn [func_free] in FF. apply andb_true_iff in FF as [Fa Fb]. now rewrite IHa, IHb.
  - cbn [func_free] in FF. apply andb_true_iff in FF as [Fa Fb]. now rewrite IHa, IHb.
  - cbn [func_free] in FF. now rewrite IHa.
  - cbn [func_free] in FF. apply andb_true_iff in FF as [Fe Fvs].
    rewrite IHe by assumption. f_equal.
    rewrite map_map. rewrite <- (map_id vs) at 2. apply map_ext_in. intros v Hv.
    rewrite Forall_forall in IHvs. apply IHvs; [assumption|].
    rewrite forallb_forall in Fvs. now apply Fvs.
Qed.
End RoundTrip.

(** X10.  Turning the keys of a model into functions and the functions
    back into keys is a round trip: for a model whose keys have
    different names, [subs(functions_as_vars)] undoes
    [xreplace(vars_as_functions)] on every expression that holds no
    applied function of its own, and on every key.  The key that
    [_partial_subs] makes of the derivative of the function of a key [k]
    with respect to a parameter is [_partial_diff(k, p)]. *)
Theorem promotion_round_trip (md v2f : list (expr * expr)) :
  NoDup (map name (keys md)) ->
  vars_as_functions md = Ok v2f ->
  (forall e, func_free e = true ->
             subs (inverse_dict v2f) (xreplace v2f e) = e) /\
  (forall k F, In (k, F) v2f ->
               xreplace v2f k = F /\ subs (inverse_dict v2f) F = k) /\
  (forall k F p, In (k, F) v2f -> is_Parameter p = true ->
                 _partial_subs (D F [p]) (inverse_dict v2f) = _partial_diff k [p]).
Proof.
  intros Names V.
  destruct (vars_as_functions_values md v2f V) as (NDv & _ & Forms).
  assert (Back : forall k F, In (k, F) v2f -> xreplace (inverse_dict v2f) F = k).
  { intros k F H. rewrite xreplace_unfold. now rewrite (inverse_lookup md v2f Names V k F H). }
  split; [|split].
  - intros e FF. unfold subs. now apply (round_trip md v2f Names V).
  - intros k F H. split; [|now apply Back].
    rewrite xreplace_unfold. now rewrite (lookup_In k F v2f NDv H).
  - intros k F p H P. destruct (Forms k F H) as (args & ->).
    cbn [D _partial_subs map]. rewrite (Back k _ H). f_equal. f_equal.
    rewrite xreplace_unfold.
    rewrite (inverse_lookup_other md v2f V p)
      by (intros f a ->; discriminate).
    destruct p; try discriminate. reflexivity.
Qed.

Lemma promotion_round_trip_witness :
  exists v2f,
    vars_as_functions chain_rule_dict = Ok v2f /\
    (forall e, func_free e = true ->
               subs (inverse_dict v2f) (xreplace v2f e) = e) /\
    (forall k F, In (k, F) v2f ->
                 xreplace v2f k = F /\ subs (inverse_dict v2f) F = k) /\
    (forall k F p, In (k, F) v2f -> is_Parameter p = true ->
                   _partial_subs (D F [p]) (inverse_dict v2f) = _partial_diff k [p]).
Proof.
  eexists. split; [vm_compute; reflexivity|].
  apply (promotion_round_trip chain_rule_dict).
  - cbn. repeat constructor; cbn; intuition discriminate.
  - vm_compute. reflexivity.
Defined.

(** ** _partial_diff *)

(** X11.  [_partial_diff] never evaluates: it returns a derivative of
    the undifferentiated expression with respect to the accumulated list
    of variables, so that applying it twice is applying it once to the
    two lists joined.  This is where it differs from [D]: for symbols
    [y], [a] and [b], [D(D(y, a), b)] is zero, and
    [_partial_diff(D(y, a), b)] is the derivative of [y] with respect to
    [a] and [b]. *)
Theorem partial_diff_accumulates (x : expr) (ps qs : list expr) :
  ps <> [] ->
  _partial_diff (_partial_diff x ps) qs = _partial_diff x (ps ++ qs) /\
  is_Derivative (_partial_diff x ps) = true /\
  derivative_count (_partial_diff x ps) = derivative_count x + length ps /\
  (forall y a b, is_Symbol y = true -> is_Symbol a = true -> is_Symbol b = true ->
                 b <> a -> b <> y ->
                 D (D y [a]) [b] = Num 0 /\
                 _partial_diff (D y [a]) [b] = Derivative y [a; b]).
Proof.
  intros N. split; [|split; [|split]].
  - destruct x; cbn; try reflexivity. now rewrite app_assoc.
  - destruct x; reflexivity.
  - destruct x; cbn; try reflexivity. now rewrite length_app.
  - intros y a b Sy Sa Sb Nab Nby.
    assert (Eb : expr_eqb b a = false) by (now apply expr_eqb_neq).
    assert (Ey : expr_eqb y b = false).
    { apply expr_eqb_neq. congruence. }
    destruct y; try discriminate; cbn [D _partial_diff fold_left diff mem existsb app];
      rewrite Eb, Ey; cbn; split; reflexivity.
Qed.

Lemma partial_diff_accumulates_witness :
  _partial_diff (_partial_diff (Var "y") [Par "a"]) [Par "b"]
  = _partial_diff (Var "y") ([Par "a"] ++ [Par "b"]) /\
  is_Derivative (_partial_diff (Var "y") [Par "a"]) = true /\
  derivative_count (_partial_diff (Var "y") [Par "a"])
  = derivative_count (Var "y") + length [Par "a"] /\
  (forall y a b, is_Symbol y = true -> is_Symbol a = true -> is_Symbol b = true ->
                 b <> a -> b <> y ->
                 D (D y [a]) [b] = Num 0 /\
                 _partial_diff (D y [a]) [b] = Derivative y [a; b]).
Proof.
  apply (partial_diff_accumulates (Var "y") [Par "a"] [Par "b"]). discriminate.
Defined.

(** ** The Jacobian of a model without interdependent variables *)

Lemma polynomial_mk_add a b :
  polynomial a = true -> polynomial b = true -> polynomial (mk_add a b) = true.
Proof.
  intros Ha Hb. unfold mk_add.
  destruct a as [[| |]| | | | | | |], b as [[| |]| | | | | | |]; cbn in *;
    try reflexivity; try assumption; try discriminate;
    rewrite ?Ha, ?Hb; try reflexivity.
Qed.

Lemma polynomial_mk_coeff c e : polynomial e = true -> polynomial (mk_coeff c e) = true.
Proof.
  intros H. unfold mk_coeff. destruct (Z.eqb c 0); [reflexivity|].
  destruct (Z.eqb c 1); [assumption|]. exact H.
Qed.

Lemma polynomial_mk_mul a b :
  polynomial a = true -> polynomial b = true -> polynomial (mk_mul a b) = true.
Proof.
  intros Ha Hb. unfold mk_mul.
  destruct a as [n| | |a1 a2|a1 a2| | |]; try discriminate;
    destruct b as [k| | |b1 b2|b1 b2| | |]; try discriminate;
    try (destruct a1 as [d| | | | | | |]); try (destruct b1 as [d'| | | | | | |]);
    try (apply polynomial_mk_coeff);
    cbn [polynomial andb] in *;
    repeat match goal with
           | H : _ && _ = true |- _ => apply andb_true_iff in H; destruct H
           end;
    repeat (apply andb_true_iff; split); try reflexivity; try assumption;
    try discriminate.
Qed.

Lemma polynomial_mk_pow a n : polynomial a = true -> polynomial (mk_pow a n) = true.
Proof.
  intros H. unfold mk_pow. destruct n as [|[|n]]; [reflexivity | assumption|].
  destruct a; try discriminate; try reflexivity; exact H.
Qed.

Lemma polynomial_diff e p : polynomial e = true -> polynomial (diff e p) = true.
Proof.
  induction e as [n|s|s|a b IHa IHb|a b IHa IHb|a n IHa|f args IH|e' vs IHe IHvs]
    using expr_ind'; cbn [polynomial diff]; intros H; try discriminate.
  - reflexivity.
  - now destruct (expr_eqb (Var s) p).
  - now destruct (expr_eqb (Par s) p).
  - apply andb_true_iff in H as [Ha Hb]. apply polynomial_mk_add; auto.
  - apply andb_true_iff in H as [Ha Hb].
    apply polynomial_mk_add; apply polynomial_mk_mul; auto.
  - apply polynomial_mk_mul; [|auto].
    apply polynomial_mk_mul; [reflexivity | now apply polynomial_mk_pow].
Qed.

(** A rule whose old expressions are not among the subterms of a
    polynomial leaves it as it is. *)
Lemma xreplace_polynomial rule e :
  polynomial e = true ->
  (forall k, In k (keys rule) -> is_Variable k = true /\ ~ In k (free_symbols e)) \/
  (forall k, In k (keys rule) -> exists f args, k = Func f args) ->
  xreplace rule e = e.
Proof.
  intros P H.
  assert (G : forall x, polynomial x = true ->
                        (forall k, In k (free_symbols x) -> In k (free_symbols e)) ->
                        (is_Variable x = true -> In x (free_symbols e)) ->
                        lookup x rule = None).
  { intros x Px Sub Vx. destruct (lookup x rule) as [r|] eqn:L; [|reflexivity].
    exfalso. apply lookup_Some in L.
    assert (K : In x (keys rule)) by (apply in_keys; eauto).
    destruct H as [H|H].
    - destruct (H x K) as [V N]. apply N. now apply Vx.
    - destruct (H x K) as (f & args & ->). discriminate. }
  assert (S : forall x, polynomial x = true ->
                (forall k, In k (free_symbols x) -> In k (free_symbols e)) ->
                xreplace rule x = x).
  { induction x as [n|s|s|a b IHa IHb|a b IHa IHb|a n IHa|f args IH|e' vs IHe IHvs]
      using expr_ind'; cbn [polynomial]; intros Px Sub; try discriminate;
      rewrite xreplace_unfold.
    - rewrite G; [reflexivity | reflexivity | assumption | discriminate].
    - rewrite G; [reflexivity | reflexivity | assumption|].
      intros _. apply Sub. now left.
    - rewrite G; [reflexivity | reflexivity | assumption | discriminate].
    - apply andb_true_iff in Px as [Pa Pb].
      rewrite G; [| cbn; now rewrite Pa, Pb | assumption | discriminate].
      rewrite IHa, IHb; try assumption; try reflexivity;
        intros k Hk; apply Sub; cbn [free_symbols]; unfold union;
        apply set_of_In, in_app_iff; auto.
    - apply andb_true_iff in Px as [Pa Pb].
      rewrite G; [| cbn; now rewrite Pa, Pb | assumption | discriminate].
      rewrite IHa, IHb; try assumption; try reflexivity;
        intros k Hk; apply Sub; cbn [free_symbols]; unfold union;
        apply set_of_In, in_app_iff; auto.
    - rewrite G; [| exact Px | assumption | discriminate].
      rewrite IHa; [reflexivity | assumption |]. intros k Hk. now apply Sub. }
  apply S; [assumption | auto].
Qed.

Lemma fold_left_pairs {A B C} (f : C -> A -> B -> C) (a : A) (inner : list B) :
  forall acc : C,
    fold_left (fun acc ab => f acc (fst ab) (snd ab)) (map (fun b => (a, b)) inner) acc
    = fold_left (fun acc b => f acc a b) inner acc.
Proof.
  induction inner as [|b inner IH]; intros acc; cbn; [reflexivity | apply IH].
Qed.

Lemma fold_left_nested {A B C} (f : C -> A -> B -> C) (inner : list B) :
  forall (outer : list A) (acc : C),
    fold_left (fun acc a => fold_left (fun acc b => f acc a b) inner acc) outer acc
    = fold_left (fun acc ab => f acc (fst ab) (snd ab))
                (flat_map (fun a => map (fun b => (a, b)) inner) outer) acc.
Proof.
  induction outer as [|a outer IH]; intros acc; cbn [fold_left flat_map]; [reflexivity|].
  now rewrite fold_left_app, IH, fold_left_pairs.
Qed.

Lemma fold_left_dict_set_ext {X} (K1 K2 : X -> expr) (V1 V2 : X -> expr) l :
  forall acc : list (expr * expr),
    (forall x, In x l -> K1 x = K2 x /\ V1 x = V2 x) ->
    fold_left (fun acc x => dict_set (K1 x) (V1 x) acc) l acc
    = fold_left (fun acc x => dict_set (K2 x) (V2 x) acc) l acc.
Proof.
  induction l as [|x l IH]; intros acc H; cbn [fold_left]; [reflexivity|].
  destruct (H x (or_introl eq_refl)) as [-> ->]. apply IH.
  intros y Hy. apply H. now right.
Qed.

Lemma fold_left_dict_set_new {X} (K V : X -> expr) l : forall acc : list (expr * expr),
  NoDup (keys acc ++ map K l) ->
  fold_left (fun acc x => dict_set (K x) (V x) acc) l acc
  = acc ++ map (fun x => (K x, V x)) l.
Proof.
  induction l as [|x l IH]; intros acc ND; cbn [fold_left map].
  - now rewrite app_nil_r.
  - assert (N : ~ In (K x) (keys acc)).
    { cbn [map] in ND. apply NoDup_remove_2 in ND. intros H. apply ND.
      apply in_app_iff. now left. }
    rewrite keys_dict_set_new by assumption. rewrite IH.
    + now rewrite <- app_assoc.
    + unfold keys in *. rewrite map_app. cbn [map fst]. rewrite <- app_assoc. exact ND.
Qed.

Lemma polynomial_derivative_atoms e : polynomial e = true -> derivative_atoms e = [].
Proof.
  induction e as [n|s|s|a b IHa IHb|a b IHa IHb|a n IHa|f args IH|e' vs IHe IHvs]
    using expr_ind'; cbn [polynomial derivative_atoms]; intros H; try discriminate;
    try reflexivity.
  - apply andb_true_iff in H as [Ha Hb]. now rewrite IHa, IHb.
  - apply andb_true_iff in H as [Ha Hb]. now rewrite IHa, IHb.
  - now apply IHa.
Qed.

Lemma polynomial_dependencies e d :
  polynomial e = true -> In d (dependencies_of e) <-> In d (free_symbols e).
Proof.
  intros P. unfold dependencies_of, seperate_symbols.
  rewrite (polynomial_derivative_atoms e P). cbn [fold_left].
  rewrite set_of_In, in_app_iff. unfold sort_by_name.
  rewrite !(sorted_In String.leb name), !filter_In.
  destruct (is_Parameter d); cbn; intuition discriminate.
Qed.

Lemma NoDup_map_injective {A B} (f : A -> B) l :
  (forall x y, f x = f y -> x = y) -> NoDup l -> NoDup (map f l).
Proof.
  intros I. induction 1 as [|x l Hx Hl IH]; cbn; constructor; [|assumption].
  intros H. apply in_map_iff in H as (y & E & Hy). apply I in E. now subst.
Qed.

Lemma NoDup_markers ks ps :
  NoDup ks -> NoDup ps ->
  NoDup (flat_map (fun k => map (fun p => Derivative k [p]) ps) ks).
Proof.
  intros Nk Np. induction Nk as [|k ks Hk Nk IH]; cbn [flat_map]; [constructor|].
  apply NoDup_app.
  - apply NoDup_map_injective; [|assumption]. intros p p' E. now inversion E.
  - exact IH.
  - intros x H1 H2. apply in_map_iff in H1 as (p & <- & _).
    apply in_flat_map in H2 as (k' & Hk' & H2).
    apply in_map_iff in H2 as (p' & E & _). inversion E; subst. contradiction.
Qed.

Lemma fold_left_map {A B C} (f : C -> B -> C) (h : A -> B) l : forall acc,
  fold_left f (map h l) acc = fold_left (fun acc x => f acc (h x)) l acc.
Proof. induction l as [|x l IH]; intros acc; cbn; [reflexivity | apply IH]. Qed.

Lemma flat_map_map {A B C} (g : A -> B) (f : B -> list C) l :
  flat_map f (map g l) = flat_map (fun x => f (g x)) l.
Proof. induction l as [|x l IH]; cbn; [reflexivity | now rewrite IH]. Qed.

Lemma mapM_inv {A B} (f : A -> result B) (g : A -> B) l r :
  (forall x, In x l -> f x = Ok (g x)) -> mapM f l = Ok r -> r = map g l.
Proof.
  intros H E. rewrite (mapM_Ok f g l H) in E. now inversion E.
Qed.

Lemma GradientModel_init_inv md m :
  GradientModel_init md = Ok m ->
  CallableModel_init md = Ok (callable m) /\
  jacobian_from_model (callable m) false = Ok (jacobian_model m).
Proof.
  unfold GradientModel_init. intros E.
  destruct (CallableModel_init md) as [c|e]; [|discriminate]. cbn [bind] in E.
  destruct (jacobian_from_model c false) as [j|e] eqn:J; [|discriminate].
  cbn [bind] in E. inversion E; subst. cbn. now split.
Qed.

Lemma lookup_sorted_dict (d : list (expr * expr)) k v :
  NoDup (keys d) -> In (k, v) d ->
  lookup k (sorted String.leb (fun i => name (fst i)) d) = Some v.
Proof.
  intros ND H. apply lookup_In.
  - unfold keys. eapply Permutation_NoDup; [|exact ND].
    apply Permutation_map. symmetry. apply sorted_perm.
  - now apply sorted_In.
Qed.

Section FlatJacobian.
Variable md : list (expr * expr).
Variable m : GradientModel.
Hypothesis Names : NoDup (map name (keys md)).
Hypothesis Shape :
  forall k e, In (k, e) md -> is_Variable k = true /\ polynomial e = true.
Hypothesis Flat :
  forall k e d, In (k, e) md -> In d (free_symbols e) -> ~ In d (keys md).
Hypothesis Built : GradientModel_init md = Ok m.

Let mdm := model_dict m.

Lemma flat_model_dict ke : In ke mdm <-> In ke md.
Proof.
  destruct (GradientModel_init_inv md m Built) as [E _].
  destruct (CallableModel_init_inv md _ E) as (_ & _ & _ & Emd & _).
  unfold mdm. rewrite Emd. apply sorted_In.
Qed.

Lemma flat_keys k : In k (keys mdm) <-> In k (keys md).
Proof.
  rewrite !in_keys. split; intros (e & H); exists e; now apply flat_model_dict.
Qed.

Lemma flat_NoDup : NoDup (keys mdm).
Proof.
  destruct (GradientModel_init_inv md m Built) as [E _].
  destruct (CallableModel_init_inv md _ E) as (_ & _ & _ & Emd & _).
  unfold mdm. rewrite Emd. unfold keys. eapply Permutation_NoDup.
  - apply Permutation_map. symmetry. apply sorted_perm.
  - eapply NoDup_map_inv. exact Names.
Qed.

Lemma flat_names : NoDup (map name (keys mdm)).
Proof.
  destruct (GradientModel_init_inv md m Built) as [E _].
  destruct (CallableModel_init_inv md _ E) as (_ & _ & _ & Emd & _).
  unfold mdm. rewrite Emd. unfold keys. eapply Permutation_NoDup; [|exact Names].
  unfold keys. apply Permutation_map, Permutation_map. symmetry. apply sorted_perm.
Qed.

Lemma flat_no_self k deps :
  In (k, deps) (connectivity_mapping mdm) -> ~ In k deps.
Proof.
  intros H Hk. unfold connectivity_mapping in H.
  apply in_map_iff in H as ([k' e] & E & H). cbn in E. inversion E; subst.
  apply flat_model_dict in H. destruct (Shape k e H) as [_ P].
  apply polynomial_dependencies in Hk; [|assumption].
  apply (Flat k e k H Hk). apply in_keys. eauto.
Qed.

Lemma flat_params_are_parameters p : In p (params m) -> is_Parameter p = true.
Proof.
  destruct (GradientModel_init_inv md m Built) as [E _].
  destruct (CallableModel_init_inv md _ E) as (L0 & rest & _ & _ & _ & Ep & _).
  rewrite Ep. intros H. now apply filter_In in H.
Qed.

Lemma flat_params_NoDup : NoDup (params m).
Proof.
  destruct (GradientModel_init_inv md m Built) as [E _].
  destruct (init_layers md _ (NoDup_map_inv _ _ Names) (CallableModel_init_base md _ E))
    as (_ & _ & _ & _ & _ & _ & _ & _ & _ & _ & _ & _ & _ & ND).
  apply NoDup_app_remove_l in ND. now apply NoDup_app_remove_r in ND.
Qed.

(** The dict that [jacobian_from_model] hands to [CallableModel]. *)
Lemma flat_jacobian_dict :
  exists v2f,
    vars_as_functions mdm = Ok v2f /\
    Permutation (keys v2f) (keys mdm) /\
    NoDup (keys (flat_map (fun k => map (fun p => (Derivative k [p],
                                                   diff (promote mdm k) p)) (params m))
                          (keys v2f)
                 ++ mdm)) /\
    model_dict (jacobian_model m)
    = sorted String.leb (fun i => name (fst i))
        (flat_map (fun k => map (fun p => (Derivative k [p],
                                           diff (promote mdm k) p)) (params m))
                  (keys v2f)
         ++ mdm).
Proof.
  destruct (GradientModel_init_inv md m Built) as [E J].
  unfold jacobian_from_model in J. fold mdm in J.
  destruct (vars_as_functions mdm) as [v2f|e] eqn:V; [|discriminate].
  cbn [bind] in J.
  destruct (function_dict mdm) as [fd|e] eqn:FD; [|discriminate].
  cbn [bind] in J.
  pose proof flat_NoDup as ND. pose proof flat_names as NN.
  destruct (ordered_symbols mdm) as [syms|e] eqn:Syms;
    [|unfold vars_as_functions in V; rewrite Syms in V; discriminate].
  destruct (vars_as_functions_spec mdm syms ND flat_no_self Syms v2f V) as (K & _ & NDv).
  destruct (ordered_symbols_ok mdm syms ND Syms) as (NDs & Cov & _).
  destruct (vars_as_functions_values mdm v2f V) as (_ & Sub & Forms).
  assert (P : Permutation (keys v2f) (keys mdm)).
  { rewrite K. apply filter_keys_perm; try assumption.
    intros s H. apply Cov. left. now rewrite connectivity_mapping_keys. }
  exists v2f. split; [reflexivity|]. split; [assumption|].
  set (f2v := map (fun kv : expr * expr => (snd kv, fst kv)) v2f) in *.
  change f2v with (inverse_dict v2f) in *.
  (* the values of the keys *)
  assert (Val : forall k, In k (keys mdm) ->
                  exists e, In (k, e) mdm /\ lookup k mdm = Some e /\ promote mdm k = e /\
                            is_Variable k = true /\ polynomial e = true /\
                            xreplace v2f e = e).
  { intros k Hk. apply in_keys in Hk as (e & Hk). exists e.
    pose proof (lookup_In k e mdm ND Hk) as L.
    destruct (Shape k e (proj1 (flat_model_dict _) Hk)) as [Vk Pe].
    split; [assumption|]. split; [assumption|].
    split; [unfold promote; now rewrite L|]. split; [assumption|]. split; [assumption|].
    apply xreplace_polynomial; [assumption|]. left. intros k' Hk'.
    assert (Km : In k' (keys mdm)) by (now apply Sub).
    apply in_keys in Km as (e' & Km).
    destruct (Shape k' e' (proj1 (flat_model_dict _) Km)) as [Vk' _].
    split; [assumption|]. intros Hf.
    apply (Flat k e k' (proj1 (flat_model_dict _) Hk) Hf).
    apply flat_keys. apply in_keys. eauto. }
  (* function_dict *)
  assert (Efd : fd = map (fun vf => (snd vf, promote mdm (fst vf))) v2f).
  { unfold function_dict in FD. rewrite V in FD. cbn [bind] in FD.
    eapply mapM_inv; [|exact FD]. intros [k F] H. cbn [fst snd].
    destruct (Val k) as (e & _ & L & Pr & _ & _ & X).
    { apply Sub. apply in_keys. eauto. }
    now rewrite L, X, Pr. }
  (* the loop over the functions and the parameters *)
  cbn beta iota in J.
  rewrite (fold_left_nested
             (fun jac (fe : expr * expr) param =>
                dict_set (_partial_subs (D (fst fe) [param]) (inverse_dict v2f))
                         (subs (inverse_dict v2f) (diff (snd fe) param)) jac)
             (params m) fd []) in J.
  rewrite Efd, flat_map_map in J.
  set (L0 := flat_map (fun kF : expr * expr => map (fun p => (kF, p)) (params m)) v2f).
  assert (EL : flat_map (fun x : expr * expr =>
                           map (fun b => ((snd x, promote mdm (fst x)), b)) (params m)) v2f
               = map (fun x : (expr * expr) * expr =>
                        ((snd (fst x), promote mdm (fst (fst x))), snd x)) L0).
  { unfold L0. clear. induction v2f as [|kF l IH]; cbn [flat_map map]; [reflexivity|].
    rewrite map_app, IH, map_map. reflexivity. }
  rewrite EL, fold_left_map in J. cbn [fst snd] in J.
  rewrite (fold_left_dict_set_ext
             (fun x : (expr * expr) * expr =>
                _partial_subs (D (snd (fst x)) [snd x]) (inverse_dict v2f))
             (fun x => Derivative (fst (fst x)) [snd x])
             (fun x => subs (inverse_dict v2f) (diff (promote mdm (fst (fst x))) (snd x)))
             (fun x => diff (promote mdm (fst (fst x))) (snd x))) in J.
  2:{ intros [[k F] p] H. cbn [fst snd]. unfold L0 in H.
      apply in_flat_map in H as (kF & HkF & H). apply in_map_iff in H as (p' & E' & Hp).
      inversion E'; subst.
      destruct (Forms k F HkF) as (args & ->).
      destruct (Val k) as (e & _ & _ & Pr & Vk & Pe & _).
      { apply Sub. apply in_keys. eauto. }
      assert (Pp : is_Parameter p = true) by (now apply flat_params_are_parameters).
      split.
      - cbn [D _partial_subs map].
        rewrite (xreplace_unfold _ (Func _ _)), (inverse_lookup mdm v2f NN V k _ HkF).
        rewrite (xreplace_unfold _ p), (inverse_lookup_other mdm v2f V p)
          by (intros f a ->; discriminate).
        destruct p; try discriminate. destruct k; try discriminate. reflexivity.
      - unfold subs. apply xreplace_polynomial.
        + rewrite Pr. now apply polynomial_diff.
        + right. intros x Hx. unfold inverse_dict, keys in Hx. rewrite map_map in Hx.
          apply in_map_iff in Hx as ([k' F'] & <- & H'). cbn [fst snd].
          destruct (Forms k' F' H') as (a' & ->). eauto. }
  assert (KL : map (fun x : (expr * expr) * expr => Derivative (fst (fst x)) [snd x]) L0
               = flat_map (fun k => map (fun p => Derivative k [p]) (params m)) (keys v2f)).
  { unfold L0, keys. clear. induction v2f as [|kF l IH]; cbn [flat_map map]; [reflexivity|].
    rewrite map_app, IH, map_map. reflexivity. }
  assert (NDK : NoDup (map (fun x : (expr * expr) * expr =>
                              Derivative (fst (fst x)) [snd x]) L0)).
  { rewrite KL. apply NoDup_markers; [assumption | apply flat_params_NoDup]. }
  rewrite (fold_left_dict_set_new
             (fun x : (expr * expr) * expr => Derivative (fst (fst x)) [snd x])
             (fun x => diff (promote mdm (fst (fst x))) (snd x)) L0 [] NDK) in J.
  cbn [app] in J.
  set (jac1 := map (fun x : (expr * expr) * expr =>
                      (Derivative (fst (fst x)) [snd x],
                       diff (promote mdm (fst (fst x))) (snd x))) L0) in *.
  assert (Ej1 : jac1 = flat_map (fun k => map (fun p => (Derivative k [p],
                                                         diff (promote mdm k) p))
                                              (params m)) (keys v2f)).
  { unfold jac1, L0, keys. clear. induction v2f as [|kF l IH]; cbn [flat_map map];
      [reflexivity|].
    rewrite map_app, IH, !map_map. reflexivity. }
  rewrite (fold_left_dict_set_ext
             (fun ye : expr * expr => fst ye) (fun ye => fst ye)
             (fun ye => subs (inverse_dict v2f) (snd ye)) (fun ye => snd ye)) in J.
  2:{ intros [k e] H. cbn [fst snd]. split; [reflexivity|].
      destruct (Val k) as (e' & He' & _ & _ & _ & Pe & _); [apply in_keys; eauto|].
      assert (e' = e) by (exact (NoDup_keys_unique mdm k e' e ND He' H)). subst e'.
      unfold subs. apply xreplace_polynomial; [assumption|].
      right. intros x Hx. unfold inverse_dict, keys in Hx. rewrite map_map in Hx.
      apply in_map_iff in Hx as ([k' F'] & <- & H'). cbn [fst snd].
      destruct (Forms k' F' H') as (a' & ->). eauto. }
  assert (NDJ : NoDup (keys jac1 ++ map (fun ye : expr * expr => fst ye) mdm)).
  { apply NoDup_app.
    - unfold jac1, keys. rewrite map_map. exact NDK.
    - exact ND.
    - intros x H1 H2. unfold jac1, keys in H1. rewrite map_map in H1.
      apply in_map_iff in H1 as (y & <- & _). cbn [fst] in H2.
      change (In (Derivative (fst (fst y)) [snd y]) (keys mdm)) in H2.
      destruct (Val _ H2) as (_ & _ & _ & _ & Vx & _). discriminate. }
  rewrite (fold_left_dict_set_new (fun ye : expr * expr => fst ye)
             (fun ye => snd ye) mdm jac1 NDJ) in J.
  assert (Eid : map (fun x : expr * expr => (fst x, snd x)) mdm = mdm).
  { rewrite <- (map_id mdm) at 2. apply map_ext. now intros [k e]. }
  rewrite Eid in J.
  destruct (CallableModel_init_inv _ _ J) as (_ & _ & _ & Ej & _).
  split; [|rewrite Ej, Ej1; reflexivity].
  rewrite <- Ej1. unfold keys at 1. rewrite map_app. exact NDJ.
Qed.
End FlatJacobian.

(** X12.  For a model whose components are polynomials in symbols that
    are not keys, the Jacobian model holds, for every component [y] with
    expression [e] and every parameter [p] of the model, the expression
    [e.diff(p)] under the marker [D(y, p)], and holds [e] itself under
    [y]; it holds nothing else.  [GradientModel.jacobian] is the matrix
    of the [e.diff(p)], one row for each component in the order of the
    model and one entry for each parameter. *)
Theorem jacobian_of_flat_model (md : list (expr * expr)) (m : GradientModel) :
  NoDup (map name (keys md)) ->
  (forall k e, In (k, e) md -> is_Variable k = true /\ polynomial e = true) ->
  (forall k e d, In (k, e) md -> In d (free_symbols e) -> ~ In d (keys md)) ->
  GradientModel_init md = Ok m ->
  (forall y e p, In (y, e) md -> In p (params m) ->
     lookup (Derivative y [p]) (model_dict (jacobian_model m)) = Some (diff e p)) /\
  (forall y e, In (y, e) md ->
     lookup y (model_dict (jacobian_model m)) = Some e) /\
  length (model_dict (jacobian_model m)) = length md * length (params m) + length md /\
  jacobian m = Ok (map (fun ye => map (diff (snd ye)) (params m)) (model_dict m)).
Proof.
  intros Names Shape Flat Built.
  destruct (flat_jacobian_dict md m Names Shape Flat Built)
    as (v2f & V & P & NDJ & EJ).
  pose proof (flat_NoDup md m Names Built) as ND.
  set (mdm := model_dict m) in *.
  assert (Pr : forall y e, In (y, e) md -> promote mdm y = e /\ In (y, e) mdm).
  { intros y e H. apply (flat_model_dict md m Built) in H. fold mdm in H.
    split; [|assumption]. unfold promote. now rewrite (lookup_In y e mdm ND H). }
  assert (G1 : forall y e p, In (y, e) md -> In p (params m) ->
     lookup (Derivative y [p]) (model_dict (jacobian_model m)) = Some (diff e p)).
  { intros y e p Hy Hp. rewrite EJ. apply lookup_sorted_dict; [assumption|].
    apply in_app_iff. left. apply in_flat_map. exists y. split.
    - eapply Permutation_in; [symmetry; exact P|]. apply in_keys. exists e.
      now apply Pr.
    - apply in_map_iff. exists p. split; [|assumption].
      now rewrite (proj1 (Pr y e Hy)). }
  split; [assumption|]. split; [|split].
  - intros y e Hy. rewrite EJ. apply lookup_sorted_dict; [assumption|].
    apply in_app_iff. right. now apply Pr.
  - rewrite EJ, sorted_length, length_app.
    assert (Lm : length mdm = length md).
    { destruct (GradientModel_init_inv md m Built) as [E _].
      destruct (CallableModel_init_inv md _ E) as (_ & _ & _ & Emd & _).
      unfold mdm. now rewrite Emd, sorted_length. }
    assert (Lk : length (keys v2f) = length md).
    { rewrite (Permutation_length P). unfold keys. now rewrite length_map. }
    rewrite Lm. f_equal. rewrite <- Lk.
    generalize (keys v2f) as ks. induction ks as [|k ks IH]; cbn [flat_map length];
      [reflexivity|].
    rewrite length_app, length_map, IH. reflexivity.
  - unfold jacobian. fold mdm. apply mapM_Ok. intros [y e] Hy.
    apply mapM_Ok. intros p Hp. cbn [fst snd]. unfold BaseModel_getitem.
    apply (flat_model_dict md m Built) in Hy.
    destruct (Shape y e Hy) as [Vy _].
    assert (ED : D y [p] = Derivative y [p]) by (destruct y; try discriminate; reflexivity).
    now rewrite ED, (G1 y e p Hy Hp).
Qed.

Lemma jacobian_of_flat_model_witness :
  exists m,
    GradientModel_init linear_dict = Ok m /\
    (forall y e p, In (y, e) linear_dict -> In p (params m) ->
       lookup (Derivative y [p]) (model_dict (jacobian_model m)) = Some (diff e p)) /\
    (forall y e, In (y, e) linear_dict ->
       lookup y (model_dict (jacobian_model m)) = Some e) /\
    length (model_dict (jacobian_model m))
    = length linear_dict * length (params m) + length linear_dict /\
    jacobian m = Ok (map (fun ye => map (diff (snd ye)) (params m)) (model_dict m)).
Proof.
  eexists. split; [vm_compute; reflexivity|].
  apply (jacobian_of_flat_model linear_dict).
  - cbn. repeat constructor. intros [].
  - intros k e [H|[]]. inversion H; subst. split; reflexivity.
  - intros k e d [H|[]] Hd. inversion H; subst. vm_compute in Hd.
    intros [X|[]]. subst d. intuition discriminate.
  - vm_compute. reflexivity.
Defined.

(** ** The Jacobian of the linear model, evaluated *)

Lemma broadcast2_single_l op c l :
  broadcast2 op (Array [c]) (Array l) = Ok (Array (map (op c) l)).
Proof.
  unfold broadcast2. cbn [length].
  destruct (Nat.eqb 1 (length l)) eqn:E; [|reflexivity].
  apply Nat.eqb_eq in E. destruct l as [|y [|z l]]; cbn in E; try lia. reflexivity.
Qed.

Lemma stack_broadcast_same n comp :
  comp <> [] -> Forall (fun r => length r = n) comp -> stack_broadcast comp = Ok comp.
Proof.
  intros N F. unfold stack_broadcast. destruct comp as [|r comp]; [congruence|].
  set (k := match filter _ (r :: comp) with a :: _ => length a | [] => 1 end).
  assert (Ek : forall x, In x (r :: comp) -> Nat.eqb (length x) k = true).
  { intros x Hx. rewrite Forall_forall in F. apply Nat.eqb_eq. unfold k.
    destruct (filter _ (r :: comp)) as [|a l] eqn:Ef.
    - assert (Hf : ~ In x (filter (fun a => negb (Nat.eqb (length a) 1)) (r :: comp)))
        by (rewrite Ef; intros []).
      rewrite filter_In in Hf.
      destruct (Nat.eqb (length x) 1) eqn:E1; [now apply Nat.eqb_eq in E1|].
      exfalso. apply Hf. now split.
    - assert (Ha : In a (r :: comp)).
      { assert (Hf : In a (filter (fun a => negb (Nat.eqb (length a) 1)) (r :: comp)))
          by (rewrite Ef; now left).
        now apply filter_In in Hf. }
      rewrite (F x Hx), (F a Ha). reflexivity. }
  rewrite <- (map_id (r :: comp)) at 2. apply mapM_Ok. intros x Hx.
  unfold broadcast_to. now rewrite (Ek x Hx).
Qed.

(** X13.  For the model [{y: a*x + b}], [eval_jacobian] returns, for
    every array of samples [x] and all values of [a] and [b], the
    samples [x] for the derivative in [a] and an array of ones of the
    same length for the derivative in [b]: the constant derivative is
    broadcast to the shape of the component. *)
Theorem linear_model_jacobian (xs : list Z) (a b : Z) :
  exists m,
    GradientModel_init linear_dict = Ok m /\
    jacobian m = Ok [[Var "x"; Num 1]] /\
    call m [Array xs] [("a", Scalar a); ("b", Scalar b)]
    = Ok [(Var "y", map (fun x => a * x + b)%Z xs)] /\
    eval_jacobian m [Array xs] [("a", Scalar a); ("b", Scalar b)]
    = Ok [(Var "y", [xs; map (fun _ => 1%Z) xs])].
Proof.
  eexists. split; [vm_compute; reflexivity|].
  split; [vm_compute; reflexivity|]. split.
  - unfold call, eval_components, numerical_components. name_fields.
    cbn. rewrite !map_map. reflexivity.
  - unfold eval_jacobian, call, eval_components, numerical_components. name_fields.
    unfold ones_like.
    repeat (cbn -[broadcast2 stack_broadcast Z.pow Z.mul Z.add];
            rewrite ?map_map;
            first [ rewrite broadcast2_scalar_l | rewrite broadcast2_scalar_r
                  | rewrite broadcast2_maps | rewrite broadcast2_map_l
                  | rewrite broadcast2_map_r | rewrite broadcast2_single_l ]).
    cbn -[stack_broadcast Z.pow Z.mul Z.add]. rewrite !map_map.
    assert (E1 : map (fun x => x * 1)%Z xs = xs).
    { rewrite <- (map_id xs) at 2. apply map_ext. intros x. apply Z.mul_1_r. }
    assert (E2 : map (fun _ : Z => (1 * 1)%Z) xs = map (fun _ => 1%Z) xs)
      by (now apply map_ext).
    rewrite E1, E2.
    rewrite (stack_broadcast_same (length xs));
      [reflexivity | discriminate |].
    repeat constructor. now rewrite length_map.
Qed.

(** ** ODEModel: the order of the equations *)

Lemma insert_sorted_ext {A} (k1 k2 : A -> string) x l :
  k1 x = k2 x -> (forall y, In y l -> k1 y = k2 y) ->
  insert_sorted String.leb k1 x l = insert_sorted String.leb k2 x l.
Proof.
  intros Ex H. induction l as [|y l IH]; cbn; [reflexivity|].
  rewrite Ex, (H y) by now left. destruct (String.leb (k2 x) (k2 y)); [reflexivity|].
  f_equal. apply IH. intros z Hz. apply H. now right.
Qed.

Lemma sorted_ext_in {A} (k1 k2 : A -> string) l :
  (forall y, In y l -> k1 y = k2 y) ->
  sorted String.leb k1 l = sorted String.leb k2 l.
Proof.
  induction l as [|x l IH]; intros H; cbn; [reflexivity|].
  rewrite IH by (intros y Hy; apply H; now right).
  apply insert_sorted_ext; [apply H; now left|].
  intros y Hy. apply H. right. exact (proj1 (sorted_In String.leb k2 y l) Hy).
Qed.

Lemma sorted_map_key {A B} (f : A -> B) (key : B -> string) l :
  map f (sorted String.leb (fun x => key (f x)) l) = sorted String.leb key (map f l).
Proof.
  induction l as [|x l IH]; cbn [sorted map]; [reflexivity|]. rewrite <- IH.
  generalize (sorted String.leb (fun x => key (f x)) l) as s.
  induction s as [|y s IHs]; cbn [insert_sorted map]; [reflexivity|].
  destruct (String.leb (key (f x)) (key (f y))); cbn [map]; [reflexivity|].
  now rewrite IHs.
Qed.

Lemma ODEModel_init_inv md initial m :
  ODEModel_init md initial = Ok m ->
  exists dd firsts,
    mapM (fun d => v <- dependent_of d ;; Ok (d, v)) (keys md) = Ok dd /\
    mapM first_variable (keys md) = Ok firsts /\
    ode_independent_vars m <> [] /\
    ode_initial m = initial /\
    dependent_derivatives m = dd /\
    ode_dependent_vars m = sort_by_str (map snd dd) /\
    ode_independent_vars m = sort_by_str (set_of firsts) /\
    ode_interdependent_vars m = [] /\
    ode_model_dict m
    = sorted String.leb (fun i => match lookup (fst i) dd with
                                  | Some v => sstr v
                                  | None => ""
                                  end) md /\
    ode_params m
    = sort_by_str (fold_left (fun acc expression =>
                                union acc (snd (seperate_symbols expression)))
                             (map snd md) []) /\
    make_signature (ode_independent_vars m) (ode_params m) = Ok (ode_signature m).
Proof.
  intros E. unfold ODEModel_init in E.
  destruct (mapM _ (keys md)) as [dd|e] eqn:M1; [|discriminate]. cbn [bind] in E.
  destruct (mapM first_variable (keys md)) as [firsts|e] eqn:M2; [|discriminate].
  cbn [bind] in E.
  destruct (Nat.eqb (length (sort_by_str (set_of firsts))) 0) eqn:L; [discriminate|].
  cbn [negb] in E.
  destruct (make_signature _ _) as [s|e] eqn:S; [|discriminate]. cbn [bind] in E.
  inversion E; subst m. clear E. cbn. exists dd, firsts.
  repeat split; try assumption.
  intros N. rewrite N in L. discriminate.
Qed.

Lemma dependent_derivatives_shape ks : forall dd,
  mapM (fun d => v <- dependent_of d ;; Ok (d, v)) ks = Ok dd -> keys dd = ks.
Proof.
  induction ks as [|k ks IH]; intros dd E; cbn in E.
  - now inversion E.
  - destruct (dependent_of k) as [w|]; [|discriminate]. cbn in E.
    destruct (mapM _ ks) as [dd'|] eqn:M; [|discriminate]. cbn in E. inversion E; subst.
    cbn. f_equal. now apply IH.
Qed.

Lemma getitem_loop_first dd (w : expr * expr -> expr) items :
  (forall item, In item items -> lookup (fst item) dd = Some (w item)) ->
  NoDup (map w items) ->
  forall item, In item items ->
    getitem_loop dd items (w item) = Ok (Some (snd item)).
Proof.
  induction items as [|[d f] items IH]; intros H ND item Hi; [destruct Hi|].
  cbn [getitem_loop]. pose proof (H (d, f) (or_introl eq_refl)) as Hd0.
  cbn [fst] in Hd0. rewrite Hd0.
  inversion ND as [|? ? Hn Hd]; subst.
  destruct Hi as [<-|Hi].
  - now rewrite expr_eqb_refl.
  - destruct (expr_eqb (w item) (w (d, f))) eqn:E.
    + apply expr_eqb_eq in E. exfalso. apply Hn. rewrite <- E. now apply in_map.
    + apply IH; try assumption. intros x Hx. apply H. now right.
Qed.

(** X14.  In an ODE model whose equations are for different variables,
    [model_dict] lists the equations in the order of [dependent_vars],
    so that the equation of index [i] is that of the dependent variable
    of index [i], and [values()], which goes through [__iter__] and
    [__getitem__], is the list of the right-hand sides in that order.
    (With two equations for one variable, [values()] returns the first
    of them twice: [values_of_twice_y] below.) *)
Theorem ode_values_in_order (md : list (expr * expr)) (initial : list (expr * Z))
  (m : ODEModel) :
  ODEModel_init md initial = Ok m ->
  NoDup (keys md) ->
  NoDup (ode_dependent_vars m) ->
  map (fun ke => lookup (fst ke) (dependent_derivatives m)) (ode_model_dict m)
  = map Some (ode_dependent_vars m) /\
  ODEModel_values m = Ok (map (fun ke => Some (snd ke)) (ode_model_dict m)) /\
  _ncomponents m
  = Ok (map (fun ke => sympy_to_py (snd ke)
                         (ode_independent_vars m ++ ode_dependent_vars m) (ode_params m))
            (ode_model_dict m)).
Proof.
  intros E ND NDv.
  destruct (ODEModel_init_inv md initial m E)
    as (dd & firsts & M1 & _ & _ & _ & Edd & Edep & _ & _ & Emd & _).
  destruct (dependent_derivatives_lookup (keys md) dd M1) as [D1 _].
  pose proof (dependent_derivatives_shape (keys md) dd M1) as Kdd.
  set (w := fun i : expr * expr => match lookup (fst i) dd with
                                   | Some v => v
                                   | None => Num 0
                                   end).
  assert (W : forall i, In i md -> lookup (fst i) dd = Some (w i)).
  { intros [d f] H. cbn [fst]. destruct (D1 d) as (v & _ & L); [apply in_keys; eauto|].
    unfold w. cbn [fst]. now rewrite L. }
  assert (Esnd : map snd dd = map w md).
  { assert (G : forall l : list (expr * expr),
               NoDup (keys l) -> map snd l
               = map (fun d => match lookup d l with Some v => v | None => Num 0 end)
                     (keys l)).
    { induction l as [|[k v] l IH]; intros N; cbn; [reflexivity|].
      rewrite expr_eqb_refl. f_equal. inversion N as [|? ? Hn Hl]; subst.
      rewrite (IH Hl). apply map_ext_in. intros d Hd.
      destruct (expr_eqb d k) eqn:Ek; [|reflexivity].
      apply expr_eqb_eq in Ek. subst. contradiction. }
    rewrite G by (now rewrite Kdd). rewrite Kdd. unfold keys. rewrite map_map.
    reflexivity. }
  assert (Emd' : ode_model_dict m = sorted String.leb (fun i => sstr (w i)) md).
  { rewrite Emd. apply sorted_ext_in. intros i Hi. unfold w.
    now rewrite (W i Hi). }
  assert (Ew : map w (ode_model_dict m) = ode_dependent_vars m).
  { rewrite Emd', Edep, Esnd. unfold sort_by_str. apply sorted_map_key. }
  assert (Wm : forall i, In i (ode_model_dict m) -> lookup (fst i) dd = Some (w i)).
  { intros i Hi. apply W. rewrite Emd' in Hi. now apply sorted_In in Hi. }
  assert (V : ODEModel_values m = Ok (map (fun ke => Some (snd ke)) (ode_model_dict m))).
  { unfold ODEModel_values. rewrite <- Ew.
    unfold ODEModel_getitem. rewrite Edd.
    assert (G : forall items' : list (expr * expr),
               incl items' (ode_model_dict m) ->
               mapM (getitem_loop dd (ode_model_dict m)) (map w items')
               = Ok (map (fun ke => Some (snd ke)) items')).
    { induction items' as [|i items' IH]; intros I; cbn [map mapM]; [reflexivity|].
      rewrite (getitem_loop_first dd w (ode_model_dict m) Wm);
        [| now rewrite Ew | apply I; now left].
      cbn [bind]. rewrite IH by (intros x Hx; apply I; now right). reflexivity. }
    apply G, incl_refl. }
  split; [|split].
  - rewrite Edd, <- Ew, map_map. apply map_ext_in. intros i Hi. now apply Wm.
  - exact V.
  - unfold _ncomponents. rewrite V. cbn [bind].
    generalize (ode_model_dict m) as items. intros items.
    induction items as [|i items IH]; cbn [map mapM]; [reflexivity|].
    cbn [bind]. now rewrite IH.
Qed.

Lemma ode_values_in_order_witness :
  map (fun ke => lookup (fst ke) (dependent_derivatives growth_model))
      (ode_model_dict growth_model)
  = map Some (ode_dependent_vars growth_model) /\
  ODEModel_values growth_model
  = Ok (map (fun ke => Some (snd ke)) (ode_model_dict growth_model)) /\
  _ncomponents growth_model
  = Ok (map (fun ke => sympy_to_py (snd ke)
                         (ode_independent_vars growth_model ++
                          ode_dependent_vars growth_model) (ode_params growth_model))
            (ode_model_dict growth_model)).
Proof.
  apply (ode_values_in_order growth_dict growth_initial growth_model).
  - vm_compute. reflexivity.
  - apply no_dup_NoDup. vm_compute. reflexivity.
  - apply no_dup_NoDup. vm_compute. reflexivity.
Defined.

Lemma values_of_twice_y :
  exists m,
    ODEModel_init twice_y_dict [(Var "t", 0%Z); (Var "y", 1%Z)] = Ok m /\
    ode_dependent_vars m = [Var "y"; Var "y"] /\
    ODEModel_values m = Ok [Some (Par "a"); Some (Par "a")].
Proof.
  eexists. split; [vm_compute; reflexivity|]. split; vm_compute; reflexivity.
Qed.

(** ** ODEModel: a request that leaves out the initial time *)

Lemma removelast_snoc {A} (l : list A) x : removelast (l ++ [x]) = l.
Proof. apply removelast_last. Qed.

Lemma filter_combine_keep (f : Z -> list Z) (t0 : Z) ts :
  Forall (fun t => t <> t0) ts ->
  map snd (filter (fun tr => negb (Z.eqb (fst tr) t0)) (combine ts (map f ts)))
  = map f ts.
Proof.
  induction 1 as [|t ts Ht Hts IH]; cbn; [reflexivity|].
  destruct (Z.eqb_spec t t0); [contradiction|]. cbn. now rewrite IH.
Qed.

Lemma filter_combine_drop (f : Z -> list Z) (t0 : Z) lo hi :
  Forall (fun t => t <> t0) lo -> Forall (fun t => t <> t0) hi ->
  map snd (filter (fun tr => negb (Z.eqb (fst tr) t0))
                  (combine (lo ++ t0 :: hi) (map f (lo ++ t0 :: hi))))
  = map f (lo ++ hi).
Proof.
  intros Flo Fhi. induction Flo as [|t lo Ht Hlo IH]; cbn.
  - rewrite Z.eqb_refl. cbn. now apply filter_combine_keep.
  - destruct (Z.eqb_spec t t0); [contradiction|]. cbn. now rewrite IH.
Qed.

Lemma sorted_Z_unique (l1 : list Z) : forall l2,
  StronglySorted Z.le l1 -> StronglySorted Z.le l2 -> Permutation l1 l2 -> l1 = l2.
Proof.
  induction l1 as [|x l1 IH]; intros l2 S1 S2 P.
  - apply Permutation_nil in P. now subst.
  - destruct l2 as [|y l2]; [apply Permutation_sym, Permutation_nil in P; discriminate|].
    inversion S1 as [|? ? S1' F1]; subst. inversion S2 as [|? ? S2' F2]; subst.
    rewrite Forall_forall in F1, F2.
    assert (E : x = y).
    { assert (Hx : In x (y :: l2)) by (eapply Permutation_in; [exact P | now left]).
      assert (Hy : In y (x :: l1)).
      { eapply Permutation_in; [symmetry; exact P | now left]. }
      destruct Hx as [->|Hx]; [reflexivity|].
      destruct Hy as [->|Hy]; [reflexivity|].
      specialize (F1 y Hy). specialize (F2 x Hx). lia. }
    subst y. f_equal. apply IH; try assumption.
    eapply Permutation_cons_inv; eassumption.
Qed.

Lemma StronglySorted_snoc {A} (R : A -> A -> Prop) l x :
  StronglySorted R l -> Forall (fun y => R y x) l -> StronglySorted R (l ++ [x]).
Proof.
  induction 1 as [|a l Hl IH Ha]; intros F; cbn.
  - repeat constructor.
  - inversion F; subst. constructor; [now apply IH|].
    apply Forall_app. split; [assumption | now constructor].
Qed.

Lemma StronglySorted_rev_ge l : StronglySorted Z.le l -> StronglySorted Z.ge (rev l).
Proof.
  induction 1 as [|a l Hl IH Ha]; cbn; [constructor|].
  apply StronglySorted_snoc; [assumption|].
  apply Forall_rev. eapply Forall_impl; [|exact Ha]. cbn. intros; lia.
Qed.

Lemma StronglySorted_app_le l1 l2 :
  StronglySorted Z.le l1 -> StronglySorted Z.le l2 ->
  (forall a b, In a l1 -> In b l2 -> (a <= b)%Z) ->
  StronglySorted Z.le (l1 ++ l2).
Proof.
  induction 1 as [|a l Hl IH Ha]; intros S2 H; cbn; [assumption|].
  constructor.
  - apply IH; [assumption|]. intros x y Hx Hy. apply H; [now right | assumption].
  - apply Forall_app. split; [assumption|].
    apply Forall_forall. intros y Hy. apply H; [now left | assumption].
Qed.

Lemma StronglySorted_ascending l : StronglySorted Z.le l -> ascending l = true.
Proof.
  induction 1 as [|a l Hl IH Ha]; [reflexivity|].
  cbn [ascending]. destruct l as [|b l]; [reflexivity|].
  inversion Ha; subst. apply andb_true_iff. split; [now apply Z.leb_le | assumption].
Qed.

Lemma StronglySorted_descending l : StronglySorted Z.ge l -> descending l = true.
Proof.
  induction 1 as [|a l Hl IH Ha]; [reflexivity|].
  cbn [descending]. destruct l as [|b l]; [reflexivity|].
  inversion Ha; subst. apply andb_true_iff. split; [apply Z.leb_le; lia | assumption].
Qed.

Lemma exact_integrator_monotonic odeint solution :
  exact_integrator odeint solution -> exact_on_monotonic odeint solution.
Proof.
  intros Ex f y0 Dfun t0 ts. destruct (Ex f y0 Dfun t0 ts) as [E1 E2]. now split.
Qed.

(** An integrator that refuses every other axis is exact on the
    monotonic ones. *)
Lemma checked_odeint_exact : exact_on_monotonic checked_odeint linear_solution.
Proof.
  intros f y0 Dfun t0 ts.
  destruct (linear_odeint_exact f y0 Dfun t0 ts) as [E1 E2].
  split; [exact E2|]. intros [M|M]; unfold checked_odeint.
  - now rewrite (StronglySorted_ascending _ M).
  - now rewrite (StronglySorted_descending _ M), orb_true_r.
Qed.

Lemma checked_odeint_refuses f y0 Dfun :
  checked_odeint f y0 [0; 2; 1]%Z Dfun = Raise ValueError.
Proof. reflexivity. Qed.

Section IntegrateEachSide.
Variable odeint :
  (list Z -> Z -> result (list Z)) ->
  list Z -> list Z ->
  (list Z -> Z -> result (list (list Z))) ->
  result (list (list Z)).
Variable solution : (list Z -> Z -> result (list Z)) -> list Z -> Z -> Z -> list Z.
Hypothesis exact : exact_on_monotonic odeint solution.

Lemma integrate_without_initial_time (p : ode_problem) :
  ~ In (p_t_initial p) (p_t_like p) ->
  StronglySorted Z.le (filter (fun t => Z.ltb t (p_t_initial p)) (p_t_like p)) ->
  StronglySorted Z.le (filter (fun t => Z.ltb (p_t_initial p) t) (p_t_like p)) ->
  integrate odeint p
  = Ok (transpose (p_ncols p)
          (map (solution (p_f p) (p_initial_dependent p) (p_t_initial p))
               (filter (fun t => Z.ltb t (p_t_initial p)) (p_t_like p) ++
                filter (fun t => Z.ltb (p_t_initial p) t) (p_t_like p)))).
Proof.
  intros N Slo Shi. unfold integrate.
  set (t0 := p_t_initial p) in *. set (ts := p_t_like p) in *.
  set (sol := solution (p_f p) (p_initial_dependent p) t0).
  assert (R : existsb (Z.eqb t0) ts = false).
  { apply existsb_none. apply Forall_forall. intros t Ht E. subst. contradiction. }
  rewrite R.
  set (lo := filter (fun t => Z.ltb t t0) ts) in *.
  set (hi := filter (fun t => Z.ltb t0 t) ts) in *.
  assert (Flo : Forall (fun t => (t < t0)%Z) lo).
  { apply Forall_forall. intros t Ht. apply filter_In in Ht as [_ Ht].
    now apply Z.ltb_lt in Ht. }
  assert (Fhi : Forall (fun t => (t0 < t)%Z) hi).
  { apply Forall_forall. intros t Ht. apply filter_In in Ht as [_ Ht].
    now apply Z.ltb_lt in Ht. }
  destruct (exact (p_f p) (p_initial_dependent p) (p_Dfun p) t0 hi) as [_ Eb].
  destruct (exact (p_f p) (p_initial_dependent p) (p_Dfun p) t0 (rev lo)) as [_ Es].
  rewrite Eb, Es. cbn [bind]. fold sol.
  - cbn [map tl rev]. rewrite rev_involutive, removelast_snoc.
    rewrite <- map_rev, rev_involutive.
    assert (Ea : map sol lo ++ sol t0 :: map sol hi = map sol (lo ++ t0 :: hi)).
    { now rewrite map_app. }
    rewrite Ea, length_map, Nat.eqb_refl.
    f_equal. f_equal.
    apply filter_combine_drop.
    + eapply Forall_impl; [|exact Flo]. cbn. intros; lia.
    + eapply Forall_impl; [|exact Fhi]. cbn. intros; lia.
  - right. constructor; [now apply StronglySorted_rev_ge|].
    apply Forall_rev. eapply Forall_impl; [|exact Flo]. cbn. intros; lia.
  - left. constructor; [assumption|].
    eapply Forall_impl; [|exact Fhi]. cbn. intros; lia.
Qed.
End IntegrateEachSide.

Lemma split_around (t0 : Z) ts :
  ~ In t0 ts ->
  Permutation (filter (fun t => Z.ltb t t0) ts ++ filter (fun t => Z.ltb t0 t) ts) ts.
Proof.
  induction ts as [|t ts IH]; intros N; cbn; [reflexivity|].
  assert (Nt : t <> t0) by (intros ->; apply N; now left).
  assert (N' : ~ In t0 ts) by (intros H; apply N; now right).
  destruct (Z.ltb_spec t t0), (Z.ltb_spec t0 t); try lia.
  - cbn. constructor. now apply IH.
  - rewrite <- Permutation_middle. constructor. now apply IH.
Qed.

(** X15.  When the initial time is not among the requested times, and
    the requested times before it are in ascending order and so are
    those after it, an ODE model returns, with an integrator that is
    exact on monotonic time axes, the states at the requested times in
    ascending order of time: one state for each requested time, none for
    the initial time, and in the order of the request only if the
    request was ascending as a whole. *)
Theorem ode_request_without_initial_time
  (odeint : (list Z -> Z -> result (list Z)) -> list Z -> list Z ->
            (list Z -> Z -> result (list (list Z))) -> result (list (list Z)))
  (solution : (list Z -> Z -> result (list Z)) -> list Z -> Z -> Z -> list Z)
  (m : ODEModel) (args : list value) (kwargs : list (string * value))
  (p : ode_problem) :
  exact_on_monotonic odeint solution ->
  ode_problem_of m args kwargs = Ok p ->
  ~ In (p_t_initial p) (p_t_like p) ->
  StronglySorted Z.le (filter (fun t => Z.ltb t (p_t_initial p)) (p_t_like p)) ->
  StronglySorted Z.le (filter (fun t => Z.ltb (p_t_initial p) t) (p_t_like p)) ->
  exists times,
    ODEModel_eval_components odeint m args kwargs
    = Ok (transpose (p_ncols p)
            (map (solution (p_f p) (p_initial_dependent p) (p_t_initial p)) times)) /\
    StronglySorted Z.le times /\
    Permutation times (p_t_like p) /\
    (StronglySorted Z.le (p_t_like p) -> times = p_t_like p) /\
    forall rows, ODEModel_eval_components odeint m args kwargs = Ok rows ->
                 Forall (fun row => length row = length (p_t_like p)) rows.
Proof.
  intros Ex P N Slo Shi.
  set (t0 := p_t_initial p) in *. set (ts := p_t_like p) in *.
  set (lo := filter (fun t => Z.ltb t t0) ts) in *.
  set (hi := filter (fun t => Z.ltb t0 t) ts) in *.
  assert (E : ODEModel_eval_components odeint m args kwargs
              = Ok (transpose (p_ncols p)
                      (map (solution (p_f p) (p_initial_dependent p) t0) (lo ++ hi)))).
  { unfold ODEModel_eval_components. rewrite P. cbn [bind].
    now apply integrate_without_initial_time with (solution := solution). }
  assert (Pm : Permutation (lo ++ hi) ts) by now apply split_around.
  assert (S : StronglySorted Z.le (lo ++ hi)).
  { apply StronglySorted_app_le; try assumption. intros a b Ha Hb.
    apply filter_In in Ha as [_ Ha]. apply filter_In in Hb as [_ Hb].
    apply Z.ltb_lt in Ha, Hb. lia. }
  exists (lo ++ hi). split; [exact E|]. split; [exact S|]. split; [exact Pm|]. split.
  - intros St. apply (sorted_Z_unique (lo ++ hi) ts); assumption.
  - intros rows R. rewrite E in R. inversion R; subst rows.
    eapply Forall_impl; [|apply transpose_lengths]. intros row H. cbn in H.
    rewrite H, length_map. now apply Permutation_length.
Qed.

Lemma ode_request_without_initial_time_witness :
  exists times,
    ODEModel_eval_components checked_odeint growth_model
      [Array [1; 2; -2; -1]%Z] [("a", Scalar 3%Z)]
    = Ok (transpose (p_ncols (growth_problem [1; 2; -2; -1]%Z 3))
            (map (linear_solution (p_f (growth_problem [1; 2; -2; -1]%Z 3))
                    (p_initial_dependent (growth_problem [1; 2; -2; -1]%Z 3))
                    (p_t_initial (growth_problem [1; 2; -2; -1]%Z 3))) times)) /\
    StronglySorted Z.le times /\
    Permutation times (p_t_like (growth_problem [1; 2; -2; -1]%Z 3)) /\
    (StronglySorted Z.le (p_t_like (growth_problem [1; 2; -2; -1]%Z 3)) ->
     times = p_t_like (growth_problem [1; 2; -2; -1]%Z 3)) /\
    forall rows,
      ODEModel_eval_components checked_odeint growth_model [Array [1; 2; -2; -1]%Z]
        [("a", Scalar 3%Z)] = Ok rows ->
      Forall (fun row => length row
                         = length (p_t_like (growth_problem [1; 2; -2; -1]%Z 3))) rows.
Proof.
  apply (ode_request_without_initial_time checked_odeint linear_solution growth_model
           [Array [1; 2; -2; -1]%Z] [("a", Scalar 3%Z)] (growth_problem [1; 2; -2; -1]%Z 3)).
  - apply checked_odeint_exact.
  - reflexivity.
  - cbn. intuition discriminate.
  - cbn. repeat constructor; lia.
  - cbn. repeat constructor; lia.
Defined.

(** The request [[1; 2; -2; -1]] is answered in the order
    [[-2; -1; 1; 2]], by an integrator that refuses an axis that is not
    monotonic. *)
Lemma each_side_ascending_request :
  ODEModel_eval_components checked_odeint growth_model
    [Array [1; 2; -2; -1]%Z] [("a", Scalar 3%Z)]
  = Ok [[-5; -2; 4; 7]%Z].
Proof. vm_compute. reflexivity. Qed.

(** ** ODEModel: the initial values *)

Lemma mapM_Ok_inv {A B} (f : A -> result B) l r :
  mapM f l = Ok r -> forall x, In x l -> exists y, f x = Ok y.
Proof.
  revert r. induction l as [|a l IH]; intros r E x Hx; [destruct Hx|].
  cbn in E. destruct (f a) as [y|e] eqn:Fa; [|discriminate]. cbn in E.
  destruct (mapM f l) as [r'|e]; [|discriminate].
  destruct Hx as [<-|Hx]; [eauto | eapply IH; eauto].
Qed.

(** X16.  The constructor of an ODE model does not look at the initial
    values: whatever they are, the model is built.  A dependent variable
    or an independent variable without an initial value is noticed when
    the model is evaluated, which then raises KeyError before anything
    is integrated. *)
Theorem ode_initial_checked_at_evaluation (md : list (expr * expr))
  (initial : list (expr * Z)) (m : ODEModel) (args : list value)
  (kwargs bound : list (string * value)) :
  ODEModel_init md initial = Ok m ->
  sig_bind (ode_signature m) args kwargs = Ok bound ->
  (exists v, In v (ode_dependent_vars m ++ firstn 1 (ode_independent_vars m)) /\
             lookup v initial = None) ->
  (forall odeint, ODEModel_eval_components odeint m args kwargs = Raise KeyError) /\
  (forall initial', exists m', ODEModel_init md initial' = Ok m').
Proof.
  intros E B (v & Hv & Lv).
  destruct (ODEModel_init_inv md initial m E)
    as (dd & firsts & M1 & M2 & Ni & Ei & _ & _ & _ & _ & _ & _ & S).
  split.
  - intros odeint. unfold ODEModel_eval_components, ode_problem_of.
    rewrite B. cbn [bind].
    destruct (ode_independent_vars m) as [|t_var rest] eqn:Ev; [congruence|].
    cbn [bind].
    apply make_signature_inv in S as (S & _).
    assert (F : Forall (fun p => default p = None) (ode_signature m)).
    { rewrite S. apply Forall_forall. intros p Hp.
      apply in_map_iff in Hp as (s & <- & _). reflexivity. }
    pose proof (sig_bind_names _ _ _ _ F B) as Nb.
    assert (G : exists t_like, get (name t_var) bound = Some t_like).
    { apply has_key_get, has_key_In. rewrite Nb, S, map_map. cbn [pname].
      apply in_map. rewrite ?Ev. now left. }
    destruct G as (t_like & ->). cbn [bind]. rewrite Ei.
    destruct (mapM _ (ode_dependent_vars m)) as [ini|e] eqn:M; cbn [bind].
    + apply in_app_iff in Hv as [Hv|Hv].
      * destruct (mapM_Ok_inv _ _ _ M v Hv) as (y & Hy). rewrite Lv in Hy. discriminate.
      * cbn in Hv. destruct Hv as [<-|[]]. now rewrite Lv.
    + apply mapM_Raise in M as (x & _ & Fx).
      destruct (lookup x initial); [discriminate | now inversion Fx].
  - intros initial'. unfold ODEModel_init in *.
    destruct (mapM _ (keys md)) as [dd'|e]; [|discriminate]. cbn [bind] in *.
    destruct (mapM first_variable (keys md)) as [firsts'|e]; [|discriminate].
    cbn [bind] in *.
    destruct (negb _); [|discriminate].
    destruct (make_signature _ _) as [s|e]; [|discriminate]. cbn [bind] in *. eauto.
Qed.

Lemma ode_initial_checked_at_evaluation_witness :
  exists m,
    ODEModel_init growth_dict [(Var "x", 0%Z)] = Ok m /\
    (forall odeint,
        ODEModel_eval_components odeint m [Array [1; 2]%Z] [("a", Scalar 3%Z)]
        = Raise KeyError) /\
    (forall initial', exists m', ODEModel_init growth_dict initial' = Ok m').
Proof.
  eexists. split; [vm_compute; reflexivity|].
  eapply (ode_initial_checked_at_evaluation growth_dict [(Var "x", 0%Z)] _
            [Array [1; 2]%Z] [("a", Scalar 3%Z)]).
  - vm_compute. reflexivity.
  - vm_compute. reflexivity.
  - exists (Var "y"). split; [now left | reflexivity].
Defined.

(** ** BaseModel.shared_parameters *)

Lemma intersects_true a b : intersects a b = true <-> exists x, In x a /\ In x b.
Proof.
  unfold intersects. rewrite existsb_exists. split; intros (x & H1 & H2);
    exists x; (split; [assumption|]); now apply mem_In.
Qed.

Lemma seperate_symbols_params e p :
  In p (snd (seperate_symbols e)) <-> parameter_of e p.
Proof.
  unfold seperate_symbols, parameter_of. cbn [snd]. unfold sort_by_name.
  rewrite (sorted_In String.leb name), filter_In. tauto.
Qed.

Lemma shared_loop_spec comps : forall acc,
  shared_loop comps acc = true <->
  (exists l1 c l2 p, comps = l1 ++ c :: l2 /\ parameter_of c p /\ In p acc) \/
  (exists l1 c1 l2 c2 l3 p,
      comps = l1 ++ c1 :: l2 ++ c2 :: l3 /\ parameter_of c1 p /\ parameter_of c2 p).
Proof.
  induction comps as [|c comps IH]; intros acc; cbn [shared_loop].
  - split; [discriminate|].
    intros [(l1 & c & l2 & p & E & _)|(l1 & c1 & l2 & c2 & l3 & p & E & _)];
      destruct l1; discriminate.
  - destruct (seperate_symbols c) as [vs ps] eqn:S.
    assert (P : forall p, In p ps <-> parameter_of c p).
    { intros p. rewrite <- seperate_symbols_params, S. reflexivity. }
    destruct (intersects ps acc) eqn:I.
    + split; [intros _ | reflexivity]. apply intersects_true in I as (p & H1 & H2).
      left. exists [], c, comps, p. split; [reflexivity|]. split; [now apply P | assumption].
    + rewrite IH. split.
      * intros [(l1 & c' & l2 & p & E & Pc & Hp)|(l1 & c1 & l2 & c2 & l3 & p & E & P1 & P2)].
        -- apply in_app_iff in Hp as [Hp|Hp].
           ++ left. exists (c :: l1), c', l2, p. subst. split; [reflexivity|]. split; assumption.
           ++ right. exists [], c, l1, c', l2, p. subst. split; [reflexivity|].
              split; [now apply P | assumption].
        -- right. exists (c :: l1), c1, l2, c2, l3, p. subst. split; [reflexivity|]. split; assumption.
      * intros [(l1 & c' & l2 & p & E & Pc & Hp)|(l1 & c1 & l2 & c2 & l3 & p & E & P1 & P2)].
        -- destruct l1 as [|x l1]; cbn in E; inversion E; subst.
           ++ exfalso. assert (T : intersects ps acc = true).
              { apply intersects_true. exists p. split; [now apply P | assumption]. }
              congruence.
           ++ left. exists l1, c', l2, p. split; [reflexivity|]. split; [assumption|].
              apply in_app_iff. now left.
        -- destruct l1 as [|x l1]; cbn in E; inversion E; subst.
           ++ left. exists l2, c2, l3, p. split; [reflexivity|]. split; [assumption|].
              apply in_app_iff. right. now apply P.
           ++ right. exists l1, c1, l2, c2, l3, p. split; [reflexivity|]. split; assumption.
Qed.

(** X17.  [shared_parameters] is True exactly when two different
    components of the model hold the same parameter; for a model with
    one component it is False. *)
Theorem shared_parameters_spec (m : BaseModel) :
  shared_parameters m = true <->
  exists l1 ke1 l2 ke2 l3 p,
    model_dict m = l1 ++ ke1 :: l2 ++ ke2 :: l3 /\
    parameter_of (snd ke1) p /\ parameter_of (snd ke2) p.
Proof.
  unfold shared_parameters.
  assert (G : shared_loop (map snd (model_dict m)) [] = true <->
              exists l1 ke1 l2 ke2 l3 p,
                model_dict m = l1 ++ ke1 :: l2 ++ ke2 :: l3 /\
                parameter_of (snd ke1) p /\ parameter_of (snd ke2) p).
  { rewrite shared_loop_spec. split.
    - intros [(l1 & c & l2 & p & _ & _ & [])|(l1 & c1 & l2 & c2 & l3 & p & E & P1 & P2)].
      apply map_eq_app in E as (k1 & r1 & -> & <- & E).
      apply map_eq_cons in E as (ke1 & r2 & -> & <- & E).
      apply map_eq_app in E as (k2 & r3 & -> & <- & E).
      apply map_eq_cons in E as (ke2 & k3 & -> & <- & <-).
      exists k1, ke1, k2, ke2, k3, p. split; [reflexivity|]. split; assumption.
    - intros (l1 & ke1 & l2 & ke2 & l3 & p & E & P1 & P2). right.
      exists (map snd l1), (snd ke1), (map snd l2), (snd ke2), (map snd l3), p.
      rewrite E, !map_app. cbn [map]. rewrite map_app. split; [reflexivity|]. split; assumption. }
  destruct (Nat.eqb (length (model_dict m)) 1) eqn:L; [|exact G].
  split; [discriminate|].
  intros (l1 & ke1 & l2 & ke2 & l3 & p & E & _). apply Nat.eqb_eq in L.
  rewrite E in L. rewrite length_app in L. cbn in L. rewrite length_app in L. cbn in L. lia.
Qed.

Lemma shared_parameters_spec_witness : shared_parameters chain_rule_model = true.
Proof.
  apply (proj2 (shared_parameters_spec chain_rule_model)).
  exists [], (Var "y", Mul (Par "a") (Var "x")), [],
         (Var "z", Add (Pow (Var "y") 2) (Par "a")), [], (Par "a").
  split; [reflexivity|].
  split; (split; [reflexivity | vm_compute; tauto]).
Defined.

(** ** Names that clash in the call signature *)

Lemma has_duplicates_true (l : list expr) :
  NoDup l ->
  (has_duplicates (map name l) = true <->
   exists s1 s2, In s1 l /\ In s2 l /\ s1 <> s2 /\ name s1 = name s2).
Proof.
  induction 1 as [|x l Hx ND IH]; cbn [map has_duplicates].
  - split; [discriminate | intros (? & ? & [] & _)].
  - rewrite orb_true_iff, IH, existsb_exists. split.
    + intros [(n & Hn & E)|(s1 & s2 & H1 & H2 & D & E)].
      * apply String.eqb_eq in E. apply in_map_iff in Hn as (y & Ey & Hy).
        exists x, y. split; [now left|]. split; [now right|].
        split; [|congruence]. intros ->. contradiction.
      * exists s1, s2. split; [now right|]. split; [now right|]. now split.
    + intros (s1 & s2 & [<-|H1] & [<-|H2] & D & E).
      * now destruct D.
      * left. exists (name s2). split; [now apply in_map|]. now apply String.eqb_eq.
      * left. exists (name s1). split; [now apply in_map|].
        apply String.eqb_eq. now symmetry.
      * right. exists s1, s2. now repeat split.
Qed.

Lemma NoDup_map_injective' {A B} (f : A -> B) (l : list A) :
  NoDup l -> (forall x y, In x l -> In y l -> f x = f y -> x = y) -> NoDup (map f l).
Proof.
  induction 1 as [|x l Hx Hl IH]; intros I; cbn; constructor.
  - intros H. apply in_map_iff in H as (y & E & Hy). apply Hx.
    rewrite (I x y); [assumption | now left | now right | now symmetry].
  - apply IH. intros a b Ha Hb. apply I; now right.
Qed.

Lemma make_signature_cases (l1 l2 : list expr) :
  Forall (fun s => name s <> ""%string) (l1 ++ l2) ->
  (Forall (fun s => isidentifier (name s) = true /\ iskeyword (name s) = false) (l1 ++ l2) /\
   NoDup (map name (l1 ++ l2)) /\
   exists sg, make_signature l1 l2 = Ok sg) \/
  ((~ Forall (fun s => isidentifier (name s) = true /\ iskeyword (name s) = false)
             (l1 ++ l2) \/
    ~ NoDup (map name (l1 ++ l2))) /\
   make_signature l1 l2 = Raise ValueError).
Proof.
  intros NE. destruct (make_signature l1 l2) as [sg|e] eqn:S.
  - left. apply make_signature_inv in S as (_ & N & F). repeat split; eauto.
  - right. assert (Ee : e = ValueError).
    { unfold make_signature in S.
      destruct (mapM _ (l1 ++ l2)) as [ps|e'] eqn:M; cbn [bind] in S.
      - unfold Signature in S. destruct (has_duplicates _); now inversion S.
      - inversion S; subst e'. apply mapM_Raise in M as (x & Hx & F).
        rewrite Forall_forall in NE. specialize (NE x Hx).
        unfold inspect_Parameter in F. destruct (name x); [now destruct NE|].
        destruct (_ || _); now inversion F. }
    subst e. split; [|reflexivity].
    destruct (NoDup_dec string_dec (map name (l1 ++ l2))) as [N|N]; [|now right].
    left. intros F. rewrite (make_signature_Ok l1 l2 N F) in S. discriminate.
Qed.

(** X18.  For a mapping with distinct keys whose symbols are sorted out
    without error, and independent variables and parameters that have
    plain names (not empty, in ASCII, none of [.0], [.1], ...), the
    callable model is built exactly when each of these names is an
    identifier of Python and no keyword, and no two different symbols
    among them have one name; in every other case the constructor
    raises ValueError: for a name such as [x y] or [lambda], and for a
    Variable and a Parameter that are called alike. *)
Theorem signature_name_clash (md : list (expr * expr)) (b : BaseModel) :
  NoDup (keys md) ->
  BaseModel_init_from_dict md = Ok b ->
  Forall (fun s => plain_name (name s) = true) (independent_vars b ++ params b) ->
  ((exists m, CallableModel_init md = Ok m) <->
   Forall (fun s => isidentifier (name s) = true /\ iskeyword (name s) = false)
          (independent_vars b ++ params b) /\
   forall s1 s2, In s1 (independent_vars b ++ params b) ->
                 In s2 (independent_vars b ++ params b) ->
                 name s1 = name s2 -> s1 = s2) /\
  (CallableModel_init md = Raise ValueError <->
   (exists s, In s (independent_vars b ++ params b) /\
              (isidentifier (name s) = false \/ iskeyword (name s) = true)) \/
   (exists s1 s2, In s1 (independent_vars b ++ params b) /\
                  In s2 (independent_vars b ++ params b) /\
                  s1 <> s2 /\ name s1 = name s2)) /\
  ((exists m, CallableModel_init md = Ok m) \/ CallableModel_init md = Raise ValueError).
Proof.
  intros ND E P.
  destruct (init_layers md b ND E) as (bo & mi & to & H).
  assert (NDs : NoDup (independent_vars b ++ params b)).
  { do 10 apply proj2 in H. rewrite app_assoc in H. now apply NoDup_app_remove_r in H. }
  clear H. remember (independent_vars b ++ params b) as l eqn:El.
  assert (NE : Forall (fun s => name s <> ""%string) l).
  { apply Forall_forall. intros s Hs Z. rewrite Forall_forall in P.
    specialize (P s Hs). rewrite Z in P. discriminate. }
  assert (Inj : NoDup (map name l) <->
                forall s1 s2, In s1 l -> In s2 l -> name s1 = name s2 -> s1 = s2).
  { split.
    - intros N s1 s2. now apply key_of_name.
    - intros I. now apply NoDup_map_injective'. }
  assert (Dup : ~ NoDup (map name l) <->
                exists s1 s2, In s1 l /\ In s2 l /\ s1 <> s2 /\ name s1 = name s2).
  { rewrite <- has_duplicates_NoDup, not_false_iff_true. now apply has_duplicates_true. }
  assert (Bad : ~ Forall (fun s => isidentifier (name s) = true /\ iskeyword (name s) = false) l
                <-> exists s, In s l /\
                              (isidentifier (name s) = false \/ iskeyword (name s) = true)).
  { rewrite <- Exists_Forall_neg.
    - rewrite Exists_exists. split; intros (s & Hs & B); exists s; (split; [assumption|]).
      + destruct (isidentifier (name s)); [|now left].
        destruct (iskeyword (name s)); [now right|]. destruct B. now split.
      + intros [I K]. destruct B; congruence.
    - intros s. destruct (isidentifier (name s)), (iskeyword (name s)); intuition congruence. }
  assert (C : CallableModel_init md
              = (s <- make_signature (independent_vars b) (params b) ;;
                 Ok {| base := b; signature := s |})).
  { unfold CallableModel_init. now rewrite E. }
  assert (NE' := NE). rewrite El in NE'.
  destruct (make_signature_cases (independent_vars b) (params b) NE')
    as [(F & N & sg & S)|(B & S)]; rewrite <- El in *; rewrite C, S; cbn [bind].
  - split; [|split].
    + split; [intros _; split; [exact F | now apply Inj] | eauto].
    + split; [discriminate|]. intros [X|X].
      * apply Bad in X. contradiction.
      * apply Dup in X. contradiction.
    + left. eauto.
  - split; [|split].
    + split; [intros (m & Hm); discriminate|].
      intros [F I]. exfalso. destruct B as [B|B]; [contradiction|]. apply B. now apply Inj.
    + split; [|reflexivity]. intros _. destruct B as [B|B].
      * left. now apply Bad.
      * right. now apply Dup.
    + now right.
Qed.

Lemma signature_name_clash_witness :
  NoDup (keys clash_dict) /\
  (exists b, BaseModel_init_from_dict clash_dict = Ok b /\
             Forall (fun s => plain_name (name s) = true)
                    (independent_vars b ++ params b)) /\
  CallableModel_init clash_dict = Raise ValueError.
Proof.
  assert (ND : NoDup (keys clash_dict)).
  { cbn. constructor; [intros [] | constructor]. }
  assert (E : BaseModel_init_from_dict clash_dict
              = Ok {| model_dict := clash_dict;
                      independent_vars := [Var "x"];
                      dependent_vars := [Var "y"];
                      interdependent_vars := [];
                      params := [Par "x"];
                      sigmas := [(Var "y", Var "sigma_y")] |})
    by (vm_compute; reflexivity).
  assert (P : Forall (fun s => plain_name (name s) = true) ([Var "x"] ++ [Par "x"]))
    by (repeat constructor).
  split; [exact ND|]. split; [eexists; split; [exact E | exact P]|].
  apply (proj1 (proj2 (signature_name_clash clash_dict _ ND E P))).
  right. exists (Var "x"), (Par "x").
  split; [cbn; now left|]. split; [cbn; right; now left|].
  split; [discriminate | reflexivity].
Defined.

(** Names that Python refuses for an argument: a keyword, and a name
    that is not an identifier. *)
Lemma invalid_names_refused :
  CallableModel_init [(Var "y", Mul (Par "a") (Var "lambda"))] = Raise ValueError /\
  CallableModel_init [(Var "y", Mul (Par "a") (Var "x y"))] = Raise ValueError /\
  exists m, CallableModel_init [(Var "_y", Mul (Par "a") (Var "x"))] = Ok m /\
            call m [Scalar 1%Z; Scalar 2%Z] [] = Raise ValueError /\
            call m [] [] = Raise ValueError /\
            eval_components m [] [] = Raise TypeError.
Proof.
  split; [vm_compute; reflexivity|]. split; [vm_compute; reflexivity|].
  eexists. split; [vm_compute; reflexivity|]. repeat split; vm_compute; reflexivity.
Qed.

(** ** BaseModel.vars *)

Lemma lookup_map_self {B} (f : expr -> B) l v :
  In v l -> lookup v (map (fun x => (x, f x)) l) = Some (f v).
Proof.
  induction l as [|x l IH]; [intros []|]. intros H. cbn [map lookup fst snd].
  destruct (expr_eqb v x) eqn:Q.
  - apply expr_eqb_eq in Q. now subst.
  - destruct H as [->|H]; [|now apply IH].
    rewrite expr_eqb_refl in Q. discriminate.
Qed.

Lemma NoDup_sigmas (l : list expr) :
  NoDup (map (fun v => Var ("sigma_" ++ name v)%string) l) <-> NoDup (map name l).
Proof.
  induction l as [|v l IH]; cbn [map]; [split; constructor|]. split.
  - intros N. inversion N as [|? ? Hn Hd]; subst. constructor; [|now apply IH].
    intros H. apply Hn. apply in_map_iff in H as (w & E & Hw).
    apply in_map_iff. exists w. split; [now rewrite E | assumption].
  - intros N. inversion N as [|? ? Hn Hd]; subst. constructor; [|now apply IH].
    intros H. apply Hn. apply in_map_iff in H as (w & E & Hw).
    apply in_map_iff. exists w. split; [|assumption].
    inversion E as [E']. congruence.
Qed.

Lemma NoDup_app_disjoint {A} (l1 l2 : list A) :
  NoDup (l1 ++ l2) <-> NoDup l1 /\ NoDup l2 /\ forall a, In a l1 -> ~ In a l2.
Proof.
  induction l1 as [|x l1 IH]; cbn.
  - split; [intros H; repeat split; [constructor | assumption | tauto] | tauto].
  - split.
    + intros N. inversion N as [|? ? Hn Hd]; subst. apply IH in Hd as (N1 & N2 & D).
      rewrite in_app_iff in Hn. split; [constructor; tauto|]. split; [assumption|].
      intros a [<-|Ha]; [tauto | now apply D].
    + intros (N1 & N2 & D). inversion N1 as [|? ? Hn Hd]; subst. constructor.
      * rewrite in_app_iff. intros [H|H]; [contradiction | apply (D x); auto].
      * apply IH. repeat split; try assumption. intros a Ha. apply D. now right.
Qed.

(** X19.  On a model built from a mapping with distinct keys, [vars]
    never raises KeyError: every dependent variable has its sigma, and
    the result is the independent variables, then the dependent
    variables, then one Variable [sigma_<name>] for each dependent
    variable in the same order.  The list can hold a Variable twice: it
    is free of duplicates exactly when the dependent variables have
    different names and none of its independent and dependent variables
    is the sigma of a dependent variable. *)
Theorem vars_of_built_model (md : list (expr * expr)) (m : BaseModel) :
  NoDup (keys md) ->
  BaseModel_init_from_dict md = Ok m ->
  vars m = Ok (independent_vars m ++ dependent_vars m ++
               map (fun v => Var ("sigma_" ++ name v)%string) (dependent_vars m)) /\
  (forall l, vars m = Ok l ->
     (NoDup l <->
      NoDup (map name (dependent_vars m)) /\
      forall v s, In v (dependent_vars m) ->
                  In s (independent_vars m ++ dependent_vars m) ->
                  s <> Var ("sigma_" ++ name v)%string)).
Proof.
  intros ND H.
  destruct (BaseModel_init_inv md m H) as (bo & mi & to & _ & _ & _ & _ & _ & _ & Es).
  assert (V : vars m = Ok (independent_vars m ++ dependent_vars m ++
               map (fun v => Var ("sigma_" ++ name v)%string) (dependent_vars m))).
  { unfold vars. rewrite Es.
    rewrite (mapM_Ok _ (fun v => Var ("sigma_" ++ name v)%string) (dependent_vars m)).
    - reflexivity.
    - intros v Hv. now rewrite (lookup_map_self _ _ _ Hv). }
  split; [exact V|]. intros l Hl. rewrite V in Hl. inversion Hl; subst l. clear Hl.
  destruct (init_layers md m ND H) as (bo' & mi' & to' & L).
  do 10 apply proj2 in L.
  assert (NAB : NoDup (independent_vars m ++ dependent_vars m)).
  { apply NoDup_app_disjoint in L as (N1 & N2 & N3).
    apply NoDup_app_disjoint. split; [assumption|]. split.
    - apply NoDup_app_disjoint in N2 as (_ & N2 & _).
      now apply NoDup_app_disjoint in N2 as (_ & N2 & _).
    - intros a Ha Hb. apply (N3 a Ha). rewrite !in_app_iff. auto. }
  rewrite app_assoc, NoDup_app_disjoint, NoDup_sigmas. split.
  - intros (_ & N & Dj). split; [assumption|]. intros v s Hv Hs ->.
    apply (Dj _ Hs). apply in_map_iff. exists v. now split.
  - intros (N & Dj). split; [assumption|]. split; [assumption|].
    intros s Hs Hm. apply in_map_iff in Hm as (v & E & Hv).
    apply (Dj v s Hv Hs). now symmetry.
Qed.

Lemma vars_of_built_model_witness :
  vars chain_rule_model = Ok [Var "x"; Var "z"; Var "sigma_z"] /\
  NoDup [Var "x"; Var "z"; Var "sigma_z"].
Proof.
  assert (ND : NoDup (keys chain_rule_dict)) by (apply no_dup_NoDup; vm_compute; reflexivity).
  assert (E : BaseModel_init_from_dict chain_rule_dict = Ok (base chain_rule_model))
    by (vm_compute; reflexivity).
  destruct (vars_of_built_model chain_rule_dict chain_rule_model ND E) as (V & D).
  split; [exact V|]. apply (D _ V). split.
  - cbn. constructor; [intros [] | constructor].
  - intros v s [<-|[]] [<-|[<-|[]]]; discriminate.
Defined.

(** [{z: sigma_z*a}]: the Variable [sigma_z] is an independent variable
    and the sigma of [z], and [vars] lists it twice. *)
Lemma sigma_listed_twice :
  exists m, BaseModel_init_from_dict sigma_dict = Ok m /\
            vars m = Ok [Var "sigma_z"; Var "z"; Var "sigma_z"].
Proof. eexists. split; vm_compute; reflexivity. Qed.

(** ** ODEModel.__neg__ *)

Lemma fold_union_In (g : expr -> list expr) l x : forall acc,
  In x (fold_left (fun acc e => union acc (g e)) l acc) <->
  In x acc \/ exists e, In e l /\ In x (g e).
Proof.
  induction l as [|a l IH]; intros acc; cbn [fold_left].
  - split; [now left | intros [H|(e & [] & _)]; exact H].
  - rewrite IH. unfold union. rewrite set_of_In, in_app_iff. split.
    + intros [[H|H]|(e & He & H)]; [now left | right; exists a; split; [now left | exact H] |].
      right. exists e. split; [now right | exact H].
    + intros [H|(e & [<-|He] & H)]; [left; now left | left; now right |].
      right. exists e. now split.
Qed.

Lemma fold_union_NoDup (g : expr -> list expr) l : forall acc,
  NoDup acc -> NoDup (fold_left (fun acc e => union acc (g e)) l acc).
Proof.
  induction l as [|a l IH]; intros acc H; cbn [fold_left]; [exact H|].
  apply IH. apply set_of_NoDup.
Qed.

Lemma NoDup_sstr_parameters l :
  NoDup l -> (forall x, In x l -> is_Parameter x = true) -> NoDup (map sstr l).
Proof.
  induction 1 as [|x l Hx Hl IH]; intros P; cbn [map]; constructor.
  - intros H. apply in_map_iff in H as (y & E & Hy). apply Hx.
    assert (Px : is_Parameter x = true) by (apply P; now left).
    assert (Py : is_Parameter y = true) by (apply P; now right).
    destruct x; try discriminate. destruct y; try discriminate.
    cbn in E. now subst.
  - apply IH. intros y Hy. apply P. now right.
Qed.

Lemma ODEModel_init_sigmas md initial m :
  ODEModel_init md initial = Ok m ->
  ode_sigmas m = map (fun var => (var, Var ("sigma_" ++ name var)%string))
                     (ode_dependent_vars m).
Proof.
  unfold ODEModel_init.
  destruct (mapM _ (keys md)); [|discriminate]. cbn [bind].
  destruct (mapM first_variable (keys md)); [|discriminate]. cbn [bind].
  destruct (negb _); [|discriminate].
  destruct (make_signature _ _); [|discriminate]. cbn [bind].
  intros [= <-]. reflexivity.
Qed.

Section OdeNegation.
Variables (md : list (expr * expr)) (initial : list (expr * Z)) (m : ODEModel).
Hypothesis ND : NoDup (keys md).
Hypothesis Z0 : Forall (fun ke => no_zero_product (snd ke) = true) md.
Hypothesis NI : NoDup (map sstr (ode_independent_vars m)).
Hypothesis built : ODEModel_init md initial = Ok m.

Let dep (d : expr) : expr :=
  match dependent_of d with Ok v => v | Raise _ => d end.
Let first (d : expr) : expr :=
  match first_variable d with Ok v => v | Raise _ => d end.
Let key (i : expr * expr) : string := sstr (dep (fst i)).
Let collect (l : list expr) : list expr :=
  fold_left (fun acc expression => union acc (snd (seperate_symbols expression))) l [].

Lemma ode_negation_step :
  ode_model_dict m = sorted String.leb key md /\
  NoDup (keys (ode_model_dict m)) /\
  ODEModel_init (map negated (ode_model_dict m)) (ode_initial m)
  = Ok {| ode_initial := ode_initial m;
          dependent_derivatives := map (fun d => (d, dep d)) (keys (ode_model_dict m));
          ode_dependent_vars := ode_dependent_vars m;
          ode_independent_vars := ode_independent_vars m;
          ode_interdependent_vars := [];
          ode_model_dict := map negated (ode_model_dict m);
          ode_params := ode_params m;
          ode_sigmas := ode_sigmas m;
          ode_signature := ode_signature m |}.
Proof.
  destruct (ODEModel_init_inv md initial m built)
    as (dd & firsts & M1 & M2 & NE & Ei & Edd & Edv & Eiv & _ & Emd & Ep & Es).
  assert (D : forall d, In d (keys md) -> dependent_of d = Ok (dep d)).
  { intros d Hd. destruct (mapM_Ok_inv _ _ _ M1 d Hd) as (y & Hy).
    unfold dep. destruct (dependent_of d); [reflexivity | discriminate]. }
  assert (F : forall d, In d (keys md) -> first_variable d = Ok (first d)).
  { intros d Hd. destruct (mapM_Ok_inv _ _ _ M2 d Hd) as (y & Hy).
    unfold first. destruct (first_variable d); [reflexivity | discriminate]. }
  assert (Hdd : dd = map (fun d => (d, dep d)) (keys md)).
  { refine (mapM_inv _ (fun d => (d, dep d)) _ dd _ M1).
    intros d Hd. now rewrite (D d Hd). }
  assert (Hf : firsts = map first (keys md)).
  { exact (mapM_inv _ first _ firsts F M2). }
  assert (Esmd : ode_model_dict m = sorted String.leb key md).
  { rewrite Emd. apply sorted_ext_in. intros [k e] Hk. cbn [fst]. unfold key. cbn [fst].
    rewrite Hdd, (lookup_map_self dep (keys md) k); [reflexivity|].
    unfold keys. apply in_map_iff. exists (k, e). now split. }
  set (smd := ode_model_dict m) in *.
  assert (Pk : Permutation (keys smd) (keys md)).
  { rewrite Esmd. unfold keys. apply Permutation_map, sorted_perm. }
  assert (Ik : forall d, In d (keys smd) -> In d (keys md)).
  { intros d. apply Permutation_in. exact Pk. }
  assert (NDs : NoDup (keys smd)).
  { eapply Permutation_NoDup; [symmetry; exact Pk | exact ND]. }
  split; [exact Esmd|]. split; [exact NDs|].
  assert (K : keys (map negated smd) = keys smd).
  { unfold keys. now rewrite map_map. }
  unfold ODEModel_init. rewrite K.
  rewrite (mapM_Ok _ (fun d => (d, dep d)) (keys smd))
    by (intros d Hd; now rewrite (D d (Ik d Hd))).
  cbn [bind].
  rewrite (mapM_Ok _ first (keys smd)) by (intros d Hd; exact (F d (Ik d Hd))).
  cbn [bind].
  (* the dependent variables *)
  assert (Edv' : sort_by_str (map snd (map (fun d => (d, dep d)) (keys smd)))
                 = ode_dependent_vars m).
  { rewrite map_map. cbn [snd]. unfold keys. rewrite map_map.
    rewrite Esmd. unfold key.
    rewrite (sorted_map_key (fun x : expr * expr => dep (fst x)) sstr md).
    unfold sort_by_str. rewrite sorted_sorted.
    rewrite Edv, Hdd, map_map. cbn [snd]. unfold keys. now rewrite map_map. }
  (* the independent variables *)
  assert (Eiv' : sort_by_str (set_of (map first (keys smd))) = ode_independent_vars m).
  { rewrite Eiv, Hf. unfold sort_by_str. apply sorted_perm_unique.
    - apply NoDup_Permutation; try apply set_of_NoDup.
      intros x. rewrite !set_of_In. split; apply Permutation_in; apply Permutation_map;
        [exact Pk | symmetry; exact Pk].
    - eapply Permutation_NoDup; [|exact NI]. apply Permutation_map.
      rewrite Eiv, Hf. unfold sort_by_str. rewrite sorted_perm.
      apply NoDup_Permutation; try apply set_of_NoDup.
      intros x. rewrite !set_of_In. split; apply Permutation_in; apply Permutation_map;
        [symmetry; exact Pk | exact Pk]. }
  rewrite Eiv'.
  destruct (Nat.eqb (length (ode_independent_vars m)) 0) eqn:L.
  { apply Nat.eqb_eq in L. destruct (ode_independent_vars m); [now destruct NE | discriminate]. }
  cbn [negb].
  (* the parameters *)
  assert (Ep' : sort_by_str (collect (map snd (map negated smd))) = ode_params m).
  { rewrite Ep. fold (collect (map snd md)). unfold sort_by_str. apply sorted_perm_unique.
    - apply NoDup_Permutation; try (apply fold_union_NoDup; constructor).
      intros x. unfold collect. rewrite !fold_union_In. 
      split; (intros [[]|(e & He & Hx)]; right).
      + apply in_map_iff in He as (ke' & <- & Hke').
        apply in_map_iff in Hke' as (ke & <- & Hke).
        rewrite Esmd in Hke. apply sorted_In in Hke.
        exists (snd ke). split; [now apply in_map|].
        rewrite Forall_forall in Z0. destruct (negated_symbols (snd ke) (Z0 ke Hke)) as (E1 & _).
        revert Hx. unfold negated, seperate_symbols. cbn [snd fst]. now rewrite E1.
      + apply in_map_iff in He as (ke & <- & Hke).
        exists (snd (negated ke)). split.
        * apply in_map, in_map. rewrite Esmd. now apply sorted_In.
        * rewrite Forall_forall in Z0.
          destruct (negated_symbols (snd ke) (Z0 ke Hke)) as (E1 & _).
          revert Hx. unfold negated, seperate_symbols. cbn [snd fst]. now rewrite E1.
    - apply NoDup_sstr_parameters; [apply fold_union_NoDup; constructor|].
      intros x Hx. unfold collect in Hx. apply fold_union_In in Hx as [[]|(e & _ & Hx)].
      unfold seperate_symbols in Hx. cbn [snd] in Hx. unfold sort_by_name in Hx.
      apply sorted_In, filter_In in Hx. exact (proj2 Hx). }
  fold (collect (map snd (map negated smd))). rewrite Ep', Es. cbn [bind].
  rewrite Edv'.
  (* the sorted dict *)
  assert (Esd : sorted String.leb
                  (fun i => match lookup (fst i) (map (fun d => (d, dep d)) (keys smd)) with
                            | Some v => sstr v
                            | None => ""%string
                            end) (map negated smd) = map negated smd).
  { rewrite (sorted_ext_in _ key).
    - rewrite <- (sorted_map_key negated key smd).
      change (fun x : expr * expr => key (negated x)) with key.
      now rewrite Esmd, sorted_sorted.
    - intros [k e] Hk. cbn [fst]. unfold key. cbn [fst].
      rewrite (lookup_map_self dep (keys smd) k); [reflexivity|].
      rewrite <- K. unfold keys. apply in_map_iff. exists (k, e). now split. }
  rewrite Esd, (ODEModel_init_sigmas md initial m built). reflexivity.
Qed.
End OdeNegation.

Lemma getitem_loop_negated (dd dd' : list (expr * expr)) v items :
  (forall item, In item items -> lookup (fst item) dd' = lookup (fst item) dd) ->
  getitem_loop dd' (map negated items) v
  = (r <- getitem_loop dd items v ;;
     Ok (option_map (fun e => mk_mul e (Num (-1))) r)).
Proof.
  induction items as [|[d f] items IH]; intros H; cbn [map getitem_loop negated fst snd];
    [reflexivity|].
  pose proof (H (d, f) (or_introl eq_refl)) as H0. cbn [fst] in H0. rewrite H0.
  destruct (lookup d dd) as [w|]; [|reflexivity].
  destruct (expr_eqb v w); [reflexivity|].
  apply IH. intros item Hi. apply H. now right.
Qed.

(** X20.  Negating an ODE model whose equations have distinct keys and
    right-hand sides that sympy can hold, and whose independent
    variables print differently, never raises and leaves the receiver as
    it was.  The new model has every right-hand
    side negated, in the same order, and the same initial values,
    dependent and independent variables, parameters and call signature;
    asking it for the equation of a variable gives the negated equation
    of the receiver.  Negating twice gives a model with the keys of the
    first and equivalent right-hand sides. *)
Theorem ode_negation (md : list (expr * expr)) (initial : list (expr * Z))
  (m : ODEModel) :
  NoDup (keys md) ->
  Forall (fun ke => no_zero_product (snd ke) = true) md ->
  NoDup (map sstr (ode_independent_vars m)) ->
  ODEModel_init md initial = Ok m ->
  exists m1 m2,
    ODEModel_neg m = (ode_model_dict m, Ok m1) /\
    ode_model_dict m1 = map negated (ode_model_dict m) /\
    ode_initial m1 = ode_initial m /\
    ode_dependent_vars m1 = ode_dependent_vars m /\
    ode_independent_vars m1 = ode_independent_vars m /\
    ode_params m1 = ode_params m /\
    ode_signature m1 = ode_signature m /\
    (forall v, ODEModel_getitem m1 v
               = (r <- ODEModel_getitem m v ;;
                  Ok (option_map (fun e => mk_mul e (Num (-1))) r))) /\
    ODEModel_neg m1 = (ode_model_dict m1, Ok m2) /\
    same_models (ode_model_dict m2) (ode_model_dict m).
Proof.
  intros ND Z0 NI E.
  destruct (ode_negation_step md initial m ND Z0 NI E) as (Esmd & NDs & E1).
  cbv zeta in Esmd, E1.
  match type of E1 with _ = Ok ?r => set (m1 := r) in * end.
  assert (K : keys (map negated (ode_model_dict m)) = keys (ode_model_dict m)).
  { unfold keys. now rewrite map_map. }
  assert (ND1 : NoDup (keys (map negated (ode_model_dict m)))) by now rewrite K.
  assert (Z1 : Forall (fun ke => no_zero_product (snd ke) = true)
                      (map negated (ode_model_dict m))).
  { apply Forall_forall. intros ke H. apply in_map_iff in H as (ke0 & <- & H0).
    cbn [negated snd]. apply negated_symbols.
    rewrite Forall_forall in Z0. apply Z0. rewrite Esmd in H0.
    exact (proj1 (sorted_In _ _ _ _) H0). }
  destruct (ode_negation_step (map negated (ode_model_dict m)) (ode_initial m) m1
                              ND1 Z1 NI E1) as (_ & _ & E2).
  cbv zeta in E2.
  match type of E2 with _ = Ok ?r => set (m2 := r) in * end.
  assert (N1 : forall d, NoDup (keys d) ->
                 fold_left (fun d key => match lookup key d with
                                         | Some e => dict_set key (mk_mul e (Num (-1))) d
                                         | None => d
                                         end) (keys d) d = map negated d).
  { intros d Hd. exact (negation_loop d [] Hd). }
  exists m1, m2. repeat split.
  - unfold ODEModel_neg. now rewrite (N1 _ NDs), E1.
  - intros v. unfold ODEModel_getitem. cbn [m1 dependent_derivatives ode_model_dict].
    apply getitem_loop_negated. intros [d f] Hi. cbn [fst].
    assert (Hd : In d (keys (ode_model_dict m))).
    { unfold keys. apply in_map_iff. exists (d, f). now split. }
    destruct (ODEModel_init_inv md initial m E)
      as (dd & firsts & M1 & _ & _ & _ & Edd & _).
    rewrite (lookup_map_self _ _ _ Hd), Edd.
    assert (Hd' : In d (keys md)).
    { rewrite Esmd in Hd. unfold keys in Hd. apply in_map_iff in Hd as (ke & <- & Hke).
      apply in_map. exact (proj1 (sorted_In _ _ _ _) Hke). }
    destruct (mapM_Ok_inv _ _ _ M1 d Hd') as (y & Hy).
    assert (Hdd : dd = map (fun d => (d, match dependent_of d with
                                         | Ok v => v
                                         | Raise _ => d
                                         end)) (keys md)).
    { refine (mapM_inv _ _ _ dd _ M1). intros x Hx.
      destruct (mapM_Ok_inv _ _ _ M1 x Hx) as (y' & Hy').
      destruct (dependent_of x); [reflexivity | discriminate]. }
    rewrite Hdd. symmetry. exact (lookup_map_self _ _ _ Hd').
  - unfold ODEModel_neg. cbn [m1 ode_model_dict ode_initial].
    rewrite (N1 _ ND1). cbn [m1 ode_model_dict ode_initial] in E2. now rewrite E2.
  - cbn [m2 m1 ode_model_dict]. rewrite map_map. unfold same_models.
    clear. induction (ode_model_dict m) as [|ke d IH]; cbn [map]; constructor; [|assumption].
    split; [reflexivity|]. apply expand_difference. cbn [negated snd fst].
    apply expand_negated_twice.
Qed.

Lemma ode_negation_witness :
  exists m1 m2,
    ODEModel_neg growth_model = (ode_model_dict growth_model, Ok m1) /\
    ode_model_dict m1 = map negated (ode_model_dict growth_model) /\
    ode_initial m1 = ode_initial growth_model /\
    ode_dependent_vars m1 = ode_dependent_vars growth_model /\
    ode_independent_vars m1 = ode_independent_vars growth_model /\
    ode_params m1 = ode_params growth_model /\
    ode_signature m1 = ode_signature growth_model /\
    (forall v, ODEModel_getitem m1 v
               = (r <- ODEModel_getitem growth_model v ;;
                  Ok (option_map (fun e => mk_mul e (Num (-1))) r))) /\
    ODEModel_neg m1 = (ode_model_dict m1, Ok m2) /\
    same_models (ode_model_dict m2) (ode_model_dict growth_model).
Proof.
  apply (ode_negation growth_dict growth_initial growth_model).
  - apply no_dup_NoDup. vm_compute. reflexivity.
  - repeat constructor.
  - cbn. constructor; [intros [] | constructor].
  - vm_compute. reflexivity.
Defined.

(** ** BaseModel as a Mapping *)

(** X21.  A model that has been built from a mapping with distinct keys
    is that mapping again: it has as many components, [m[k]] is the
    expression that was given for [k], a symbol that was not a key
    raises KeyError, and iterating goes through the keys that were
    given, each once, in the order of their names, [values()] giving
    their expressions in that order. *)
Theorem model_as_mapping (md : list (expr * expr)) (m : BaseModel) :
  NoDup (keys md) ->
  BaseModel_init_from_dict md = Ok m ->
  BaseModel_len m = length md /\
  (forall k e, In (k, e) md -> BaseModel_getitem m k = Ok e) /\
  (forall k, ~ In k (keys md) -> BaseModel_getitem m k = Raise KeyError) /\
  Permutation (BaseModel_iter m) (keys md) /\
  StronglySorted (fun a b => String.leb (name a) (name b) = true) (BaseModel_iter m) /\
  BaseModel_values m = Ok (map snd (model_dict m)) /\
  Permutation (combine (BaseModel_iter m) (map snd (model_dict m))) md.
Proof.
  intros ND H.
  destruct (BaseModel_init_inv md m H) as (bo & mi & to & _ & Emd & _).
  assert (P : Permutation (model_dict m) md) by (rewrite Emd; apply sorted_perm).
  assert (ND' : NoDup (keys (model_dict m))).
  { unfold keys. eapply Permutation_NoDup; [|exact ND].
    apply Permutation_map. symmetry. exact P. }
  unfold BaseModel_len, BaseModel_iter, BaseModel_values, BaseModel_getitem.
  split; [now apply Permutation_length|].
  split; [intros k e Hk; rewrite Emd; now rewrite (lookup_sorted_dict md k e ND Hk)|].
  split.
  { intros k Hk. destruct (lookup k (model_dict m)) as [e|] eqn:L; [|reflexivity].
    exfalso. apply Hk. apply lookup_Some in L.
    unfold keys. apply in_map_iff. exists (k, e). split; [reflexivity|].
    eapply Permutation_in; eassumption. }
  split; [unfold keys; now apply Permutation_map|].
  split.
  { rewrite Emd. unfold keys.
    rewrite (sorted_map_key (@fst expr expr) name md).
    apply sorted_strongly. }
  split.
  { set (d := model_dict m) in *.
    assert (G : forall l, (forall ke, In ke l -> In ke d) ->
        mapM (fun var => match lookup var d with Some e => Ok e | None => Raise KeyError end)
             (keys l) = Ok (map snd l)).
    { induction l as [|[k e] l IH]; intros Hl; cbn [keys map mapM fst snd]; [reflexivity|].
      rewrite (lookup_In k e d ND' (Hl _ (or_introl eq_refl))). cbn [bind].
      fold (keys l). rewrite IH; [reflexivity|]. intros ke Hke. apply Hl. now right. }
    apply G. tauto. }
  { assert (C : forall d : list (expr * expr), combine (keys d) (map snd d) = d).
    { unfold keys. induction d as [|[k e] d IH]; cbn; [reflexivity | now rewrite IH]. }
    now rewrite C. }
Qed.

Lemma model_as_mapping_witness :
  BaseModel_len chain_rule_model = length chain_rule_dict /\
  (forall k e, In (k, e) chain_rule_dict -> BaseModel_getitem chain_rule_model k = Ok e) /\
  (forall k, ~ In k (keys chain_rule_dict) ->
             BaseModel_getitem chain_rule_model k = Raise KeyError) /\
  Permutation (BaseModel_iter chain_rule_model) (keys chain_rule_dict) /\
  StronglySorted (fun a b => String.leb (name a) (name b) = true)
                 (BaseModel_iter chain_rule_model) /\
  BaseModel_values chain_rule_model = Ok (map snd (model_dict chain_rule_model)) /\
  Permutation (combine (BaseModel_iter chain_rule_model)
                       (map snd (model_dict chain_rule_model))) chain_rule_dict.
Proof.
  apply (model_as_mapping chain_rule_dict chain_rule_model).
  - apply no_dup_NoDup. vm_compute. reflexivity.
  - vm_compute. reflexivity.
Defined.

(** ** The tuple of the results of a call *)

Lemma forallb_false_witness {A} (f : A -> bool) (l : list A) :
  forallb f l = false -> exists x, In x l /\ f x = false.
Proof.
  induction l as [|a l IH]; cbn; [discriminate|].
  destruct (f a) eqn:E; cbn.
  - intros H. destruct (IH H) as (x & Hx & Fx). exists x. split; [now right | assumption].
  - intros _. exists a. split; [now left | assumption].
Qed.

Lemma namedtuple_cases t names :
  isidentifier t = true -> iskeyword t = false ->
  (Forall (fun n => field_name n = true) names /\ NoDup names /\
   namedtuple t names = Ok names) \/
  ((exists n, In n names /\ field_name n = false) \/ ~ NoDup names) /\
  namedtuple t names = Raise ValueError.
Proof.
  intros It Kt. unfold namedtuple. cbn [forallb]. rewrite It, Kt. cbn [negb andb].
  destruct (forallb (fun n => isidentifier n && negb (iskeyword n)) names) eqn:F1.
  - destruct (forallb (fun n => negb (String.prefix "_" n)) names) eqn:F2.
    + destruct (has_duplicates names) eqn:D; cbn [negb andb].
      * right. split; [|reflexivity]. right. intros N.
        apply has_duplicates_NoDup in N. congruence.
      * left. split; [|split; [now apply has_duplicates_NoDup | reflexivity]].
        apply Forall_forall. intros n Hn. rewrite forallb_forall in F1, F2.
        unfold field_name. now rewrite (F1 n Hn), (F2 n Hn).
    + right. split; [|now rewrite andb_false_r].
      left. destruct (forallb_false_witness _ _ F2) as (n & Hn & E).
      exists n. split; [assumption|]. unfold field_name.
      apply negb_false_iff in E. rewrite E. now rewrite andb_false_r.
  - right. split; [|reflexivity].
    left. destruct (forallb_false_witness _ _ F1) as (n & Hn & E).
    exists n. split; [assumption|]. unfold field_name. cbv beta in E. now rewrite E.
Qed.

(** X22.  [__call__] makes the namedtuple of its results before it does
    anything else.  For a model whose keys have names in ASCII, it
    returns what [eval_components] returns, each value under its key,
    when every key has a name that is an identifier of Python, no
    keyword and without an underscore in front, and no two keys have
    one name; when a key has another name, or two keys have one name, it
    raises ValueError whatever the arguments are, and so does
    [eval_components] once the arguments bind. *)
Theorem call_field_names (md : list (expr * expr)) (m : CallableModel)
  (args : list value) (kwargs : list (string * value)) :
  CallableModel_init md = Ok m ->
  Forall (fun k => isascii (name k) = true) (keys (model_dict m)) ->
  (Forall (fun k => field_name (name k) = true) (keys (model_dict m)) ->
   NoDup (map name (keys (model_dict m))) ->
   call m args kwargs
   = (vals <- eval_components m args kwargs ;; Ok (combine (keys (model_dict m)) vals))) /\
  ((exists k, In k (keys (model_dict m)) /\ field_name (name k) = false) \/
   ~ NoDup (map name (keys (model_dict m))) ->
   call m args kwargs = Raise ValueError /\
   forall bound, sig_bind (signature m) args kwargs = Ok bound ->
                 eval_components m args kwargs = Raise ValueError).
Proof.
  intros E _.
  destruct (namedtuple_cases "Ans" (map name (keys (model_dict m))) eq_refl eq_refl)
    as [(F & N & V)|(B & V)].
  - split.
    + intros _ _. unfold call, variabletuple. now rewrite V.
    + intros [(k & Hk & Fk)|D]; [|contradiction].
      rewrite Forall_forall in F. rewrite (F (name k)) in Fk by now apply in_map.
      discriminate.
  - split.
    + intros F N. exfalso. destruct B as [(n & Hn & Fn)|D]; [|contradiction].
      apply in_map_iff in Hn as (k & <- & Hk). rewrite Forall_forall in F.
      rewrite (F k Hk) in Fn. discriminate.
    + intros _. split.
      * unfold call, variabletuple. now rewrite V.
      * intros bound Bd. unfold eval_components, numerical_components, variabletuple.
        now rewrite Bd, V.
Qed.

Lemma call_field_names_witness :
  exists m,
    CallableModel_init underscore_dict = Ok m /\
    Forall (fun k => isascii (name k) = true) (keys (model_dict m)) /\
    call m [Scalar 1%Z; Scalar 2%Z] [] = Raise ValueError /\
    eval_components m [Scalar 1%Z; Scalar 2%Z] [] = Raise ValueError /\
    eval_components m [] [] = Raise TypeError.
Proof.
  eexists. split; [vm_compute; reflexivity|].
  split; [repeat constructor|].
  assert (B : exists k, In k [Var "_y"] /\ field_name (name k) = false).
  { exists (Var "_y"). split; [now left | reflexivity]. }
  pose proof (call_field_names underscore_dict _ [Scalar 1%Z; Scalar 2%Z] []
                ltac:(vm_compute; reflexivity) ltac:(repeat constructor)) as (_ & H).
  destruct (H (or_introl B)) as (H1 & H2).
  split; [exact H1|]. split; [apply (H2 _ eq_refl) | reflexivity].
Defined.
